(** * Galois: ordered-lockable neighbourhood managers and local-computation graphs

    A shallow embedding of
    - [libexp/include/Galois/Runtime/OrderedLockable.h]
      ([OrdLocBase], [PtrBasedNhoodMgr], [MapBasedNhoodMgr]) and
    - [include/Galois/Graph/LCGraph.h]
      ([LC_CSR_Graph], [LC_CSR_InOutGraph], [LC_CSRInline_Graph],
       [LC_Linear_Graph], [LC_Numa_Graph]).

    Addresses are numbers.  A record pointer ([NItem*]) is a [positive], so it
    is never null; a null pointer is [None].  A lockable's address is a [Z].
    Threads are numbered by [nat].  Concurrent executions are interleavings of
    atomic steps, one per shared-memory access of the source. *)

From stdpp Require Import gmap list sorting strings.
From Stdlib Require Import ZArith Lia.

Abbreviation Lockable := Z (only parsing).
Abbreviation Ctxt := Z (only parsing).

(* ===================================================================== *)
(** ** Lockable and LockManagerBase *)
(* ===================================================================== *)

Module LockManagerBase.

(** Modelled from the spec: [Lockable] and [LockManagerBase]
    (Galois/Runtime/Context.h) are not under src/.  Every lockable carries one
    owner word: the record that owns it (or none), and a lock bit that
    [tryLock] takes and [release] gives back.  The spec (4.1): a claim
    "atomically transitions the owner field from unowned to the caller using a
    single compare-and-swap; succeeds iff no other currently owns it";
    release "requires the caller currently holds the claim; clears
    ownership"; the lookup of the current owner never blocks. *)
Record Words := mkWords {
  owner : gmap Z positive;
  lockbit : gset Z
}.

Definition unowned : Words := mkWords ∅ ∅.

Definition getOwner (l : Lockable) (w : Words) : option positive :=
  owner w !! l.

(** [CASowner (l, other)] called on the record [this]: one compare-and-swap
    of [l]'s owner from [other] to [this]. *)
Definition CASowner (this : positive) (l : Lockable) (other : option positive)
    (w : Words) : bool * Words :=
  if decide (owner w !! l = other)
  then (true, mkWords (<[l := this]> (owner w)) (lockbit w))
  else (false, w).

Definition tryLock (l : Lockable) (w : Words) : bool * Words :=
  if decide (l ∈ lockbit w)
  then (false, w)
  else (true, mkWords (owner w) ({[l]} ∪ lockbit w)).

(** [release] "requires having owned the lock" (OrderedLockable.h:116); a
    call without it is a contract violation, [None]. *)
Definition release (l : Lockable) (w : Words) : option Words :=
  if decide (l ∈ lockbit w)
  then Some (mkWords (delete l (owner w)) (lockbit w ∖ {[l]}))
  else None.

End LockManagerBase.

(* ===================================================================== *)
(** ** OrdLocBase and its factory *)
(* ===================================================================== *)

Module OrdLocBase.
Import LockManagerBase.

(** Modelled from the spec: the concrete [NItem] class that derives from
    [OrdLocBase] is not under src/; the spec (3) says a record "holds a
    reference to the current claiming Execution Context (or none)", which is
    the field [claimant].  [lockable] is [OrdLocBase::lockable], the
    resource the record was built for. *)
Record NItem := mkNItem {
  lockable : Z;
  claimant : option Z
}.

#[global] Instance NItem_eq_dec : EqDecision NItem.
Proof. solve_decision. Defined.

(** [OrdLocFactoryBase::construct]: [new (ni) NItem (l, ctxtcmp)]. *)
Definition construct (l : Lockable) : NItem := mkNItem l None.

(** [OrdLocBase::tryMappingTo]: [Base::CASowner (l, NULL)]. *)
Definition tryMappingTo (this : positive) (l : Lockable) (w : Words)
    : bool * Words :=
  CASowner this l None w.

(** [OrdLocBase::clearMapping]: [tryLock], [assert (r)], [release]. *)
Definition clearMapping (ni : NItem) (w : Words) : option Words :=
  let '(r, w1) := tryLock (lockable ni) w in
  if r then release (lockable ni) w1 else None.

(** [OrdLocBase::getOwner]: the static lookup, cast to [NItem*]. *)
Definition getOwner (l : Lockable) (w : Words) : option positive :=
  LockManagerBase.getOwner l w.

(** [K] records race [tryMappingTo] on one lockable; the compare-and-swaps
    take effect one after the other, in the order of [contenders]. *)
Fixpoint race (l : Lockable) (contenders : list positive) (w : Words)
    : list bool * Words :=
  match contenders with
  | [] => ([], w)
  | c :: cs =>
      let '(r, w1) := tryMappingTo c l w in
      let '(rs, w2) := race l cs w1 in
      (r :: rs, w2)
  end.

(** How many attempts of a race succeeded, and how many failed. *)
Definition successes (rs : list bool) : nat :=
  length (filter (λ r, r = true) rs).

Definition failures (rs : list bool) : nat :=
  length (filter (λ r, r = false) rs).

End OrdLocBase.

(* ===================================================================== *)
(** ** The members PtrBasedNhoodMgr and MapBasedNhoodMgr share *)
(* ===================================================================== *)

Module NhoodMgrBase.
Import LockManagerBase OrdLocBase.

(** Modelled from the spec: [FixedSizeAllocator] and [PerThreadBag] are not
    under src/.  The allocator hands out an address that is not live and may
    hand out a freed address again; here it is the least such address.

    [mem]: the owner words of all lockables.  [items]: the records that
    [niAlloc] has handed out and that are constructed (the live records), by
    address.  [allNItems]: the per-thread bag. *)
Record Base := mkBase {
  mem : Words;
  items : gmap positive NItem;
  allNItems : gmap nat (list positive)
}.

(** A newly constructed manager: no record, empty bags; [w] are the owner
    words of the lockables it is going to serve. *)
Definition new_base (w : Words) : Base := mkBase w ∅ ∅.

Definition empty : Base := new_base unowned.

Definition bag (t : nat) (b : Base) : list positive :=
  default [] (allNItems b !! t).

(** Every record of every thread's bag ([makeLocalRange (allNItems)] over all
    threads); the order is not specified. *)
Definition all_records (b : Base) : list positive :=
  map_to_list (allNItems b) ≫= snd.

(** [create]: [niAlloc.allocate (1)] and [factory.construct (ni, l)]. *)
Definition create (l : Lockable) (b : Base) : positive * Base :=
  let ni := fresh (dom (items b)) in
  (ni, mkBase (mem b) (<[ni := construct l]> (items b)) (allNItems b)).

(** [destroy]: [niAlloc.destroy (ni)] and [niAlloc.deallocate (ni, 1)]. *)
Definition destroy (ni : positive) (b : Base) : Base :=
  mkBase (mem b) (delete ni (items b)) (allNItems b).

(** [allNItems.get ().push_back (ni)] by thread [t]. *)
Definition push_back (t : nat) (ni : positive) (b : Base) : Base :=
  mkBase (mem b) (items b) (<[t := ni :: bag t b]> (allNItems b)).

Definition set_mem (w : Words) (b : Base) : Base :=
  mkBase w (items b) (allNItems b).

(** [Reset::operator()]: [ni->clearMapping ()] and [self->destroy (ni)].
    A pointer to a record that is not live cannot be used: [None]. *)
Definition Reset (b : Base) (p : positive) : option Base :=
  ni ← items b !! p;
  w ← clearMapping ni (mem b);
  Some (destroy p (set_mem w b)).

Fixpoint do_all (ps : list positive) (b : Base) : option Base :=
  match ps with
  | [] => Some b
  | p :: ps' => b' ← Reset b p; do_all ps' b'
  end.

(** [resetAllNItems]: [do_all_impl (makeLocalRange (allNItems), Reset)].
    The bag itself is left as it is. *)
Definition resetAllNItems (b : Base) : option Base :=
  do_all (all_records b) b.

(** What the scheduler does next: thread [t] enters [getNhoodItem (l)], or
    thread [t], inside a call, makes its next step. *)
Inductive Event :=
| Call (t : nat) (l : Z)
| Step (t : nat).

Definition thread_of (e : Event) : nat :=
  match e with Call t _ => t | Step t => t end.

(** No event of [sched] is thread [t]'s. *)
Definition others (t : nat) (sched : list Event) : bool :=
  forallb (λ e, negb (Nat.eqb (thread_of e) t)) sched.

End NhoodMgrBase.

(* ===================================================================== *)
(** ** PtrBasedNhoodMgr *)
(* ===================================================================== *)

Module PtrBasedNhoodMgr.
Import LockManagerBase OrdLocBase NhoodMgrBase.

(** [~PtrBasedNhoodMgr ()]: [resetAllNItems ()].  [resetAllNItems] is a
    protected member that only the destructors call.  [None]: the pass uses
    a record that is not live. *)
Definition destructor (b : Base) : option Base :=
  resetAllNItems b.

(** Where a thread is inside [getNhoodItem (l)]: the next shared access it
    makes, with its local variable [ni]. *)
Inductive Pc :=
| AtCheck (l : Z)                   (* :180 [getOwner (l) == NULL] *)
| AtCreate (l : Z)                  (* :182 [create (l)] *)
| AtCAS (l : Z) (ni : positive)     (* :184 [ni->tryMappingTo (l)] *)
| AtPush (l : Z) (ni : positive)    (* :185 [push_back (ni)] *)
| AtDestroy (l : Z) (ni : positive) (* :188 [destroy (ni)] *)
| AtAssert (l : Z)                  (* :191 [assert (getOwner (l) != NULL)] *)
| AtRet (l : Z).                    (* :194 [ret = getOwner (l)] *)

Record State := mkState {
  base : Base;
  pcs : gmap nat Pc;
  returned : list (nat * Z * positive)
}.

Definition init : State := mkState (new_base unowned) ∅ [].

Definition goto (t : nat) (pc : Pc) (b : Base) (s : State) : State :=
  mkState b (<[t := pc]> (pcs s)) (returned s).

(** One atomic step of thread [t] at [pc]. *)
Definition step (t : nat) (pc : Pc) (s : State) : option State :=
  let b := base s in
  match pc with
  | AtCheck l =>
      match getOwner l (mem b) with
      | None => Some (goto t (AtCreate l) b s)
      | Some _ => Some (goto t (AtRet l) b s)
      end
  | AtCreate l =>
      let '(ni, b1) := create l b in Some (goto t (AtCAS l ni) b1 s)
  | AtCAS l ni =>
      let '(won, w) := tryMappingTo ni l (mem b) in
      Some (goto t (if won then AtPush l ni else AtDestroy l ni) (set_mem w b) s)
  | AtPush l ni => Some (goto t (AtAssert l) (push_back t ni b) s)
  | AtDestroy l ni => Some (goto t (AtAssert l) (destroy ni b) s)
  | AtAssert l =>
      match getOwner l (mem b) with
      | None => None
      | Some _ => Some (goto t (AtRet l) b s)
      end
  | AtRet l =>
      match getOwner l (mem b) with
      | None => None
      | Some ret => Some (mkState b (delete t (pcs s)) ((t, l, ret) :: returned s))
      end
  end.

Definition exec (e : Event) (s : State) : option State :=
  match e with
  | Call t l =>
      match pcs s !! t with
      | None => Some (goto t (AtCheck l) (base s) s)
      | Some _ => None
      end
  | Step t => pc ← pcs s !! t; step t pc s
  end.

Fixpoint run (sched : list Event) (s : State) : option State :=
  match sched with
  | [] => Some s
  | e :: sched' => s' ← exec e s; run sched' s'
  end.

(** *** The invariant of the interleaved executions *)

Definition callee (pc : Pc) : Z :=
  match pc with
  | AtCheck l | AtCreate l | AtCAS l _ | AtPush l _ | AtDestroy l _
  | AtAssert l | AtRet l => l
  end.

(** The record a thread has created and not yet pushed or destroyed. *)
Definition held (pc : Pc) : option positive :=
  match pc with
  | AtCAS _ p | AtPush _ p | AtDestroy _ p => Some p
  | _ => None
  end.

(** The thread has seen a non-null owner, or has lost the race. *)
Definition past_cas (pc : Pc) : bool :=
  match pc with
  | AtDestroy _ _ | AtAssert _ | AtRet _ => true
  | _ => false
  end.

Abbreviation own s := (owner (mem (base s))).
Abbreviation its s := (items (base s)).
Abbreviation recs s := (all_records (base s)).

Record Inv (s : State) : Prop := {
  inv_lock : lockbit (mem (base s)) = ∅;
  inv_held_live : ∀ t pc p, pcs s !! t = Some pc → held pc = Some p →
    its s !! p = Some (construct (callee pc));
  inv_held_distinct : ∀ t t' pc pc' p, pcs s !! t = Some pc →
    pcs s !! t' = Some pc' → held pc = Some p → held pc' = Some p → t = t';
  inv_held_bag : ∀ t pc p, pcs s !! t = Some pc → held pc = Some p →
    p ∉ recs s;
  inv_push : ∀ t l p, pcs s !! t = Some (AtPush l p) → own s !! l = Some p;
  inv_private : ∀ t pc p l, pcs s !! t = Some pc → held pc = Some p →
    own s !! l = Some p → pc = AtPush l p;
  inv_owner_live : ∀ l p, own s !! l = Some p →
    its s !! p = Some (construct l);
  inv_owner_bag : ∀ l p, own s !! l = Some p →
    p ∈ recs s ∨ ∃ t, pcs s !! t = Some (AtPush l p);
  inv_bag : ∀ p, p ∈ recs s → ∃ l, own s !! l = Some p;
  inv_nodup : NoDup (recs s);
  inv_items : ∀ p ni, its s !! p = Some ni →
    (∃ l, own s !! l = Some p) ∨
    (∃ t pc, pcs s !! t = Some pc ∧ held pc = Some p);
  inv_ret : ∀ t l r, (t, l, r) ∈ returned s → own s !! l = Some r;
  inv_post : ∀ t pc, pcs s !! t = Some pc → past_cas pc = true →
    is_Some (own s !! callee pc)
}.

End PtrBasedNhoodMgr.

(* ===================================================================== *)
(** ** MapBasedNhoodMgr *)
(* ===================================================================== *)

Module MapBasedNhoodMgr.
Import LockManagerBase OrdLocBase NhoodMgrBase.

(** Modelled from the spec: [ThreadRWlock] (Galois/Runtime/ThreadRWlock.h) is
    not under src/; a reader/writer lock: any number of readers or one writer.
    A thread that has to wait has no step. *)
Record Lock_ty := mkLock {
  readers : nat;
  writer : bool
}.

Definition readLock (k : Lock_ty) : option Lock_ty :=
  if writer k then None else Some (mkLock (S (readers k)) false).

Definition readUnlock (k : Lock_ty) : Lock_ty :=
  mkLock (pred (readers k)) (writer k).

Definition writeLock (k : Lock_ty) : option Lock_ty :=
  if writer k then None
  else match readers k with O => Some (mkLock O true) | S _ => None end.

Definition writeUnlock (k : Lock_ty) : Lock_ty :=
  mkLock (readers k) false.

(** [std::unordered_map::insert]: an entry that is there stays. *)
Definition map_insert (l : Z) (ni : positive) (m : gmap Z positive)
    : gmap Z positive :=
  match m !! l with
  | None => <[l := ni]> m
  | Some _ => m
  end.

(** [Base::factory.create (l)]: a new record for [l]. *)
Definition factory_create (l : Lockable) (b : Base) : positive * Base :=
  create l b.

Record Mgr := mkMgr {
  mbase : Base;
  nhoodMap : gmap Z positive;
  map_mutex : Lock_ty
}.

(** The constructor: an empty [nhoodMap], a free lock. *)
Definition new_mgr (w : Words) : Mgr :=
  mkMgr (new_base w) ∅ (mkLock O false).

(** The body of [~MapBasedNhoodMgr ()]: [Base::resetAllNItems ()].
    [nhoodMap] and [allNItems] are left as they are. *)
Definition destructor_body (m : Mgr) : option Mgr :=
  b ← NhoodMgrBase.resetAllNItems (mbase m);
  Some (mkMgr b (nhoodMap m) (map_mutex m)).

(** The destruction of a [MapBasedNhoodMgr]: the body of
    [~MapBasedNhoodMgr ()], then the members [nhoodMap] and [map_mutex] are
    destroyed, then the destructor of the base class runs,
    [~PtrBasedNhoodMgr ()], which calls [resetAllNItems ()] once more over
    the same [allNItems]. *)
Definition destructor (m : Mgr) : option Base :=
  m1 ← destructor_body m;
  PtrBasedNhoodMgr.destructor (mbase m1).

Inductive Pc :=
| AtReadLock1 (l : Z)                        (* :260 *)
| AtFind1 (l : Z)                            (* :261 *)
| AtReadUnlock1 (l : Z)                      (* :266 *)
| AtWriteLock (l : Z)                        (* :268 *)
| AtFind2 (l : Z)                            (* :270 *)
| AtCreate (l : Z)                           (* :271 *)
| AtPush (l : Z) (ni : positive)             (* :272 *)
| AtInsert (l : Z) (ni : positive)           (* :273 *)
| AtWriteUnlock (l : Z)                      (* :276 *)
| AtReadLock2 (l : Z)                        (* :279 *)
| AtFind3 (l : Z)                            (* :280 *)
| AtReadUnlock2 (l : Z) (i : option positive) (* :283 *)
| AtRet (l : Z) (i : option positive).        (* :284-287 *)

Record State := mkState {
  mgr : Mgr;
  pcs : gmap nat Pc;
  returned : list (nat * Z * positive)
}.

Definition init : State := mkState (new_mgr unowned) ∅ [].

Definition goto (t : nat) (pc : Pc) (m : Mgr) (s : State) : State :=
  mkState m (<[t := pc]> (pcs s)) (returned s).

Definition set_lock (k : Lock_ty) (m : Mgr) : Mgr :=
  mkMgr (mbase m) (nhoodMap m) k.

Definition step (t : nat) (pc : Pc) (s : State) : option State :=
  let m := mgr s in
  match pc with
  | AtReadLock1 l =>
      k ← readLock (map_mutex m); Some (goto t (AtFind1 l) (set_lock k m) s)
  | AtFind1 l =>
      match nhoodMap m !! l with
      | None => Some (goto t (AtReadUnlock1 l) m s)
      | Some ni => Some (goto t (AtReadUnlock2 l (Some ni)) m s)
      end
  | AtReadUnlock1 l =>
      Some (goto t (AtWriteLock l) (set_lock (readUnlock (map_mutex m)) m) s)
  | AtWriteLock l =>
      k ← writeLock (map_mutex m); Some (goto t (AtFind2 l) (set_lock k m) s)
  | AtFind2 l =>
      match nhoodMap m !! l with
      | None => Some (goto t (AtCreate l) m s)
      | Some _ => Some (goto t (AtWriteUnlock l) m s)
      end
  | AtCreate l =>
      let '(ni, b1) := factory_create l (mbase m) in
      Some (goto t (AtPush l ni) (mkMgr b1 (nhoodMap m) (map_mutex m)) s)
  | AtPush l ni =>
      Some (goto t (AtInsert l ni)
              (mkMgr (push_back t ni (mbase m)) (nhoodMap m) (map_mutex m)) s)
  | AtInsert l ni =>
      Some (goto t (AtWriteUnlock l)
              (mkMgr (mbase m) (map_insert l ni (nhoodMap m)) (map_mutex m)) s)
  | AtWriteUnlock l =>
      Some (goto t (AtReadLock2 l) (set_lock (writeUnlock (map_mutex m)) m) s)
  | AtReadLock2 l =>
      k ← readLock (map_mutex m); Some (goto t (AtFind3 l) (set_lock k m) s)
  | AtFind3 l => Some (goto t (AtReadUnlock2 l (nhoodMap m !! l)) m s)
  | AtReadUnlock2 l i =>
      Some (goto t (AtRet l i) (set_lock (readUnlock (map_mutex m)) m) s)
  | AtRet l i =>
      match i with
      | None => None
      | Some ret => Some (mkState m (delete t (pcs s)) ((t, l, ret) :: returned s))
      end
  end.

Definition exec (e : Event) (s : State) : option State :=
  match e with
  | Call t l =>
      match pcs s !! t with
      | None => Some (goto t (AtReadLock1 l) (mgr s) s)
      | Some _ => None
      end
  | Step t => pc ← pcs s !! t; step t pc s
  end.

Fixpoint run (sched : list Event) (s : State) : option State :=
  match sched with
  | [] => Some s
  | e :: sched' => s' ← exec e s; run sched' s'
  end.

(** *** The invariant of the interleaved executions *)

Definition callee (pc : Pc) : Z :=
  match pc with
  | AtReadLock1 l | AtFind1 l | AtReadUnlock1 l | AtWriteLock l | AtFind2 l
  | AtCreate l | AtPush l _ | AtInsert l _ | AtWriteUnlock l | AtReadLock2 l
  | AtFind3 l | AtReadUnlock2 l _ | AtRet l _ => l
  end.

(** The record a thread has created and not yet inserted. *)
Definition held (pc : Pc) : option positive :=
  match pc with
  | AtPush _ p | AtInsert _ p => Some p
  | _ => None
  end.

(** Between [writeLock] and [writeUnlock]. *)
Definition in_write (pc : Pc) : bool :=
  match pc with
  | AtFind2 _ | AtCreate _ | AtPush _ _ | AtInsert _ _ | AtWriteUnlock _ => true
  | _ => false
  end.

(** Inside the branch that found no entry under the write lock. *)
Definition creating (pc : Pc) : bool :=
  match pc with
  | AtCreate _ | AtPush _ _ | AtInsert _ _ => true
  | _ => false
  end.

(** After the write-locked section: the entry is there. *)
Definition past_insert (pc : Pc) : bool :=
  match pc with
  | AtWriteUnlock _ | AtReadLock2 _ | AtFind3 _ => true
  | _ => false
  end.

(** The local iterator [i] once it is final. *)
Definition found (pc : Pc) : option (option positive) :=
  match pc with
  | AtReadUnlock2 _ i | AtRet _ i => Some i
  | _ => None
  end.

Abbreviation bs s := (mbase (mgr s)).
Abbreviation its s := (items (mbase (mgr s))).
Abbreviation recs s := (all_records (mbase (mgr s))).
Abbreviation nmap s := (nhoodMap (mgr s)).

Record Inv (s : State) : Prop := {
  inv_lock : lockbit (mem (bs s)) = ∅;
  inv_own : owner (mem (bs s)) = ∅;
  inv_held_live : ∀ t pc p, pcs s !! t = Some pc → held pc = Some p →
    its s !! p = Some (construct (callee pc));
  inv_push : ∀ t l p, pcs s !! t = Some (AtPush l p) → p ∉ recs s;
  inv_insert : ∀ t l p, pcs s !! t = Some (AtInsert l p) → p ∈ recs s;
  inv_map_live : ∀ l p, nmap s !! l = Some p →
    its s !! p = Some (construct l) ∧ p ∈ recs s;
  inv_bag_live : ∀ p, p ∈ recs s → is_Some (its s !! p);
  inv_nodup : NoDup (recs s);
  inv_items : ∀ p ni, its s !! p = Some ni →
    p ∈ recs s ∨ ∃ t l, pcs s !! t = Some (AtPush l p);
  inv_bag_map : ∀ p, p ∈ recs s →
    (∃ l, nmap s !! l = Some p) ∨ (∃ t l, pcs s !! t = Some (AtInsert l p));
  inv_ret : ∀ t l r, (t, l, r) ∈ returned s → nmap s !! l = Some r;
  inv_found : ∀ t pc i, pcs s !! t = Some pc → found pc = Some i →
    is_Some i ∧ nmap s !! callee pc = i;
  inv_writer : ∀ t pc, pcs s !! t = Some pc → in_write pc = true →
    writer (map_mutex (mgr s)) = true;
  inv_excl : ∀ t t' pc pc', pcs s !! t = Some pc → pcs s !! t' = Some pc' →
    in_write pc = true → in_write pc' = true → t = t';
  inv_absent : ∀ t pc, pcs s !! t = Some pc → creating pc = true →
    nmap s !! callee pc = None;
  inv_present : ∀ t pc, pcs s !! t = Some pc → past_insert pc = true →
    is_Some (nmap s !! callee pc)
}.

End MapBasedNhoodMgr.

(* ===================================================================== *)
(** ** The two managers behind one contract *)
(* ===================================================================== *)

Module NhoodMgr.
Import OrdLocBase NhoodMgrBase.

(** The implementations of [getNhoodItem]: by the owner word of the lockable
    ([PtrBasedNhoodMgr]) or by [nhoodMap] ([MapBasedNhoodMgr]). *)
Inductive Variant := PtrIndexed | MapIndexed.

(** What an interleaving of calls leaves behind in a new manager: the calls
    that have returned, [(thread, l, record)], and the live records. *)
Definition history (v : Variant) (sched : list Event)
    : option (list (nat * Z * positive) * gmap positive NItem) :=
  match v with
  | PtrIndexed =>
      s ← PtrBasedNhoodMgr.run sched PtrBasedNhoodMgr.init;
      Some (PtrBasedNhoodMgr.returned s, items (PtrBasedNhoodMgr.base s))
  | MapIndexed =>
      s ← MapBasedNhoodMgr.run sched MapBasedNhoodMgr.init;
      Some (MapBasedNhoodMgr.returned s,
            items (MapBasedNhoodMgr.mbase (MapBasedNhoodMgr.mgr s)))
  end.

End NhoodMgr.

(* ===================================================================== *)
(** ** Conflict policies and the accessor monad *)
(* ===================================================================== *)

Module Runtime.

(** Modelled from the spec: [MethodFlag], [acquire], [shouldLock] and
    [checkWrite] (Galois/Runtime/MethodFlags.h, Context.h) are not under
    src/.  The spec (4.4) recognises the policies "none: no record acquired;
    checkRace: acquire only the target node's record; checkRaceAndNeighbors:
    acquire target node's record and eagerly acquire every adjacent node's
    record during edge-range retrieval; writeIntent: additionally marks the
    access as a write".  [writeIntent] is a mark on top of a policy. *)
Inductive Policy := none | checkRace | checkRaceAndNeighbors.

Record MethodFlag := mkFlag {
  policy : Policy;
  writeIntent : bool
}.

(** [MethodFlag::NONE], the default of [getEdgeData]. *)
Definition NONE : MethodFlag := mkFlag none false.

(** Modelled from the spec: whether [acquire (lockable, mflag)] takes the
    record of [lockable]: under every policy but [none]. *)
Definition acquires (m : MethodFlag) : bool :=
  match policy m with
  | none => false
  | checkRace | checkRaceAndNeighbors => true
  end.

(** Modelled from the spec: [shouldLock (mflag)] guards the loop over the
    neighbours in [edge_begin]; the spec runs that loop "if the policy
    additionally requests full-neighborhood locking". *)
Definition shouldLock (m : MethodFlag) : bool :=
  match policy m with
  | checkRaceAndNeighbors => true
  | none | checkRace => false
  end.

(** An accessor returns a value and the lockables whose records it acquired,
    in order; [None] is undefined behaviour (an access outside an array). *)
Record M (A : Type) := mkM { runM : option (A * list Z) }.
Arguments mkM {A} _.
Arguments runM {A} _.

#[global] Instance M_ret : MRet M := λ A x, mkM (Some (x, [])).

#[global] Instance M_bind : MBind M := λ A B f m,
  mkM (match runM m with
       | None => None
       | Some (x, tr) =>
           match runM (f x) with
           | None => None
           | Some (y, tr') => Some (y, tr ++ tr')
           end
       end).

Definition fail {A} : M A := mkM None.

Definition lift {A} (o : option A) : M A :=
  mkM (match o with None => None | Some x => Some (x, []) end).

Definition acquire (lockable : Z) (m : MethodFlag) : M unit :=
  mkM (Some (tt, if acquires m then [lockable] else [])).

(** [checkWrite (mflag, false)]: the write mark is for an auditing layer and
    takes no record. *)
Definition checkWrite (m : MethodFlag) (write : bool) : M unit := mret tt.

End Runtime.

(* ===================================================================== *)
(** ** Arrays and machine integers *)
(* ===================================================================== *)

(** [arr[i]] of a [LargeArray] or [std::vector]; outside the array: [None]. *)
Definition aget {A} (arr : list A) (i : Z) : option A :=
  if decide (0 ≤ i)%Z then arr !! Z.to_nat i else None.

(** [arr[i] = x]; outside the array: [None]. *)
Definition aset {A} (arr : list A) (i : Z) (x : A) : option (list A) :=
  if decide (0 ≤ i < Z.of_nat (length arr))%Z
  then Some (<[Z.to_nat i := x]> arr) else None.

Definition UINT32_MAX : Z := 2 ^ 32 - 1.
Definition UINT64_MAX : Z := 2 ^ 64 - 1.
Definition INT_MAX : Z := 2 ^ 31 - 1.

(** Conversion to [uint64_t] and to [int]. *)
Definition u64 (x : Z) : Z := x mod 2 ^ 64.
Definition to_int (x : Z) : Z := (x + 2 ^ 31) mod 2 ^ 32 - 2 ^ 31.

(** [boost::counting_iterator<uint64_t>] from [b] until it equals [e]. *)
Definition counting_range (b e : Z) : list Z :=
  u64 <$> seqZ b (u64 (e - b)).

(* ===================================================================== *)
(** ** FileGraph, the structural graph *)
(* ===================================================================== *)

Module FileGraph.
Local Open Scope Z_scope.

(** Modelled from the spec: [FileGraph] (Galois/Graph/FileGraph.h) is not
    under src/.  The spec (6): "a read-only structural graph exposing node
    count, edge count, a finite node-identity sequence, per-node
    neighbor-range iteration, and typed edge-payload accessors keyed by
    iterator position".  [adj]: for each node, in order, its run of
    neighbours, each with the payload of the edge.  Nodes are numbered from
    0 ([uint32_t]); an edge position is a [uint64_t]. *)
Record t (EdgeTy : Type) := mk {
  adj : list (list (Z * EdgeTy))
}.
Arguments mk {EdgeTy} _.
Arguments adj {EdgeTy} _.

Section accessors.
Context {EdgeTy : Type}.
Implicit Types g : t EdgeTy.

Definition size g : Z := Z.of_nat (length (adj g)).

Definition sizeEdges g : Z := Z.of_nat (length (concat (adj g))).

(** [begin ()] .. [end ()]. *)
Definition nodes g : list Z := seqZ 0 (size g).

(** [neighbor_begin (n)] .. [neighbor_end (n)], with [getEdgeData (ni)]. *)
Definition neighbor_edges g (n : Z) : list (Z * EdgeTy) :=
  default [] (aget (adj g) n).

Definition neighbors g (n : Z) : list Z := (neighbor_edges g n).*1.

Definition degree g (n : Z) : Z := Z.of_nat (length (neighbor_edges g n)).

(** The running sums [acc + d1], [acc + d1 + d2], ... *)
Fixpoint offsets (acc : Z) (degs : list Z) : list Z :=
  match degs with
  | [] => []
  | d :: ds => (acc + d)%Z :: offsets (acc + d)%Z ds
  end.

(** [edge_id_begin ()] .. [edge_id_end ()]: for each node, the position just
    past its last edge. *)
Definition edge_id g : list Z :=
  offsets 0 ((λ nb, Z.of_nat (length nb)) <$> adj g).

(** [node_id_begin ()] .. [node_id_end ()]: the destinations of all edges,
    node after node. *)
Definition node_id g : list Z := (concat (adj g)).*1.

(** [edge_data_begin ()] .. [edge_data_end ()]. *)
Definition edge_data g : list EdgeTy := (concat (adj g)).*2.

(** What the types and the loader guarantee: the counts fit their integer
    types, every destination is a node, and a node's edge count fits the
    [int] that the linear layouts keep it in. *)
Definition wf g : Prop :=
  (size g ≤ UINT32_MAX)%Z ∧ (sizeEdges g ≤ UINT64_MAX)%Z ∧
  Forall (λ nb, (Z.of_nat (length nb) ≤ INT_MAX)%Z ∧
                Forall (λ e, (0 ≤ e.1 < size g)%Z) nb) (adj g).

#[global] Instance wf_dec g : Decision (wf g).
Proof. unfold wf. apply _. Defined.

End accessors.
End FileGraph.

(* ===================================================================== *)
(** ** LC_CSR_Graph *)
(* ===================================================================== *)

Module LC_CSR_Graph.
Import Runtime.
Local Open Scope Z_scope.

Record t (NodeTy EdgeTy : Type) := mk {
  nodeData : list NodeTy;
  edgeIndData : list Z;
  edgeDst : list Z;
  edgeData : list EdgeTy;
  numNodes : Z;
  numEdges : Z
}.
Arguments mk {NodeTy EdgeTy} _ _ _ _ _ _.
Arguments nodeData {NodeTy EdgeTy} _.
Arguments edgeIndData {NodeTy EdgeTy} _.
Arguments edgeDst {NodeTy EdgeTy} _.
Arguments edgeData {NodeTy EdgeTy} _.
Arguments numNodes {NodeTy EdgeTy} _.
Arguments numEdges {NodeTy EdgeTy} _.

Section graph.
Context {NodeTy EdgeTy : Type}.
Implicit Types g : t NodeTy EdgeTy.

Definition raw_neighbor_begin g (N : Z) : option Z :=
  if decide (N = 0) then Some 0%Z else aget (edgeIndData g) (N - 1).

Definition raw_neighbor_end g (N : Z) : option Z :=
  aget (edgeIndData g) N.

(** The loop of [getEdgeIdx], from [ii] until [ii == ee].  Every turn reads
    [edgeDst[ii]], so within [length edgeDst + 1] turns the loop has ended or
    has read outside the array. *)
Fixpoint getEdgeIdx_loop g (fuel : nat) (ii ee dst : Z) : option Z :=
  if decide (ii = ee) then Some UINT64_MAX
  else match fuel with
       | O => None
       | S fuel' =>
           d ← aget (edgeDst g) ii;
           if decide (d = dst) then Some ii
           else getEdgeIdx_loop g fuel' (u64 (ii + 1)) ee dst
       end.

Definition getEdgeIdx g (src dst : Z) : option Z :=
  ii ← raw_neighbor_begin g src;
  ee ← raw_neighbor_end g src;
  getEdgeIdx_loop g (S (length (edgeDst g))) ii ee dst.

(** [acquire (&nodeData[N], mflag)]: a record can be taken only for a node
    that is there. *)
Definition acquire_node g (N : Z) (mflag : MethodFlag) : M unit :=
  if acquires mflag
  then if decide (0 ≤ N < Z.of_nat (length (nodeData g)))%Z
       then acquire N mflag else fail
  else mret tt.

Definition getData g (N : Z) (mflag : MethodFlag) : M NodeTy :=
  checkWrite mflag false;;
  acquire_node g N mflag;;
  lift (aget (nodeData g) N).

Definition hasNeighbor g (src dst : Z) (mflag : MethodFlag) : M bool :=
  idx ← lift (getEdgeIdx g src dst);
  mret (bool_decide (idx ≠ UINT64_MAX)).

Definition getEdgeData g (ni : Z) (mflag : MethodFlag) : M EdgeTy :=
  checkWrite mflag false;;
  lift (aget (edgeData g) ni).

Definition getEdgeDst g (ni : Z) : option Z := aget (edgeDst g) ni.

Definition size g : Z := numNodes g.
Definition sizeEdges g : Z := numEdges g.

(** [begin ()] .. [end ()]. *)
Definition nodes g : list Z := seqZ 0 (numNodes g).

(** The loop of [edge_begin] over the neighbours. *)
Fixpoint acquire_loop g (mflag : MethodFlag) (fuel : nat) (ii ee : Z)
    : M unit :=
  if decide (ii = ee) then mret tt
  else match fuel with
       | O => fail
       | S fuel' =>
           d ← lift (aget (edgeDst g) ii);
           acquire_node g d mflag;;
           acquire_loop g mflag fuel' (u64 (ii + 1)) ee
       end.

Definition edge_begin g (N : Z) (mflag : MethodFlag) : M Z :=
  acquire_node g N mflag;;
  (if shouldLock mflag
   then ii ← lift (raw_neighbor_begin g N);
        ee ← lift (raw_neighbor_end g N);
        acquire_loop g mflag (S (length (edgeDst g))) ii ee
   else mret tt);;
  lift (raw_neighbor_begin g N).

Definition edge_end g (N : Z) (mflag : MethodFlag) : M Z :=
  acquire_node g N mflag;;
  lift (raw_neighbor_end g N).

(** [out_edges (N, mflag)]: the edges from [edge_begin] to [edge_end]. *)
Definition out_edges g (N : Z) (mflag : MethodFlag) : M (list Z) :=
  b ← edge_begin g N mflag;
  e ← edge_end g N mflag;
  mret (counting_range b e).

(** Modelled from the spec: [EdgeSortIterator], [EdgeSortValue] and
    [EdgeSortCompWrapper] (Galois/Graph/Util.h) are not under src/.  The
    iterator walks [edgeDst] and [edgeData] side by side, so the sorted
    sequence is one of (destination, payload) values (the spec, 4.4: the
    edges "and their payload, kept paired with destination"); the wrapper
    compares two values by their payloads.  [std::sort] is a comparison sort:
    here a merge sort; on equal payloads [std::sort] may order differently. *)
Definition not_after {A} (less : A → A → bool) : relation A :=
  λ x y, less y x = false.

#[global] Instance not_after_dec {A} (less : A → A → bool) :
  RelDecision (not_after less).
Proof. intros x y. unfold not_after. apply _. Defined.

Definition std_sort {A} (less : A → A → bool) (l : list A) : list A :=
  merge_sort (not_after less) l.

Definition EdgeSortCompWrapper (comp : EdgeTy → EdgeTy → bool)
    (a b : Z * EdgeTy) : bool :=
  comp a.2 b.2.

(** The values from position [b] to position [e] of the two arrays. *)
Definition edge_sort_range g (b e : Z) : option (list (Z * EdgeTy)) :=
  if decide (0 ≤ b ≤ e ∧ e ≤ Z.of_nat (length (edgeDst g))
             ∧ e ≤ Z.of_nat (length (edgeData g)))%Z
  then Some (zip (take (Z.to_nat (e - b)) (drop (Z.to_nat b) (edgeDst g)))
                 (take (Z.to_nat (e - b)) (drop (Z.to_nat b) (edgeData g))))
  else None.

(** Writing the sorted values back over positions [b] .. *)
Definition splice {A} (arr : list A) (b : Z) (new : list A) : list A :=
  take (Z.to_nat b) arr ++ new ++ drop (Z.to_nat b + length new) arr.

Definition sortEdgesByEdgeData g (N : Z) (comp : EdgeTy → EdgeTy → bool)
    (mflag : MethodFlag) : M (t NodeTy EdgeTy) :=
  acquire_node g N mflag;;
  b ← lift (raw_neighbor_begin g N);
  e ← lift (raw_neighbor_end g N);
  vs ← lift (edge_sort_range g b e);
  let sorted := std_sort (EdgeSortCompWrapper comp) vs in
  mret (mk (nodeData g) (edgeIndData g)
           (splice (edgeDst g) b sorted.*1)
           (splice (edgeData g) b sorted.*2)
           (numNodes g) (numEdges g)).

(** [structureFromGraph]: the four arrays are allocated to the node and edge
    counts of [graph] and filled by [copyIn] and [std::copy]; the node
    payloads are default-constructed. *)
Definition structureFromGraph (node_default : NodeTy)
    (graph : FileGraph.t EdgeTy) : t NodeTy EdgeTy :=
  mk (replicate (Z.to_nat (FileGraph.size graph)) node_default)
     (FileGraph.edge_id graph)
     (FileGraph.node_id graph)
     (FileGraph.edge_data graph)
     (FileGraph.size graph)
     (FileGraph.sizeEdges graph).

(** The edges of [N] read back: destination and payload, in order. *)
Definition edges_of g (N : Z) (mflag : MethodFlag)
    : M (list (Z * EdgeTy)) :=
  es ← out_edges g N mflag;
  lift (mapM (λ ni, d ← getEdgeDst g ni;
                    w ← aget (edgeData g) ni;
                    Some (d, w)) es).

Definition out_dsts g (N : Z) : option (list Z) :=
  '(es, _) ← runM (out_edges g N NONE);
  mapM (getEdgeDst g) es.

End graph.
End LC_CSR_Graph.

(* ===================================================================== *)
(** ** LC_CSR_InOutGraph *)
(* ===================================================================== *)

Module LC_CSR_InOutGraph.
Import Runtime.
Local Open Scope Z_scope.

(** [InOutGraphImpl::InEdges<EdgeTy, EdgeDst, EdgeIndData, false>]: the
    in-edges with their own copy of the edge data. *)
Record InEdges (EdgeTy : Type) := mkInEdges {
  edgeIndDataStore : list Z;
  edgeDstStore : list Z;
  edgeDataStore : list EdgeTy
}.
Arguments mkInEdges {EdgeTy} _ _ _.
Arguments edgeIndDataStore {EdgeTy} _.
Arguments edgeDstStore {EdgeTy} _.
Arguments edgeDataStore {EdgeTy} _.

Record t (NodeTy EdgeTy : Type) := mk {
  super : LC_CSR_Graph.t NodeTy EdgeTy;
  inEdges : InEdges EdgeTy
}.
Arguments mk {NodeTy EdgeTy} _ _.
Arguments super {NodeTy EdgeTy} _.
Arguments inEdges {NodeTy EdgeTy} _.

(** Modelled from the spec: the macro [GALOIS_ERROR] is not under src/;
    called with [true] it is fatal (the spec, 7: the mismatch is "fatal at
    construction time, aborts the load with a descriptive error").  How a
    construction ends, with the sizes of the arrays it has allocated until
    then. *)
Inductive Outcome (A : Type) :=
| Loaded (g : A) (allocated : list Z)
| Fatal (message : string) (allocated : list Z).
Arguments Loaded {A} _ _.
Arguments Fatal {A} _ _.

Section graph.
Context {NodeTy EdgeTy : Type}.

(** The [allocate] calls of [LC_CSR_Graph::structureFromGraph]: [nodeData],
    [edgeIndData], [edgeDst], [edgeData]. *)
Definition super_allocations (graph : FileGraph.t EdgeTy) : list Z :=
  [FileGraph.size graph; FileGraph.size graph;
   FileGraph.sizeEdges graph; FileGraph.sizeEdges graph].

(** [InEdges::initialize (FileGraph& transpose)]. *)
Definition initialize (transpose : FileGraph.t EdgeTy) : InEdges EdgeTy :=
  mkInEdges (FileGraph.edge_id transpose) (FileGraph.node_id transpose)
            (FileGraph.edge_data transpose).

(** Its [allocate] calls: [edgeIndDataStore], [edgeDstStore],
    [edgeDataStore]. *)
Definition initialize_allocations (transpose : FileGraph.t EdgeTy) : list Z :=
  [FileGraph.size transpose; FileGraph.sizeEdges transpose;
   FileGraph.sizeEdges transpose].

(** [structureFromGraph (graph, transpose)]. *)
Definition structureFromGraph (node_default : NodeTy)
    (graph transpose : FileGraph.t EdgeTy) : Outcome (t NodeTy EdgeTy) :=
  if decide (FileGraph.size graph ≠ FileGraph.size transpose)
  then Fatal "number of nodes in graph and its transpose do not match" []
  else if decide (FileGraph.sizeEdges graph ≠ FileGraph.sizeEdges transpose)
  then Fatal "number of edges in graph and its transpose do not match" []
  else Loaded (mk (LC_CSR_Graph.structureFromGraph node_default graph)
                  (initialize transpose))
              (super_allocations graph ++ initialize_allocations transpose).

End graph.
End LC_CSR_InOutGraph.

(* ===================================================================== *)
(** ** The view of a graph that all layouts share *)
(* ===================================================================== *)

Module Topology.
Local Open Scope Z_scope.

Section topology.
Context {Node : Type} `{EqDecision Node}.

(** Which node of the iteration [begin ()] .. [end ()] is [v]. *)
Definition position (nodes : list Node) (v : Node) : option Z :=
  (λ ix, Z.of_nat ix.1) <$> list_find (λ x, x = v) nodes.

(** For every node, in iteration order, the destinations of its edges as
    positions in that order, sorted. *)
Definition topology (nodes : list Node)
    (dsts : Node → option (list Node)) : option (list (list Z)) :=
  mapM (λ v, ds ← dsts v;
             ps ← mapM (position nodes) ds;
             Some (merge_sort Z.le ps)) nodes.

End topology.
End Topology.

(** [LC_CSR_Graph] through that view; a node is its own position. *)
Definition LC_CSR_topology {NodeTy EdgeTy} (g : LC_CSR_Graph.t NodeTy EdgeTy)
    : option (list (list Z)) :=
  Topology.topology (LC_CSR_Graph.nodes g) (LC_CSR_Graph.out_dsts g).

(* ===================================================================== *)
(** ** LC_CSRInline_Graph *)
(* ===================================================================== *)

Module LC_CSRInline_Graph.
Import Runtime.
Local Open Scope Z_scope.

(** Modelled from the spec: [EdgeInfoBase] and [NodeInfoBase]
    (Galois/Graph/Details.h) are not under src/: an edge record holds the
    destination and the payload, which is there once [construct] has run.
    The fields [edgeBegin] and [edgeEnd] are those of [NodeInfo] in the
    source; a pointer into [nodeData] or into [edgeData] is the index of the
    element it points at. *)
Record NodeInfo (NodeTy : Type) := mkNode {
  data : NodeTy;
  edgeBegin : Z;
  edgeEnd : Z
}.
Arguments mkNode {NodeTy} _ _ _.
Arguments data {NodeTy} _.
Arguments edgeBegin {NodeTy} _.
Arguments edgeEnd {NodeTy} _.

Record EdgeInfo (EdgeTy : Type) := mkEdge {
  dst : Z;
  payload : option EdgeTy
}.
Arguments mkEdge {EdgeTy} _ _.
Arguments dst {EdgeTy} _.
Arguments payload {EdgeTy} _.

Record t (NodeTy EdgeTy : Type) := mk {
  nodeData : list (NodeInfo NodeTy);
  edgeData : list (EdgeInfo EdgeTy);
  numNodes : Z;
  numEdges : Z;
  endNode : Z
}.
Arguments mk {NodeTy EdgeTy} _ _ _ _ _.
Arguments nodeData {NodeTy EdgeTy} _.
Arguments edgeData {NodeTy EdgeTy} _.
Arguments numNodes {NodeTy EdgeTy} _.
Arguments numEdges {NodeTy EdgeTy} _.
Arguments endNode {NodeTy EdgeTy} _.

Section graph.
Context {NodeTy EdgeTy : Type}.
Implicit Types g : t NodeTy EdgeTy.

(** The first loop of [structureFromGraph]:
    [node_ids[*ii] = &nodeData[*ii]]. *)
Fixpoint fill_node_ids (iis : list Z) (node_ids : list Z)
    : option (list Z) :=
  match iis with
  | [] => Some node_ids
  | ii :: rest => ids ← aset node_ids ii ii; fill_node_ids rest ids
  end.

(** The loop over the neighbours of one node. *)
Fixpoint layout_edges (node_ids : list Z) (nbrs : list (Z * EdgeTy))
    (ed : list (EdgeInfo EdgeTy)) (curEdge : Z)
    : option (list (EdgeInfo EdgeTy) * Z) :=
  match nbrs with
  | [] => Some (ed, curEdge)
  | (d, w) :: rest =>
      p ← aget node_ids d;
      ed1 ← aset ed curEdge (mkEdge p (Some w));
      layout_edges node_ids rest ed1 (curEdge + 1)
  end.

(** The second loop: "layout the edges". *)
Fixpoint layout_nodes (graph : FileGraph.t EdgeTy) (node_ids : list Z)
    (iis : list Z) (nd : list (NodeInfo NodeTy))
    (ed : list (EdgeInfo EdgeTy)) (curEdge : Z)
    : option (list (NodeInfo NodeTy) * list (EdgeInfo EdgeTy)) :=
  match iis with
  | [] => Some (nd, ed)
  | ii :: rest =>
      p ← aget node_ids ii;
      ni ← aget nd p;
      nd1 ← aset nd p (mkNode (data ni) curEdge (edgeEnd ni));
      '(ed1, cur1) ← layout_edges node_ids (FileGraph.neighbor_edges graph ii)
                        ed curEdge;
      ni1 ← aget nd1 p;
      nd2 ← aset nd1 p (mkNode (data ni1) (edgeBegin ni1) cur1);
      layout_nodes graph node_ids rest nd2 ed1 cur1
  end.

Definition structureFromGraph (node_default : NodeTy)
    (graph : FileGraph.t EdgeTy) : option (t NodeTy EdgeTy) :=
  let numNodes := FileGraph.size graph in
  let numEdges := FileGraph.sizeEdges graph in
  let nd := replicate (Z.to_nat numNodes) (mkNode node_default 0 0) in
  let ed := replicate (Z.to_nat numEdges) (mkEdge 0 None) in
  node_ids ← fill_node_ids (FileGraph.nodes graph)
                           (replicate (Z.to_nat numNodes) 0);
  '(nd', ed') ← layout_nodes graph node_ids (FileGraph.nodes graph) nd ed 0;
  Some (mk nd' ed' numNodes numEdges numNodes).

Definition getEdgeDst g (ni : Z) : option Z := dst <$> aget (edgeData g) ni.

(** [begin ()] .. [end ()]: from [nodeData.data ()] to [endNode]. *)
Definition nodes g : list Z := seqZ 0 (endNode g).

Fixpoint acquire_loop g (mflag : MethodFlag) (fuel : nat) (ii ee : Z)
    : M unit :=
  if decide (ii = ee) then mret tt
  else match fuel with
       | O => fail
       | S fuel' =>
           e ← lift (aget (edgeData g) ii);
           acquire (dst e) mflag;;
           acquire_loop g mflag fuel' (ii + 1) ee
       end.

Definition edge_begin g (N : Z) (mflag : MethodFlag) : M Z :=
  acquire N mflag;;
  ni ← lift (aget (nodeData g) N);
  (if shouldLock mflag
   then acquire_loop g mflag (S (length (edgeData g)))
          (edgeBegin ni) (edgeEnd ni)
   else mret tt);;
  mret (edgeBegin ni).

Definition edge_end g (N : Z) (mflag : MethodFlag) : M Z :=
  acquire N mflag;;
  ni ← lift (aget (nodeData g) N);
  mret (edgeEnd ni).

(** The edge pointers from [b] until [e]. *)
Definition edge_range (b e : Z) : option (list Z) :=
  if decide (b ≤ e) then Some (seqZ b (e - b)) else None.

Definition out_edges g (N : Z) (mflag : MethodFlag) : M (list Z) :=
  b ← edge_begin g N mflag;
  e ← edge_end g N mflag;
  lift (edge_range b e).

Definition out_dsts g (N : Z) : option (list Z) :=
  '(es, _) ← runM (out_edges g N NONE);
  mapM (getEdgeDst g) es.

Definition topology g : option (list (list Z)) :=
  Topology.topology (nodes g) (out_dsts g).

End graph.
End LC_CSRInline_Graph.

(* ===================================================================== *)
(** ** The records of LC_Linear_Graph and LC_Numa_Graph *)
(* ===================================================================== *)

Module LinearLayout.
Import Runtime.
Local Open Scope Z_scope.

(** A pointer into an arena: the arena and the byte offset in it.  The
    arenas come from the allocator ([LargeArray::allocate],
    [MM::largeAlloc]) and do not overlap. *)
Abbreviation Ptr := (nat * Z)%type (only parsing).

(** What lies at an address: a [NodeInfo] (payload and [int numEdges]) or an
    [EdgeInfo] (destination and payload).  Both classes declare the same
    [NodeInfo], with the same [edgeBegin], [edgeEnd] and [next]. *)
Inductive Cell (NodeTy EdgeTy : Type) :=
| NodeCell (data : NodeTy) (numEdges : Z)
| EdgeCell (dst : nat * Z) (payload : option EdgeTy).
Arguments NodeCell {NodeTy EdgeTy} _ _.
Arguments EdgeCell {NodeTy EdgeTy} _ _.

(** [extent]: the size in bytes of each arena that has been allocated. *)
Record Mem (NodeTy EdgeTy : Type) := mkMem {
  cells : gmap (nat * Z) (Cell NodeTy EdgeTy);
  extent : gmap nat Z
}.
Arguments mkMem {NodeTy EdgeTy} _ _.
Arguments cells {NodeTy EdgeTy} _.
Arguments extent {NodeTy EdgeTy} _.

Section layout.
Context {NodeTy EdgeTy : Type}.
(** [sizeof (NodeInfo)] and [sizeof (EdgeInfo)]. *)
Context (SN SE : Z).
Implicit Types (m : Mem NodeTy EdgeTy) (p : nat * Z).

Definition alloc (arena : nat) (size : Z) m : Mem NodeTy EdgeTy :=
  mkMem (cells m) (<[arena := size]> (extent m)).

(** A write of [sz] bytes at [p]; outside the arena: [None]. *)
Definition store p (sz : Z) (c : Cell NodeTy EdgeTy) m
    : option (Mem NodeTy EdgeTy) :=
  size ← extent m !! p.1;
  if decide (0 ≤ p.2 ∧ p.2 + sz ≤ size)
  then Some (mkMem (<[p := c]> (cells m)) (extent m)) else None.

Definition numEdges_of m p : option Z :=
  c ← cells m !! p;
  match c with NodeCell _ ne => Some ne | EdgeCell _ _ => None end.

Definition dst_of m p : option (nat * Z) :=
  c ← cells m !! p;
  match c with EdgeCell d _ => Some d | NodeCell _ _ => None end.

(** [NodeInfo::edgeBegin]: [++n], the start of the edges. *)
Definition edgeBegin p : nat * Z := (p.1, p.2 + SN).

(** [NodeInfo::edgeEnd]: [ei += numEdges]. *)
Definition edgeEnd m p : option (nat * Z) :=
  ne ← numEdges_of m p; Some (p.1, p.2 + SN + ne * SE).

(** The loop of [NodeInfo::next]: [while (ni < ei) ++ni]. *)
Fixpoint next_loop (fuel : nat) (ni ei : Z) : Z :=
  if decide (ni < ei)
  then match fuel with O => ni | S fuel' => next_loop fuel' (ni + SN) ei end
  else ni.

Definition next m p : option (nat * Z) :=
  ei ← edgeEnd m p;
  Some (p.1, next_loop (Z.to_nat (ei.2 - p.2)) p.2 ei.2).

(** [nodes[i]]; an entry that has not been set is [None]. *)
Definition node_at (nodes : list (option (nat * Z))) (i : Z)
    : option (nat * Z) :=
  mjoin (aget nodes i).

(** The loop that lays out the nodes [iis] from [cur] on:
    [construct], [numEdges = distance (...)], [nodes[*ii] = cur],
    [cur = cur->next ()]. *)
Fixpoint layout_nodes (node_default : NodeTy) (graph : FileGraph.t EdgeTy)
    (iis : list Z) (cur : nat * Z) m (nodes : list (option (nat * Z)))
    : option ((nat * Z) * Mem NodeTy EdgeTy * list (option (nat * Z))) :=
  match iis with
  | [] => Some (cur, m, nodes)
  | ii :: rest =>
      m1 ← store cur SN
              (NodeCell node_default (to_int (FileGraph.degree graph ii))) m;
      nodes1 ← aset nodes ii (Some cur);
      cur1 ← next m1 cur;
      layout_nodes node_default graph rest cur1 m1 nodes1
  end.

(** The loop over the neighbours of one node: [construct], [dst = nodes[*ni]],
    [++edge]. *)
Fixpoint layout_edges (nodes : list (option (nat * Z))) (edge : nat * Z)
    (nbrs : list (Z * EdgeTy)) m : option (Mem NodeTy EdgeTy) :=
  match nbrs with
  | [] => Some m
  | (d, w) :: rest =>
      p ← node_at nodes d;
      m1 ← store edge SE (EdgeCell p (Some w)) m;
      layout_edges nodes (edge.1, edge.2 + SE) rest m1
  end.

(** "layout the edges" of the nodes [iis]. *)
Fixpoint layout_all_edges (graph : FileGraph.t EdgeTy)
    (nodes : list (option (nat * Z))) (iis : list Z) m
    : option (Mem NodeTy EdgeTy) :=
  match iis with
  | [] => Some m
  | ii :: rest =>
      n ← node_at nodes ii;
      m1 ← layout_edges nodes (edgeBegin n) (FileGraph.neighbor_edges graph ii) m;
      layout_all_edges graph nodes rest m1
  end.

Definition getEdgeDst m (ni : nat * Z) : option (nat * Z) := dst_of m ni.

(** The edge pointers from [b] until [e], [sizeof (EdgeInfo)] apart. *)
Definition edge_range (b e : nat * Z) : option (list (nat * Z)) :=
  if decide (b.1 = e.1 ∧ b.2 ≤ e.2 ∧ 0 < SE ∧ (e.2 - b.2) mod SE = 0)
  then Some ((λ k, (b.1, b.2 + k * SE)) <$> seqZ 0 ((e.2 - b.2) / SE))
  else None.

(** The address of a node is the address of its lockable: one number for
    each pointer, different for different pointers. *)
Definition lockable_of p : Z := Z.pos (encode p).

Fixpoint acquire_loop m (mflag : MethodFlag) (es : list (nat * Z)) : M unit :=
  match es with
  | [] => mret tt
  | ii :: rest =>
      d ← lift (dst_of m ii);
      acquire (lockable_of d) mflag;;
      acquire_loop m mflag rest
  end.

Definition edge_begin m (N : nat * Z) (mflag : MethodFlag) : M (nat * Z) :=
  acquire (lockable_of N) mflag;;
  (if shouldLock mflag
   then ee ← lift (edgeEnd m N);
        es ← lift (edge_range (edgeBegin N) ee);
        acquire_loop m mflag es
   else mret tt);;
  mret (edgeBegin N).

Definition edge_end m (N : nat * Z) (mflag : MethodFlag) : M (nat * Z) :=
  acquire (lockable_of N) mflag;;
  lift (edgeEnd m N).

Definition out_edges m (N : nat * Z) (mflag : MethodFlag)
    : M (list (nat * Z)) :=
  b ← edge_begin m N mflag;
  e ← edge_end m N mflag;
  lift (edge_range b e).

Definition out_dsts m (N : nat * Z) : option (list (nat * Z)) :=
  '(es, _) ← runM (out_edges m N NONE);
  mapM (getEdgeDst m) es.

End layout.
End LinearLayout.

(* ===================================================================== *)
(** ** LC_Linear_Graph *)
(* ===================================================================== *)

Module LC_Linear_Graph.
Import Runtime LinearLayout.
Local Open Scope Z_scope.

Record t (NodeTy EdgeTy : Type) := mk {
  data : Mem NodeTy EdgeTy;
  numNodes : Z;
  numEdges : Z;
  nodes : list (option (nat * Z))
}.
Arguments mk {NodeTy EdgeTy} _ _ _ _.
Arguments data {NodeTy EdgeTy} _.
Arguments numNodes {NodeTy EdgeTy} _.
Arguments numEdges {NodeTy EdgeTy} _.
Arguments nodes {NodeTy EdgeTy} _.

Section graph.
Context {NodeTy EdgeTy : Type} (SN SE : Z).

Definition structureFromGraph (node_default : NodeTy)
    (graph : FileGraph.t EdgeTy) : option (t NodeTy EdgeTy) :=
  let numNodes := FileGraph.size graph in
  let numEdges := FileGraph.sizeEdges graph in
  let m := alloc 0 (u64 (SN * numNodes * 2 + SE * numEdges))
             (mkMem ∅ ∅) in
  let nodes := replicate (Z.to_nat numNodes) None in
  '(_, m1, nodes1) ← layout_nodes SN SE node_default graph
                        (FileGraph.nodes graph) (0%nat, 0) m nodes;
  m2 ← layout_all_edges SN SE graph nodes1 (FileGraph.nodes graph) m1;
  Some (mk m2 numNodes numEdges nodes1).

(** [begin ()] .. [end ()]: [&nodes[0]] .. [&nodes[numNodes]]. *)
Definition node_list (g : t NodeTy EdgeTy) : option (list (nat * Z)) :=
  mapM (node_at (nodes g)) (seqZ 0 (numNodes g)).

Definition topology (g : t NodeTy EdgeTy) : option (list (list Z)) :=
  ns ← node_list g;
  Topology.topology ns (out_dsts SN SE (data g)).

End graph.
End LC_Linear_Graph.

(* ===================================================================== *)
(** ** LC_Numa_Graph *)
(* ===================================================================== *)

Module LC_Numa_Graph.
Import Runtime LinearLayout.
Local Open Scope Z_scope.

(** The header of an arena.  It takes the first [sizeof (Header)] bytes of
    the arena; the nodes start right after it ([h + 1]). *)
Record Header := mkHeader {
  h_begin : nat * Z;
  h_end : nat * Z;
  h_size : Z
}.

Record DistributeInfo := mkInfo {
  d_numNodes : Z;
  d_numEdges : Z;
  d_begin : Z;
  d_end : Z
}.

Record t (NodeTy EdgeTy : Type) := mk {
  mem : Mem NodeTy EdgeTy;
  headers : list (option Header);
  nodes : list (option (nat * Z));
  numNodes : Z;
  numEdges : Z
}.
Arguments mk {NodeTy EdgeTy} _ _ _ _ _.
Arguments mem {NodeTy EdgeTy} _.
Arguments headers {NodeTy EdgeTy} _.
Arguments nodes {NodeTy EdgeTy} _.
Arguments numNodes {NodeTy EdgeTy} _.
Arguments numEdges {NodeTy EdgeTy} _.

(** The local variables of [distribute]. *)
Record Vars := mkVars {
  curSize : Z;
  ii : Z;
  last : Z;
  nnodes : Z;
  nedges : Z;
  runningNodes : Z;
  runningEdges : Z;
  dinfo : list DistributeInfo
}.

Section graph.
Context {NodeTy EdgeTy : Type}.
(** [sizeof (NodeInfo)], [sizeof (EdgeInfo)], [sizeof (Header)]. *)
Context (SN SE SH : Z).

(** The inner loop of [distribute] for thread [tid]: it ends at [ei] or
    breaks once the running size has reached the share of [tid]. *)
Fixpoint distribute_inner (graph : FileGraph.t EdgeTy) (fuel : nat)
    (tid blockSize ei : Z) (v : Vars) : option Vars :=
  if decide (ii v = ei) then Some v
  else if decide (u64 ((tid + 1) * blockSize) ≤ curSize v)
  then
    di ← aset (dinfo v) tid (mkInfo (nnodes v) (nedges v) (last v) (ii v));
    Some (mkVars (curSize v) (ii v) (ii v) 0 0
            (u64 (runningNodes v + nnodes v))
            (u64 (runningEdges v + nedges v)) di)
  else match fuel with
       | O => None
       | S fuel' =>
           let nneighbors := FileGraph.degree graph (ii v) in
           distribute_inner graph fuel' tid blockSize ei
             (mkVars (u64 (curSize v + (SN + SE * nneighbors)))
                     (ii v + 1) (last v)
                     (u64 (nnodes v + 1)) (u64 (nedges v + nneighbors))
                     (runningNodes v) (runningEdges v) (dinfo v))
       end.

(** The outer loop: [for (tid = 0; tid + 1 < num; ++tid)]. *)
Fixpoint distribute_outer (graph : FileGraph.t EdgeTy) (tids : list Z)
    (blockSize ei : Z) (v : Vars) : option Vars :=
  match tids with
  | [] => Some v
  | tid :: rest =>
      v1 ← distribute_inner graph (S (Z.to_nat (ei - ii v))) tid blockSize ei v;
      distribute_outer graph rest blockSize ei v1
  end.

(** Modelled from the spec: [PerThreadStorage] is not under src/.  It holds
    one entry for each thread, [getRemote (tid)] is the entry of thread
    [tid], and an entry that has not been written is all zero. *)
Definition PerThreadStorage_new (num : nat) : list DistributeInfo :=
  replicate num (mkInfo 0 0 0 0).

(** [distribute]: "divide graph into equal sized chunks", for [num] active
    threads ([Galois::getActiveThreads ()]). *)
Definition distribute (graph : FileGraph.t EdgeTy) (num : Z)
    (storage : list DistributeInfo) : option (list DistributeInfo) :=
  let numNodes := FileGraph.size graph in
  let numEdges := FileGraph.sizeEdges graph in
  let total := u64 (SN * numNodes + SE * numEdges) in
  if decide (num ≤ 0) then None
  else
    let blockSize := total / num in
    v ← distribute_outer graph (seqZ 0 (num - 1)) blockSize numNodes
          (mkVars 0 0 0 0 0 0 0 storage);
    aset (dinfo v) (num - 1)
         (mkInfo (u64 (numNodes - runningNodes v))
                 (u64 (numEdges - runningEdges v)) (last v) numNodes).

(** The nodes from [b] until [e] of the structural graph. *)
Definition iter_range (b e : Z) : option (list Z) :=
  if decide (b ≤ e) then Some (seqZ b (e - b)) else None.

(** [AllocateNodes::operator()] of thread [tid]. *)
Definition AllocateNodes (node_default : NodeTy) (graph : FileGraph.t EdgeTy)
    (dinfo : list DistributeInfo) (tid : nat)
    (st : Mem NodeTy EdgeTy * list (option Header) * list (option (nat * Z)))
    : option (Mem NodeTy EdgeTy * list (option Header)
              * list (option (nat * Z))) :=
  let '(m, hs, nodes) := st in
  d ← dinfo !! tid;
  let size := u64 (SH * 2 + SN * d_numNodes d * 2 + SE * d_numEdges d) in
  let m1 := alloc tid size m in
  if decide (d_numNodes d = 0)
  then hs1 ← aset hs (Z.of_nat tid)
                (Some (mkHeader (tid, SH) (tid, SH) size));
       Some (m1, hs1, nodes)
  else
    iis ← iter_range (d_begin d) (d_end d);
    '(cur, m2, nodes2) ← layout_nodes SN SE node_default graph iis
                            (tid, SH) m1 nodes;
    hs1 ← aset hs (Z.of_nat tid) (Some (mkHeader (tid, SH) cur size));
    Some (m2, hs1, nodes2).

(** [AllocateEdges::operator()] of thread [tid]. *)
Definition AllocateEdges (graph : FileGraph.t EdgeTy)
    (dinfo : list DistributeInfo) (nodes : list (option (nat * Z)))
    (tid : nat) (m : Mem NodeTy EdgeTy) : option (Mem NodeTy EdgeTy) :=
  d ← dinfo !! tid;
  if decide (d_numNodes d = 0) then Some m
  else
    iis ← iter_range (d_begin d) (d_end d);
    layout_all_edges SN SE graph nodes iis m.

(** [Galois::on_each (f)]: every thread runs [f]; the threads work on
    different arenas and different entries of [nodes], here one thread
    after the other. *)
Fixpoint on_each {S : Type} (f : nat → S → option S) (tids : list nat)
    (s : S) : option S :=
  match tids with
  | [] => Some s
  | tid :: rest => s1 ← f tid s; on_each f rest s1
  end.

Definition structureFromGraph (node_default : NodeTy) (num : nat)
    (graph : FileGraph.t EdgeTy) : option (t NodeTy EdgeTy) :=
  let numNodes := FileGraph.size graph in
  let numEdges := FileGraph.sizeEdges graph in
  dinfo ← distribute graph (Z.of_nat num) (PerThreadStorage_new num);
  let nodes := replicate (Z.to_nat numNodes) None in
  '(m1, hs, nodes1) ← on_each (AllocateNodes node_default graph dinfo)
                         (seq 0 num)
                         (mkMem ∅ ∅, replicate num None, nodes);
  m2 ← on_each (AllocateEdges graph dinfo nodes1) (seq 0 num) m1;
  Some (mk m2 hs nodes1 numNodes numEdges).

Definition node_list (g : t NodeTy EdgeTy) : option (list (nat * Z)) :=
  mapM (node_at (nodes g)) (seqZ 0 (numNodes g)).

Definition topology (g : t NodeTy EdgeTy) : option (list (list Z)) :=
  ns ← node_list g;
  Topology.topology ns (out_dsts SN SE (mem g)).

End graph.
End LC_Numa_Graph.

(* ===================================================================== *)
(** ** The vocabulary of the statements about the graphs *)
(* ===================================================================== *)

(** The number of edges of the first [k] nodes. *)
Definition before {EdgeTy : Type} (a : list (list (Z * EdgeTy))) (k : nat)
    : Z :=
  Z.of_nat (length (concat (take k a))).

(** The records an accessor takes when it acquires the nodes [ns]. *)
Definition node_trace (mflag : Runtime.MethodFlag) (ns : list Z) : list Z :=
  if Runtime.acquires mflag then ns else [].

(** The structural graph whose node [k] has its edges in the order [nb']. *)
Definition reordered {EdgeTy : Type} (graph : FileGraph.t EdgeTy) (k : nat)
    (nb' : list (Z * EdgeTy)) : FileGraph.t EdgeTy :=
  FileGraph.mk (<[k := nb']> (FileGraph.adj graph)).

(** The 4-node graph of the scenario: 0→1 (5), 0→2 (1), 1→2 (3), 2→3 (2). *)
Definition scenario : FileGraph.t Z :=
  FileGraph.mk [[(1, 5); (2, 1)]; [(2, 3)]; [(3, 2)]; []]%Z.

(** What [topology] is to give for the structural graph [a]: for each node,
    in order, the sorted destinations of its edges. *)
Definition expected {E : Type} (a : list (list (Z * E))) : list (list Z) :=
  (λ nb, merge_sort Z.le nb.*1) <$> a.

(** What [LC_CSRInline_Graph::structureFromGraph] builds. *)
Definition inline_edge {EdgeTy : Type} (e : Z * EdgeTy)
    : LC_CSRInline_Graph.EdgeInfo EdgeTy :=
  LC_CSRInline_Graph.mkEdge e.1 (Some e.2).

Definition inline_node {NodeTy EdgeTy : Type} (dflt : NodeTy)
    (graph : FileGraph.t EdgeTy) (k : nat)
    : LC_CSRInline_Graph.NodeInfo NodeTy :=
  LC_CSRInline_Graph.mkNode dflt (before (FileGraph.adj graph) k)
                            (before (FileGraph.adj graph) (S k)).

Definition inline_loaded {NodeTy EdgeTy : Type} (dflt : NodeTy)
    (graph : FileGraph.t EdgeTy) : LC_CSRInline_Graph.t NodeTy EdgeTy :=
  LC_CSRInline_Graph.mk
    (inline_node dflt graph <$> seq 0 (length (FileGraph.adj graph)))
    (inline_edge <$> concat (FileGraph.adj graph))
    (FileGraph.size graph) (FileGraph.sizeEdges graph)
    (FileGraph.size graph).

(* ===================================================================== *)
(** ** Placements: what the two passes of a linear layout establish *)
(* ===================================================================== *)

Module Placement.
Import LinearLayout.
Local Open Scope Z_scope.

Section placement.
Context {NodeTy EdgeTy : Type} (SN SE : Z) (dflt : NodeTy).
Context (a : list (list (Z * EdgeTy))).
Implicit Types (ps : list (nat * Z)) (m : Mem NodeTy EdgeTy).

(** The bytes of a node and of its edges. *)
Definition span (nb : list (Z * EdgeTy)) : Z :=
  SN + Z.of_nat (length nb) * SE.

(** Two nodes lie in different arenas or one ends before the other starts. *)
Definition separated ps : Prop :=
  ∀ i i' p p' nb nb',
    i ≠ i' → ps !! i = Some p → ps !! i' = Some p' →
    a !! i = Some nb → a !! i' = Some nb' →
    p.1 ≠ p'.1 ∨ p.2 + span nb ≤ p'.2 ∨ p'.2 + span nb' ≤ p.2.

(** Every node lies, with its edges, inside its arena. *)
Definition fits (ext : gmap nat Z) ps : Prop :=
  ∀ i p nb, ps !! i = Some p → a !! i = Some nb →
    ∃ size, ext !! p.1 = Some size ∧ 0 ≤ p.2 ∧ p.2 + span nb ≤ size.

Definition node_cells m ps : Prop :=
  ∀ i p nb, ps !! i = Some p → a !! i = Some nb →
    cells m !! p = Some (NodeCell dflt (Z.of_nat (length nb))).

(** The edges of the nodes before [pos] are in place. *)
Definition edge_cells m ps (pos : nat) : Prop :=
  ∀ i p nb j d w,
    (i < pos)%nat → ps !! i = Some p → a !! i = Some nb →
    nb !! j = Some (d, w) →
    ∃ pd, ps !! Z.to_nat d = Some pd
          ∧ cells m !! (p.1, p.2 + SN + Z.of_nat j * SE)
            = Some (EdgeCell pd (Some w)).

(** The state between the two passes, after the threads before [tid]. *)
Record Placed (tid : nat) m ps : Prop := {
  placed_arena : ∀ i p, ps !! i = Some p → (p.1 < tid)%nat;
  placed_sep : separated ps;
  placed_fit : fits (extent m) ps;
  placed_nodes : node_cells m ps
}.

End placement.
End Placement.

(* ===================================================================== *)
(** ** What [distribute] hands to the threads *)
(* ===================================================================== *)

Module Distribution.
Import LC_Numa_Graph.
Local Open Scope Z_scope.

Section distribution.
Context {EdgeTy : Type} (SN SE : Z).
Context (a : list (list (Z * EdgeTy))).

(** The entries that have nodes hold, in the order of the threads, adjacent
    ranges of nodes from [pos] until [pos'], with the counts of these
    ranges. *)
Fixpoint tiles (ds : list DistributeInfo) (pos pos' : nat) : Prop :=
  match ds with
  | [] => pos = pos'
  | d :: ds =>
      if decide (d_numNodes d = 0) then tiles ds pos pos'
      else ∃ e : nat, (pos < e)%nat
             ∧ d_begin d = Z.of_nat pos ∧ d_end d = Z.of_nat e
             ∧ d_numNodes d = Z.of_nat (e - pos)
             ∧ d_numEdges d = before a e - before a pos
             ∧ tiles ds e pos'
  end.

(** The local variables of [distribute] when thread [tid] is next. *)
Definition Distributing (num tid : nat) (v : Vars) : Prop :=
  ∃ (k l : nat) ds,
    (l ≤ k ≤ length a)%nat
    ∧ ii v = Z.of_nat k ∧ last v = Z.of_nat l
    ∧ nnodes v = Z.of_nat (k - l)
    ∧ nedges v = before a k - before a l
    ∧ runningNodes v = Z.of_nat l
    ∧ runningEdges v = before a l
    ∧ curSize v = SN * Z.of_nat k + SE * before a k
    ∧ dinfo v = ds ++ replicate (num - tid) (mkInfo 0 0 0 0)
    ∧ length ds = tid ∧ tiles ds 0 l.

End distribution.
End Distribution.

(* ===================================================================== *)
(** * Further members of the graphs and of the managers *)
(* ===================================================================== *)

(* ===================================================================== *)
(** ** LC_CSR_Graph: the other members *)
(* ===================================================================== *)

Module LC_CSR_Graph_members.
Import Runtime LC_CSR_Graph.
Local Open Scope Z_scope.

Section graph.
Context {NodeTy EdgeTy : Type}.
Implicit Types g : LC_CSR_Graph.t NodeTy EdgeTy.

(** [sortEdges (N, comp, mflag)]: as [sortEdgesByEdgeData], with [comp]
    comparing the (destination, payload) values themselves. *)
Definition sortEdges g (N : Z) (comp : Z * EdgeTy → Z * EdgeTy → bool)
    (mflag : MethodFlag) : M (LC_CSR_Graph.t NodeTy EdgeTy) :=
  acquire_node g N mflag;;
  b ← lift (raw_neighbor_begin g N);
  e ← lift (raw_neighbor_end g N);
  vs ← lift (edge_sort_range g b e);
  let sorted := std_sort comp vs in
  mret (mk (nodeData g) (edgeIndData g)
           (splice (edgeDst g) b sorted.*1)
           (splice (edgeData g) b sorted.*2)
           (numNodes g) (numEdges g)).

(** The payloads of the edges [es], read by [getEdgeData] one after the
    other. *)
Definition edge_payloads g (es : list Z) (mflag : MethodFlag)
    : M (list EdgeTy) :=
  mapM (λ ni, getEdgeData g ni mflag) es.

(** The edge ranges of all nodes, from [begin ()] to [end ()]. *)
Definition all_out_edges g : option (list (list Z)) :=
  mapM (λ N, fst <$> runM (out_edges g N NONE)) (nodes g).

End graph.
End LC_CSR_Graph_members.

(* ===================================================================== *)
(** ** LC_CSR_InOutGraph with the pointers of its in-edges *)
(* ===================================================================== *)

Module InOutGraphImpl.
Local Open Scope Z_scope.

(** Where a pointer of [InEdgesBase] ([edgeIndData], [edgeDst]) or of
    [InEdges] ([edgeData]) points: nowhere yet, at the store of the same
    kind inside [InEdges], or at the array of the same name of the
    out-edges. *)
Inductive Target := Unset | Store | OutEdges.

(** [InEdges<EdgeTy, EdgeDst, EdgeIndData, false>] on top of
    [InEdgesBase]. *)
Record InEdges (EdgeTy : Type) := mkInEdges {
  edgeIndDataStore : list Z;
  edgeDstStore : list Z;
  edgeDataStore : list EdgeTy;
  edgeIndData : Target;
  edgeDst : Target;
  edgeData : Target
}.
Arguments mkInEdges {EdgeTy} _ _ _ _ _ _.
Arguments edgeIndDataStore {EdgeTy} _.
Arguments edgeDstStore {EdgeTy} _.
Arguments edgeDataStore {EdgeTy} _.
Arguments edgeIndData {EdgeTy} _.
Arguments edgeDst {EdgeTy} _.
Arguments edgeData {EdgeTy} _.

(** The member of a default-constructed graph. *)
Definition new {EdgeTy} : InEdges EdgeTy :=
  mkInEdges [] [] [] Unset Unset Unset.

(** What a pointer points at; [out] is the array of the out-edges. *)
Definition deref {A} (p : Target) (store out : list A) : option (list A) :=
  match p with
  | Unset => None
  | Store => Some store
  | OutEdges => Some out
  end.

End InOutGraphImpl.

Module LC_CSR_InOutGraph_members.
Import Runtime InOutGraphImpl.
Local Open Scope Z_scope.

(** Conversion to [uint32_t]. *)
Definition u32 (x : Z) : Z := x mod 2 ^ 32.

Record t (NodeTy EdgeTy : Type) := mk {
  super : LC_CSR_Graph.t NodeTy EdgeTy;
  inEdges : InEdges EdgeTy
}.
Arguments mk {NodeTy EdgeTy} _ _.
Arguments super {NodeTy EdgeTy} _.
Arguments inEdges {NodeTy EdgeTy} _.

(** Modelled from the spec: the macro [GALOIS_ERROR] is not under src/;
    called with [true] it is fatal, as in [LC_CSR_InOutGraph.Outcome].  How
    a construction ends, with the sizes of the arrays it has allocated
    until then: the graph, [GALOIS_ERROR (true, message)] or [abort ()]. *)
Inductive Outcome (A : Type) :=
| Loaded (g : A) (allocated : list Z)
| Fatal (message : string) (allocated : list Z)
| Aborted (allocated : list Z).
Arguments Loaded {A} _ _.
Arguments Fatal {A} _ _.
Arguments Aborted {A} _.

Section graph.
Context {NodeTy EdgeTy : Type}.
Implicit Types g : t NodeTy EdgeTy.

(** [*edgeIndData], [*edgeDst] and [*edgeData] of the in-edges. *)
Definition in_edgeIndData g : option (list Z) :=
  deref (edgeIndData (inEdges g)) (edgeIndDataStore (inEdges g))
        (LC_CSR_Graph.edgeIndData (super g)).

Definition in_edgeDst g : option (list Z) :=
  deref (edgeDst (inEdges g)) (edgeDstStore (inEdges g))
        (LC_CSR_Graph.edgeDst (super g)).

Definition in_edgeData g : option (list EdgeTy) :=
  deref (edgeData (inEdges g)) (edgeDataStore (inEdges g))
        (LC_CSR_Graph.edgeData (super g)).

(** [InEdgesBase::raw_begin], [raw_end] and [getEdgeDst]; the edge is an
    [InEdgesBase::EdgeIdx], a [uint64_t]. *)
Definition raw_begin g (n : Z) : option Z :=
  arr ← in_edgeIndData g;
  if decide (n = 0) then Some 0 else aget arr (n - 1).

Definition raw_end g (n : Z) : option Z :=
  arr ← in_edgeIndData g; aget arr n.

Definition getEdgeDst g (e : Z) : option Z :=
  arr ← in_edgeDst g; aget arr e.

(** [InEdges::getEdgeData (EdgeIdx e)].  Here [EdgeIdx] is the one that
    [InEdges] declares, [Super::NodeIdx] (LCGraph.h:273), a [uint32_t]: the
    edge is converted to 32 bits before it indexes [*edgeData]. *)
Definition getEdgeData g (e : Z) : option EdgeTy :=
  arr ← in_edgeData g; aget arr (u32 e).

Definition getInEdgeData g (ni : Z) (mflag : MethodFlag) : M EdgeTy :=
  checkWrite mflag false;;
  lift (getEdgeData g ni).

Definition getInEdgeDst g (ni : Z) : option Z := getEdgeDst g ni.

(** The loop of [in_edge_begin] over the in-neighbours. *)
Fixpoint acquire_loop g (mflag : MethodFlag) (fuel : nat) (ii ee : Z)
    : M unit :=
  if decide (ii = ee) then mret tt
  else match fuel with
       | O => fail
       | S fuel' =>
           d ← lift (getEdgeDst g ii);
           LC_CSR_Graph.acquire_node (super g) d mflag;;
           acquire_loop g mflag fuel' (u64 (ii + 1)) ee
       end.

Definition in_edge_begin g (N : Z) (mflag : MethodFlag) : M Z :=
  LC_CSR_Graph.acquire_node (super g) N mflag;;
  (if shouldLock mflag
   then ii ← lift (raw_begin g N);
        ee ← lift (raw_end g N);
        acquire_loop g mflag (S (length (default [] (in_edgeDst g)))) ii ee
   else mret tt);;
  lift (raw_begin g N).

Definition in_edge_end g (N : Z) (mflag : MethodFlag) : M Z :=
  LC_CSR_Graph.acquire_node (super g) N mflag;;
  lift (raw_end g N).

(** [in_edges (N, mflag)]: the edges from [in_edge_begin] to
    [in_edge_end]. *)
Definition in_edges g (N : Z) (mflag : MethodFlag) : M (list Z) :=
  b ← in_edge_begin g N mflag;
  e ← in_edge_end g N mflag;
  mret (counting_range b e).

(** The in-edges of [N] read back: source and payload, in order. *)
Definition in_edges_of g (N : Z) (mflag : MethodFlag)
    : M (list (Z * EdgeTy)) :=
  es ← in_edges g N mflag;
  lift (mapM (λ ni, d ← getInEdgeDst g ni;
                    w ← getEdgeData g ni;
                    Some (d, w)) es).

(** The values from position [b] to position [e] of [*edgeDst] and
    [*edgeData] ([inEdges.edge_sort_begin (N)] ..
    [inEdges.edge_sort_end (N)]). *)
Definition edge_sort_range g (b e : Z) : option (list (Z * EdgeTy)) :=
  ds ← in_edgeDst g;
  ws ← in_edgeData g;
  if decide (0 ≤ b ≤ e ∧ e ≤ Z.of_nat (length ds)
             ∧ e ≤ Z.of_nat (length ws))
  then Some (zip (take (Z.to_nat (e - b)) (drop (Z.to_nat b) ds))
                 (take (Z.to_nat (e - b)) (drop (Z.to_nat b) ws)))
  else None.

(** A write of [new] over the positions from [b] on of the array that [p]
    points at: into the store of the in-edges, or into the array of the
    out-edges. *)
Definition write_edgeDst g (b : Z) (new : list Z) : option (t NodeTy EdgeTy) :=
  let s := super g in
  let i := inEdges g in
  match edgeDst i with
  | Unset => None
  | Store =>
      Some (mk s (mkInEdges (edgeIndDataStore i)
                    (LC_CSR_Graph.splice (edgeDstStore i) b new)
                    (edgeDataStore i)
                    (edgeIndData i) (edgeDst i) (edgeData i)))
  | OutEdges =>
      Some (mk (LC_CSR_Graph.mk (LC_CSR_Graph.nodeData s)
                  (LC_CSR_Graph.edgeIndData s)
                  (LC_CSR_Graph.splice (LC_CSR_Graph.edgeDst s) b new)
                  (LC_CSR_Graph.edgeData s)
                  (LC_CSR_Graph.numNodes s) (LC_CSR_Graph.numEdges s)) i)
  end.

Definition write_edgeData g (b : Z) (new : list EdgeTy)
    : option (t NodeTy EdgeTy) :=
  let s := super g in
  let i := inEdges g in
  match edgeData i with
  | Unset => None
  | Store =>
      Some (mk s (mkInEdges (edgeIndDataStore i) (edgeDstStore i)
                    (LC_CSR_Graph.splice (edgeDataStore i) b new)
                    (edgeIndData i) (edgeDst i) (edgeData i)))
  | OutEdges =>
      Some (mk (LC_CSR_Graph.mk (LC_CSR_Graph.nodeData s)
                  (LC_CSR_Graph.edgeIndData s)
                  (LC_CSR_Graph.edgeDst s)
                  (LC_CSR_Graph.splice (LC_CSR_Graph.edgeData s) b new)
                  (LC_CSR_Graph.numNodes s) (LC_CSR_Graph.numEdges s)) i)
  end.

(** [sortInEdgesByEdgeData (N, comp, mflag)]. *)
Definition sortInEdgesByEdgeData g (N : Z) (comp : EdgeTy → EdgeTy → bool)
    (mflag : MethodFlag) : M (t NodeTy EdgeTy) :=
  LC_CSR_Graph.acquire_node (super g) N mflag;;
  b ← lift (raw_begin g N);
  e ← lift (raw_end g N);
  vs ← lift (edge_sort_range g b e);
  let sorted :=
    LC_CSR_Graph.std_sort (LC_CSR_Graph.EdgeSortCompWrapper comp) vs in
  g1 ← lift (write_edgeDst g b sorted.*1);
  lift (write_edgeData g1 b sorted.*2).

(** The in-edges seen as a graph of their own over the node records of the
    out-edges: what the pointers point at, side by side. *)
Definition in_view g : option (LC_CSR_Graph.t NodeTy EdgeTy) :=
  ind ← in_edgeIndData g;
  ds ← in_edgeDst g;
  ws ← in_edgeData g;
  Some (LC_CSR_Graph.mk (LC_CSR_Graph.nodeData (super g)) ind ds ws
          (LC_CSR_Graph.numNodes (super g))
          (LC_CSR_Graph.numEdges (super g))).

(** [InEdges::initialize (edgeIndDataPtr, edgeDstPtr, edgeDataPtr,
    symmetric)] called with the arrays of the out-edges; [None] is
    [abort ()]. *)
Definition initialize_shared (i : InEdges EdgeTy) (symmetric : bool)
    : option (InEdges EdgeTy) :=
  if symmetric
  then Some (mkInEdges (edgeIndDataStore i) (edgeDstStore i)
               (edgeDataStore i) OutEdges OutEdges OutEdges)
  else None.

(** [InEdges::initialize (FileGraph& transpose)]. *)
Definition initialize (i : InEdges EdgeTy) (transpose : FileGraph.t EdgeTy)
    : InEdges EdgeTy :=
  mkInEdges (FileGraph.edge_id transpose) (FileGraph.node_id transpose)
            (FileGraph.edge_data transpose) Store Store Store.

(** [structureFromGraph (graph, symmetric)]. *)
Definition structureFromGraph_symmetric (node_default : NodeTy)
    (graph : FileGraph.t EdgeTy) (symmetric : bool)
    : Outcome (t NodeTy EdgeTy) :=
  let s := LC_CSR_Graph.structureFromGraph node_default graph in
  match initialize_shared new symmetric with
  | Some i => Loaded (mk s i) (LC_CSR_InOutGraph.super_allocations graph)
  | None => Aborted (LC_CSR_InOutGraph.super_allocations graph)
  end.

(** [structureFromGraph (graph, transpose)]. *)
Definition structureFromGraph (node_default : NodeTy)
    (graph transpose : FileGraph.t EdgeTy) : Outcome (t NodeTy EdgeTy) :=
  if decide (FileGraph.size graph ≠ FileGraph.size transpose)
  then Fatal "number of nodes in graph and its transpose do not match" []
  else if decide (FileGraph.sizeEdges graph ≠ FileGraph.sizeEdges transpose)
  then Fatal "number of edges in graph and its transpose do not match" []
  else Loaded (mk (LC_CSR_Graph.structureFromGraph node_default graph)
                  (initialize new transpose))
              (LC_CSR_InOutGraph.super_allocations graph
                 ++ LC_CSR_InOutGraph.initialize_allocations transpose).

End graph.
End LC_CSR_InOutGraph_members.

(* ===================================================================== *)
(** ** LC_CSRInline_Graph: the other members *)
(* ===================================================================== *)

Module LC_CSRInline_Graph_members.
Import Runtime LC_CSRInline_Graph.
Local Open Scope Z_scope.

Section graph.
Context {NodeTy EdgeTy : Type}.
Implicit Types g : LC_CSRInline_Graph.t NodeTy EdgeTy.

Definition getData g (N : Z) (mflag : MethodFlag) : M NodeTy :=
  checkWrite mflag false;;
  acquire N mflag;;
  lift (data <$> aget (nodeData g) N).

(** [ni->get ()]: the payload, which is there once [construct] has run. *)
Definition getEdgeData g (ni : Z) (mflag : MethodFlag) : M EdgeTy :=
  checkWrite mflag false;;
  lift (e ← aget (edgeData g) ni; payload e).

Definition size g : Z := numNodes g.
Definition sizeEdges g : Z := numEdges g.

(** The edges of [N] read back by [getEdgeDst] and [getEdgeData], in the
    order of [out_edges (N, mflag)]. *)
Definition edges_of g (N : Z) (mflag : MethodFlag)
    : M (list (Z * EdgeTy)) :=
  es ← out_edges g N mflag;
  mapM (λ ni, d ← lift (getEdgeDst g ni);
              w ← getEdgeData g ni NONE;
              mret (d, w)) es.

End graph.
End LC_CSRInline_Graph_members.

(* ===================================================================== *)
(** ** LC_Linear_Graph and LC_Numa_Graph: the other members *)
(* ===================================================================== *)

Module LinearLayout_members.
Import Runtime LinearLayout.
Local Open Scope Z_scope.

Section layout.
Context {NodeTy EdgeTy : Type}.
Context (SN SE : Z).
Implicit Types (m : Mem NodeTy EdgeTy) (p : nat * Z).

(** [N->getData ()] and [ni->get ()]. *)
Definition data_of m p : option NodeTy :=
  c ← cells m !! p;
  match c with NodeCell d _ => Some d | EdgeCell _ _ => None end.

Definition payload_of m p : option EdgeTy :=
  c ← cells m !! p;
  match c with EdgeCell _ w => w | NodeCell _ _ => None end.

Definition getData m (N : nat * Z) (mflag : MethodFlag) : M NodeTy :=
  checkWrite mflag false;;
  acquire (lockable_of N) mflag;;
  lift (data_of m N).

Definition getEdgeData m (ni : nat * Z) (mflag : MethodFlag) : M EdgeTy :=
  checkWrite mflag false;;
  lift (payload_of m ni).

(** The loop of [getEdgeIdx] over the edges [es] of [src]; [Some None] is
    the null pointer it returns when no edge leads to [dst]. *)
Fixpoint getEdgeIdx_loop m (es : list (nat * Z)) (dst : nat * Z)
    : option (option (nat * Z)) :=
  match es with
  | [] => Some None
  | eb :: rest =>
      d ← dst_of m eb;
      if decide (d = dst) then Some (Some eb)
      else getEdgeIdx_loop m rest dst
  end.

Definition getEdgeIdx m (src dst : nat * Z) : option (option (nat * Z)) :=
  ee ← edgeEnd SN SE m src;
  es ← edge_range SE (edgeBegin SN src) ee;
  getEdgeIdx_loop m es dst.

(** The edges of [N] read back by [getEdgeDst] and [getEdgeData], in the
    order of [out_edges (N, mflag)]. *)
Definition edges_of m (N : nat * Z) (mflag : MethodFlag)
    : M (list ((nat * Z) * EdgeTy)) :=
  es ← out_edges SN SE m N mflag;
  mapM (λ ni, d ← lift (getEdgeDst m ni);
              w ← getEdgeData m ni NONE;
              mret (d, w)) es.

(** The edges [nb] of the structural graph with every destination replaced
    by its node pointer: what [edges_of] is to read back. *)
Definition resolve (ps : list (nat * Z)) (nb : list (Z * EdgeTy))
    : option (list ((nat * Z) * EdgeTy)) :=
  mapM (λ e, q ← aget ps e.1; Some (q, e.2)) nb.

(** The records an accessor of a linear layout takes for the nodes [ns]. *)
Definition pointer_trace (mflag : MethodFlag) (ns : list (nat * Z))
    : list Z :=
  node_trace mflag (lockable_of <$> ns).

(** What [edges_of] acquires: the node in [edge_begin], then its
    neighbours when the policy asks for them, then the node again in
    [edge_end]. *)
Definition edges_trace (mflag : MethodFlag) (N : nat * Z)
    (dsts : list (nat * Z)) : list Z :=
  (pointer_trace mflag [N] ++
   (if shouldLock mflag then pointer_trace mflag dsts else []))
  ++ pointer_trace mflag [N].

End layout.
End LinearLayout_members.

(* ===================================================================== *)
(** ** Which arena a node of LC_Numa_Graph lies in *)
(* ===================================================================== *)

Module Locality.
Import LC_Numa_Graph.
Local Open Scope Z_scope.

(** The node with number [i], at [p], lies in the arena of thread [tid], to
    whose range [distribute] has given it, a whole number of [NodeInfo]
    after the header. *)
Definition local_to (SN SH : Z) (ds : list DistributeInfo) (tid : nat)
    (i : nat) (p : nat * Z) : Prop :=
  ∃ d, ds !! tid = Some d ∧ d_numNodes d ≠ 0
       ∧ d_begin d ≤ Z.of_nat i < d_end d
       ∧ p.1 = tid ∧ (SN | p.2 - SH).

End Locality.

(* ===================================================================== *)
(** ** Where [distribute] ends the range of a thread *)
(* ===================================================================== *)

Module Balance.
Import LC_Numa_Graph.
Local Open Scope Z_scope.

Section balance.
Context {EdgeTy : Type} (SN SE : Z).
Context (a : list (list (Z * EdgeTy))).

(** The bytes of the first [k] nodes and their edges: [curSize] when the
    loop of [distribute] stands at node [k]. *)
Definition prefix_size (k : nat) : Z := SN * Z.of_nat k + SE * before a k.

(** A range that ends at [e] ends with the node at which the running size
    reaches [share]. *)
Definition reaches (share e : Z) : Prop :=
  ∃ k : nat, e = Z.of_nat (S k)
             ∧ prefix_size k < share ≤ prefix_size (S k).

(** The entries written before thread [tid] end where their share is
    reached, and the range in progress has not reached the share of
    [tid]. *)
Definition Balanced (blockSize n : Z) (tid : nat) (v : Vars) : Prop :=
  (∀ (t : nat) d, (t < tid)%nat → dinfo v !! t = Some d →
     d_numNodes d ≠ 0 →
     reaches (u64 ((Z.of_nat t + 1) * blockSize)) (d_end d))
  ∧ (nnodes v ≠ 0 → ii v ≠ n →
     ∃ k : nat, ii v = Z.of_nat (S k)
                ∧ prefix_size k < u64 ((Z.of_nat tid + 1) * blockSize)).

End balance.
End Balance.

(* ===================================================================== *)
(** ** LC_Numa_Graph: the local iterator *)
(* ===================================================================== *)

Module LC_Numa_Graph_members.
Import Runtime LinearLayout LC_Numa_Graph.
Local Open Scope Z_scope.

(** [local_iterator]: the thread [tid], the header [p] (the arena whose
    first bytes it is, or [None] for the null pointer) and the node [v].
    The field [headers] is the one of the graph in every iterator made by
    [local_begin] and [local_end], and is left out. *)
Record local_iterator := mkIt {
  it_tid : nat;
  it_p : option nat;
  it_v : option (nat * Z)
}.

#[global] Instance local_iterator_eq_dec : EqDecision local_iterator.
Proof. solve_decision. Defined.

Section graph.
Context {NodeTy EdgeTy : Type} (SN SE : Z).
Implicit Types (g : t NodeTy EdgeTy) (it : local_iterator).

(** Modelled from the spec: [headers->size ()] is the number of entries of
    the per-thread storage, and [*headers->getRemote (tid)] is the entry of
    thread [tid], null until [AllocateNodes] has set it. *)
Definition header_ptr g (tid : nat) : option nat :=
  match headers g !! tid with
  | Some (Some _) => Some tid
  | _ => None
  end.

(** [*p] for a header pointer. *)
Definition header_at g (p : nat) : option Header := mjoin (headers g !! p).

(** [init_thread]: [p] is the header of [tid] when [tid] is in range, [v]
    its [begin]; the result is [p != 0]. *)
Definition init_thread g (tid : nat) : option (bool * local_iterator) :=
  let p := if decide (tid < length (headers g))%nat
           then header_ptr g tid else None in
  match p with
  | Some hp => h ← header_at g hp; Some (true, mkIt tid p (Some (h_begin h)))
  | None => Some (false, mkIt tid None None)
  end.

(** [advance_local]: [v = v->next (); return v != p->end], or [false] when
    [p] is null.  [None]: [v] is not a node that has been laid out. *)
Definition advance_local g it : option (bool * local_iterator) :=
  match it_p it with
  | Some hp =>
      v ← it_v it;
      v' ← next SN SE (mem g) v;
      h ← header_at g hp;
      Some (bool_decide (v' ≠ h_end h), mkIt (it_tid it) (it_p it) (Some v'))
  | None => Some (false, it)
  end.

(** [advance_thread]: [while (tid < headers->size ()) { ++tid; if
    (init_thread ()) return; }]. *)
Fixpoint advance_thread_loop g (fuel : nat) it : option local_iterator :=
  if decide (it_tid it < length (headers g))%nat
  then match fuel with
       | O => None
       | S fuel' =>
           '(ok, it1) ← init_thread g (S (it_tid it));
           if ok : bool then Some it1 else advance_thread_loop g fuel' it1
       end
  else Some it.

Definition advance_thread g it : option local_iterator :=
  advance_thread_loop g (length (headers g) - it_tid it) it.

Definition advance g it : option local_iterator :=
  '(more, it1) ← advance_local g it;
  if more : bool then Some it1 else advance_thread g it1.

(** [local_iterator (headers, tid)]: "find first valid item". *)
Definition local_iterator_new g (tid : nat) : option local_iterator :=
  '(ok, it) ← init_thread g tid;
  if ok : bool then Some it else advance_thread g it.

(** [local_begin] and [local_end] on thread [tid]
    ([Galois::Runtime::LL::getTID ()]). *)
Definition local_begin g (tid : nat) : option local_iterator :=
  local_iterator_new g tid.

Definition local_end g (tid : nat) : option local_iterator :=
  local_iterator_new g (S tid).

(** The loop [for (it = b; it != e; ++it)] over the node of [it]: the
    nodes it meets, at most [fuel] of them. *)
Fixpoint visit g (fuel : nat) (it e : local_iterator)
    : option (list (option (nat * Z))) :=
  if decide (it = e) then Some []
  else match fuel with
       | O => None
       | S fuel' =>
           it1 ← advance g it;
           rest ← visit g fuel' it1 e;
           Some (it_v it :: rest)
       end.

(** The nodes of one pass from [local_begin] to [local_end] on thread
    [tid]. *)
Definition local_nodes g (tid : nat) : option (list (option (nat * Z))) :=
  b ← local_begin g tid;
  e ← local_end g tid;
  visit g (S (Z.to_nat (numNodes g))) b e.

End graph.
End LC_Numa_Graph_members.

(* ===================================================================== *)
(** ** The nodes one thread lays out, one after the other *)
(* ===================================================================== *)

Module LocalChain.
Import LinearLayout LC_Numa_Graph.
Local Open Scope Z_scope.

Section chain.
Context {EdgeTy : Type} (SN SE : Z).

(** [next ()] of a node at [p] with the edges [nb]. *)
Definition next_of (p : nat * Z) (nb : list (Z * EdgeTy)) : nat * Z :=
  let ee := p.2 + SN + Z.of_nat (length nb) * SE in
  (p.1, next_loop SN (Z.to_nat (ee - p.2)) p.2 ee).

(** The places of nodes with the edges [nbs], laid out from [cur] on. *)
Fixpoint chain (cur : nat * Z) (nbs : list (list (Z * EdgeTy)))
    : list (nat * Z) :=
  match nbs with
  | [] => []
  | nb :: rest => cur :: chain (next_of cur nb) rest
  end.

(** Where the node after them would go. *)
Fixpoint chain_end (cur : nat * Z) (nbs : list (list (Z * EdgeTy)))
    : nat * Z :=
  match nbs with
  | [] => cur
  | nb :: rest => chain_end (next_of cur nb) rest
  end.

(** The edge lists of the nodes that [distribute] gave to a thread. *)
Definition thread_nbs (a : list (list (Z * EdgeTy))) (d : DistributeInfo)
    : list (list (Z * EdgeTy)) :=
  if decide (d_numNodes d = 0) then []
  else take (Z.to_nat (d_end d - d_begin d)) (drop (Z.to_nat (d_begin d)) a).

(** Node [i] is in the range of an entry that has nodes. *)
Definition in_range (d : DistributeInfo) (i : nat) : Prop :=
  d_numNodes d ≠ 0 ∧ d_begin d ≤ Z.of_nat i < d_end d.

(** What [AllocateNodes] of thread [tid] leaves: the header of the arena,
    which begins after the header and ends after the last node, and the
    nodes of the range of [tid], one after the other from [begin] on. *)
Definition laid_out (SH : Z) (a : list (list (Z * EdgeTy)))
    (hs : list (option Header)) (nodes : list (option (nat * Z)))
    (tid : nat) (d : DistributeInfo) : Prop :=
  (∃ size, hs !! tid
           = Some (Some (mkHeader (tid, SH)
                           (chain_end (tid, SH) (thread_nbs a d)) size)))
  ∧ ∀ (j : nat) q, chain (tid, SH) (thread_nbs a d) !! j = Some q →
      nodes !! (Z.to_nat (d_begin d) + j)%nat = Some (Some q).

End chain.
End LocalChain.

(* ===================================================================== *)
(** ** How far a call of getNhoodItem is from its return *)
(* ===================================================================== *)

Module Progress.
Import NhoodMgrBase.

(** The steps [PtrBasedNhoodMgr::getNhoodItem] has left at most, the one at
    [pc] included. *)
Definition ptr_remaining (pc : PtrBasedNhoodMgr.Pc) : nat :=
  match pc with
  | PtrBasedNhoodMgr.AtCheck _ => 6
  | PtrBasedNhoodMgr.AtCreate _ => 5
  | PtrBasedNhoodMgr.AtCAS _ _ => 4
  | PtrBasedNhoodMgr.AtPush _ _ | PtrBasedNhoodMgr.AtDestroy _ _ => 3
  | PtrBasedNhoodMgr.AtAssert _ => 2
  | PtrBasedNhoodMgr.AtRet _ => 1
  end.

(** The places where [MapBasedNhoodMgr::getNhoodItem] takes the lock. *)
Definition map_locking (pc : MapBasedNhoodMgr.Pc) : bool :=
  match pc with
  | MapBasedNhoodMgr.AtReadLock1 _ | MapBasedNhoodMgr.AtWriteLock _
  | MapBasedNhoodMgr.AtReadLock2 _ => true
  | _ => false
  end.

(** Between [readLock] and [readUnlock]. *)
Definition in_read (pc : MapBasedNhoodMgr.Pc) : bool :=
  match pc with
  | MapBasedNhoodMgr.AtFind1 _ | MapBasedNhoodMgr.AtReadUnlock1 _
  | MapBasedNhoodMgr.AtFind3 _ | MapBasedNhoodMgr.AtReadUnlock2 _ _ => true
  | _ => false
  end.

(** The threads that hold the lock as readers. *)
Definition reading (s : MapBasedNhoodMgr.State) : gset nat :=
  dom (filter (λ kv, in_read kv.2 = true) (MapBasedNhoodMgr.pcs s)).

(** The lock counts its readers, and is held by a writer only while a
    thread is in the write-locked section. *)
Record LockInv (s : MapBasedNhoodMgr.State) : Prop := {
  lock_readers :
    MapBasedNhoodMgr.readers (MapBasedNhoodMgr.map_mutex (MapBasedNhoodMgr.mgr s))
    = size (reading s);
  lock_writer :
    MapBasedNhoodMgr.writer (MapBasedNhoodMgr.map_mutex (MapBasedNhoodMgr.mgr s))
    = true →
    ∃ t pc, MapBasedNhoodMgr.pcs s !! t = Some pc
            ∧ MapBasedNhoodMgr.in_write pc = true
}.

End Progress.

(* ===================================================================== *)
(** ** LC_Linear_Graph: sorting the edges of a node *)
(* ===================================================================== *)

Module LC_Linear_Graph_sort.
Import Runtime LinearLayout LinearLayout_members.
Local Open Scope Z_scope.

Section layout.
Context {NodeTy EdgeTy : Type} (SN SE : Z).
Implicit Types (m : Mem NodeTy EdgeTy) (p : nat * Z).

(** The [EdgeInfo] at [ni]: its destination and its payload. *)
Definition edge_at m (ni : nat * Z) : option ((nat * Z) * EdgeTy) :=
  d ← dst_of m ni; w ← payload_of m ni; Some (d, w).

(** The [EdgeInfo]s [es] written over the positions [ps]. *)
Fixpoint write_edges (ps : list (nat * Z)) (es : list ((nat * Z) * EdgeTy))
    m : option (Mem NodeTy EdgeTy) :=
  match ps, es with
  | [], [] => Some m
  | p :: ps', e :: es' =>
      m1 ← store p SE (EdgeCell e.1 (Some e.2)) m;
      write_edges ps' es' m1
  | _, _ => None
  end.

(** An edge of the structural graph with its destination replaced by the
    pointer of that node. *)
Definition resolve_one (ps : list (nat * Z)) (e : Z * EdgeTy)
    : (nat * Z) * EdgeTy :=
  (default (0%nat, 0) (ps !! Z.to_nat e.1), e.2).

(** [std::sort (N->edgeBegin (), N->edgeEnd (), less)]: the [EdgeInfo]s of
    [N], destination and payload together, put in the order of [less]
    (a merge sort, as for [LC_CSR_Graph]). *)
Definition sort_range m (N : nat * Z)
    (less : (nat * Z) * EdgeTy → (nat * Z) * EdgeTy → bool)
    : option (Mem NodeTy EdgeTy) :=
  ee ← edgeEnd SN SE m N;
  ps ← edge_range SE (edgeBegin SN N) ee;
  vs ← mapM (edge_at m) ps;
  write_edges ps (LC_CSR_Graph.std_sort less vs) m.

(** Modelled from the spec: [EdgeSortCompWrapper] (Galois/Graph/Util.h) is
    not under src/; it compares two [EdgeInfo]s by their payloads. *)
Definition EdgeSortCompWrapper (comp : EdgeTy → EdgeTy → bool)
    (a b : (nat * Z) * EdgeTy) : bool :=
  comp a.2 b.2.

Definition sortEdgesByEdgeData m (N : nat * Z)
    (comp : EdgeTy → EdgeTy → bool) (mflag : MethodFlag)
    : M (Mem NodeTy EdgeTy) :=
  acquire (lockable_of N) mflag;;
  lift (sort_range m N (EdgeSortCompWrapper comp)).

Definition sortEdges m (N : nat * Z)
    (comp : (nat * Z) * EdgeTy → (nat * Z) * EdgeTy → bool)
    (mflag : MethodFlag) : M (Mem NodeTy EdgeTy) :=
  acquire (lockable_of N) mflag;;
  lift (sort_range m N comp).

End layout.
End LC_Linear_Graph_sort.

(* ===================================================================== *)
(** * Proofs: the neighbourhood managers *)
(* ===================================================================== *)

Module NhoodMgrFacts.
Import LockManagerBase OrdLocBase NhoodMgrBase.

Lemma all_records_push t p b :
  all_records (push_back t p b) ≡ₚ p :: all_records b.
Proof.
  unfold all_records, push_back, bag; simpl.
  destruct (allNItems b !! t) as [l|] eqn:E; simpl.
  - rewrite <- (insert_delete_eq (allNItems b) t (p :: l)).
    rewrite map_to_list_insert by apply lookup_delete_eq.
    rewrite <- (map_to_list_delete _ _ _ E). reflexivity.
  - rewrite map_to_list_insert by done. reflexivity.
Qed.

Lemma fresh_not_live (m : gmap positive NItem) : m !! fresh (dom m) = None.
Proof. apply not_elem_of_dom, is_fresh. Qed.



Lemma race_owned l cs w c :
  getOwner l w = Some c →
  race l cs w = (replicate (length cs) false, w).
Proof.
  intros Ho. induction cs as [|c' cs IH]; simpl; [done|].
  unfold tryMappingTo, CASowner. unfold getOwner, LockManagerBase.getOwner in Ho.
  rewrite decide_False by congruence. by rewrite IH.
Qed.

Lemma race_unowned l c cs w :
  getOwner l w = None →
  race l (c :: cs) w =
    (true :: replicate (length cs) false,
     mkWords (<[l := c]> (owner w)) (lockbit w)).
Proof.
  intros Ho. simpl. unfold tryMappingTo, CASowner.
  unfold getOwner, LockManagerBase.getOwner in Ho.
  rewrite decide_True by done.
  erewrite race_owned; [done|].
  unfold getOwner, LockManagerBase.getOwner. simpl. apply lookup_insert_eq.
Qed.

Lemma filter_replicate_false n :
  filter (λ r, r = true) (replicate n false) = [] ∧
  filter (λ r, r = false) (replicate n false) = replicate n false.
Proof.
  induction n as [|n [IH1 IH2]]; simpl; [done|].
  rewrite filter_cons_False by done. rewrite filter_cons_True by done.
  by rewrite IH1, IH2.
Qed.

Lemma race_one_winner l contenders w K :
  length contenders = K → 1 ≤ K → getOwner l w = None →
  ∃ c, head contenders = Some c ∧
    (race l contenders w).1 = true :: replicate (K - 1) false ∧
    successes (race l contenders w).1 = 1 ∧
    failures (race l contenders w).1 = K - 1 ∧
    ∀ n, 1 ≤ n ≤ K →
      getOwner l (race l (take n contenders) w).2 = Some c.
Proof.
  intros HK H1 Ho. destruct contenders as [|c cs]; simpl in HK; [lia|].
  exists c. split; [done|]. rewrite race_unowned by done. simpl.
  replace (K - 1) with (length cs) by lia.
  destruct (filter_replicate_false (length cs)) as [F1 F2].
  unfold successes, failures.
  rewrite filter_cons_True by done. rewrite filter_cons_False by done.
  rewrite F1, F2. simpl. rewrite length_replicate.
  repeat split; try done.
  intros n Hn. destruct n as [|n]; [lia|]. simpl take.
  rewrite race_unowned by done. simpl.
  unfold getOwner, LockManagerBase.getOwner. simpl. apply lookup_insert_eq.
Qed.



End NhoodMgrFacts.

Module PtrFacts.
Import LockManagerBase OrdLocBase NhoodMgrBase PtrBasedNhoodMgr NhoodMgrFacts.

Lemma ptr_init_inv : Inv init.
Proof.
  constructor; simpl; try done.
  - unfold all_records; simpl. rewrite map_to_list_empty. simpl. set_solver.
  - unfold all_records; simpl. rewrite map_to_list_empty. constructor.
  - set_solver.
Qed.

Section ptr_steps.
Context (s : State) (I : Inv s).
Let Ilock := inv_lock s I.
Let Ilive := inv_held_live s I.
Let Idist := inv_held_distinct s I.
Let Ihbag := inv_held_bag s I.
Let Ipush := inv_push s I.
Let Ipriv := inv_private s I.
Let Iolive := inv_owner_live s I.
Let Iobag := inv_owner_bag s I.
Let Ibag := inv_bag s I.
Let Inodup := inv_nodup s I.
Let Iitems := inv_items s I.
Let Iret := inv_ret s I.
Let Ipost := inv_post s I.

Lemma ptr_goto_same_inv t pc pc' :
  pcs s !! t = pc →
  (∀ p, held pc' = Some p ↔ ∃ pc0, pc = Some pc0 ∧ held pc0 = Some p) →
  (∀ l p, pc' = AtPush l p ↔ pc = Some (AtPush l p)) →
  (∀ pc0 p, pc = Some pc0 → held pc0 = Some p → callee pc' = callee pc0) →
  (past_cas pc' = true → is_Some (own s !! callee pc')) →
  Inv (goto t pc' (base s) s).
Proof.
  intros <- Hh Hp Hc Hpost. unfold goto.
  constructor; simpl; eauto.
  - intros t0 pc0 p [[-> <-]|[? H]]%lookup_insert_Some Hp0; eauto.
    apply Hh in Hp0 as (pc0 & Hpc0 & Hp0). erewrite Hc; eauto.
  - intros t0 t1 pc0 pc1 p H0 H1 Hp0 Hp1.
    destruct (decide (t0 = t1)) as [|Hne]; [done|]. exfalso. apply Hne.
    apply lookup_insert_Some in H0 as [[-> <-]|[? H0]];
      apply lookup_insert_Some in H1 as [[? <-]|[? H1]]; try done.
    + apply Hh in Hp0 as (pc0 & Hpc0 & Hp0). eauto.
    + apply Hh in Hp1 as (pc1 & Hpc1 & Hp1). subst t1. eauto.
    + eauto.
  - intros t0 pc0 p [[-> <-]|[? H]]%lookup_insert_Some Hp0; eauto.
    apply Hh in Hp0 as (pc0 & Hpc0 & Hp0). eauto.
  - intros t0 l p [[-> Heq]|[? H]]%lookup_insert_Some; eauto.
    eapply Ipush, Hp. done.
  - intros t0 pc0 p l [[-> <-]|[? H]]%lookup_insert_Some Hp0 Ho; eauto.
    apply Hh in Hp0 as (pc0 & Hpc0 & Hp0).
    apply Hp. rewrite Hpc0. f_equal. eauto.
  - intros l p Ho. destruct (Iobag _ _ Ho) as [?|[t' ?]]; eauto.
    right. destruct (decide (t' = t)) as [->|].
    + exists t. rewrite lookup_insert_eq. f_equal. apply Hp. congruence.
    + exists t'. rewrite lookup_insert_ne; [done|congruence].
  - intros p ni Hi. destruct (Iitems _ _ Hi) as [?|(t'&pc0&?&?)]; eauto.
    right. destruct (decide (t' = t)) as [->|].
    + exists t, pc'. rewrite lookup_insert_eq. split; [done|].
      apply Hh. eauto.
    + exists t', pc0. rewrite lookup_insert_ne; [done|congruence].
  - intros t0 pc0 [[-> <-]|[? H]]%lookup_insert_Some; eauto.
Qed.


Lemma ptr_create_inv t l :
  pcs s !! t = Some (AtCreate l) →
  Inv (goto t (AtCAS l (create l (base s)).1) (create l (base s)).2 s).
Proof.
  intros Hpc. unfold goto, create; simpl.
  pose proof (fresh_not_live (its s)) as Hf.
  set (p := fresh (dom (its s))) in *.
  assert (Hold : ∀ t0 pc0 p0, pcs s !! t0 = Some pc0 → held pc0 = Some p0 →
            p0 ≠ p).
  { intros t0 pc0 p0 H0 Hh ->. rewrite (Ilive _ _ _ H0 Hh) in Hf. done. }
  assert (Hown : ∀ l0, own s !! l0 ≠ Some p).
  { intros l0 H0. rewrite (Iolive _ _ H0) in Hf. done. }
  constructor; simpl; eauto.
  - intros t0 pc0 p0 [[-> <-]|[? H]]%lookup_insert_Some Hp0; simplify_eq/=.
    + apply lookup_insert_eq.
    + rewrite lookup_insert_ne; eauto. intros <-. by eapply Hold.
  - intros t0 t1 pc0 pc1 p0 H0 H1 Hp0 Hp1.
    destruct (decide (t0 = t1)) as [|Hne]; [done|]. exfalso.
    apply lookup_insert_Some in H0 as [[-> <-]|[? H0]];
      apply lookup_insert_Some in H1 as [[? <-]|[? H1]]; simplify_eq/=.
    + by eapply Hold.
    + by eapply Hold.
    + apply Hne; eauto.
  - intros t0 pc0 p0 [[-> <-]|[? H]]%lookup_insert_Some Hp0; simplify_eq/=.
    + intros [l0 Hl0]%Ibag. by eapply Hown.
    + eapply Ihbag; eauto.
  - intros t0 l0 p0 [[-> ?]|[? H]]%lookup_insert_Some; simplify_eq/=; eauto.
  - intros t0 pc0 p0 l0 [[-> <-]|[? H]]%lookup_insert_Some Hp0 Ho;
      simplify_eq/=; eauto. by eapply Hown in Ho.
  - intros l0 p0 Ho. rewrite lookup_insert_ne; eauto. intros <-.
    by eapply Hown.
  - intros l0 p0 Ho. destruct (Iobag _ _ Ho) as [?|[t' Ht']]; eauto.
    right. exists t'. rewrite lookup_insert_ne; [done|congruence].
  - intros p0 ni [[<- <-]|[? H]]%lookup_insert_Some.
    + right. exists t, (AtCAS l p). by rewrite lookup_insert_eq.
    + destruct (Iitems _ _ H) as [?|(t'&pc0&?&?)]; eauto.
      right. exists t', pc0. rewrite lookup_insert_ne; [done|].
      intros ->. by simplify_eq/=.
  - intros t0 pc0 [[-> <-]|[? H]]%lookup_insert_Some; simplify_eq/=; eauto.
    done.
Qed.

Lemma ptr_cas_won_inv t l p :
  pcs s !! t = Some (AtCAS l p) → own s !! l = None →
  Inv (goto t (AtPush l p)
         (set_mem (mkWords (<[l := p]> (own s)) (lockbit (mem (base s))))
            (base s)) s).
Proof.
  intros Hpc Ho. unfold goto, set_mem; simpl.
  pose proof (Ilive _ _ _ Hpc eq_refl) as Hlive; simpl in Hlive.
  assert (Hnot : ∀ l0, own s !! l0 ≠ Some p).
  { intros l0 H0. by pose proof (Ipriv _ _ _ _ Hpc eq_refl H0). }
  constructor; simpl; eauto.
  - intros t0 pc0 p0 [[-> <-]|[? H]]%lookup_insert_Some Hp0; simplify_eq/=;
      eauto.
  - intros t0 t1 pc0 pc1 p0 H0 H1 Hp0 Hp1.
    destruct (decide (t0 = t1)) as [|Hne]; [done|]. exfalso. apply Hne.
    apply lookup_insert_Some in H0 as [[-> <-]|[? H0]];
      apply lookup_insert_Some in H1 as [[? <-]|[? H1]]; simplify_eq/=.
    + eapply (Idist _ t1); eauto; done.
    + eapply (Idist t0 _); eauto; done.
    + eauto.
  - intros t0 pc0 p0 [[-> <-]|[? H]]%lookup_insert_Some Hp0; simplify_eq/=.
    + eapply Ihbag; eauto; done.
    + eapply Ihbag; eauto.
  - intros t0 l0 p0 [[-> ?]|[? H]]%lookup_insert_Some; simplify_eq/=.
    + apply lookup_insert_eq.
    + rewrite lookup_insert_ne; eauto. intros <-.
      rewrite (Ipush _ _ _ H) in Ho. done.
  - intros t0 pc0 p0 l0 [[-> <-]|[? H]]%lookup_insert_Some Hp0
      [[<- <-]|[? Ho']]%lookup_insert_Some; simplify_eq/=; eauto.
    + by eapply Hnot in Ho'.
    + exfalso. eapply (H0 (Idist _ _ _ _ _ Hpc H eq_refl Hp0)).
  - intros l0 p0 [[<- <-]|[? Ho']]%lookup_insert_Some; eauto.
  - intros l0 p0 [[<- <-]|[? Ho']]%lookup_insert_Some.
    + right. exists t. by rewrite lookup_insert_eq.
    + destruct (Iobag _ _ Ho') as [?|[t' Ht']]; eauto.
      right. exists t'. rewrite lookup_insert_ne; [done|congruence].
  - intros p0 [l0 Hl0]%Ibag. exists l0. rewrite lookup_insert_ne; [done|].
    intros <-. congruence.
  - intros p0 ni Hi. destruct (decide (p0 = p)) as [->|Hne].
    { left. exists l. apply lookup_insert_eq. }
    destruct (Iitems _ _ Hi) as [[l0 Hl0]|(t'&pc0&?&?)].
    + left. exists l0. rewrite lookup_insert_ne; [done|]. intros <-. congruence.
    + right. exists t', pc0. rewrite lookup_insert_ne; [done|].
      intros ->. by simplify_eq/=.
  - intros t0 l0 r Hr%Iret. rewrite lookup_insert_ne; [done|].
    intros <-. congruence.
  - intros t0 pc0 [[-> <-]|[? H]]%lookup_insert_Some Hpast; simplify_eq/=.
    destruct (Ipost _ _ H Hpast) as [r Hr]. exists r.
    rewrite lookup_insert_ne; [done|]. intros Heq. rewrite <- Heq in Hr.
    congruence.
Qed.


Lemma ptr_push_inv t l p :
  pcs s !! t = Some (AtPush l p) →
  Inv (goto t (AtAssert l) (push_back t p (base s)) s).
Proof.
  intros Hpc. unfold goto.
  pose proof (all_records_push t p (base s)) as Hperm.
  pose proof (Ipush _ _ _ Hpc) as Ho.
  constructor; simpl; eauto.
  - intros t0 pc0 p0 [[-> <-]|[? H]]%lookup_insert_Some Hp0; simplify_eq/=;
      eauto.
  - intros t0 t1 pc0 pc1 p0 H0 H1 Hp0 Hp1.
    apply lookup_insert_Some in H0 as [[-> <-]|[? H0]];
      apply lookup_insert_Some in H1 as [[? <-]|[? H1]]; simplify_eq/=.
    eauto.
  - intros t0 pc0 p0 [[-> <-]|[? H]]%lookup_insert_Some Hp0; simplify_eq/=.
    rewrite Hperm. intros [->|Hin]%elem_of_cons.
    + apply H0. eapply (Idist t t0); eauto; done.
    + eapply Ihbag; eauto.
  - intros t0 l0 p0 [[-> ?]|[? H]]%lookup_insert_Some; simplify_eq/=; eauto.
  - intros t0 pc0 p0 l0 [[-> <-]|[? H]]%lookup_insert_Some Hp0 Ho';
      simplify_eq/=; eauto.
  - intros l0 p0 Ho'. rewrite Hperm.
    destruct (Iobag _ _ Ho') as [?|[t' Ht']].
    + left. by apply elem_of_cons; right.
    + destruct (decide (t' = t)) as [->|]; simplify_eq.
      * left. by apply elem_of_cons; left.
      * right. exists t'. by rewrite lookup_insert_ne.
  - intros p0. rewrite Hperm. intros [->|Hin]%elem_of_cons; eauto.
  - rewrite Hperm. apply NoDup_cons. split; [|done].
    eapply Ihbag; eauto; done.
  - intros p0 ni Hi. destruct (Iitems _ _ Hi) as [?|(t'&pc0&?&?)]; eauto.
    destruct (decide (t' = t)) as [->|]; simplify_eq/=; eauto.
    right. exists t', pc0. by rewrite lookup_insert_ne.
  - intros t0 pc0 [[-> <-]|[? H]]%lookup_insert_Some Hpast; simplify_eq/=;
      eauto.
Qed.

Lemma ptr_destroy_inv t l p :
  pcs s !! t = Some (AtDestroy l p) →
  Inv (goto t (AtAssert l) (destroy p (base s)) s).
Proof.
  intros Hpc. unfold goto.
  assert (Hnot : ∀ l0, own s !! l0 ≠ Some p).
  { intros l0 H0. by pose proof (Ipriv _ _ _ _ Hpc eq_refl H0). }
  constructor; simpl; eauto.
  - intros t0 pc0 p0 [[-> <-]|[? H]]%lookup_insert_Some Hp0; simplify_eq/=.
    rewrite lookup_delete_ne; eauto. intros <-.
    apply H0. eapply (Idist t t0); eauto; done.
  - intros t0 t1 pc0 pc1 p0 H0 H1 Hp0 Hp1.
    apply lookup_insert_Some in H0 as [[-> <-]|[? H0]];
      apply lookup_insert_Some in H1 as [[? <-]|[? H1]]; simplify_eq/=.
    eauto.
  - intros t0 pc0 p0 [[-> <-]|[? H]]%lookup_insert_Some Hp0; simplify_eq/=.
    eapply Ihbag; eauto.
  - intros t0 l0 p0 [[-> ?]|[? H]]%lookup_insert_Some; simplify_eq/=; eauto.
  - intros t0 pc0 p0 l0 [[-> <-]|[? H]]%lookup_insert_Some Hp0 Ho';
      simplify_eq/=; eauto.
  - intros l0 p0 Ho'. rewrite lookup_delete_ne; eauto. intros <-.
    by eapply Hnot.
  - intros l0 p0 Ho'. destruct (Iobag _ _ Ho') as [?|[t' Ht']]; eauto.
    right. exists t'. rewrite lookup_insert_ne; [done|congruence].
  - intros p0 ni [Hne Hi]%lookup_delete_Some.
    destruct (Iitems _ _ Hi) as [?|(t'&pc0&?&?)]; eauto.
    right. exists t', pc0. rewrite lookup_insert_ne; [done|].
    intros ->. by simplify_eq/=.
  - intros t0 pc0 [[-> <-]|[? H]]%lookup_insert_Some Hpast; simplify_eq/=;
      eauto.
    eapply (Ipost _ _ Hpc). done.
Qed.

Lemma ptr_ret_inv t l r :
  pcs s !! t = Some (AtRet l) → own s !! l = Some r →
  Inv (mkState (base s) (delete t (pcs s)) ((t, l, r) :: returned s)).
Proof.
  intros Hpc Ho.
  constructor; simpl; eauto.
  - intros t0 pc0 p0 [? H]%lookup_delete_Some; eauto.
  - intros t0 t1 pc0 pc1 p0 [? H0]%lookup_delete_Some
      [? H1]%lookup_delete_Some; eauto.
  - intros t0 pc0 p0 [? H]%lookup_delete_Some; eauto.
  - intros t0 l0 p0 [? H]%lookup_delete_Some; eauto.
  - intros t0 pc0 p0 l0 [? H]%lookup_delete_Some; eauto.
  - intros l0 p0 Ho'. destruct (Iobag _ _ Ho') as [?|[t' Ht']]; eauto.
    right. exists t'. rewrite lookup_delete_ne; [done|congruence].
  - intros p0 ni Hi.
    destruct (Iitems _ _ Hi) as [?|(t'&pc0&?&?)]; eauto.
    right. exists t', pc0. rewrite lookup_delete_ne; [done|].
    intros ->. by simplify_eq/=.
  - intros t0 l0 r0 [?|?]%elem_of_cons; simplify_eq; eauto.
  - intros t0 pc0 [? H]%lookup_delete_Some; eauto.
Qed.

End ptr_steps.



Ltac ptr_same_inv :=
  eapply ptr_goto_same_inv;
  [ eassumption
  | eassumption
  | simpl; naive_solver
  | simpl; naive_solver
  | simpl; naive_solver
  | simpl; try done ].

Lemma ptr_exec_inv e s s' : Inv s → exec e s = Some s' → Inv s'.
Proof.
  intros I He. destruct e as [t l|t]; simpl in He.
  - destruct (pcs s !! t) eqn:Hpc; simplify_eq. by ptr_same_inv.
  - destruct (pcs s !! t) as [pc|] eqn:Hpc; simplify_eq/=.
    destruct pc; simpl in He.
    + (* AtCheck *)
      unfold getOwner, LockManagerBase.getOwner in He.
      destruct (own s !! l) eqn:Ho; simplify_eq; ptr_same_inv;
        try (intros _; by rewrite Ho).
    + simplify_eq. by apply (ptr_create_inv s I).
    + (* AtCAS *)
      unfold tryMappingTo, CASowner in He.
      destruct (decide (own s !! l = None)) as [Ho|Ho]; simplify_eq.
      * by apply ptr_cas_won_inv.
      * replace (set_mem (mem (base s)) (base s)) with (base s)
          by (by destruct (base s)).
        ptr_same_inv; try (intros _; by destruct (own s !! l)).
    + simplify_eq. by apply ptr_push_inv.
    + simplify_eq. by apply ptr_destroy_inv.
    + (* AtAssert *)
      unfold getOwner, LockManagerBase.getOwner in He.
      destruct (own s !! l) eqn:Ho; simplify_eq; ptr_same_inv;
        try (intros _; by rewrite Ho).
    + unfold getOwner, LockManagerBase.getOwner in He.
      destruct (own s !! l) eqn:Ho; simplify_eq. by apply ptr_ret_inv.
Qed.

Lemma ptr_run_inv sched s s' : Inv s → run sched s = Some s' → Inv s'.
Proof.
  revert s. induction sched as [|e sched IH]; simpl; intros s I Hr.
  - by simplify_eq.
  - destruct (exec e s) as [s1|] eqn:He; simplify_eq/=.
    eauto using ptr_exec_inv.
Qed.

Lemma ptr_reachable_inv sched s : run sched init = Some s → Inv s.
Proof. apply ptr_run_inv, ptr_init_inv. Qed.


Lemma ptr_exec_owner_stable e s s' l w :
  exec e s = Some s' → own s !! l = Some w → own s' !! l = Some w.
Proof.
  intros He Ho. destruct e as [t l0|t]; simpl in He.
  - destruct (pcs s !! t); by simplify_eq.
  - destruct (pcs s !! t) as [pc|]; simplify_eq/=.
    destruct pc; simpl in He; unfold getOwner, LockManagerBase.getOwner,
      tryMappingTo, CASowner in He;
      repeat case_match; simplify_eq/=; try done.
    rewrite lookup_insert_ne; [done|congruence].
Qed.

Lemma ptr_run_owner_stable sched s s' l w :
  run sched s = Some s' → own s !! l = Some w → own s' !! l = Some w.
Proof.
  revert s. induction sched as [|e sched IH]; simpl; intros s Hr Ho.
  - by simplify_eq.
  - destruct (exec e s) as [s1|] eqn:He; simplify_eq/=.
    eauto using ptr_exec_owner_stable.
Qed.

Lemma ptr_exec_other_pc e s s' t :
  exec e s = Some s' → thread_of e ≠ t → pcs s' !! t = pcs s !! t.
Proof.
  intros He Ht. destruct e as [t0 l0|t0]; simpl in *.
  - destruct (pcs s !! t0); simplify_eq/=. by rewrite lookup_insert_ne.
  - destruct (pcs s !! t0) as [pc|]; simplify_eq/=.
    destruct pc; simpl in He; repeat case_match; simplify_eq/=;
      by rewrite ?lookup_insert_ne, ?lookup_delete_ne.
Qed.

Lemma ptr_run_other_pc sched s s' t :
  run sched s = Some s' → others t sched = true → pcs s' !! t = pcs s !! t.
Proof.
  revert s. induction sched as [|e sched IH]; simpl; intros s Hr Hq.
  - by simplify_eq.
  - destruct (exec e s) as [s1|] eqn:He; simplify_eq/=.
    apply andb_true_iff in Hq as [Hq1 Hq2].
    rewrite (IH _ Hr Hq2). eapply ptr_exec_other_pc; eauto.
    intros <-. by rewrite Nat.eqb_refl in Hq1.
Qed.

Lemma ptr_unique sched s t1 t2 l r1 r2 :
  run sched init = Some s →
  (t1, l, r1) ∈ returned s → (t2, l, r2) ∈ returned s →
  r1 = r2 ∧ its s !! r1 = Some (construct l).
Proof.
  intros I%ptr_reachable_inv H1 H2.
  apply (inv_ret _ I) in H1, H2. split; [congruence|].
  by apply (inv_owner_live _ I).
Qed.

Lemma ptr_loser sched s t l ni w :
  run sched init = Some s →
  pcs s !! t = Some (AtCAS l ni) →
  getOwner l (mem (base s)) = Some w →
  ∃ s1, exec (Step t) s = Some s1 ∧
    pcs s1 !! t = Some (AtDestroy l ni) ∧ base s1 = base s ∧
  ∀ i1 s2, others t i1 = true → run i1 s1 = Some s2 →
    its s2 !! ni = Some (construct l) ∧ (ni ∉ recs s2) ∧
  ∃ s3, exec (Step t) s2 = Some s3 ∧
    its s3 !! ni = None ∧ (ni ∉ recs s3) ∧ allNItems (base s3) = allNItems (base s2) ∧
  ∀ i2 s4, others t i2 = true → run i2 s3 = Some s4 →
  ∃ s5, exec (Step t) s4 = Some s5 ∧
  ∀ i3 s6, others t i3 = true → run i3 s5 = Some s6 →
  ∃ s7, exec (Step t) s6 = Some s7 ∧
    returned s7 = (t, l, w) :: returned s6 ∧ pcs s7 !! t = None.
Proof.
  intros I%ptr_reachable_inv Hpc Ho. unfold getOwner, LockManagerBase.getOwner in Ho.
  assert (Hs1 : exec (Step t) s = Some (goto t (AtDestroy l ni) (base s) s)).
  { simpl. rewrite Hpc. simpl. unfold tryMappingTo, CASowner.
    rewrite decide_False by congruence. by destruct (base s). }
  eexists; split; [exact Hs1|]. simpl. rewrite lookup_insert_eq.
  split; [done|]. split; [done|].
  pose proof (ptr_exec_inv _ _ _ I Hs1) as I1.
  intros i1 s2 Hq1 Hr1.
  pose proof (ptr_run_inv _ _ _ I1 Hr1) as I2.
  pose proof (ptr_run_other_pc _ _ _ _ Hr1 Hq1) as Hpc2. simpl in Hpc2.
  rewrite lookup_insert_eq in Hpc2.
  assert (Ho2 : own s2 !! l = Some w) by (eapply ptr_run_owner_stable; eauto).
  split; [by apply (inv_held_live _ I2 _ _ _ Hpc2)|].
  split; [by apply (inv_held_bag _ I2 _ _ _ Hpc2)|].
  assert (Hs3 : exec (Step t) s2 = Some (goto t (AtAssert l) (destroy ni (base s2)) s2)).
  { simpl. by rewrite Hpc2. }
  eexists; split; [exact Hs3|]. simpl.
  split; [apply lookup_delete_eq|].
  split; [by apply (inv_held_bag _ I2 _ _ _ Hpc2)|]. split; [done|].
  pose proof (ptr_exec_inv _ _ _ I2 Hs3) as I3.
  intros i2 s4 Hq2 Hr2.
  pose proof (ptr_run_other_pc _ _ _ _ Hr2 Hq2) as Hpc4. simpl in Hpc4.
  rewrite lookup_insert_eq in Hpc4.
  assert (Ho4 : own s4 !! l = Some w).
  { eapply ptr_run_owner_stable; eauto. }
  assert (Hs5 : exec (Step t) s4 = Some (goto t (AtRet l) (base s4) s4)).
  { simpl. rewrite Hpc4. simpl. unfold getOwner, LockManagerBase.getOwner.
    by rewrite Ho4. }
  eexists; split; [exact Hs5|].
  intros i3 s6 Hq3 Hr3.
  pose proof (ptr_run_other_pc _ _ _ _ Hr3 Hq3) as Hpc6. simpl in Hpc6.
  rewrite lookup_insert_eq in Hpc6.
  assert (Ho6 : own s6 !! l = Some w).
  { eapply ptr_run_owner_stable; eauto. }
  eexists. split.
  { simpl. rewrite Hpc6. simpl. unfold getOwner, LockManagerBase.getOwner.
    by rewrite Ho6. }
  simpl. split; [done|]. apply lookup_delete_eq.
Qed.


End PtrFacts.

Module MapFacts.
Import LockManagerBase OrdLocBase NhoodMgrBase MapBasedNhoodMgr NhoodMgrFacts.

Lemma map_init_inv : Inv init.
Proof.
  constructor; simpl; try done.
  - unfold all_records; simpl. rewrite map_to_list_empty. simpl. set_solver.
  - unfold all_records; simpl. rewrite map_to_list_empty. constructor.
  - unfold all_records; simpl. rewrite map_to_list_empty. simpl. set_solver.
  - set_solver.
Qed.

Section map_steps.
Context (s : State) (I : Inv s).
Let Ilock := inv_lock s I.
Let Iown := inv_own s I.
Let Ilive := inv_held_live s I.
Let Ipush := inv_push s I.
Let Iinsert := inv_insert s I.
Let Imap := inv_map_live s I.
Let Iblive := inv_bag_live s I.
Let Inodup := inv_nodup s I.
Let Iitems := inv_items s I.
Let Ibmap := inv_bag_map s I.
Let Iret := inv_ret s I.
Let Ifound := inv_found s I.
Let Iwriter := inv_writer s I.
Let Iexcl := inv_excl s I.
Let Iabsent := inv_absent s I.
Let Ipresent := inv_present s I.

Lemma map_goto_same_inv t pc' k' :
  held pc' = None →
  (∀ pc0, pcs s !! t = Some pc0 → held pc0 = None) →
  (∀ i, found pc' = Some i → is_Some i ∧ nmap s !! callee pc' = i) →
  (creating pc' = true → nmap s !! callee pc' = None) →
  (past_insert pc' = true → is_Some (nmap s !! callee pc')) →
  (in_write pc' = true → writer k' = true) →
  (∀ t0 pc0, t0 ≠ t → pcs s !! t0 = Some pc0 → in_write pc0 = true →
     writer k' = true ∧ in_write pc' = false) →
  Inv (goto t pc' (set_lock k' (mgr s)) s).
Proof.
  intros Hh Hold Hf Hc Hp Hw Hx. unfold goto, set_lock.
  constructor; simpl; eauto.
  - intros t0 pc0 p [[-> <-]|[? H]]%lookup_insert_Some Hp0; simplify_eq/=;
      eauto.
  - intros t0 l p [[-> Heq]|[? H]]%lookup_insert_Some; simplify_eq/=; eauto.
  - intros t0 l p [[-> Heq]|[? H]]%lookup_insert_Some; simplify_eq/=; eauto.
  - intros p ni Hi. destruct (Iitems _ _ Hi) as [?|(t'&l&Ht')]; eauto.
    right. exists t', l. rewrite lookup_insert_ne; [done|].
    intros ->. by apply Hold in Ht'.
  - intros p Hin. destruct (Ibmap _ Hin) as [?|(t'&l&Ht')]; eauto.
    right. exists t', l. rewrite lookup_insert_ne; [done|].
    intros ->. by apply Hold in Ht'.
  - intros t0 pc0 i [[-> <-]|[? H]]%lookup_insert_Some; eauto.
  - intros t0 pc0 [[-> <-]|[? H]]%lookup_insert_Some Hw0; eauto.
    by eapply Hx.
  - intros t0 t1 pc0 pc1 H0 H1 Hw0 Hw1.
    destruct (decide (t0 = t1)) as [|Hne]; [done|]. exfalso.
    apply lookup_insert_Some in H0 as [[-> <-]|[? H0]];
      apply lookup_insert_Some in H1 as [[? <-]|[? H1]]; simplify_eq/=.
    + destruct (Hx t1 pc1); eauto. congruence.
    + destruct (Hx t0 pc0); eauto. congruence.
    + apply Hne; eauto.
  - intros t0 pc0 [[-> <-]|[? H]]%lookup_insert_Some; eauto.
  - intros t0 pc0 [[-> <-]|[? H]]%lookup_insert_Some; eauto.
Qed.

(** Frame conditions of the lock, in the shapes the steps need. *)
Lemma map_writer_kept t k' pc pc' :
  pcs s !! t = Some pc → writer k' = writer (map_mutex (mgr s)) →
  in_write pc' = in_write pc →
  (in_write pc' = true → writer k' = true) ∧
  (∀ t0 pc0, t0 ≠ t → pcs s !! t0 = Some pc0 → in_write pc0 = true →
     writer k' = true ∧ in_write pc' = false).
Proof.
  intros Hpc Hk Hw. split.
  - intros Hw'. rewrite Hk. eapply Iwriter; eauto; congruence.
  - intros t0 pc0 Hne H0 Hw0. split; [rewrite Hk; eauto|].
    rewrite Hw. destruct (in_write pc) eqn:E; [|done].
    exfalso. apply Hne. eauto.
Qed.


Lemma map_create_inv t l :
  pcs s !! t = Some (AtCreate l) →
  Inv (goto t (AtPush l (factory_create l (bs s)).1)
         (mkMgr (factory_create l (bs s)).2 (nmap s) (map_mutex (mgr s))) s).
Proof.
  intros Hpc. unfold goto, factory_create, create; simpl.
  pose proof (fresh_not_live (its s)) as Hf.
  set (p := fresh (dom (its s))) in *.
  assert (Hlive : ∀ p0, is_Some (its s !! p0) → p0 ≠ p).
  { intros p0 [ni Hni] ->. congruence. }
  constructor; simpl.
  - (* lock *) done.
  - (* own *) done.
  - (* held_live *)
    intros t0 pc0 p0 [[-> <-]|[? H]]%lookup_insert_Some Hp0; simplify_eq/=.
    + apply lookup_insert_eq.
    + rewrite lookup_insert_ne; eauto. intros <-. eapply Hlive; eauto.
  - (* push *)
    intros t0 l0 p0 [[-> Heq]|[? H]]%lookup_insert_Some; simplify_eq/=; eauto.
    intros Hin%Iblive. by eapply Hlive.
  - (* insert *)
    intros t0 l0 p0 [[-> Heq]|[? H]]%lookup_insert_Some; simplify_eq/=; eauto.
  - (* map_live *)
    intros l0 p0 [Hi Hin]%Imap. split; [|done].
    rewrite lookup_insert_ne; eauto. intros <-. eapply Hlive; eauto.
  - (* bag_live *)
    intros p0 Hin%Iblive. rewrite lookup_insert_ne; eauto.
    intros <-. by eapply Hlive.
  - (* nodup *) done.
  - (* items *)
    intros p0 ni [[<- <-]|[? H]]%lookup_insert_Some.
    + right. exists t, l. by rewrite lookup_insert_eq.
    + destruct (Iitems _ _ H) as [?|(t'&l'&Ht')]; eauto.
      right. exists t', l'. rewrite lookup_insert_ne; [done|congruence].
  - (* bag_map *)
    intros p0 Hin. destruct (Ibmap _ Hin) as [?|(t'&l'&Ht')]; eauto.
    right. exists t', l'. rewrite lookup_insert_ne; [done|congruence].
  - (* ret *) done.
  - (* found *)
    intros t0 pc0 i [[-> <-]|[? H]]%lookup_insert_Some; simplify_eq/=; eauto.
    done.
  - (* writer *)
    intros t0 pc0 [[-> <-]|[? H]]%lookup_insert_Some Hw0; eauto.
  - (* excl *)
    intros t0 t1 pc0 pc1 H0 H1 Hw0 Hw1.
    destruct (decide (t0 = t1)) as [|Hne]; [done|]. exfalso. apply Hne.
    apply lookup_insert_Some in H0 as [[-> <-]|[? H0]];
      apply lookup_insert_Some in H1 as [[? <-]|[? H1]]; simplify_eq/=; eauto.
  - (* absent *)
    intros t0 pc0 [[-> <-]|[? H]]%lookup_insert_Some Hc; simplify_eq/=; eauto.
    by apply (Iabsent _ _ Hpc).
  - (* present *)
    intros t0 pc0 [[-> <-]|[? H]]%lookup_insert_Some Hc; simplify_eq/=; eauto.
Qed.

Lemma map_push_inv t l p :
  pcs s !! t = Some (AtPush l p) →
  Inv (goto t (AtInsert l p)
         (mkMgr (push_back t p (bs s)) (nmap s) (map_mutex (mgr s))) s).
Proof.
  intros Hpc. unfold goto.
  pose proof (all_records_push t p (bs s)) as Hperm.
  assert (Hsolo : ∀ t0 pc0, t0 ≠ t → pcs s !! t0 = Some pc0 →
            in_write pc0 = false).
  { intros t0 pc0 Hne H0. destruct (in_write pc0) eqn:E; [|done].
    exfalso. apply Hne. eapply Iexcl; eauto. }
  constructor; simpl.
  - (* lock *) done.
  - (* own *) done.
  - (* held_live *)
    intros t0 pc0 p0 [[-> <-]|[? H]]%lookup_insert_Some Hp0; simplify_eq/=;
      eauto. by apply (Ilive _ _ _ Hpc).
  - (* push *)
    intros t0 l0 p0 [[-> Heq]|[? H]]%lookup_insert_Some; simplify_eq/=.
    by apply Hsolo in H.
  - (* insert *)
    intros t0 l0 p0 [[-> Heq]|[? H]]%lookup_insert_Some; simplify_eq/=;
      rewrite Hperm.
    + by left.
    + right. eauto.
  - (* map_live *)
    intros l0 p0 [Hi Hin]%Imap. split; [done|]. rewrite Hperm. by right.
  - (* bag_live *)
    intros p0. rewrite Hperm. intros [->|Hin]%elem_of_cons; [|by eauto].
    rewrite (Ilive _ _ _ Hpc eq_refl). eauto.
  - (* nodup *)
    rewrite Hperm. apply NoDup_cons. eauto.
  - (* items *)
    intros p0 ni Hi. rewrite Hperm.
    destruct (Iitems _ _ Hi) as [?|(t'&l'&Ht')].
    + left. by right.
    + destruct (decide (t' = t)) as [->|]; simplify_eq.
      * left. by left.
      * by apply Hsolo in Ht'.
  - (* bag_map *)
    intros p0. rewrite Hperm. intros [->|Hin]%elem_of_cons.
    + right. exists t, l. by rewrite lookup_insert_eq.
    + destruct (Ibmap _ Hin) as [?|(t'&l'&Ht')]; eauto.
      right. exists t', l'. rewrite lookup_insert_ne; [done|congruence].
  - (* ret *) done.
  - (* found *)
    intros t0 pc0 i [[-> <-]|[? H]]%lookup_insert_Some; simplify_eq/=; eauto.
    done.
  - (* writer *)
    intros t0 pc0 [[-> <-]|[? H]]%lookup_insert_Some Hw0; eauto.
  - (* excl *)
    intros t0 t1 pc0 pc1 H0 H1 Hw0 Hw1.
    destruct (decide (t0 = t1)) as [|Hne]; [done|]. exfalso. apply Hne.
    apply lookup_insert_Some in H0 as [[-> <-]|[? H0]];
      apply lookup_insert_Some in H1 as [[? <-]|[? H1]]; simplify_eq/=; eauto.
  - (* absent *)
    intros t0 pc0 [[-> <-]|[? H]]%lookup_insert_Some Hc; simplify_eq/=; eauto.
    by apply (Iabsent _ _ Hpc).
  - (* present *)
    intros t0 pc0 [[-> <-]|[? H]]%lookup_insert_Some Hc; simplify_eq/=; eauto.
Qed.

Lemma map_insert_inv t l p :
  pcs s !! t = Some (AtInsert l p) →
  Inv (goto t (AtWriteUnlock l)
         (mkMgr (bs s) (map_insert l p (nmap s)) (map_mutex (mgr s))) s).
Proof.
  intros Hpc. unfold goto.
  pose proof (Iabsent _ _ Hpc eq_refl) as Hno; simpl in Hno.
  unfold map_insert. rewrite Hno.
  assert (Hsolo : ∀ t0 pc0, t0 ≠ t → pcs s !! t0 = Some pc0 →
            in_write pc0 = false).
  { intros t0 pc0 Hne H0. destruct (in_write pc0) eqn:E; [|done].
    exfalso. apply Hne. eapply Iexcl; eauto. }
  assert (Hkeep : ∀ l0 i, is_Some i → nmap s !! l0 = i →
            <[l := p]> (nmap s) !! l0 = i).
  { intros l0 i [r ->] H0. rewrite lookup_insert_ne; [done|]. congruence. }
  constructor; simpl.
  - (* lock *) done.
  - (* own *) done.
  - (* held_live *)
    intros t0 pc0 p0 [[-> <-]|[? H]]%lookup_insert_Some Hp0; simplify_eq/=;
      eauto.
  - (* push *)
    intros t0 l0 p0 [[-> Heq]|[? H]]%lookup_insert_Some; simplify_eq/=; eauto.
  - (* insert *)
    intros t0 l0 p0 [[-> Heq]|[? H]]%lookup_insert_Some; simplify_eq/=; eauto.
  - (* map_live *)
    intros l0 p0 [[<- <-]|[? H]]%lookup_insert_Some; eauto.
    split; [by apply (Ilive _ _ _ Hpc)|eauto].
  - (* bag_live *) done.
  - (* nodup *) done.
  - (* items *)
    intros p0 ni Hi. destruct (Iitems _ _ Hi) as [?|(t'&l'&Ht')]; eauto.
    right. exists t', l'. rewrite lookup_insert_ne; [done|congruence].
  - (* bag_map *)
    intros p0 Hin. destruct (Ibmap _ Hin) as [[l0 Hl0]|(t'&l'&Ht')].
    + left. exists l0. apply Hkeep; eauto.
    + destruct (decide (t' = t)) as [->|]; simplify_eq.
      * left. exists l. apply lookup_insert_eq.
      * by apply Hsolo in Ht'.
  - (* ret *)
    intros t0 l0 r Hr%Iret. apply Hkeep; eauto.
  - (* found *)
    intros t0 pc0 i [[-> <-]|[? H]]%lookup_insert_Some Hf; simplify_eq/=.
    destruct (Ifound _ _ _ H Hf) as [Hs Hi]. split; [done|].
    by apply Hkeep.
  - (* writer *)
    intros t0 pc0 [[-> <-]|[? H]]%lookup_insert_Some Hw0; eauto.
  - (* excl *)
    intros t0 t1 pc0 pc1 H0 H1 Hw0 Hw1.
    destruct (decide (t0 = t1)) as [|Hne]; [done|]. exfalso. apply Hne.
    apply lookup_insert_Some in H0 as [[-> <-]|[? H0]];
      apply lookup_insert_Some in H1 as [[? <-]|[? H1]]; simplify_eq/=; eauto.
  - (* absent *)
    intros t0 pc0 [[-> <-]|[? H]]%lookup_insert_Some Hc; simplify_eq/=.
    apply Hsolo in H; [|done]. by destruct pc0.
  - (* present *)
    intros t0 pc0 [[-> <-]|[? H]]%lookup_insert_Some Hc; simplify_eq/=.
    + rewrite lookup_insert_eq. eauto.
    + destruct (Ipresent _ _ H Hc) as [r Hr]. exists r. apply Hkeep; eauto.
Qed.

Lemma map_ret_inv t l r :
  pcs s !! t = Some (AtRet l (Some r)) →
  Inv (mkState (mgr s) (delete t (pcs s)) ((t, l, r) :: returned s)).
Proof.
  intros Hpc.
  constructor; simpl.
  - (* lock *) done.
  - (* own *) done.
  - intros t0 pc0 p0 [? H]%lookup_delete_Some; eauto.
  - intros t0 l0 p0 [? H]%lookup_delete_Some; eauto.
  - intros t0 l0 p0 [? H]%lookup_delete_Some; eauto.
  - done.
  - done.
  - done.
  - intros p0 ni Hi. destruct (Iitems _ _ Hi) as [?|(t'&l'&Ht')]; eauto.
    right. exists t', l'. rewrite lookup_delete_ne; [done|congruence].
  - intros p0 Hin. destruct (Ibmap _ Hin) as [?|(t'&l'&Ht')]; eauto.
    right. exists t', l'. rewrite lookup_delete_ne; [done|congruence].
  - intros t0 l0 r0 [?|?]%elem_of_cons; simplify_eq; eauto.
    by destruct (Ifound _ _ _ Hpc eq_refl).
  - intros t0 pc0 i [? H]%lookup_delete_Some; eauto.
  - intros t0 pc0 [? H]%lookup_delete_Some; eauto.
  - intros t0 t1 pc0 pc1 [? H0]%lookup_delete_Some
      [? H1]%lookup_delete_Some; eauto.
  - intros t0 pc0 [? H]%lookup_delete_Some; eauto.
  - intros t0 pc0 [? H]%lookup_delete_Some; eauto.
Qed.

End map_steps.

Lemma map_set_lock_same m : set_lock (map_mutex m) m = m.
Proof. by destruct m. Qed.

Lemma map_goto_keep_inv s t pc' :
  Inv s →
  held pc' = None →
  (∀ pc0, pcs s !! t = Some pc0 → held pc0 = None) →
  (∀ i, found pc' = Some i → is_Some i ∧ nmap s !! callee pc' = i) →
  (creating pc' = true → nmap s !! callee pc' = None) →
  (past_insert pc' = true → is_Some (nmap s !! callee pc')) →
  (in_write pc' = true → writer (map_mutex (mgr s)) = true) →
  (∀ t0 pc0, t0 ≠ t → pcs s !! t0 = Some pc0 → in_write pc0 = true →
     writer (map_mutex (mgr s)) = true ∧ in_write pc' = false) →
  Inv (goto t pc' (mgr s) s).
Proof.
  intros. replace (goto t pc' (mgr s) s)
    with (goto t pc' (set_lock (map_mutex (mgr s)) (mgr s)) s)
    by (by rewrite map_set_lock_same).
  by apply map_goto_same_inv.
Qed.

Lemma map_step_inv t pc s s' :
  Inv s → pcs s !! t = Some pc → step t pc s = Some s' → Inv s'.
Proof.
  intros I Hpc He.
  assert (Hsolo : in_write pc = true → ∀ t0 pc0, t0 ≠ t →
            pcs s !! t0 = Some pc0 → in_write pc0 = true → False).
  { intros Hw t0 pc0 Hne H0 Hw0. apply Hne. eapply (inv_excl _ I); eauto. }
  assert (Hkept : ∀ k' pc', writer k' = writer (map_mutex (mgr s)) →
            in_write pc' = in_write pc →
            (in_write pc' = true → writer k' = true) ∧
            (∀ t0 pc0, t0 ≠ t → pcs s !! t0 = Some pc0 → in_write pc0 = true →
               writer k' = true ∧ in_write pc' = false)).
  { intros. eapply map_writer_kept; eauto. }
  destruct pc; simpl in He.
  - (* AtReadLock1 *)
    unfold readLock in He. destruct (writer (map_mutex (mgr s))) eqn:Hw;
      simplify_eq/=.
    destruct (Hkept (mkLock (S (readers (map_mutex (mgr s)))) false)
                (AtFind1 l)); [done..|].
    apply map_goto_same_inv; simpl; eauto; try done; by intros; simplify_eq.
  - (* AtFind1 *)
    destruct (Hkept (map_mutex (mgr s)) (AtReadUnlock1 l)); [done..|].
    destruct (Hkept (map_mutex (mgr s)) (AtReadUnlock2 l None)); [done..|].
    destruct (nmap s !! l) eqn:Hl; simplify_eq/=;
      apply map_goto_keep_inv; simpl; eauto; try done;
      try (by intros; simplify_eq).
    all: try (intros i ?; simplify_eq; eauto).
  - (* AtReadUnlock1 *)
    simplify_eq.
    destruct (Hkept (readUnlock (map_mutex (mgr s))) (AtWriteLock l));
      [done..|].
    apply map_goto_same_inv; simpl; eauto; try done; by intros; simplify_eq.
  - (* AtWriteLock *)
    unfold writeLock in He. destruct (writer (map_mutex (mgr s))) eqn:Hw;
      simplify_eq/=.
    destruct (readers (map_mutex (mgr s))); simplify_eq/=.
    apply map_goto_same_inv; simpl; eauto; try done;
      try (by intros; simplify_eq).
    all: try (intros t0 pc0 ? H0 Hw0;
              pose proof (inv_writer _ I _ _ H0 Hw0); congruence).
  - (* AtFind2 *)
    destruct (Hkept (map_mutex (mgr s)) (AtCreate l)); [done..|].
    destruct (nmap s !! l) eqn:Hl; simplify_eq/=;
      apply map_goto_keep_inv; simpl; eauto; try done;
      try (by intros; simplify_eq).
    all: intros _; by rewrite Hl.
  - (* AtCreate *)
    simplify_eq. by apply map_create_inv.
  - simplify_eq. by apply map_push_inv.
  - simplify_eq. by apply map_insert_inv.
  - (* AtWriteUnlock *)
    simplify_eq.
    apply map_goto_same_inv; simpl; eauto; try done;
      try (by intros; simplify_eq);
      try (intros _; by apply (inv_present _ I _ _ Hpc)).
    all: try (intros t0 pc0 ? H0 Hw0; exfalso; eapply Hsolo; eauto).
  - (* AtReadLock2 *)
    unfold readLock in He. destruct (writer (map_mutex (mgr s))) eqn:Hw;
      simplify_eq/=.
    destruct (Hkept (mkLock (S (readers (map_mutex (mgr s)))) false)
                (AtFind3 l)); [done..|].
    apply map_goto_same_inv; simpl; eauto; try done;
      try (by intros; simplify_eq);
      try (intros _; by apply (inv_present _ I _ _ Hpc)).
  - (* AtFind3 *)
    simplify_eq.
    destruct (Hkept (map_mutex (mgr s)) (AtReadUnlock2 l (nmap s !! l)));
      [done..|].
    apply map_goto_keep_inv; simpl; eauto; try done;
      try (by intros; simplify_eq).
    all: try (intros i ?; simplify_eq; split; [|done];
              by apply (inv_present _ I _ _ Hpc)).
  - (* AtReadUnlock2 *)
    simplify_eq.
    destruct (Hkept (readUnlock (map_mutex (mgr s))) (AtRet l i)); [done..|].
    apply map_goto_same_inv; simpl; eauto; try done;
      try (by intros; simplify_eq).
    all: try (intros i0 ?; simplify_eq; by apply (inv_found _ I _ _ _ Hpc)).
  - (* AtRet *)
    destruct i; simplify_eq. by apply map_ret_inv.
Qed.

Lemma map_exec_inv e s s' : Inv s → exec e s = Some s' → Inv s'.
Proof.
  intros I He. destruct e as [t l|t]; simpl in He.
  - destruct (pcs s !! t) eqn:Hpc; simplify_eq.
    apply map_goto_keep_inv; simpl; eauto; try done;
      try (by intros; simplify_eq).
    all: try (intros t0 pc0 ? H0 Hw0; split; [|done];
              by eapply (inv_writer _ I)).
  - destruct (pcs s !! t) as [pc|] eqn:Hpc; simplify_eq/=.
    eauto using map_step_inv.
Qed.

Lemma map_run_inv sched s s' : Inv s → run sched s = Some s' → Inv s'.
Proof.
  revert s. induction sched as [|e sched IH]; simpl; intros s I Hr.
  - by simplify_eq.
  - destruct (exec e s) as [s1|] eqn:He; simplify_eq/=.
    eauto using map_exec_inv.
Qed.

Lemma map_reachable_inv sched s : run sched init = Some s → Inv s.
Proof. apply map_run_inv, map_init_inv. Qed.
Lemma map_unique sched s t1 t2 l r1 r2 :
  run sched init = Some s →
  (t1, l, r1) ∈ returned s → (t2, l, r2) ∈ returned s →
  r1 = r2 ∧ its s !! r1 = Some (construct l).
Proof.
  intros I%map_reachable_inv H1 H2.
  apply (inv_ret _ I) in H1, H2. split; [congruence|].
  by apply (inv_map_live _ I).
Qed.

Lemma map_one_record sched s p ni :
  run sched init = Some s → pcs s = ∅ →
  its s !! p = Some ni → nmap s !! lockable ni = Some p.
Proof.
  intros I%map_reachable_inv Hq Hi.
  destruct (inv_items _ I _ _ Hi) as [Hin|(t&l&Ht)];
    [|by rewrite Hq, lookup_empty in Ht].
  destruct (inv_bag_map _ I _ Hin) as [[l Hl]|(t&l&Ht)];
    [|by rewrite Hq, lookup_empty in Ht].
  destruct (inv_map_live _ I _ _ Hl) as [Hp _]. by simplify_eq.
Qed.





End MapFacts.

(* ===================================================================== *)
(** * Proofs: the local-computation graphs *)
(* ===================================================================== *)

Module GraphFacts.
Import Runtime.
Local Open Scope Z_scope.

(** ** Arrays *)

Lemma aget_app_mid {A} (pre post : list A) x :
  aget (pre ++ x :: post) (Z.of_nat (length pre)) = Some x.
Proof.
  unfold aget. rewrite decide_True by lia. rewrite Nat2Z.id.
  by rewrite list_lookup_middle.
Qed.

Lemma aget_ge {A} (arr : list A) i :
  Z.of_nat (length arr) ≤ i → aget arr i = None.
Proof.
  intros. unfold aget. case_decide; [|done]. apply lookup_ge_None. lia.
Qed.

Lemma aget_Some_lt {A} (arr : list A) i x :
  aget arr i = Some x → 0 ≤ i < Z.of_nat (length arr).
Proof.
  unfold aget. case_decide; [|done]. intros Hl%lookup_lt_Some. lia.
Qed.

Lemma aget_nat {A} (arr : list A) (k : nat) :
  aget arr (Z.of_nat k) = arr !! k.
Proof. unfold aget. rewrite decide_True by lia. by rewrite Nat2Z.id. Qed.

Lemma u64_small x : 0 ≤ x ≤ UINT64_MAX → u64 x = x.
Proof. unfold u64, UINT64_MAX. intros. apply Z.mod_small. lia. Qed.

Lemma counting_range_seqZ b e :
  0 ≤ b ≤ e → e ≤ UINT64_MAX → counting_range b e = seqZ b (e - b).
Proof.
  intros Hb He. unfold counting_range. rewrite u64_small by lia.
  apply list_eq. intros i. rewrite list_lookup_fmap.
  destruct (seqZ b (e - b) !! i) as [x|] eqn:E; simpl; [|done].
  apply lookup_seqZ in E as [-> ?]. f_equal. apply u64_small. lia.
Qed.

Lemma mapM_aget_seqZ {A} (pre mid post : list A) :
  mapM (aget (pre ++ mid ++ post))
       (seqZ (Z.of_nat (length pre)) (Z.of_nat (length mid))) = Some mid.
Proof.
  revert pre. induction mid as [|x mid IH]; intros pre; [done|].
  rewrite length_cons, Nat2Z.inj_succ, seqZ_cons by lia. simpl.
  rewrite aget_app_mid. simpl.
  replace (Z.succ (Z.of_nat (length pre)))
    with (Z.of_nat (length (pre ++ [x]))) by (rewrite length_app; simpl; lia).
  replace (Z.pred (Z.succ (Z.of_nat (length mid))))
    with (Z.of_nat (length mid)) by lia.
  replace (pre ++ x :: mid ++ post) with ((pre ++ [x]) ++ mid ++ post)
    by (by rewrite <- app_assoc).
  by rewrite IH.
Qed.

(** ** FileGraph *)

Section filegraph.
Context {EdgeTy : Type}.
Implicit Types (g : FileGraph.t EdgeTy) (a : list (list (Z * EdgeTy))).

Lemma before_S a k nb :
  a !! k = Some nb → before a (S k) = before a k + Z.of_nat (length nb).
Proof.
  intros H. unfold before. erewrite take_S_r by done.
  rewrite concat_app, length_app. simpl. rewrite app_nil_r. lia.
Qed.

Lemma before_le a k : before a k ≤ Z.of_nat (length (concat a)).
Proof.
  unfold before. rewrite <- (take_drop k a) at 2.
  rewrite concat_app, length_app. lia.
Qed.

Lemma before_mono a j k : (j ≤ k)%nat → before a j ≤ before a k.
Proof.
  intros H. unfold before.
  replace (take j a) with (take j (take k a)) by (rewrite take_take; f_equal; lia).
  rewrite <- (take_drop j (take k a)) at 2.
  rewrite concat_app, length_app. lia.
Qed.

Lemma offsets_length acc ds : length (FileGraph.offsets acc ds) = length ds.
Proof. revert acc. induction ds; simpl; intros; [done|]. by rewrite IHds. Qed.

Lemma offsets_lookup acc a k nb :
  a !! k = Some nb →
  FileGraph.offsets acc ((λ nb, Z.of_nat (length nb)) <$> a) !! k
    = Some (acc + before a (S k)).
Proof.
  revert acc k. induction a as [|x a IH]; intros acc k H; [done|].
  destruct k as [|k]; simpl in *.
  - simplify_eq. unfold before. simpl. rewrite ?take_0. simpl.
    rewrite ?app_nil_r. done.
  - rewrite (IH _ _ H). f_equal. unfold before. simpl.
    rewrite !length_app. lia.
Qed.

Lemma concat_split a k nb :
  a !! k = Some nb →
  concat a = concat (take k a) ++ nb ++ concat (drop (S k) a).
Proof.
  intros H. rewrite <- (take_drop_middle a k nb H) at 1.
  by rewrite concat_app.
Qed.

End filegraph.

(** ** The accessor monad *)

Lemma runM_bind {A B} (m : M A) (f : A → M B) x tr :
  runM m = Some (x, tr) →
  runM (m ≫= f) = (λ '(y, tr'), (y, tr ++ tr')) <$> runM (f x).
Proof.
  intros H. unfold mbind, M_bind. simpl. rewrite H.
  by destruct (runM (f x)) as [[??]|].
Qed.

Lemma runM_lift {A} (o : option A) x : o = Some x → runM (lift o) = Some (x, []).
Proof. by intros ->. Qed.

(** ** LC_CSR_Graph loaded from a FileGraph *)

Section csr.
Import LC_CSR_Graph.
Context {NodeTy EdgeTy : Type} (dflt : NodeTy).
Context (graph : FileGraph.t EdgeTy) (Hwf : FileGraph.wf graph).
Local Abbreviation a := (FileGraph.adj graph).
Local Abbreviation L := (structureFromGraph dflt graph).

Lemma loaded_raw_end k nb :
  a !! k = Some nb →
  raw_neighbor_end L (Z.of_nat k) = Some (before a (S k)).
Proof.
  intros H. unfold raw_neighbor_end. simpl. rewrite aget_nat.
  unfold FileGraph.edge_id. by rewrite (offsets_lookup _ _ _ _ H).
Qed.

Lemma loaded_raw_begin k nb :
  a !! k = Some nb →
  raw_neighbor_begin L (Z.of_nat k) = Some (before a k).
Proof.
  intros H. unfold raw_neighbor_begin. destruct k as [|k].
  - rewrite decide_True by done. done.
  - rewrite decide_False by lia.
    destruct (lookup_lt_is_Some_2 a k) as [nb' Hnb'].
    { apply lookup_lt_Some in H. lia. }
    replace (Z.of_nat (S k) - 1) with (Z.of_nat k) by lia.
    by apply (loaded_raw_end k nb').
Qed.

Lemma loaded_edgeDst k nb :
  a !! k = Some nb →
  edgeDst L = (concat (take k a)).*1 ++ nb.*1 ++ (concat (drop (S k) a)).*1.
Proof.
  intros H. simpl. unfold FileGraph.node_id.
  rewrite (concat_split _ _ _ H) at 1. by rewrite !fmap_app.
Qed.

Lemma loaded_edgeData k nb :
  a !! k = Some nb →
  edgeData L = (concat (take k a)).*2 ++ nb.*2 ++ (concat (drop (S k) a)).*2.
Proof.
  intros H. simpl. unfold FileGraph.edge_data.
  rewrite (concat_split _ _ _ H) at 1. by rewrite !fmap_app.
Qed.

Lemma loaded_edges_le : Z.of_nat (length (edgeDst L)) ≤ UINT64_MAX.
Proof.
  simpl. unfold FileGraph.node_id. rewrite length_fmap.
  destruct Hwf as (_ & H & _). apply H.
Qed.

Lemma loaded_node k nb :
  a !! k = Some nb → 0 ≤ Z.of_nat k < Z.of_nat (length (nodeData L)).
Proof.
  intros H%lookup_lt_Some. simpl. rewrite length_replicate.
  unfold FileGraph.size. lia.
Qed.

Lemma loaded_dst_node k nb :
  a !! k = Some nb →
  Forall (λ d, 0 ≤ d < Z.of_nat (length (nodeData L))) nb.*1.
Proof.
  intros H. destruct Hwf as (_ & _ & Hf).
  rewrite Forall_lookup in Hf. destruct (Hf _ _ H) as [_ Hd].
  simpl. rewrite length_replicate. unfold FileGraph.size in *.
  rewrite Nat2Z.id. apply Forall_fmap. eapply Forall_impl; [exact Hd|].
  simpl. intros [d w]; simpl. lia.
Qed.

Lemma loaded_node_Z n :
  0 ≤ n < FileGraph.size graph →
  ∃ k, n = Z.of_nat k ∧ a !! k = Some (FileGraph.neighbor_edges graph n).
Proof.
  intros Hn. exists (Z.to_nat n). split; [lia|].
  unfold FileGraph.neighbor_edges, aget. rewrite decide_True by lia.
  destruct (lookup_lt_is_Some_2 a (Z.to_nat n)) as [nb Hnb].
  { unfold FileGraph.size in Hn. lia. }
  by rewrite Hnb.
Qed.

End csr.

Section csr_loops.
Import LC_CSR_Graph.
Context {NodeTy EdgeTy : Type}.
Implicit Types g : LC_CSR_Graph.t NodeTy EdgeTy.

Lemma acquire_node_spec g N mflag :
  0 ≤ N < Z.of_nat (length (nodeData g)) →
  runM (acquire_node g N mflag) = Some (tt, node_trace mflag [N]).
Proof.
  intros H. unfold acquire_node, node_trace, acquire.
  destruct (acquires mflag) eqn:E; [|done].
  by rewrite decide_True by done.
Qed.

Lemma acquire_node_none g N mflag :
  acquires mflag = false →
  runM (acquire_node g N mflag) = Some (tt, []).
Proof. intros H. unfold acquire_node. by rewrite H. Qed.

Lemma acquire_loop_spec g mflag pre mid post fuel ii ee :
  edgeDst g = pre ++ mid ++ post →
  Z.of_nat (length (edgeDst g)) ≤ UINT64_MAX →
  Forall (λ d, 0 ≤ d < Z.of_nat (length (nodeData g))) mid →
  (length mid < fuel)%nat →
  ii = Z.of_nat (length pre) → ee = ii + Z.of_nat (length mid) →
  runM (acquire_loop g mflag fuel ii ee) = Some (tt, node_trace mflag mid).
Proof.
  revert pre fuel ii.
  induction mid as [|x mid IH]; intros pre fuel ii Hd Hlen Hn Hf Hii Hee.
  - destruct fuel; simpl; rewrite decide_True by (simpl in Hee; lia);
      unfold node_trace; by destruct (acquires mflag).
  - destruct fuel as [|fuel]; [simpl in Hf; lia|]. simpl.
    rewrite decide_False by (simpl in Hee; lia).
    apply Forall_cons in Hn as [Hx Hn].
    assert (Hget : aget (edgeDst g) ii = Some x).
    { rewrite Hd, Hii. apply aget_app_mid. }
    erewrite runM_bind by (apply runM_lift, Hget).
    erewrite runM_bind by (by apply acquire_node_spec).
    rewrite u64_small.
    2:{ rewrite Hd, !length_app in Hlen. simpl in Hlen. lia. }
    rewrite (IH (pre ++ [x])); try done.
    + simpl. unfold node_trace. by destruct (acquires mflag).
    + by rewrite Hd, <- app_assoc.
    + simpl in Hf. lia.
    + rewrite length_app. simpl. lia.
    + simpl in Hee. lia.
Qed.

Lemma getEdgeIdx_loop_spec g dst pre mid post fuel ii ee :
  edgeDst g = pre ++ mid ++ post →
  Z.of_nat (length (edgeDst g)) ≤ UINT64_MAX →
  (length mid < fuel)%nat →
  ii = Z.of_nat (length pre) → ee = ii + Z.of_nat (length mid) →
  ∃ idx,
    getEdgeIdx_loop g fuel ii ee dst = Some idx ∧
    ((idx = UINT64_MAX ∧ dst ∉ mid) ∨
     (ii ≤ idx < ee ∧ aget (edgeDst g) idx = Some dst ∧ dst ∈ mid)).
Proof.
  revert pre fuel ii.
  induction mid as [|x mid IH]; intros pre fuel ii Hd Hlen Hf Hii Hee.
  - exists UINT64_MAX. split.
    + destruct fuel; simpl; by rewrite decide_True by (simpl in Hee; lia).
    + left. split; [done|]. apply not_elem_of_nil.
  - destruct fuel as [|fuel]; [simpl in Hf; lia|]. simpl.
    rewrite decide_False by (simpl in Hee; lia).
    assert (Hget : aget (edgeDst g) ii = Some x).
    { rewrite Hd, Hii. apply aget_app_mid. }
    rewrite Hget. simpl. destruct (decide (x = dst)) as [->|Hne].
    + exists ii. split; [done|]. right.
      split; [simpl in Hee; lia|]. split; [done|]. left.
    + rewrite u64_small.
      2:{ rewrite Hd, !length_app in Hlen. simpl in Hlen. lia. }
      destruct (IH (pre ++ [x]) fuel (ii + 1)) as (idx & Hidx & Hcase).
      { by rewrite Hd, <- app_assoc. }
      { done. }
      { simpl in Hf. lia. }
      { rewrite length_app. simpl. lia. }
      { simpl in Hee. lia. }
      exists idx. split; [done|].
      destruct Hcase as [[-> Hnin]|(Hr & Hg & Hin)].
      * left. split; [done|]. by intros [?|?]%elem_of_cons.
      * right. split; [lia|]. split; [done|]. by right.
Qed.

End csr_loops.

Section csr_loaded.
Import LC_CSR_Graph.
Context {NodeTy EdgeTy : Type} (dflt : NodeTy).
Context (graph : FileGraph.t EdgeTy) (Hwf : FileGraph.wf graph).
Local Abbreviation a := (FileGraph.adj graph).
Local Abbreviation L := (structureFromGraph dflt graph).

Lemma loaded_edge_end n mflag :
  0 ≤ n < FileGraph.size graph →
  runM (edge_end L n mflag)
    = Some (before a (S (Z.to_nat n)), node_trace mflag [n]).
Proof.
  intros Hn. destruct (loaded_node_Z graph n Hn) as (k & -> & Hk).
  rewrite Nat2Z.id. unfold edge_end.
  erewrite runM_bind
    by (apply acquire_node_spec, (loaded_node dflt graph k _ Hk)).
  erewrite runM_lift by (apply (loaded_raw_end dflt graph k _ Hk)).
  simpl. by rewrite app_nil_r.
Qed.

Lemma loaded_edge_begin n mflag :
  0 ≤ n < FileGraph.size graph →
  runM (edge_begin L n mflag)
    = Some (before a (Z.to_nat n),
            node_trace mflag [n] ++
            (if shouldLock mflag
             then node_trace mflag (FileGraph.neighbors graph n) else [])).
Proof.
  intros Hn. destruct (loaded_node_Z graph n Hn) as (k & -> & Hk).
  rewrite Nat2Z.id. unfold edge_begin.
  set (nb := FileGraph.neighbor_edges graph (Z.of_nat k)) in *.
  erewrite runM_bind
    by (apply acquire_node_spec, (loaded_node dflt graph k _ Hk)).
  pose proof (loaded_raw_begin dflt graph k _ Hk) as Hb.
  pose proof (loaded_raw_end dflt graph k _ Hk) as He.
  erewrite (runM_bind _ _ tt
            (if shouldLock mflag then node_trace mflag nb.*1 else [])).
  - erewrite runM_lift by exact Hb. simpl. by rewrite app_nil_r.
  - destruct (shouldLock mflag); [|done].
    erewrite runM_bind by (apply runM_lift, Hb).
    erewrite runM_bind by (apply runM_lift, He).
    erewrite acquire_loop_spec; [done|..].
    + apply (loaded_edgeDst dflt graph k _ Hk).
    + by apply loaded_edges_le.
    + by apply (loaded_dst_node dflt graph Hwf k).
    + simpl. unfold FileGraph.node_id.
      rewrite (concat_split a _ _ Hk), !length_fmap, !length_app. fold nb. lia.
    + unfold before. by rewrite length_fmap.
    + rewrite (before_S _ _ _ Hk), length_fmap. lia.
Qed.

Lemma loaded_range n :
  0 ≤ n < FileGraph.size graph →
  counting_range (before a (Z.to_nat n)) (before a (S (Z.to_nat n)))
    = seqZ (before a (Z.to_nat n)) (FileGraph.degree graph n).
Proof.
  intros Hn. destruct (loaded_node_Z graph n Hn) as (k & -> & Hk).
  rewrite Nat2Z.id. rewrite counting_range_seqZ.
  - f_equal. rewrite (before_S _ _ _ Hk). unfold FileGraph.degree. lia.
  - split; [unfold before; lia|]. apply before_mono. lia.
  - etrans; [apply before_le|]. destruct Hwf as (_ & H & _). apply H.
Qed.

Lemma loaded_getEdgeDst n :
  0 ≤ n < FileGraph.size graph →
  mapM (getEdgeDst L)
       (seqZ (before a (Z.to_nat n)) (FileGraph.degree graph n))
    = Some (FileGraph.neighbors graph n).
Proof.
  intros Hn. destruct (loaded_node_Z graph n Hn) as (k & -> & Hk).
  rewrite Nat2Z.id. unfold getEdgeDst.
  rewrite (loaded_edgeDst dflt graph k _ Hk).
  unfold before, FileGraph.degree, FileGraph.neighbors.
  rewrite <- (length_fmap fst (concat (take k a))).
  rewrite <- (length_fmap fst (FileGraph.neighbor_edges graph (Z.of_nat k))).
  apply mapM_aget_seqZ.
Qed.

Lemma loaded_getEdgeData n :
  0 ≤ n < FileGraph.size graph →
  mapM (aget (edgeData L))
       (seqZ (before a (Z.to_nat n)) (FileGraph.degree graph n))
    = Some (FileGraph.neighbor_edges graph n).*2.
Proof.
  intros Hn. destruct (loaded_node_Z graph n Hn) as (k & -> & Hk).
  rewrite Nat2Z.id.
  rewrite (loaded_edgeData dflt graph k _ Hk).
  unfold before, FileGraph.degree.
  rewrite <- (length_fmap snd (concat (take k a))).
  rewrite <- (length_fmap snd (FileGraph.neighbor_edges graph (Z.of_nat k))).
  apply mapM_aget_seqZ.
Qed.

End csr_loaded.

Lemma mapM_pair {A B C} (f : A → option B) (g : A → option C) l xs ys :
  mapM f l = Some xs → mapM g l = Some ys →
  mapM (λ i, x ← f i; y ← g i; Some (x, y)) l = Some (zip xs ys).
Proof.
  revert xs ys. induction l as [|i l IH]; intros xs ys Hf Hg.
  - by simplify_option_eq.
  - simpl in *. simplify_option_eq; eauto.
Qed.

Lemma zip_fst_snd' {A B} (l : list (A * B)) : zip l.*1 l.*2 = l.
Proof. induction l as [|[??] l IH]; simpl; [done|]. by f_equal. Qed.

Section csr_edges.
Import LC_CSR_Graph.
Context {NodeTy EdgeTy : Type} (dflt : NodeTy).
Context (graph : FileGraph.t EdgeTy) (Hwf : FileGraph.wf graph).
Local Abbreviation a := (FileGraph.adj graph).
Local Abbreviation L := (structureFromGraph dflt graph).

Lemma loaded_out_edges n mflag :
  0 ≤ n < FileGraph.size graph →
  runM (out_edges L n mflag)
    = Some (seqZ (before a (Z.to_nat n)) (FileGraph.degree graph n),
            (node_trace mflag [n] ++
             (if shouldLock mflag
              then node_trace mflag (FileGraph.neighbors graph n) else []))
            ++ node_trace mflag [n]).
Proof.
  intros Hn. unfold out_edges.
  erewrite runM_bind by (by apply loaded_edge_begin).
  erewrite runM_bind by (by apply loaded_edge_end).
  simpl. rewrite loaded_range by done. by rewrite app_nil_r.
Qed.

Lemma loaded_edges_of n mflag :
  0 ≤ n < FileGraph.size graph →
  runM (edges_of L n mflag)
    = Some (FileGraph.neighbor_edges graph n,
            (node_trace mflag [n] ++
             (if shouldLock mflag
              then node_trace mflag (FileGraph.neighbors graph n) else []))
            ++ node_trace mflag [n]).
Proof.
  intros Hn. unfold edges_of.
  erewrite runM_bind by (by apply loaded_out_edges).
  erewrite runM_lift.
  2:{ apply mapM_pair.
      - by apply loaded_getEdgeDst.
      - by apply loaded_getEdgeData. }
  simpl. unfold FileGraph.neighbors. by rewrite zip_fst_snd', app_nil_r.
Qed.

Lemma loaded_hasNeighbor src dst mflag :
  0 ≤ src < FileGraph.size graph →
  ∃ idx,
    getEdgeIdx L src dst = Some idx ∧
    runM (hasNeighbor L src dst mflag)
      = Some (bool_decide (idx ≠ UINT64_MAX), []) ∧
    ((idx = UINT64_MAX ∧ dst ∉ FileGraph.neighbors graph src) ∨
     (before a (Z.to_nat src) ≤ idx < before a (S (Z.to_nat src)) ∧
      idx ≠ UINT64_MAX ∧ getEdgeDst L idx = Some dst ∧
      dst ∈ FileGraph.neighbors graph src)).
Proof.
  intros Hn. destruct (loaded_node_Z graph src Hn) as (k & -> & Hk).
  rewrite Nat2Z.id.
  set (nb := FileGraph.neighbor_edges graph (Z.of_nat k)) in *.
  pose proof (loaded_raw_begin dflt graph k _ Hk) as Hb.
  pose proof (loaded_raw_end dflt graph k _ Hk) as He.
  pose proof (loaded_edges_le dflt graph Hwf) as Hle.
  destruct (getEdgeIdx_loop_spec L dst (concat (take k a)).*1 nb.*1
              (concat (drop (S k) a)).*1 (S (length (edgeDst L)))
              (before a k) (before a (S k)))
    as (idx & Hidx & Hcase).
  { apply (loaded_edgeDst dflt graph k _ Hk). }
  { done. }
  { rewrite (loaded_edgeDst dflt graph k _ Hk), !length_app. lia. }
  { unfold before. by rewrite length_fmap. }
  { rewrite (before_S _ _ _ Hk), length_fmap. done. }
  assert (Hg : getEdgeIdx L (Z.of_nat k) dst = Some idx).
  { unfold getEdgeIdx. rewrite Hb, He. simpl. exact Hidx. }
  exists idx. split; [done|]. split.
  { unfold hasNeighbor. erewrite runM_bind by (apply runM_lift, Hg). done. }
  destruct Hcase as [[-> Hnin]|(Hr & Hget & Hin)]; [by left|right].
  repeat split; try done; try lia.
  apply aget_Some_lt in Hget. lia.
Qed.

End csr_edges.

Section csr_sort.
Import LC_CSR_Graph.
Context {NodeTy EdgeTy : Type} (dflt : NodeTy).
Context (graph : FileGraph.t EdgeTy) (Hwf : FileGraph.wf graph).
Local Abbreviation a := (FileGraph.adj graph).
Local Abbreviation L := (structureFromGraph dflt graph).

Lemma std_sort_perm {A} (less : A → A → bool) l : std_sort less l ≡ₚ l.
Proof. apply merge_sort_Permutation. Qed.

Lemma std_sort_sorted {A} (less : A → A → bool) l :
  (∀ x y, less x y = true → less y x = false) →
  Sorted (not_after less) (std_sort less l).
Proof.
  intros Hasym. apply Sorted_merge_sort. intros x y. unfold not_after.
  destruct (less y x) eqn:E; [right; by apply Hasym|by left].
Qed.

Lemma reordered_wf k nb nb' :
  a !! k = Some nb → nb' ≡ₚ nb → FileGraph.wf (reordered graph k nb').
Proof.
  intros Hk Hp. destruct Hwf as (H1 & H2 & H3).
  assert (Hc : concat (<[k := nb']> a) ≡ₚ concat a).
  { rewrite (concat_split a k nb Hk).
    rewrite insert_take_drop by (by eapply lookup_lt_Some).
    rewrite concat_app. simpl. by rewrite Hp. }
  unfold FileGraph.wf, FileGraph.size, FileGraph.sizeEdges, reordered in *.
  simpl. rewrite length_insert. split; [done|]. split.
  { by rewrite Hc. }
  rewrite Forall_lookup. intros j x Hj.
  rewrite Forall_lookup in H3.
  destruct (decide (j = k)) as [->|Hne].
  - rewrite list_lookup_insert_eq in Hj by (by eapply lookup_lt_Some).
    simplify_eq. destruct (H3 _ _ Hk) as [Hl Hd]. split.
    + by rewrite Hp.
    + by rewrite Hp.
  - rewrite list_lookup_insert_ne in Hj by done. eauto.
Qed.

Lemma reordered_load k nb nb' :
  a !! k = Some nb → length nb' = length nb →
  structureFromGraph dflt (reordered graph k nb')
  = mk (nodeData L) (edgeIndData L)
       ((concat (take k a)).*1 ++ nb'.*1 ++ (concat (drop (S k) a)).*1)
       ((concat (take k a)).*2 ++ nb'.*2 ++ (concat (drop (S k) a)).*2)
       (numNodes L) (numEdges L).
Proof.
  intros Hk Hlen. pose proof (lookup_lt_Some _ _ _ Hk) as Hlt.
  assert (Hc : concat (<[k := nb']> a)
               = concat (take k a) ++ nb' ++ concat (drop (S k) a)).
  { rewrite insert_take_drop by done. by rewrite concat_app. }
  unfold structureFromGraph, reordered, FileGraph.size, FileGraph.sizeEdges,
    FileGraph.edge_id, FileGraph.node_id, FileGraph.edge_data. simpl.
  rewrite length_insert, Hc, !fmap_app. f_equal.
  - f_equal. rewrite list_fmap_insert. apply list_insert_id.
    rewrite list_lookup_fmap, Hk. simpl. by rewrite Hlen.
  - rewrite (concat_split a k nb Hk), !length_app. lia.
Qed.

Lemma loaded_sort n comp mflag :
  0 ≤ n < FileGraph.size graph →
  runM (sortEdgesByEdgeData L n comp mflag)
    = Some (structureFromGraph dflt
              (reordered graph (Z.to_nat n)
                 (std_sort (EdgeSortCompWrapper comp)
                    (FileGraph.neighbor_edges graph n))),
            node_trace mflag [n]).
Proof.
  intros Hn. destruct (loaded_node_Z graph n Hn) as (k & -> & Hk).
  rewrite Nat2Z.id.
  set (nb := FileGraph.neighbor_edges graph (Z.of_nat k)) in *.
  set (nb' := std_sort (EdgeSortCompWrapper comp) nb).
  assert (Hlen : length nb' = length nb)
    by (unfold nb'; by rewrite std_sort_perm).
  rewrite (reordered_load k nb nb' Hk Hlen).
  unfold sortEdgesByEdgeData.
  erewrite runM_bind
    by (apply acquire_node_spec, (loaded_node dflt graph k _ Hk)).
  erewrite runM_bind
    by (apply runM_lift, (loaded_raw_begin dflt graph k _ Hk)).
  erewrite runM_bind
    by (apply runM_lift, (loaded_raw_end dflt graph k _ Hk)).
  pose proof (loaded_edgeDst dflt graph k _ Hk) as Hd.
  pose proof (loaded_edgeData dflt graph k _ Hk) as Hw.
  assert (Hb : Z.to_nat (before a k) = length (concat (take k a))).
  { unfold before. lia. }
  assert (He : Z.to_nat (before a (S k) - before a k) = length nb).
  { rewrite (before_S _ _ _ Hk). lia. }
  assert (Hr : edge_sort_range L (before a k) (before a (S k)) = Some nb).
  { unfold edge_sort_range. rewrite decide_True.
    - rewrite Hb, He, Hd, Hw. f_equal.
      rewrite <- (length_fmap fst (concat (take k a))) at 1.
      rewrite <- (length_fmap snd (concat (take k a))).
      rewrite !drop_app_length.
      rewrite <- (length_fmap fst nb) at 1.
      rewrite <- (length_fmap snd nb).
      rewrite !take_app_length. apply zip_fst_snd'.
    - rewrite (before_S _ _ _ Hk). unfold before.
      rewrite Hd, Hw, !length_app, !length_fmap. lia. }
  erewrite runM_bind by (apply runM_lift, Hr).
  fold nb'. simpl. rewrite !app_nil_r. do 2 f_equal.
  unfold splice. rewrite Hb, !length_fmap, Hlen. simpl in Hd, Hw. f_equal.
  - rewrite Hd.
    rewrite <- (length_fmap fst (concat (take k a))) at 1 2.
    rewrite take_app_length. do 2 f_equal.
    rewrite <- (length_fmap fst nb), <- length_app.
    rewrite app_assoc. by rewrite drop_app_length.
  - rewrite Hw.
    rewrite <- (length_fmap snd (concat (take k a))) at 1 2.
    rewrite take_app_length. do 2 f_equal.
    rewrite <- (length_fmap snd nb), <- length_app.
    rewrite app_assoc. by rewrite drop_app_length.
Qed.

End csr_sort.

(** ** The shared view *)

Section topology.
Import Topology.
Context {Node : Type} `{EqDecision Node} {E : Type}.

Lemma position_lookup (ns : list Node) (i : nat) v :
  NoDup ns → ns !! i = Some v → position ns v = Some (Z.of_nat i).
Proof.
  intros Hnd Hi. unfold position.
  destruct (list_find (λ x, x = v) ns) as [[j y]|] eqn:Hf; simpl.
  - apply list_find_Some in Hf as (Hj & -> & _).
    by rewrite (NoDup_lookup _ _ _ _ Hnd Hi Hj).
  - apply list_find_None in Hf. rewrite Forall_lookup in Hf.
    by destruct (Hf _ _ Hi).
Qed.

Lemma topology_spec (ns : list Node) dsts (a : list (list (Z * E))) :
  NoDup ns → length ns = length a →
  (∀ i v nb, ns !! i = Some v → a !! i = Some nb →
     ∃ ds, dsts v = Some ds ∧ Forall2 (λ p d, aget ns d = Some p) ds nb.*1) →
  topology ns dsts = Some (expected a).
Proof.
  intros Hnd Hlen Hd. unfold topology, expected.
  apply mapM_Some. apply Forall2_fmap_r.
  apply Forall2_same_length_lookup. split; [done|].
  intros i v nb Hv Hnb.
  destruct (Hd _ _ _ Hv Hnb) as (ds & -> & Hds). simpl.
  assert (Hps : mapM (position ns) ds = Some nb.*1).
  { apply mapM_Some. eapply Forall2_impl; [exact Hds|].
    intros p d Hp. pose proof (aget_Some_lt _ _ _ Hp) as Hr.
    unfold aget in Hp. rewrite decide_True in Hp by lia.
    rewrite (position_lookup _ _ _ Hnd Hp). f_equal. lia. }
  by rewrite Hps.
Qed.

End topology.

Lemma aget_seqZ n d : 0 ≤ d < n → aget (seqZ 0 n) d = Some d.
Proof.
  intros. unfold aget. rewrite decide_True by lia.
  rewrite lookup_seqZ_lt by lia. f_equal. lia.
Qed.

Lemma mapM_fmap_inner {A B C} (f : B → C) (g : A → option B)
    (l : list A) (xs : list B) :
  mapM g l = Some xs → mapM (λ i, f <$> g i) l = Some (f <$> xs).
Proof.
  revert xs. induction l as [|i l IH]; intros xs Hg.
  - by simplify_option_eq.
  - simpl in *. simplify_option_eq; eauto.
Qed.

Section csr_topology.
Context {NodeTy EdgeTy : Type} (dflt : NodeTy).
Context (graph : FileGraph.t EdgeTy) (Hwf : FileGraph.wf graph).
Local Abbreviation a := (FileGraph.adj graph).

Lemma wf_dsts k nb :
  a !! k = Some nb → Forall (λ d, 0 ≤ d < FileGraph.size graph) nb.*1.
Proof.
  intros H. destruct Hwf as (_ & _ & Hf).
  rewrite Forall_lookup in Hf. destruct (Hf _ _ H) as [_ Hd].
  apply Forall_fmap. eapply Forall_impl; [exact Hd|]. by intros [??].
Qed.

Lemma wf_degree k nb :
  a !! k = Some nb → Z.of_nat (length nb) ≤ INT_MAX.
Proof.
  intros H. destruct Hwf as (_ & _ & Hf).
  rewrite Forall_lookup in Hf. by destruct (Hf _ _ H) as [? _].
Qed.

Lemma seqZ_size_lookup i v nb :
  seqZ 0 (FileGraph.size graph) !! i = Some v → a !! i = Some nb →
  v = Z.of_nat i ∧ 0 ≤ v < FileGraph.size graph
  ∧ nb = FileGraph.neighbor_edges graph v.
Proof.
  intros Hv Hnb. apply lookup_seqZ in Hv as [-> ?].
  split; [lia|]. split; [lia|].
  unfold FileGraph.neighbor_edges. replace (0 + Z.of_nat i) with (Z.of_nat i) by lia.
  by rewrite aget_nat, Hnb.
Qed.

Lemma Forall2_self_nodes nds :
  Forall (λ d, 0 ≤ d < FileGraph.size graph) nds →
  Forall2 (λ p d, aget (seqZ 0 (FileGraph.size graph)) d = Some p) nds nds.
Proof.
  intros H. apply Forall2_same_length_lookup. split; [done|].
  intros i x y Hx Hy. simplify_eq. rewrite Forall_lookup in H.
  apply aget_seqZ. eauto.
Qed.

Lemma LC_CSR_topology_spec :
  LC_CSR_topology (LC_CSR_Graph.structureFromGraph dflt graph)
    = Some (expected a).
Proof.
  unfold LC_CSR_topology, LC_CSR_Graph.nodes. simpl.
  apply topology_spec.
  - apply NoDup_seqZ.
  - rewrite length_seqZ. unfold FileGraph.size. lia.
  - intros i v nb Hv Hnb.
    destruct (seqZ_size_lookup _ _ _ Hv Hnb) as (-> & Hr & ->).
    exists (FileGraph.neighbors graph (Z.of_nat i)). split.
    + unfold LC_CSR_Graph.out_dsts.
      rewrite (loaded_out_edges dflt graph Hwf) by done. simpl.
      by apply loaded_getEdgeDst.
    + apply Forall2_self_nodes. by eapply wf_dsts.
Qed.

End csr_topology.

Section inline.
Import LC_CSRInline_Graph.
Context {NodeTy EdgeTy : Type} (dflt : NodeTy).
Context (graph : FileGraph.t EdgeTy) (Hwf : FileGraph.wf graph).
Local Abbreviation a := (FileGraph.adj graph).
Local Abbreviation n := (FileGraph.size graph).

Lemma fill_node_ids_spec (rest done : nat) :
  fill_node_ids (seqZ (Z.of_nat done) (Z.of_nat rest))
                (seqZ 0 (Z.of_nat done) ++ replicate rest 0)
    = Some (seqZ 0 (Z.of_nat (done + rest))).
Proof.
  revert done. induction rest as [|rest IH]; intros done.
  - simpl. rewrite app_nil_r. do 2 f_equal. lia.
  - rewrite Nat2Z.inj_succ, seqZ_cons by lia. simpl.
    unfold aset. rewrite decide_True.
    2:{ rewrite length_app, length_seqZ. simpl. lia. }
    simpl.
    replace (Z.to_nat (Z.of_nat done))
      with (length (seqZ 0 (Z.of_nat done)) + 0)%nat
      by (rewrite length_seqZ; lia).
    rewrite insert_app_r. simpl.
    replace (Z.pred (Z.succ (Z.of_nat rest))) with (Z.of_nat rest) by lia.
    replace (Z.succ (Z.of_nat done)) with (Z.of_nat (S done)) by lia.
    replace (seqZ 0 (Z.of_nat done) ++ Z.of_nat done :: replicate rest 0)
      with (seqZ 0 (Z.of_nat (S done)) ++ replicate rest 0).
    + rewrite IH. do 2 f_equal. lia.
    + rewrite Nat2Z.inj_succ, <- Z.add_1_r, seqZ_app by lia.
      rewrite <- app_assoc. f_equal.
Qed.

Lemma inline_layout_edges_spec (nb : list (Z * EdgeTy)) pre fill post :
  Forall (λ d, 0 ≤ d < n) nb.*1 → length fill = length nb →
  layout_edges (seqZ 0 n) nb (pre ++ fill ++ post) (Z.of_nat (length pre))
    = Some (pre ++ (inline_edge <$> nb) ++ post,
            Z.of_nat (length pre) + Z.of_nat (length nb)).
Proof.
  revert pre fill. induction nb as [|[d w] nb IH]; intros pre fill Hd Hlen.
  - destruct fill; [|done]. simpl. do 2 f_equal. lia.
  - destruct fill as [|x fill]; [done|]. simpl in *.
    apply Forall_cons in Hd as [Hd0 Hd].
    rewrite aget_seqZ by done. simpl.
    unfold aset. rewrite decide_True.
    2:{ rewrite length_app. simpl. lia. }
    simpl.
    replace (Z.to_nat (Z.of_nat (length pre))) with (length pre + 0)%nat by lia.
    rewrite insert_app_r. simpl.
    replace (pre ++ mkEdge d (Some w) :: fill ++ post)
      with ((pre ++ [inline_edge (d, w)]) ++ fill ++ post)
      by (by rewrite <- app_assoc).
    replace (Z.of_nat (length pre) + 1)
      with (Z.of_nat (length (pre ++ [inline_edge (d, w)])))
      by (rewrite length_app; simpl; lia).
    rewrite IH by (done || lia).
    rewrite <- app_assoc. simpl. do 2 f_equal.
    rewrite length_app. simpl. lia.
Qed.

Lemma inline_layout_nodes_spec (r k : nat) :
  (k + r)%nat = length a →
  layout_nodes graph (seqZ 0 n) (seqZ (Z.of_nat k) (Z.of_nat r))
    (((inline_node dflt graph) <$> seq 0 k) ++ replicate r (mkNode dflt 0 0))
    ((inline_edge <$> concat (take k a))
       ++ replicate (length (concat (drop k a))) (mkEdge 0 None))
    (before a k)
  = Some (nodeData (inline_loaded dflt graph), edgeData (inline_loaded dflt graph)).
Proof.
  revert k. induction r as [|r IH]; intros k Hk.
  - simpl. rewrite app_nil_r.
    replace k with (length a) by lia.
    rewrite firstn_all, drop_all. simpl. by rewrite app_nil_r.
  - rewrite Nat2Z.inj_succ, (seqZ_cons (Z.of_nat k)) by lia.
    destruct (a !! k) as [nb|] eqn:Hnb.
    2:{ apply lookup_ge_None in Hnb. lia. }
    unfold layout_nodes; fold (@layout_nodes NodeTy EdgeTy).
    rewrite aget_seqZ by (unfold FileGraph.size; lia). simpl.
    assert (Hat : ∀ x rest, aget (((inline_node dflt graph) <$> seq 0 k) ++ x :: rest)
                              (Z.of_nat k) = Some x).
    { intros x rest. rewrite aget_nat. apply list_lookup_middle.
      by rewrite length_fmap, length_seq. }
    assert (Hset : ∀ x y rest,
              aset (((inline_node dflt graph) <$> seq 0 k) ++ x :: rest) (Z.of_nat k) y
              = Some (((inline_node dflt graph) <$> seq 0 k) ++ y :: rest)).
    { intros x y rest. unfold aset. rewrite decide_True.
      2:{ rewrite length_app, length_fmap, length_seq. simpl. lia. }
      f_equal.
      replace (Z.to_nat (Z.of_nat k))
        with (length ((inline_node dflt graph) <$> seq 0 k) + 0)%nat
        by (rewrite length_fmap, length_seq; lia).
      by rewrite insert_app_r. }
    rewrite Hat. simpl. rewrite Hset. simpl.
    replace (FileGraph.neighbor_edges graph (Z.of_nat k)) with nb
      by (unfold FileGraph.neighbor_edges; by rewrite aget_nat, Hnb).
    rewrite (drop_S _ _ _ Hnb). simpl.
    rewrite length_app, replicate_add.
    pose proof (inline_layout_edges_spec nb (inline_edge <$> concat (take k a))
                  (replicate (length nb) (mkEdge 0 None))
                  (replicate (length (concat (drop (S k) a))) (mkEdge 0 None))
                  (wf_dsts graph Hwf _ _ Hnb)
                  (length_replicate _ _)) as Hle.
    rewrite length_fmap in Hle.
    change (Z.of_nat (length (concat (take k a)))) with (before a k) in Hle.
    rewrite <- (before_S _ _ _ Hnb) in Hle.
    rewrite Hle. simpl. rewrite Hat. simpl. rewrite Hset. simpl.
    replace (((inline_node dflt graph) <$> seq 0 k) ++
             mkNode dflt (before a k) (before a (S k))
             :: replicate r (mkNode dflt 0 0))
      with (((inline_node dflt graph) <$> seq 0 (S k)) ++ replicate r (mkNode dflt 0 0)).
    2:{ rewrite seq_S, fmap_app, <- app_assoc. done. }
    replace ((inline_edge <$> concat (take k a)) ++ (inline_edge <$> nb) ++
             replicate (length (concat (drop (S k) a))) (mkEdge 0 None))
      with ((inline_edge <$> concat (take (S k) a)) ++
            replicate (length (concat (drop (S k) a))) (mkEdge 0 None)).
    2:{ rewrite (take_S_r _ _ _ Hnb), concat_app, fmap_app, <- app_assoc.
        simpl. by rewrite app_nil_r. }
    replace (Z.pred (Z.succ (Z.of_nat r))) with (Z.of_nat r) by lia.
    replace (Z.succ (Z.of_nat k)) with (Z.of_nat (S k)) by lia.
    apply IH. lia.
Qed.

Lemma inline_structureFromGraph :
  structureFromGraph dflt graph = Some (inline_loaded dflt graph).
Proof.
  unfold structureFromGraph, FileGraph.nodes.
  assert (Hn : Z.to_nat n = length a) by (unfold FileGraph.size; lia).
  assert (He : Z.to_nat (FileGraph.sizeEdges graph) = length (concat a))
    by (unfold FileGraph.sizeEdges; lia).
  rewrite Hn, He.
  pose proof (fill_node_ids_spec (length a) 0) as Hf. simpl in Hf.
  pose proof (inline_layout_nodes_spec (length a) 0 eq_refl) as Hl. simpl in Hl.
  change (Z.of_nat 0) with 0 in *.
  change (FileGraph.size graph) with (Z.of_nat (length a)) in *.
  rewrite Hf. simpl. unfold before in Hl.
  rewrite ?take_0, ?drop_0 in Hl. simpl in Hl.
  change (Z.of_nat 0) with 0 in Hl.
  by rewrite Hl.
Qed.

Lemma inline_out_dsts k nb :
  a !! k = Some nb → out_dsts (inline_loaded dflt graph) (Z.of_nat k) = Some nb.*1.
Proof.
  intros Hnb. unfold out_dsts, out_edges, edge_begin, edge_end.
  assert (Hn : aget (nodeData (inline_loaded dflt graph)) (Z.of_nat k)
               = Some ((inline_node dflt graph) k)).
  { rewrite aget_nat. simpl. rewrite list_lookup_fmap, lookup_seq_lt; [done|].
    by eapply lookup_lt_Some. }
  simpl in *. rewrite Hn. simpl.
  unfold edge_range. rewrite decide_True by (apply before_mono; lia).
  simpl. unfold getEdgeDst. simpl.
  rewrite (before_S _ _ _ Hnb).
  replace (before a k + Z.of_nat (length nb) - before a k)
    with (Z.of_nat (length (inline_edge <$> nb)))
    by (rewrite length_fmap; lia).
  unfold before.
  replace (length (concat (take k a)))
    with (length (inline_edge <$> concat (take k a)))
    by (by rewrite length_fmap).
  rewrite (concat_split _ _ _ Hnb), !fmap_app.
  erewrite mapM_fmap_inner by apply mapM_aget_seqZ.
  f_equal. rewrite <- list_fmap_compose. done.
Qed.

Lemma inline_topology :
  ∃ g, structureFromGraph dflt graph = Some g
       ∧ topology g = Some (expected a).
Proof.
  exists (inline_loaded dflt graph). split; [apply inline_structureFromGraph|].
  unfold topology, nodes. simpl.
  apply topology_spec.
  - apply NoDup_seqZ.
  - rewrite length_seqZ. unfold FileGraph.size. lia.
  - intros i v nb Hv Hnb.
    destruct (seqZ_size_lookup graph _ _ _ Hv Hnb) as (-> & Hr & _).
    exists nb.*1. split; [by apply inline_out_dsts|].
    apply Forall2_self_nodes. by eapply wf_dsts.
Qed.

End inline.

Lemma to_int_small x : 0 ≤ x ≤ INT_MAX → to_int x = x.
Proof.
  unfold to_int, INT_MAX. intros.
  rewrite Z.mod_small by lia. lia.
Qed.

Section linear_nodes.
Import LinearLayout Placement.
Context {NodeTy EdgeTy : Type} (SN SE : Z) (dflt : NodeTy).
Context (graph : FileGraph.t EdgeTy) (Hwf : FileGraph.wf graph).
Context (HSN : 0 < SN) (HSE : 0 < SE).
Local Abbreviation a := (FileGraph.adj graph).
Local Abbreviation n := (FileGraph.size graph).
Local Abbreviation span := (Placement.span (EdgeTy:=EdgeTy) SN SE).

Lemma next_loop_spec fuel ni ei :
  ei - ni ≤ Z.of_nat fuel →
  ni ≤ next_loop SN fuel ni ei ∧ ei ≤ next_loop SN fuel ni ei
  ∧ (next_loop SN fuel ni ei = ni ∨ next_loop SN fuel ni ei < ei + SN).
Proof.
  revert ni. induction fuel as [|fuel IH]; intros ni Hf; simpl;
    case_decide; try lia.
  destruct (IH (ni + SN)) as (H1 & H2 & H3); lia.
Qed.

Lemma span_pos nb : 0 < span nb.
Proof. unfold Placement.span. nia. Qed.

Lemma store_Some (m : Mem NodeTy EdgeTy) p sz c size :
  extent m !! p.1 = Some size → 0 ≤ p.2 → p.2 + sz ≤ size →
  store p sz c m = Some (mkMem (<[p := c]> (cells m)) (extent m)).
Proof.
  intros He ? ?. unfold store. rewrite He. simpl.
  by rewrite decide_True by lia.
Qed.

Lemma degree_nat k nb :
  a !! k = Some nb → FileGraph.degree graph (Z.of_nat k) = Z.of_nat (length nb).
Proof.
  intros H. unfold FileGraph.degree, FileGraph.neighbor_edges.
  by rewrite aget_nat, H.
Qed.

Lemma neighbor_edges_nat k nb :
  a !! k = Some nb → FileGraph.neighbor_edges graph (Z.of_nat k) = nb.
Proof.
  intros H. unfold FileGraph.neighbor_edges. by rewrite aget_nat, H.
Qed.

Lemma aset_middle {A} (pre post : list A) x y :
  aset (pre ++ x :: post) (Z.of_nat (length pre)) y = Some (pre ++ y :: post).
Proof.
  unfold aset. rewrite decide_True by (rewrite length_app; simpl; lia).
  f_equal. replace (Z.to_nat (Z.of_nat (length pre)))
    with (length pre + 0)%nat by lia.
  by rewrite insert_app_r.
Qed.

(** One node: the record at [c], and [next ()] from it. *)
Lemma next_spec (m : Mem NodeTy EdgeTy) ar c data ne :
  0 ≤ ne →
  ∃ c1, next SN SE (mkMem (<[(ar, c) := NodeCell data ne]> (cells m))
                       (extent m)) (ar, c) = Some (ar, c1)
        ∧ c + SN + ne * SE ≤ c1 ∧ c1 ≤ c + 2 * SN + ne * SE.
Proof.
  intros Hne. unfold next, edgeEnd, numEdges_of. simpl.
  rewrite lookup_insert_eq. simpl.
  eexists. split; [done|].
  destruct (next_loop_spec (Z.to_nat (c + SN + ne * SE - c)) c
              (c + SN + ne * SE)) as (H1 & H2 & H3); [nia|].
  split; [done|]. destruct H3; nia.
Qed.

Lemma layout_nodes_cons ii iis cur (m : Mem NodeTy EdgeTy) nodes :
  layout_nodes SN SE dflt graph (ii :: iis) cur m nodes
  = m1 ← store cur SN
            (NodeCell dflt (to_int (FileGraph.degree graph ii))) m;
    nodes1 ← aset nodes ii (Some cur);
    cur1 ← next SN SE m1 cur;
    layout_nodes SN SE dflt graph iis cur1 m1 nodes1.
Proof. done. Qed.

Lemma layout_nodes_spec ar size rest (r : nat) :
  ∀ (ps : list (nat * Z)) c (m : Mem NodeTy EdgeTy),
  extent m !! ar = Some size → 0 ≤ c →
  (length ps + r ≤ length a)%nat →
  c + 2 * SN * Z.of_nat r
    + SE * (before a (length ps + r) - before a (length ps)) ≤ size →
  ∃ qs c' m',
    layout_nodes SN SE dflt graph
      (seqZ (Z.of_nat (length ps)) (Z.of_nat r)) (ar, c) m
      ((Some <$> ps) ++ replicate (r + rest) None)
    = Some ((ar, c'), m', (Some <$> (ps ++ qs)) ++ replicate rest None)
    ∧ length qs = r ∧ extent m' = extent m ∧ c ≤ c'
    ∧ c' ≤ c + 2 * SN * Z.of_nat r
             + SE * (before a (length ps + r) - before a (length ps))
    ∧ (∀ q, q.1 ≠ ar ∨ q.2 < c ∨ c' ≤ q.2 → cells m' !! q = cells m !! q)
    ∧ (∀ j q nb, qs !! j = Some q → a !! (length ps + j)%nat = Some nb →
         q.1 = ar ∧ c ≤ q.2 ∧ q.2 + span nb ≤ c'
         ∧ cells m' !! q = Some (NodeCell dflt (Z.of_nat (length nb))))
    ∧ (∀ j j' q q' nb, (j < j')%nat → qs !! j = Some q → qs !! j' = Some q' →
         a !! (length ps + j)%nat = Some nb → q.2 + span nb ≤ q'.2).
Proof.
  induction r as [|r IH]; intros ps c m Hext Hc Hlen Hsz.
  - exists [], c, m. simpl. rewrite app_nil_r, Nat.add_0_r.
    repeat split; try done; lia.
  - rewrite Nat2Z.inj_succ, seqZ_cons by lia.
    destruct (a !! length ps) as [nb|] eqn:Hnb.
    2:{ apply lookup_ge_None in Hnb. lia. }
    pose proof (wf_degree graph Hwf _ _ Hnb) as Hdeg.
    rewrite layout_nodes_cons.
    rewrite (degree_nat _ _ Hnb), to_int_small by lia.
    assert (Hb : before a (length ps + S r)
                 = before a (S (length ps) + r)) by (f_equal; lia).
    pose proof (before_S _ _ _ Hnb) as HbS.
    pose proof (before_mono a (S (length ps)) (S (length ps) + r)
                  ltac:(lia)) as Hmono.
    rewrite (store_Some m (ar, c) SN _ size) by (simpl; (done || nia)).
    pose proof (aset_middle (Some <$> ps) (replicate (r + rest) None)
                  None (Some (ar, c))) as Has.
    rewrite length_fmap in Has. simpl. rewrite Has. simpl.
    destruct (next_spec m ar c dflt (Z.of_nat (length nb)) ltac:(lia))
      as (c1 & -> & Hc1 & Hc1'). simpl.
    replace (Z.pred (Z.succ (Z.of_nat r))) with (Z.of_nat r) by lia.
    replace (Z.succ (Z.of_nat (length ps)))
      with (Z.of_nat (length (ps ++ [(ar, c)])))
      by (rewrite length_app; simpl; lia).
    replace ((Some <$> ps) ++ Some (ar, c) :: replicate (r + rest) None)
      with ((Some <$> (ps ++ [(ar, c)])) ++ replicate (r + rest) None)
      by (by rewrite fmap_app, <- app_assoc).
    assert (Hl1 : length (ps ++ [(ar, c)]) = S (length ps))
      by (rewrite length_app; simpl; lia).
    destruct (IH (ps ++ [(ar, c)]) c1
                (mkMem (<[(ar, c) := NodeCell dflt (Z.of_nat (length nb))]>
                          (cells m)) (extent m)))
      as (qs & c' & m' & -> & Hqs & Hext' & Hcc & Hup & Hframe & Hnode & Hord).
    { done. }
    { lia. }
    { lia. }
    { rewrite Hl1. nia. }
    exists ((ar, c) :: qs), c', m'.
    rewrite <- app_assoc. simpl.
    split; [done|]. split; [simpl; lia|]. split; [done|]. split; [lia|].
    split; [rewrite Hl1 in Hup; nia|].
    assert (Hc0 : cells m' !! (ar, c)
                  = Some (NodeCell dflt (Z.of_nat (length nb)))).
    { rewrite Hframe by (simpl; lia). simpl. by rewrite lookup_insert_eq. }
    split; [|split].
    + intros q Hq. rewrite Hframe by (simpl in *; lia). simpl.
      apply lookup_insert_ne. intros <-. simpl in Hq. lia.
    + intros j q nb' Hj Ha. destruct j as [|j]; simpl in Hj.
      * simplify_eq. rewrite Nat.add_0_r in Ha. simplify_eq. simpl.
        unfold Placement.span. repeat split; (done || lia).
      * rewrite Hl1 in Hnode.
        replace (length ps + S j)%nat with (S (length ps) + j)%nat in Ha by lia.
        destruct (Hnode _ _ _ Hj Ha) as (? & ? & ? & ?).
        repeat split; (done || lia).
    + intros j j' q q' nb' Hjj Hj Hj' Ha. rewrite Hl1 in Hnode, Hord.
      destruct j' as [|j']; [lia|]. simpl in Hj'.
      destruct (a !! (S (length ps) + j')%nat) as [nb''|] eqn:Hnb''.
      2:{ apply lookup_ge_None in Hnb''. apply lookup_lt_Some in Hj'. lia. }
      destruct (Hnode _ _ _ Hj' Hnb'') as (? & ? & ? & ?).
      destruct j as [|j]; simpl in Hj.
      * simplify_eq. rewrite Nat.add_0_r in Ha. simplify_eq. simpl.
        unfold Placement.span. lia.
      * replace (length ps + S j)%nat with (S (length ps) + j)%nat in Ha by lia.
        eapply Hord; [| done | done | done]. lia.
Qed.

End linear_nodes.

Section linear_edges.
Import LinearLayout Placement.
Context {NodeTy EdgeTy : Type} (SN SE : Z) (dflt : NodeTy).
Context (graph : FileGraph.t EdgeTy) (Hwf : FileGraph.wf graph).
Context (HSN : 0 < SN) (HSE : 0 < SE).
Local Abbreviation a := (FileGraph.adj graph).
Local Abbreviation n := (FileGraph.size graph).
Local Abbreviation span := (Placement.span (EdgeTy:=EdgeTy) SN SE).
Context (ps : list (nat * Z)) (Hlen : length ps = length a).
Context (Hsep : separated SN SE a ps).

Lemma node_at_placed d :
  0 ≤ d < n →
  ∃ pd, ps !! Z.to_nat d = Some pd ∧ node_at (Some <$> ps) d = Some pd.
Proof.
  intros Hd. destruct (ps !! Z.to_nat d) as [pd|] eqn:E.
  - exists pd. split; [done|]. unfold node_at, aget.
    rewrite decide_True by lia. by rewrite list_lookup_fmap, E.
  - apply lookup_ge_None in E. unfold FileGraph.size in Hd. lia.
Qed.

Lemma placed_NoDup : NoDup ps.
Proof.
  apply NoDup_alt. intros i j p Hi Hj.
  destruct (decide (i = j)) as [|Hne]; [done|].
  destruct (a !! i) as [nb|] eqn:Hnb.
  2:{ apply lookup_ge_None in Hnb. apply lookup_lt_Some in Hi. lia. }
  destruct (a !! j) as [nb'|] eqn:Hnb'.
  2:{ apply lookup_ge_None in Hnb'. apply lookup_lt_Some in Hj. lia. }
  pose proof (span_pos SN SE HSN HSE nb).
  pose proof (span_pos SN SE HSN HSE nb').
  destruct (Hsep _ _ _ _ _ _ Hne Hi Hj Hnb Hnb') as [?|[?|?]]; (done || lia).
Qed.

Lemma layout_edges_spec (nb : list (Z * EdgeTy)) :
  ∀ e (m : Mem NodeTy EdgeTy) size ar,
  Forall (λ d, 0 ≤ d < n) nb.*1 →
  extent m !! ar = Some size → 0 ≤ e →
  e + Z.of_nat (length nb) * SE ≤ size →
  ∃ m', layout_edges SE (Some <$> ps) (ar, e) nb m = Some m'
    ∧ extent m' = extent m
    ∧ (∀ q, q.1 ≠ ar ∨ q.2 < e ∨ e + Z.of_nat (length nb) * SE ≤ q.2 →
         cells m' !! q = cells m !! q)
    ∧ (∀ j d w, nb !! j = Some (d, w) →
         ∃ pd, ps !! Z.to_nat d = Some pd
               ∧ cells m' !! (ar, e + Z.of_nat j * SE)
                 = Some (EdgeCell pd (Some w))).
Proof.
  induction nb as [|[d w] nb IH]; intros e m size ar Hd Hext He Hsz.
  - exists m. simpl. repeat split; try done.
  - simpl in Hd. apply Forall_cons in Hd as [Hd0 Hd].
    destruct (node_at_placed d Hd0) as (pd & Hpd & Hat).
    simpl. rewrite Hat. simpl.
    rewrite (store_Some m (ar, e) SE _ size)
      by (simpl in *; (done || nia)).
    simpl.
    destruct (IH (e + SE)
                (mkMem (<[(ar, e) := EdgeCell pd (Some w)]> (cells m))
                       (extent m)) size ar)
      as (m' & -> & Hext' & Hframe & Hcells); try done.
    { lia. }
    { simpl in Hsz. nia. }
    exists m'. split; [done|]. split; [done|]. simpl in *. split.
    + intros q Hq. rewrite Hframe by nia. simpl.
      apply lookup_insert_ne. intros <-. simpl in Hq. lia.
    + intros j d' w' Hj. destruct j as [|j]; simpl in Hj.
      * simplify_eq. exists pd. split; [done|].
        replace (ar, e + Z.of_nat 0 * SE) with (ar, e) by (f_equal; lia).
        rewrite Hframe by (simpl; lia). simpl.
        by rewrite lookup_insert_eq.
      * destruct (Hcells _ _ _ Hj) as (pd' & ? & Hc).
        exists pd'. split; [done|]. rewrite <- Hc. do 2 f_equal. lia.
Qed.

Lemma layout_all_edges_spec (r : nat) :
  ∀ (k : nat) (m : Mem NodeTy EdgeTy),
  (k + r ≤ length a)%nat →
  fits SN SE a (extent m) ps → node_cells dflt a m ps →
  edge_cells SN SE a m ps k →
  ∃ m', layout_all_edges SN SE graph (Some <$> ps)
          (seqZ (Z.of_nat k) (Z.of_nat r)) m = Some m'
    ∧ extent m' = extent m ∧ node_cells dflt a m' ps
    ∧ edge_cells SN SE a m' ps (k + r).
Proof.
  induction r as [|r IH]; intros k m Hk Hfit Hnodes Hedges.
  - exists m. simpl. rewrite Nat.add_0_r. done.
  - rewrite Nat2Z.inj_succ, seqZ_cons by lia.
    destruct (a !! k) as [nb|] eqn:Hnb.
    2:{ apply lookup_ge_None in Hnb. lia. }
    destruct (ps !! k) as [p|] eqn:Hp.
    2:{ apply lookup_ge_None in Hp. lia. }
    destruct (node_at_placed (Z.of_nat k)) as (p' & Hp' & Hat).
    { unfold FileGraph.size. lia. }
    rewrite Nat2Z.id in Hp'. simplify_eq.
    simpl. rewrite Hat. simpl. rewrite (neighbor_edges_nat _ _ _ Hnb).
    destruct (Hfit _ _ _ Hp Hnb) as (size & Hext & Hp0 & Hpsz).
    unfold Placement.span in Hpsz.
    destruct (layout_edges_spec nb (p.2 + SN) m size p.1)
      as (m1 & Hm1 & Hext1 & Hframe & Hcells).
    { by eapply wf_dsts. }
    { done. }
    { lia. }
    { lia. }
    unfold edgeBegin. rewrite Hm1. simpl.
    replace (Z.pred (Z.succ (Z.of_nat r))) with (Z.of_nat r) by lia.
    replace (Z.succ (Z.of_nat k)) with (Z.of_nat (S k)) by lia.
    destruct (IH (S k) m1) as (m' & -> & Hext' & Hnodes' & Hedges').
    { lia. }
    { by rewrite Hext1. }
    { intros i q nbi Hq Hnbi. rewrite Hframe; [by eapply Hnodes|].
      destruct (decide (i = k)) as [->|Hne]; [simplify_eq; lia|].
      pose proof (span_pos SN SE HSN HSE nbi).
      unfold Placement.span in *.
      destruct (Hsep _ _ _ _ _ _ Hne Hq Hp Hnbi Hnb) as [?|[?|?]];
        unfold Placement.span in *; [by left|lia|lia]. }
    { intros i q nbi j d w Hi Hq Hnbi Hj.
      destruct (decide (i = k)) as [->|Hne].
      - simplify_eq. destruct (Hcells _ _ _ Hj) as (pd & ? & Hc).
        exists pd. split; [done|]. exact Hc.
      - destruct (Hedges i q nbi j d w) as (pd & ? & Hc).
        { lia. }
        { done. }
        { done. }
        { done. }
        exists pd. split; [done|]. rewrite Hframe; [done|]. simpl.
        apply lookup_lt_Some in Hj.
        destruct (Hsep _ _ _ _ _ _ Hne Hq Hp Hnbi Hnb) as [?|[?|?]];
          unfold Placement.span in *; [by left|nia|nia]. }
    exists m'. split; [done|]. split; [congruence|]. split; [done|].
    by replace (k + S r)%nat with (S k + r)%nat by lia.
Qed.

Lemma placed_dsts_exist (nb : list (Z * EdgeTy)) :
  Forall (λ d, 0 ≤ d < n) nb.*1 →
  ∃ ds, Forall2 (λ q d, aget ps d = Some q) ds nb.*1.
Proof.
  induction nb as [|[d w] nb IH]; simpl; intros Hd.
  - by exists [].
  - apply Forall_cons in Hd as [Hd0 Hd].
    destruct (IH Hd) as (ds & Hds).
    destruct (node_at_placed d Hd0) as (pd & Hpd & _).
    exists (pd :: ds). constructor; [|done].
    unfold aget. by rewrite decide_True by lia.
Qed.

Lemma placed_out_edges (m : Mem NodeTy EdgeTy) i p nb :
  node_cells dflt a m ps → ps !! i = Some p → a !! i = Some nb →
  runM (out_edges SN SE m p NONE)
  = Some ((λ k, (p.1, p.2 + SN + k * SE)) <$> seqZ 0 (Z.of_nat (length nb)),
          []).
Proof.
  intros Hnodes Hp Hnb.
  assert (He : edgeEnd SN SE m p
               = Some (p.1, p.2 + SN + Z.of_nat (length nb) * SE)).
  { unfold edgeEnd, numEdges_of. by rewrite (Hnodes _ _ _ Hp Hnb). }
  unfold out_edges, edge_begin, edge_end. simpl. rewrite He. simpl.
  unfold edge_range. simpl.
  replace (p.2 + SN + Z.of_nat (length nb) * SE - (p.2 + SN))
    with (Z.of_nat (length nb) * SE) by lia.
  rewrite decide_True.
  2:{ rewrite Z.mod_mul by lia. repeat split; (done || nia). }
  simpl. by rewrite Z.div_mul by lia.
Qed.

Lemma placed_out_dsts (m : Mem NodeTy EdgeTy) i p nb :
  node_cells dflt a m ps → edge_cells SN SE a m ps (length a) →
  ps !! i = Some p → a !! i = Some nb →
  ∃ ds, out_dsts SN SE m p = Some ds
        ∧ Forall2 (λ q d, aget ps d = Some q) ds nb.*1.
Proof.
  intros Hnodes Hedges Hp Hnb.
  destruct (placed_dsts_exist nb) as (ds & Hds); [by eapply wf_dsts|].
  exists ds. split; [|done].
  unfold out_dsts. rewrite (placed_out_edges m i p nb) by done. simpl.
  apply mapM_Some. apply Forall2_same_length_lookup. split.
  - rewrite length_fmap, length_seqZ. rewrite (Forall2_length _ _ _ Hds).
    rewrite length_fmap. lia.
  - intros j e q He Hq. rewrite list_lookup_fmap in He.
    destruct (seqZ 0 (Z.of_nat (length nb)) !! j) as [k|] eqn:Hk; [|done].
    apply lookup_seqZ in Hk as [-> Hj]. simpl in He. simplify_eq.
    destruct (nb !! j) as [[d w]|] eqn:Hnbj.
    2:{ apply lookup_ge_None in Hnbj. lia. }
    assert (Hdj : nb.*1 !! j = Some d) by (by rewrite list_lookup_fmap, Hnbj).
    pose proof (Forall2_lookup_lr _ _ _ _ _ _ Hds Hq Hdj) as Hqd.
    destruct (Hedges i p nb j d w) as (pd & Hpd & Hc); try done.
    { by eapply lookup_lt_Some. }
    unfold getEdgeDst, dst_of. replace (0 + Z.of_nat j) with (Z.of_nat j) by lia.
    rewrite Hc. simpl. f_equal.
    pose proof (aget_Some_lt _ _ _ Hqd). unfold aget in Hqd.
    rewrite decide_True in Hqd by lia. congruence.
Qed.

Lemma placed_topology (m : Mem NodeTy EdgeTy) :
  node_cells dflt a m ps → edge_cells SN SE a m ps (length a) →
  Topology.topology ps (out_dsts SN SE m) = Some (expected a).
Proof.
  intros Hnodes Hedges. apply topology_spec.
  - apply placed_NoDup.
  - done.
  - intros i p nb Hp Hnb. by eapply placed_out_dsts.
Qed.

Lemma placed_node_list :
  mapM (node_at (Some <$> ps)) (seqZ 0 n) = Some ps.
Proof.
  apply mapM_Some. apply Forall2_same_length_lookup. split.
  - rewrite length_seqZ. unfold FileGraph.size. lia.
  - intros i d p Hd Hp. apply lookup_seqZ in Hd as [-> Hi].
    destruct (node_at_placed (0 + Z.of_nat i)) as (p' & Hp' & ->); [lia|].
    replace (Z.to_nat (0 + Z.of_nat i)) with i in Hp' by lia. congruence.
Qed.

End linear_edges.

Section placed.
Import LinearLayout Placement.
Context {NodeTy EdgeTy : Type} (SN SE : Z) (dflt : NodeTy).
Context (graph : FileGraph.t EdgeTy) (Hwf : FileGraph.wf graph).
Context (HSN : 0 < SN) (HSE : 0 < SE).
Local Abbreviation a := (FileGraph.adj graph).
Local Abbreviation n := (FileGraph.size graph).
Local Abbreviation span := (Placement.span (EdgeTy:=EdgeTy) SN SE).

Lemma placed_empty : Placed SN SE dflt a 0 (mkMem ∅ ∅) [].
Proof. constructor; by intros ?. Qed.

Lemma placed_alloc tid size (m : Mem NodeTy EdgeTy) ps :
  Placed SN SE dflt a tid m ps →
  Placed SN SE dflt a (S tid) (alloc tid size m) ps.
Proof.
  intros [Har Hsep Hfit Hnodes]. constructor; try done.
  - intros i p Hp. specialize (Har _ _ Hp). lia.
  - intros i p nb Hp Hnb. destruct (Hfit _ _ _ Hp Hnb) as (sz & ? & ?).
    exists sz. split; [|done]. simpl. rewrite lookup_insert_ne; [done|].
    specialize (Har _ _ Hp). lia.
Qed.

Lemma placed_extend tid size rest (r : nat) ps c (m : Mem NodeTy EdgeTy) :
  Placed SN SE dflt a tid m ps → 0 ≤ c →
  (length ps + r ≤ length a)%nat →
  c + 2 * SN * Z.of_nat r
    + SE * (before a (length ps + r) - before a (length ps)) ≤ size →
  ∃ qs c' m',
    layout_nodes SN SE dflt graph
      (seqZ (Z.of_nat (length ps)) (Z.of_nat r)) (tid, c) (alloc tid size m)
      ((Some <$> ps) ++ replicate (r + rest) None)
    = Some ((tid, c'), m', (Some <$> (ps ++ qs)) ++ replicate rest None)
    ∧ length qs = r
    ∧ Placed SN SE dflt a (S tid) m' (ps ++ qs).
Proof.
  intros [Har Hsep Hfit Hnodes] Hc Hlen Hsz.
  destruct (layout_nodes_spec SN SE dflt graph Hwf HSN HSE tid size rest r
              ps c (alloc tid size m))
    as (qs & c' & m' & Heq & Hqs & Hext & Hcc & Hup & Hframe & Hnode & Hord);
    try done.
  { simpl. by rewrite lookup_insert_eq. }
  exists qs, c', m'. split; [done|]. split; [done|].
  assert (Hnew : ∀ (i : nat) q, (length ps ≤ i)%nat →
            qs !! (i - length ps)%nat = Some q → ∃ nb, a !! i = Some nb).
  { intros i q Hi Hq. apply lookup_lt_Some in Hq.
    destruct (a !! i) eqn:E; [eauto|]. apply lookup_ge_None in E. lia. }
  constructor.
  - intros i p [Hp|[Hi Hq]]%lookup_app_Some.
    + specialize (Har _ _ Hp). lia.
    + destruct (Hnew _ _ Hi Hq) as (nb & Hnb).
      replace i with (length ps + (i - length ps))%nat in Hnb by lia.
      destruct (Hnode _ _ _ Hq Hnb) as (-> & _). lia.
  - intros i i' p p' nb nb' Hne
      [Hp|[Hi Hq]]%lookup_app_Some [Hp'|[Hi' Hq']]%lookup_app_Some Hnb Hnb'.
    + eauto.
    + left. specialize (Har _ _ Hp).
      replace i' with (length ps + (i' - length ps))%nat in Hnb' by lia.
      destruct (Hnode _ _ _ Hq' Hnb') as (-> & _). lia.
    + left. specialize (Har _ _ Hp').
      replace i with (length ps + (i - length ps))%nat in Hnb by lia.
      destruct (Hnode _ _ _ Hq Hnb) as (-> & _). lia.
    + right.
      replace i with (length ps + (i - length ps))%nat in Hnb by lia.
      replace i' with (length ps + (i' - length ps))%nat in Hnb' by lia.
      destruct (decide (i < i')%nat).
      * left. eapply (Hord (i - length ps)%nat (i' - length ps)%nat);
          [lia|done..].
      * right. eapply (Hord (i' - length ps)%nat (i - length ps)%nat);
          [lia|done..].
  - intros i p nb [Hp|[Hi Hq]]%lookup_app_Some Hnb.
    + destruct (Hfit _ _ _ Hp Hnb) as (sz & ? & ?).
      exists sz. split; [|done]. rewrite Hext. simpl.
      rewrite lookup_insert_ne; [done|]. specialize (Har _ _ Hp). lia.
    + replace i with (length ps + (i - length ps))%nat in Hnb by lia.
      destruct (Hnode _ _ _ Hq Hnb) as (Hq1 & ? & ? & _).
      exists size. rewrite Hext, Hq1. simpl. rewrite lookup_insert_eq.
      split; [done|]. pose proof (before_mono a (length ps) (length ps + r)).
      lia.
  - intros i p nb [Hp|[Hi Hq]]%lookup_app_Some Hnb.
    + rewrite Hframe; [by eapply Hnodes|]. left.
      specialize (Har _ _ Hp). lia.
    + replace i with (length ps + (i - length ps))%nat in Hnb by lia.
      by destruct (Hnode _ _ _ Hq Hnb) as (_ & _ & _ & ?).
Qed.

(** After the second pass over a complete placement. *)
Lemma placed_complete (m : Mem NodeTy EdgeTy) ps :
  separated SN SE a ps → length ps = length a →
  node_cells dflt a m ps → edge_cells SN SE a m ps (length a) →
  mapM (node_at (Some <$> ps)) (seqZ 0 n) = Some ps
  ∧ Topology.topology ps (out_dsts SN SE m) = Some (expected a).
Proof.
  intros Hsep Hlen Hnodes Hedges. split.
  - by apply placed_node_list.
  - by eapply placed_topology.
Qed.

End placed.

Section linear_graph.
Import LinearLayout Placement LC_Linear_Graph.
Context {NodeTy EdgeTy : Type} (SN SE : Z) (dflt : NodeTy).
Context (graph : FileGraph.t EdgeTy) (Hwf : FileGraph.wf graph).
Context (HSN : 0 < SN) (HSE : 0 < SE).
Local Abbreviation a := (FileGraph.adj graph).
Local Abbreviation n := (FileGraph.size graph).
Context (Hsize : SN * n * 2 + SE * FileGraph.sizeEdges graph ≤ UINT64_MAX).

Lemma before_all : before a (length a) = FileGraph.sizeEdges graph.
Proof. unfold before, FileGraph.sizeEdges. by rewrite firstn_all. Qed.

Lemma linear_topology :
  ∃ g, structureFromGraph SN SE dflt graph = Some g
       ∧ topology SN SE g = Some (expected a).
Proof.
  unfold structureFromGraph, FileGraph.nodes.
  pose proof (before_all) as Hall.
  assert (He : 0 ≤ FileGraph.sizeEdges graph)
    by (unfold FileGraph.sizeEdges; lia).
  assert (Hn : 0 ≤ n) by (unfold FileGraph.size; lia).
  rewrite u64_small by nia.
  destruct (placed_extend SN SE dflt graph Hwf HSN HSE 0
              (SN * n * 2 + SE * FileGraph.sizeEdges graph) 0 (length a)
              [] 0 (mkMem ∅ ∅))
    as (qs & c' & m1 & Hnodes & Hqs & HP).
  { apply placed_empty. }
  { done. }
  { simpl. lia. }
  { simpl. rewrite Hall. unfold before. simpl. unfold FileGraph.size. nia. }
  simpl in Hnodes. rewrite Nat.add_0_r, app_nil_r in Hnodes.
  change (Z.of_nat 0) with 0 in Hnodes.
  replace (Z.to_nat n) with (length a) by (unfold FileGraph.size; lia).
  change n with (Z.of_nat (length a)) in *.
  rewrite Hnodes. simpl.
  destruct (layout_all_edges_spec SN SE dflt graph Hwf HSN HSE qs
              ltac:(done) (placed_sep _ _ _ _ _ _ _ HP) (length a) 0%nat m1)
    as (m2 & Hedges & Hext & Hnc & Hec).
  { simpl. lia. }
  { apply HP. }
  { apply HP. }
  { intros i ? ? ? ? ? Hi. lia. }
  change (Z.of_nat 0) with 0 in Hedges. rewrite Hedges. simpl.
  eexists. split; [done|].
  unfold topology, node_list. simpl.
  destruct (placed_complete SN SE dflt graph Hwf HSN HSE m2 qs)
    as (Hnl & Htop); try done.
  { apply HP. }
  change (FileGraph.size graph) with (Z.of_nat (length a)) in Hnl.
  rewrite Hnl. simpl. done.
Qed.

End linear_graph.

Section distribute.
Import LC_Numa_Graph Distribution.
Context {EdgeTy : Type} (SN SE : Z).
Context (graph : FileGraph.t EdgeTy) (Hwf : FileGraph.wf graph).
Context (HSN : 0 < SN) (HSE : 0 < SE).
Local Abbreviation a := (FileGraph.adj graph).
Local Abbreviation n := (FileGraph.size graph).
Context (Hsize : SN * n + SE * FileGraph.sizeEdges graph ≤ UINT64_MAX).

Lemma tiles_app ds ds' pos mid pos' :
  tiles a ds pos mid → tiles a ds' mid pos' → tiles a (ds ++ ds') pos pos'.
Proof.
  revert pos. induction ds as [|d ds IH]; simpl; intros pos H1 H2.
  - by subst.
  - case_decide; [by apply IH|].
    destruct H1 as (e & ? & ? & ? & ? & ? & H1).
    exists e. repeat split; try done. by apply IH.
Qed.

Lemma tiles_le ds pos pos' : tiles a ds pos pos' → (pos ≤ pos')%nat.
Proof.
  revert pos. induction ds as [|d ds IH]; simpl; intros pos H.
  - lia.
  - case_decide; [by apply IH|].
    destruct H as (e & ? & _ & _ & _ & _ & H). apply IH in H. lia.
Qed.

Lemma before_bounds k :
  0 ≤ before a k ≤ FileGraph.sizeEdges graph.
Proof.
  split; [unfold before; lia|]. apply before_le.
Qed.

Lemma size_bounds k :
  (k ≤ length a)%nat →
  0 ≤ SN * Z.of_nat k + SE * before a k ≤ UINT64_MAX.
Proof.
  intros Hk. pose proof (before_bounds k). unfold FileGraph.size in Hsize.
  split; nia.
Qed.

Lemma u64_nat (k : nat) : Z.of_nat k ≤ UINT64_MAX → u64 (Z.of_nat k) = Z.of_nat k.
Proof. intros. apply u64_small. lia. Qed.

Lemma nodes_fit (k : nat) : (k ≤ length a)%nat → Z.of_nat k ≤ UINT64_MAX.
Proof.
  intros. destruct Hwf as (Hn & _). unfold FileGraph.size in Hn.
  unfold UINT32_MAX, UINT64_MAX in *. lia.
Qed.

Lemma edges_fit (k : nat) : 0 ≤ before a k ≤ UINT64_MAX.
Proof.
  pose proof (before_bounds k). destruct Hwf as (_ & He & _). lia.
Qed.

Lemma replicate_zero_S num tid :
  (tid < num)%nat →
  replicate (num - tid) (mkInfo 0 0 0 0)
  = mkInfo 0 0 0 0 :: replicate (num - S tid) (mkInfo 0 0 0 0).
Proof. intros. by replace (num - tid)%nat with (S (num - S tid)) by lia. Qed.

Lemma distributing_skip num tid v :
  (tid < num)%nat → Distributing SN SE a num tid v →
  Distributing SN SE a num (S tid) v.
Proof.
  intros Htid (k & l & ds & Hkl & Hii & Hlast & Hnn & Hne & Hrn & Hre
               & Hcur & Hds & Hlen & Htiles).
  exists k, l, (ds ++ [mkInfo 0 0 0 0]).
  rewrite <- app_assoc, length_app. simpl.
  rewrite <- (replicate_zero_S num tid Htid).
  repeat split; try (done || lia).
  eapply tiles_app; [done|]. by simpl.
Qed.

Lemma distributing_break num tid v :
  (tid < num)%nat → Distributing SN SE a num tid v →
  ∃ di, aset (dinfo v) (Z.of_nat tid)
             (mkInfo (nnodes v) (nedges v) (last v) (ii v)) = Some di
        ∧ Distributing SN SE a num (S tid)
            (mkVars (curSize v) (ii v) (ii v) 0 0
               (u64 (runningNodes v + nnodes v))
               (u64 (runningEdges v + nedges v)) di).
Proof.
  intros Htid (k & l & ds & Hkl & Hii & Hlast & Hnn & Hne & Hrn & Hre
               & Hcur & Hds & Hlen & Htiles).
  rewrite Hds, (replicate_zero_S num tid Htid), <- Hlen, aset_middle.
  eexists. split; [done|].
  exists k, k, (ds ++ [mkInfo (nnodes v) (nedges v) (last v) (ii v)]).
  simpl. rewrite <- app_assoc, length_app. simpl.
  rewrite Hrn, Hnn, Hre, Hne.
  replace (Z.of_nat l + Z.of_nat (k - l)) with (Z.of_nat k) by lia.
  replace (before a l + (before a k - before a l)) with (before a k) by lia.
  rewrite u64_nat by (apply nodes_fit; lia).
  rewrite u64_small by apply edges_fit.
  repeat split; try (done || lia).
  eapply tiles_app; [done|]. simpl.
  case_decide; [f_equal; lia|].
  exists k. repeat split; (done || lia).
Qed.

Lemma distributing_step num tid v :
  Distributing SN SE a num tid v → ii v ≠ n →
  Distributing SN SE a num tid
    (mkVars (u64 (curSize v
                  + (SN + SE * FileGraph.degree graph (ii v))))
            (ii v + 1) (last v)
            (u64 (nnodes v + 1))
            (u64 (nedges v + FileGraph.degree graph (ii v)))
            (runningNodes v) (runningEdges v) (dinfo v)).
Proof.
  intros (k & l & ds & Hkl & Hii & Hlast & Hnn & Hne & Hrn & Hre
          & Hcur & Hds & Hlen & Htiles) Hnot.
  destruct (a !! k) as [nb|] eqn:Hnb.
  2:{ apply lookup_ge_None in Hnb. unfold FileGraph.size in *. lia. }
  assert (HSk : (S k ≤ length a)%nat) by (apply lookup_lt_Some in Hnb; lia).
  exists (S k), l, ds. simpl.
  rewrite Hii, (degree_nat _ _ _ Hnb), Hcur, Hnn, Hne.
  pose proof (before_S _ _ _ Hnb) as HbS.
  pose proof (before_mono a l k ltac:(lia)).
  pose proof (before_mono a l (S k) ltac:(lia)).
  pose proof (edges_fit (S k)). pose proof (edges_fit l).
  replace (Z.of_nat (k - l) + 1) with (Z.of_nat (S k - l)) by lia.
  rewrite u64_nat by (apply nodes_fit; lia).
  rewrite (u64_small (before a k - before a l + _)) by lia.
  rewrite u64_small.
  2:{ pose proof (size_bounds (S k) HSk). lia. }
  repeat split; try (done || lia).
Qed.

Lemma distribute_inner_spec num tid blockSize (fuel : nat) :
  ∀ v, (tid < num)%nat → Distributing SN SE a num tid v →
  n - ii v ≤ Z.of_nat fuel →
  ∃ v', distribute_inner SN SE graph fuel (Z.of_nat tid) blockSize n v
          = Some v'
        ∧ Distributing SN SE a num (S tid) v'.
Proof.
  induction fuel as [|fuel IH]; intros v Htid HD Hfuel.
  - simpl. case_decide; [by eauto using distributing_skip|].
    destruct (distributing_break num tid v Htid HD) as (di & Hdi & ?).
    case_decide; [rewrite Hdi; eauto|].
    destruct HD as (k & l & ds & Hkl & Hii & _).
    unfold FileGraph.size in *. lia.
  - simpl. case_decide; [by eauto using distributing_skip|].
    destruct (distributing_break num tid v Htid HD) as (di & Hdi & ?).
    case_decide; [rewrite Hdi; eauto|].
    apply IH; [done| |simpl; lia].
    by apply distributing_step.
Qed.

Lemma distribute_outer_cons tid tids blockSize ei v :
  distribute_outer SN SE graph (tid :: tids) blockSize ei v
  = v1 ← distribute_inner SN SE graph (S (Z.to_nat (ei - ii v))) tid
          blockSize ei v;
    distribute_outer SN SE graph tids blockSize ei v1.
Proof. done. Qed.

Lemma distribute_outer_spec num blockSize (r : nat) :
  ∀ (tid : nat) v, (tid + r ≤ num)%nat → Distributing SN SE a num tid v →
  ∃ v', distribute_outer SN SE graph
          (seqZ (Z.of_nat tid) (Z.of_nat r)) blockSize n v = Some v'
        ∧ Distributing SN SE a num (tid + r) v'.
Proof.
  induction r as [|r IH]; intros tid v Htid HD.
  - exists v. rewrite Nat.add_0_r. done.
  - rewrite Nat2Z.inj_succ, seqZ_cons by lia.
    rewrite distribute_outer_cons.
    destruct (distribute_inner_spec num tid blockSize
                (S (Z.to_nat (n - ii v))) v) as (v1 & -> & HD1);
      [lia|done|lia|].
    cbn [mbind option_bind].
    replace (Z.pred (Z.succ (Z.of_nat r))) with (Z.of_nat r) by lia.
    replace (Z.succ (Z.of_nat tid)) with (Z.of_nat (S tid)) by lia.
    destruct (IH (S tid) v1) as (v' & -> & HD'); [lia|done|].
    exists v'. split; [done|].
    by replace (tid + S r)%nat with (S tid + r)%nat by lia.
Qed.

Lemma distribute_spec (num : nat) :
  (1 ≤ num)%nat →
  ∃ ds, distribute SN SE graph (Z.of_nat num) (PerThreadStorage_new num)
        = Some ds
        ∧ length ds = num ∧ tiles a ds 0 (length a).
Proof.
  intros Hnum. unfold distribute. rewrite decide_False by lia.
  destruct (distribute_outer_spec num
              (u64 (SN * n + SE * FileGraph.sizeEdges graph) / Z.of_nat num)
              (num - 1) 0
              (mkVars 0 0 0 0 0 0 0 (PerThreadStorage_new num)))
    as (v & Hv & HD).
  { lia. }
  { exists 0%nat, 0%nat, []. simpl. unfold before. simpl.
    unfold PerThreadStorage_new. rewrite Nat.sub_0_r.
    repeat split; (done || lia). }
  replace (Z.of_nat num - 1) with (Z.of_nat (num - 1)) by lia.
  change (Z.of_nat 0) with 0 in Hv. rewrite Hv. simpl. simpl in HD.
  destruct HD as (k & l & ds & Hkl & Hii & Hlast & Hnn & Hne & Hrn & Hre
                  & Hcur & Hds & Hlen & Htiles).
  rewrite Hds.
  replace (num - (num - 1))%nat with 1%nat by lia. simpl.
  replace (Z.of_nat (num - 1)) with (Z.of_nat (length ds)) by lia.
  rewrite aset_middle. eexists. split; [done|].
  split; [rewrite length_app; simpl; lia|].
  eapply tiles_app; [done|]. simpl.
  rewrite Hrn, Hre, Hlast.
  pose proof (before_all graph) as Hall.
  pose proof (before_mono a l (length a) ltac:(lia)).
  pose proof (edges_fit (length a)).
  unfold FileGraph.size.
  replace (Z.of_nat (length a) - Z.of_nat l)
    with (Z.of_nat (length a - l)) by lia.
  rewrite u64_nat by (apply nodes_fit; lia).
  rewrite u64_small by (rewrite <- Hall; pose proof (edges_fit l); lia).
  case_decide; [lia|].
  exists (length a). rewrite Hall. repeat split; (done || lia).
Qed.

End distribute.

Section numa.
Import LinearLayout Placement LC_Numa_Graph Distribution.
Context {NodeTy EdgeTy : Type} (SN SE SH : Z) (dflt : NodeTy).
Context (graph : FileGraph.t EdgeTy) (Hwf : FileGraph.wf graph).
Context (HSN : 0 < SN) (HSE : 0 < SE) (HSH : 0 < SH).
Local Abbreviation a := (FileGraph.adj graph).
Local Abbreviation n := (FileGraph.size graph).
Context (Hsize : SH * 2 + SN * n * 2 + SE * FileGraph.sizeEdges graph
                 ≤ UINT64_MAX).
Context (ds : list DistributeInfo) (num : nat) (Hds : length ds = num).

Lemma on_each_cons {S : Type} (f : nat → S → option S) tid tids s :
  on_each f (tid :: tids) s = s1 ← f tid s; on_each f tids s1.
Proof. done. Qed.

Lemma iter_range_nat (b e : nat) :
  (b ≤ e)%nat →
  iter_range (Z.of_nat b) (Z.of_nat e)
  = Some (seqZ (Z.of_nat b) (Z.of_nat (e - b))).
Proof.
  intros. unfold iter_range. rewrite decide_True by lia.
  do 2 f_equal. lia.
Qed.

Lemma AllocateNodes_eq tid d (m : Mem NodeTy EdgeTy) hs nodes :
  ds !! tid = Some d →
  AllocateNodes SN SE SH dflt graph ds tid (m, hs, nodes)
  = let size := u64 (SH * 2 + SN * d_numNodes d * 2 + SE * d_numEdges d) in
    if decide (d_numNodes d = 0)
    then hs1 ← aset hs (Z.of_nat tid)
                  (Some (mkHeader (tid, SH) (tid, SH) size));
         Some (alloc tid size m, hs1, nodes)
    else
      iis ← iter_range (d_begin d) (d_end d);
      '(cur, m2, nodes2) ← layout_nodes SN SE dflt graph iis
                              (tid, SH) (alloc tid size m) nodes;
      hs1 ← aset hs (Z.of_nat tid) (Some (mkHeader (tid, SH) cur size));
      Some (m2, hs1, nodes2).
Proof. intros H. unfold AllocateNodes. by rewrite H. Qed.

Lemma AllocateEdges_eq tid d nodes (m : Mem NodeTy EdgeTy) :
  ds !! tid = Some d →
  AllocateEdges SN SE graph ds nodes tid m
  = if decide (d_numNodes d = 0) then Some m
    else iis ← iter_range (d_begin d) (d_end d);
         layout_all_edges SN SE graph nodes iis m.
Proof. intros H. unfold AllocateEdges. by rewrite H. Qed.

Lemma alloc_nodes_spec (r : nat) :
  ∀ (T : nat) ps (m : Mem NodeTy EdgeTy) hs,
  (T + r = num)%nat → tiles a (drop T ds) (length ps) (length a) →
  Placed SN SE dflt a T m ps → length hs = num →
  ∃ m' hs' ps',
    on_each (AllocateNodes SN SE SH dflt graph ds) (seq T r)
      (m, hs, (Some <$> ps) ++ replicate (length a - length ps) None)
    = Some (m', hs', Some <$> ps')
    ∧ length ps' = length a ∧ Placed SN SE dflt a num m' ps'.
Proof.
  induction r as [|r IH]; intros T ps m hs HT Htiles HP Hhs.
  - rewrite drop_ge in Htiles by lia. simpl in Htiles.
    exists m, hs, ps. simpl. rewrite Htiles, Nat.sub_diag. simpl.
    rewrite app_nil_r. replace num with T by lia. done.
  - destruct (ds !! T) as [d|] eqn:Hd.
    2:{ apply lookup_ge_None in Hd. lia. }
    rewrite (drop_S _ _ _ Hd) in Htiles. simpl in Htiles.
    change (seq T (S r)) with (T :: seq (S T) r).
    rewrite on_each_cons, (AllocateNodes_eq _ _ _ _ _ Hd). cbv zeta.
    assert (Hset : ∀ h, aset hs (Z.of_nat T) h = Some (<[T := h]> hs)).
    { intros h. unfold aset. rewrite decide_True by lia.
      by rewrite Nat2Z.id. }
    case_decide as Hz.
    + rewrite Hset. cbn [mbind option_bind].
      apply IH; [lia|done|by apply placed_alloc|by rewrite length_insert].
    + destruct Htiles as (e & Hpe & Hb & He & Hcnt & Hce & Htiles).
      pose proof (tiles_le _ _ _ _ Htiles) as Hle.
      rewrite Hb, He, iter_range_nat by lia. cbn [mbind option_bind].
      rewrite Hcnt, Hce.
      pose proof (before_bounds graph e).
      pose proof (before_bounds graph (length ps)).
      pose proof (before_mono a (length ps) e ltac:(lia)).
      unfold FileGraph.size in Hsize.
      rewrite u64_small by nia.
      destruct (placed_extend SN SE dflt graph Hwf HSN HSE T
                  (SH * 2 + SN * Z.of_nat (e - length ps) * 2
                   + SE * (before a e - before a (length ps)))
                  (length a - e) (e - length ps) ps SH m)
        as (qs & c' & m' & Hnodes & Hqs & HP'); [done|lia|lia| |].
      { replace (length ps + (e - length ps))%nat with e by lia. nia. }
      replace (e - length ps + (length a - e))%nat
        with (length a - length ps)%nat in Hnodes by lia.
      rewrite Hnodes. cbn [mbind option_bind].
      rewrite Hset. cbn [mbind option_bind].
      assert (Hl : length (ps ++ qs) = e) by (rewrite length_app; lia).
      replace (length a - e)%nat with (length a - length (ps ++ qs))%nat
        by lia.
      apply IH; [lia|by rewrite Hl|done|by rewrite length_insert].
Qed.

Section edges.
Context (ps : list (nat * Z)) (Hlen : length ps = length a).
Context (Hsep : separated SN SE a ps).

Lemma alloc_edges_spec (r : nat) :
  ∀ (T pos : nat) (m : Mem NodeTy EdgeTy),
  (T + r = num)%nat → tiles a (drop T ds) pos (length a) →
  fits SN SE a (extent m) ps → node_cells dflt a m ps →
  edge_cells SN SE a m ps pos →
  ∃ m', on_each (AllocateEdges SN SE graph ds (Some <$> ps)) (seq T r) m
        = Some m'
        ∧ node_cells dflt a m' ps ∧ edge_cells SN SE a m' ps (length a).
Proof.
  induction r as [|r IH]; intros T pos m HT Htiles Hfit Hnc Hec.
  - rewrite drop_ge in Htiles by lia. simpl in Htiles. subst pos.
    exists m. done.
  - destruct (ds !! T) as [d|] eqn:Hd.
    2:{ apply lookup_ge_None in Hd. lia. }
    rewrite (drop_S _ _ _ Hd) in Htiles. simpl in Htiles.
    change (seq T (S r)) with (T :: seq (S T) r).
    rewrite on_each_cons, (AllocateEdges_eq _ _ _ _ Hd).
    case_decide as Hz.
    + cbn [mbind option_bind]. eapply IH; [lia|done..].
    + destruct Htiles as (e & Hpe & Hb & He & Hcnt & Hce & Htiles).
      pose proof (tiles_le _ _ _ _ Htiles) as Hle.
      rewrite Hb, He, iter_range_nat by lia. cbn [mbind option_bind].
      destruct (layout_all_edges_spec SN SE dflt graph Hwf HSN HSE ps
                  Hlen Hsep (e - pos) pos m)
        as (m1 & -> & Hext & Hnc1 & Hec1); [lia|done..|].
      cbn [mbind option_bind].
      replace (pos + (e - pos))%nat with e in Hec1 by lia.
      eapply IH; [lia|done| |done..]. by rewrite Hext.
Qed.

End edges.
End numa.

Section numa_graph.
Import LinearLayout Placement LC_Numa_Graph Distribution.
Context {NodeTy EdgeTy : Type} (SN SE SH : Z) (dflt : NodeTy).
Context (graph : FileGraph.t EdgeTy) (Hwf : FileGraph.wf graph).
Context (HSN : 0 < SN) (HSE : 0 < SE) (HSH : 0 < SH).
Local Abbreviation a := (FileGraph.adj graph).
Local Abbreviation n := (FileGraph.size graph).
Context (Hsize : SH * 2 + SN * n * 2 + SE * FileGraph.sizeEdges graph
                 ≤ UINT64_MAX).

Lemma numa_topology (num : nat) :
  (1 ≤ num)%nat →
  ∃ g, structureFromGraph SN SE SH dflt num graph = Some g
       ∧ topology SN SE g = Some (expected a).
Proof.
  intros Hnum. unfold structureFromGraph.
  assert (He : 0 ≤ FileGraph.sizeEdges graph)
    by (unfold FileGraph.sizeEdges; lia).
  assert (Hn : 0 ≤ n) by (unfold FileGraph.size; lia).
  destruct (distribute_spec SN SE graph Hwf HSN HSE ltac:(nia) num Hnum)
    as (ds & -> & Hlen & Htiles).
  cbn [mbind option_bind].
  destruct (alloc_nodes_spec SN SE SH dflt graph Hwf HSN HSE HSH Hsize
              ds num Hlen num 0 [] (mkMem ∅ ∅) (replicate num None))
    as (m1 & hs & ps & Hnodes & Hps & HP).
  { lia. }
  { done. }
  { apply placed_empty. }
  { by rewrite length_replicate. }
  simpl in Hnodes. rewrite Nat.sub_0_r in Hnodes.
  replace (Z.to_nat n) with (length a) by (unfold FileGraph.size; lia).
  rewrite Hnodes. cbn [mbind option_bind].
  destruct (alloc_edges_spec SN SE dflt graph Hwf HSN HSE ds num Hlen
              ps Hps (placed_sep _ _ _ _ _ _ _ HP) num 0 0 m1)
    as (m2 & -> & Hnc & Hec).
  { lia. }
  { done. }
  { apply HP. }
  { apply HP. }
  { intros i ? ? ? ? ? Hi. lia. }
  cbn [mbind option_bind]. eexists. split; [done|].
  unfold topology, node_list. simpl.
  destruct (placed_complete SN SE dflt graph Hwf HSN HSE m2 ps)
    as (Hnl & Htop); try done.
  { apply HP. }
  rewrite Hnl. simpl. done.
Qed.

End numa_graph.

End GraphFacts.

(* ===================================================================== *)
(** * The neighbourhood managers: results *)
(* ===================================================================== *)

Section NhoodMgrResults.
Import LockManagerBase OrdLocBase NhoodMgrBase NhoodMgr.

(** C1.  In both managers, whatever the interleaving of [getNhoodItem] calls
    on a new manager (no reset in between), any two calls for the same
    lockable [l] that have returned have returned the same record, and that
    record is live and was built for [l]. *)
Theorem getNhoodItem_same_record v sched log live t1 t2 l r1 r2 :
  history v sched = Some (log, live) →
  (t1, l, r1) ∈ log → (t2, l, r2) ∈ log →
  r1 = r2 ∧ live !! r1 = Some (construct l).
Proof.
  destruct v; simpl; intros Hh H1 H2.
  - destruct (PtrBasedNhoodMgr.run sched PtrBasedNhoodMgr.init) as [s|] eqn:Hr;
      simplify_eq/=.
    eapply PtrFacts.ptr_unique; eauto.
  - destruct (MapBasedNhoodMgr.run sched MapBasedNhoodMgr.init) as [s|] eqn:Hr;
      simplify_eq/=.
    eapply MapFacts.map_unique; eauto.
Qed.

(** C2.  [K >= 1] records race [tryMappingTo] on a lockable that nobody owns:
    the first compare-and-swap succeeds and the other [K - 1] fail, and from
    then on the one owner is the winner. *)
Theorem tryMappingTo_one_winner l contenders w K :
  length contenders = K → 1 ≤ K → getOwner l w = None →
  ∃ c, head contenders = Some c ∧
    (race l contenders w).1 = true :: replicate (K - 1) false ∧
    successes (race l contenders w).1 = 1 ∧
    failures (race l contenders w).1 = K - 1 ∧
    ∀ n, 1 ≤ n ≤ K →
      getOwner l (race l (take n contenders) w).2 = Some c.
Proof. apply NhoodMgrFacts.race_one_winner. Qed.

Lemma tryMappingTo_one_winner_witness :
  ∃ c, head [5; 3; 9]%positive = Some c ∧
    (race 7 [5; 3; 9]%positive unowned).1 = true :: replicate (3 - 1) false ∧
    successes (race 7 [5; 3; 9]%positive unowned).1 = 1 ∧
    failures (race 7 [5; 3; 9]%positive unowned).1 = 3 - 1 ∧
    ∀ n, 1 ≤ n ≤ 3 →
      getOwner 7 (race 7 (take n [5; 3; 9]%positive) unowned).2 = Some c.
Proof.
  apply (tryMappingTo_one_winner 7 [5; 3; 9]%positive unowned 3);
    [reflexivity | lia | reflexivity].
Defined.

Lemma getNhoodItem_same_record_witness :
  1%positive = 1%positive ∧
  ({[1%positive := construct 7]} : gmap positive NItem) !! 1%positive
    = Some (construct 7).
Proof.
  apply (getNhoodItem_same_record PtrIndexed
           [Call 0 7; Call 1 7; Step 0; Step 1; Step 0; Step 1; Step 0;
            Step 1; Step 0; Step 1; Step 0; Step 1; Step 0; Step 1]
           [(1, 7%Z, 1%positive); (0, 7%Z, 1%positive)]
           {[1%positive := construct 7]} 1 0 7 1%positive 1%positive).
  - vm_compute. reflexivity.
  - apply list_elem_of_here.
  - apply list_elem_of_further, list_elem_of_here.
Defined.

Import PtrBasedNhoodMgr.

(** C3.  Thread [t] is about to [tryMappingTo (l)] its candidate [ni] while
    [l] already has the owner [w].  Whatever the other threads do in between:
    the compare-and-swap fails and changes nothing; until [t] destroys it the
    candidate is live and in no bag; [destroy] takes it out of the live
    records and leaves the bags alone; the assertion holds and the call
    returns [w]. *)
Theorem getNhoodItem_loser_destroys sched s t l ni w :
  run sched init = Some s →
  pcs s !! t = Some (AtCAS l ni) →
  getOwner l (mem (base s)) = Some w →
  ∃ s1, exec (Step t) s = Some s1 ∧
    pcs s1 !! t = Some (AtDestroy l ni) ∧ base s1 = base s ∧
  ∀ i1 s2, others t i1 = true → run i1 s1 = Some s2 →
    its s2 !! ni = Some (construct l) ∧ (ni ∉ recs s2) ∧
  ∃ s3, exec (Step t) s2 = Some s3 ∧
    its s3 !! ni = None ∧ (ni ∉ recs s3) ∧
    allNItems (base s3) = allNItems (base s2) ∧
  ∀ i2 s4, others t i2 = true → run i2 s3 = Some s4 →
  ∃ s5, exec (Step t) s4 = Some s5 ∧
  ∀ i3 s6, others t i3 = true → run i3 s5 = Some s6 →
  ∃ s7, exec (Step t) s6 = Some s7 ∧
    returned s7 = (t, l, w) :: returned s6 ∧ pcs s7 !! t = None.
Proof. apply PtrFacts.ptr_loser. Qed.

Lemma getNhoodItem_loser_destroys_witness :
  ∃ s, run [Call 0 7; Call 1 7; Step 0; Step 1; Step 0; Step 1; Step 0] init
         = Some s ∧
  ∃ s1, exec (Step 1) s = Some s1 ∧
    pcs s1 !! 1 = Some (AtDestroy 7 2) ∧ base s1 = base s ∧
  ∀ i1 s2, others 1 i1 = true → run i1 s1 = Some s2 →
    its s2 !! 2%positive = Some (construct 7) ∧ (2%positive ∉ recs s2) ∧
  ∃ s3, exec (Step 1) s2 = Some s3 ∧
    its s3 !! 2%positive = None ∧ (2%positive ∉ recs s3) ∧
    allNItems (base s3) = allNItems (base s2) ∧
  ∀ i2 s4, others 1 i2 = true → run i2 s3 = Some s4 →
  ∃ s5, exec (Step 1) s4 = Some s5 ∧
  ∀ i3 s6, others 1 i3 = true → run i3 s5 = Some s6 →
  ∃ s7, exec (Step 1) s6 = Some s7 ∧
    returned s7 = (1, 7%Z, 1%positive) :: returned s6 ∧ pcs s7 !! 1 = None.
Proof.
  eexists. split; [vm_compute; reflexivity|].
  apply (getNhoodItem_loser_destroys
           [Call 0 7; Call 1 7; Step 0; Step 1; Step 0; Step 1; Step 0]
           _ 1 7 2%positive 1%positive);
    vm_compute; reflexivity.
Defined.



End NhoodMgrResults.

(* ===================================================================== *)
(** * The local-computation graphs: results *)
(* ===================================================================== *)

Section CSRResults.
Import Runtime GraphFacts LC_CSR_Graph.
Local Open Scope Z_scope.

(** C5.  Let [graph] be a structural graph whose counts fit their integer
    types and whose destinations are nodes, loaded into [LC_CSR_Graph] by
    [structureFromGraph], and let [n] be a node.  Under every conflict
    policy, [edge_begin (n)] and [edge_end (n)] return; the range between
    them has as many edges as [graph] has neighbours of [n]; and
    [getEdgeDst] over that range, from first to last, gives the neighbours
    of [n] in [graph], in the same order. *)
Theorem LC_CSR_edge_range {NodeTy EdgeTy} (dflt : NodeTy)
    (graph : FileGraph.t EdgeTy) (n : Z) (mflag : MethodFlag) :
  FileGraph.wf graph → 0 ≤ n < FileGraph.size graph →
  ∃ b e tb te,
    runM (edge_begin (structureFromGraph dflt graph) n mflag) = Some (b, tb) ∧
    runM (edge_end (structureFromGraph dflt graph) n mflag) = Some (e, te) ∧
    length (counting_range b e) = length (FileGraph.neighbors graph n) ∧
    mapM (getEdgeDst (structureFromGraph dflt graph)) (counting_range b e)
      = Some (FileGraph.neighbors graph n).
Proof.
  intros Hwf Hn. eexists _, _, _, _.
  split; [by apply loaded_edge_begin|].
  split; [by apply loaded_edge_end|].
  rewrite loaded_range by done.
  split; [|by apply loaded_getEdgeDst].
  rewrite length_seqZ. unfold FileGraph.degree, FileGraph.neighbors.
  rewrite length_fmap. lia.
Qed.

(** C7.  On a loaded [LC_CSR_Graph], the records that [edge_begin (n)]
    acquires are: none under the policy [none]; the record of [n] alone
    under [checkRace]; the record of [n] and then the record of every
    neighbour of [n] under [checkRaceAndNeighbors].  [edge_end (n)] and
    [getData (n)] acquire the record of [n] alone under both locking
    policies and nothing under [none]. *)
Theorem LC_CSR_edge_begin_acquires {NodeTy EdgeTy} (dflt : NodeTy)
    (graph : FileGraph.t EdgeTy) (n : Z) (mflag : MethodFlag) :
  FileGraph.wf graph → 0 ≤ n < FileGraph.size graph →
  snd <$> runM (edge_begin (structureFromGraph dflt graph) n mflag)
    = Some (match policy mflag with
            | none => []
            | checkRace => [n]
            | checkRaceAndNeighbors => n :: FileGraph.neighbors graph n
            end) ∧
  snd <$> runM (edge_end (structureFromGraph dflt graph) n mflag)
    = Some (match policy mflag with
            | none => []
            | checkRace | checkRaceAndNeighbors => [n]
            end) ∧
  snd <$> runM (getData (structureFromGraph dflt graph) n mflag)
    = Some (match policy mflag with
            | none => []
            | checkRace | checkRaceAndNeighbors => [n]
            end).
Proof.
  intros Hwf Hn.
  split; [|split].
  - rewrite loaded_edge_begin by done. simpl.
    unfold node_trace, acquires, shouldLock. by destruct (policy mflag).
  - rewrite loaded_edge_end by done. simpl.
    unfold node_trace, acquires. by destruct (policy mflag).
  - destruct (loaded_node_Z graph n Hn) as (k & -> & Hk).
    unfold getData, checkWrite.
    erewrite runM_bind by reflexivity.
    erewrite runM_bind
      by (apply acquire_node_spec, (loaded_node dflt graph k _ Hk)).
    destruct (lookup_lt_is_Some_2 (nodeData (structureFromGraph dflt graph)) k)
      as [x Hx].
    { pose proof (loaded_node dflt graph k _ Hk). lia. }
    erewrite runM_lift by (by rewrite aget_nat).
    simpl. unfold node_trace, acquires. by destruct (policy mflag).
Qed.

(** C10.  On a loaded [LC_CSR_Graph], [hasNeighbor (src, dst, mflag)]
    returns, acquires no record whatever [mflag] is, and returns [true]
    exactly when some out-edge of [src] has destination [dst], that is,
    exactly when [dst] is a neighbour of [src] in the structural graph. *)
Theorem LC_CSR_hasNeighbor {NodeTy EdgeTy} (dflt : NodeTy)
    (graph : FileGraph.t EdgeTy) (src dst : Z) (mflag : MethodFlag) :
  FileGraph.wf graph → 0 ≤ src < FileGraph.size graph →
  ∃ found es,
    runM (hasNeighbor (structureFromGraph dflt graph) src dst mflag)
      = Some (found, []) ∧
    runM (out_edges (structureFromGraph dflt graph) src NONE)
      = Some (es, []) ∧
    (found = true ↔
       ∃ ni, ni ∈ es ∧ getEdgeDst (structureFromGraph dflt graph) ni = Some dst) ∧
    (found = true ↔ dst ∈ FileGraph.neighbors graph src).
Proof.
  intros Hwf Hn.
  destruct (loaded_hasNeighbor dflt graph Hwf src dst mflag Hn)
    as (idx & Hidx & Hrun & Hcase).
  eexists _, _. split; [exact Hrun|].
  split; [by rewrite loaded_out_edges|].
  pose proof (loaded_getEdgeDst dflt graph src Hn) as Hds.
  destruct (loaded_node_Z graph src Hn) as (k & Hsrc & Hk).
  assert (Hdeg : before (FileGraph.adj graph) (S (Z.to_nat src))
                 = before (FileGraph.adj graph) (Z.to_nat src)
                   + FileGraph.degree graph src).
  { subst src. rewrite Nat2Z.id. by rewrite (before_S _ _ _ Hk). }
  destruct Hcase as [[-> Hnin]|(Hr & Hne & Hget & Hin)].
  - rewrite bool_decide_eq_true. split; [|by split].
    split; [done|]. intros (ni & Hni & Hd). exfalso. apply Hnin.
    rewrite mapM_Some in Hds.
    apply list_elem_of_lookup in Hni as [i Hi].
    destruct (Forall2_lookup_l _ _ _ _ _ Hds Hi) as (d & Hd1 & Hd2).
    apply list_elem_of_lookup. exists i. congruence.
  - rewrite bool_decide_eq_true. split; split; try done.
    intros _. exists idx. split; [|done].
    apply elem_of_seqZ. lia.
Qed.

(** C9.  The graph [scenario] loaded into [LC_CSR_Graph] has 4 nodes and 4
    edges; the edges of node 0 are, in order, to 1 with payload 5 and to 2
    with payload 1; after [sortEdgesByEdgeData (0)] with [<] they are to 2
    with payload 1 and to 1 with payload 5.  In general, after
    [sortEdgesByEdgeData (n, comp)] on a loaded graph the edges of [n] are a
    permutation of the (destination, payload) pairs that [n] had, so every
    destination keeps its payload; they are in the order of [comp] when
    [comp] is asymmetric; and the edges of every other node are as before. *)
Theorem LC_CSR_sortEdgesByEdgeData :
  (size (structureFromGraph tt scenario) = 4 ∧
   sizeEdges (structureFromGraph tt scenario) = 4 ∧
   runM (edges_of (structureFromGraph tt scenario) 0 NONE)
     = Some ([(1, 5); (2, 1)], []) ∧
   runM (g ← sortEdgesByEdgeData (structureFromGraph tt scenario) 0 Z.ltb NONE;
         edges_of g 0 NONE)
     = Some ([(2, 1); (1, 5)], [])) ∧
  ∀ (NodeTy EdgeTy : Type) (dflt : NodeTy) (graph : FileGraph.t EdgeTy)
    (n : Z) (comp : EdgeTy → EdgeTy → bool) (mflag : MethodFlag),
    FileGraph.wf graph → 0 ≤ n < FileGraph.size graph →
    ∃ g' tr es,
      runM (sortEdgesByEdgeData (structureFromGraph dflt graph) n comp mflag)
        = Some (g', tr) ∧
      runM (edges_of g' n NONE) = Some (es, []) ∧
      es ≡ₚ FileGraph.neighbor_edges graph n ∧
      ((∀ x y, comp x y = true → comp y x = false) →
       Sorted (not_after (EdgeSortCompWrapper comp)) es) ∧
      ∀ m, 0 ≤ m < FileGraph.size graph → m ≠ n →
        runM (edges_of g' m NONE)
          = Some (FileGraph.neighbor_edges graph m, []).
Proof.
  split; [by vm_compute|].
  intros NodeTy EdgeTy dflt graph n comp mflag Hwf Hn.
  destruct (loaded_node_Z graph n Hn) as (k & Hnk & Hk).
  set (nb := FileGraph.neighbor_edges graph n) in *.
  set (nb' := std_sort (EdgeSortCompWrapper comp) nb).
  assert (Hp : nb' ≡ₚ nb) by apply std_sort_perm.
  assert (Hk' : Z.to_nat n = k) by lia.
  pose proof (reordered_wf graph Hwf k nb nb' Hk Hp) as Hwf'.
  assert (Hsz : FileGraph.size (reordered graph k nb') = FileGraph.size graph).
  { unfold FileGraph.size, reordered. simpl. by rewrite length_insert. }
  eexists _, _, nb'. split; [by apply loaded_sort|].
  fold nb nb'. rewrite Hk'.
  split; [|split; [done|split]].
  - rewrite loaded_edges_of by (by rewrite ?Hsz). simpl. f_equal. f_equal.
    unfold FileGraph.neighbor_edges, reordered. simpl. subst n.
    rewrite aget_nat, list_lookup_insert_eq by (by eapply lookup_lt_Some).
    done.
  - intros Hasym. apply std_sort_sorted. intros [??] [??]. simpl.
    unfold EdgeSortCompWrapper. simpl. apply Hasym.
  - intros m Hm Hne.
    rewrite loaded_edges_of by (by rewrite ?Hsz). simpl. f_equal. f_equal.
    unfold FileGraph.neighbor_edges, reordered, aget. simpl.
    rewrite !decide_True by lia.
    rewrite list_lookup_insert_ne by lia. done.
Qed.

End CSRResults.

Section InOutResults.
Import Runtime GraphFacts LC_CSR_InOutGraph.
Local Open Scope Z_scope.

(** C8.  [LC_CSR_InOutGraph::structureFromGraph (graph, transpose)] ends in
    a fatal error, with no storage allocated, when the two structural graphs
    differ in the number of nodes or in the number of edges; when both
    numbers agree it loads the out-edges from [graph] and the in-edges from
    [transpose]. *)
Theorem LC_CSR_InOutGraph_mismatch_is_fatal {NodeTy EdgeTy} (dflt : NodeTy)
    (graph transpose : FileGraph.t EdgeTy) :
  (FileGraph.size graph ≠ FileGraph.size transpose ∨
   FileGraph.sizeEdges graph ≠ FileGraph.sizeEdges transpose →
   ∃ message, structureFromGraph dflt graph transpose = Fatal message []) ∧
  (FileGraph.size graph = FileGraph.size transpose ∧
   FileGraph.sizeEdges graph = FileGraph.sizeEdges transpose →
   structureFromGraph dflt graph transpose
   = Loaded (mk (LC_CSR_Graph.structureFromGraph dflt graph)
                (initialize transpose))
            (super_allocations graph ++ initialize_allocations transpose)).
Proof.
  unfold structureFromGraph. split.
  - intros [H|H].
    + rewrite decide_True by done. eauto.
    + destruct (decide (FileGraph.size graph ≠ FileGraph.size transpose));
        [eauto|]. rewrite decide_True by done. eauto.
  - intros [H1 H2]. rewrite decide_False by (intros ?; done).
    by rewrite decide_False by (intros ?; done).
Qed.

End InOutResults.

Section LayoutResults.
Import Runtime GraphFacts.
Local Open Scope Z_scope.

(** C6.  Let [graph] be a structural graph whose counts fit their integer
    types (the edges of one node fit the [int] of the linear layouts) and
    whose destinations are nodes; let the sizes of [NodeInfo], [EdgeInfo]
    and [Header] be positive, let at least one thread be active, and let
    the size of the largest allocation fit [size_t].  Then
    [structureFromGraph] of [LC_CSR_Graph], [LC_CSRInline_Graph],
    [LC_Linear_Graph] and [LC_Numa_Graph] all succeed, and the four loaded
    graphs have the same topology: for every node, taken in the order of
    [begin ()] .. [end ()], the same sorted list of the positions of the
    destinations of its edges, which is the one of [graph]. *)
Theorem LC_graphs_same_topology {NodeTy EdgeTy} (SN SE SH : Z) (num : nat)
    (dflt : NodeTy) (graph : FileGraph.t EdgeTy) :
  FileGraph.wf graph → 0 < SN → 0 < SE → 0 < SH → (1 ≤ num)%nat →
  SH * 2 + SN * FileGraph.size graph * 2 + SE * FileGraph.sizeEdges graph
    ≤ UINT64_MAX →
  ∃ inl lin numa,
    LC_CSRInline_Graph.structureFromGraph dflt graph = Some inl ∧
    LC_Linear_Graph.structureFromGraph SN SE dflt graph = Some lin ∧
    LC_Numa_Graph.structureFromGraph SN SE SH dflt num graph = Some numa ∧
    LC_CSR_topology (LC_CSR_Graph.structureFromGraph dflt graph)
      = Some (expected (FileGraph.adj graph)) ∧
    LC_CSRInline_Graph.topology inl = Some (expected (FileGraph.adj graph)) ∧
    LC_Linear_Graph.topology SN SE lin
      = Some (expected (FileGraph.adj graph)) ∧
    LC_Numa_Graph.topology SN SE numa
      = Some (expected (FileGraph.adj graph)).
Proof.
  intros Hwf HSN HSE HSH Hnum Hsize.
  destruct (inline_topology dflt graph Hwf) as (inl & Hinl & Htinl).
  destruct (linear_topology SN SE dflt graph Hwf HSN HSE) as (lin & Hlin & Htlin).
  { lia. }
  destruct (numa_topology SN SE SH dflt graph Hwf HSN HSE HSH Hsize num Hnum)
    as (numa & Hnuma & Htnuma).
  exists inl, lin, numa. repeat split; try done.
  by apply LC_CSR_topology_spec.
Qed.

End LayoutResults.

(* ===================================================================== *)
(** * The local-computation graphs: the results at the scenario graph *)
(* ===================================================================== *)

Section GraphInstances.
Import Runtime.
Local Open Scope Z_scope.

Lemma LC_CSR_edge_range_witness :
  ∃ b e tb te,
    runM (LC_CSR_Graph.edge_begin
            (LC_CSR_Graph.structureFromGraph tt scenario) 0
            (mkFlag checkRace false)) = Some (b, tb) ∧
    runM (LC_CSR_Graph.edge_end
            (LC_CSR_Graph.structureFromGraph tt scenario) 0
            (mkFlag checkRace false)) = Some (e, te) ∧
    length (counting_range b e) = length (FileGraph.neighbors scenario 0) ∧
    mapM (LC_CSR_Graph.getEdgeDst
            (LC_CSR_Graph.structureFromGraph tt scenario))
         (counting_range b e)
      = Some (FileGraph.neighbors scenario 0).
Proof.
  apply (LC_CSR_edge_range tt scenario 0 (mkFlag checkRace false)).
  - apply (bool_decide_unpack _). vm_compute. exact I.
  - vm_compute. split; [discriminate|reflexivity].
Defined.

Lemma LC_graphs_same_topology_witness :
  ∃ inl lin numa,
    LC_CSRInline_Graph.structureFromGraph tt scenario = Some inl ∧
    LC_Linear_Graph.structureFromGraph 24 16 tt scenario = Some lin ∧
    LC_Numa_Graph.structureFromGraph 24 16 24 tt 3 scenario = Some numa ∧
    LC_CSR_topology (LC_CSR_Graph.structureFromGraph tt scenario)
      = Some (expected (FileGraph.adj scenario)) ∧
    LC_CSRInline_Graph.topology inl
      = Some (expected (FileGraph.adj scenario)) ∧
    LC_Linear_Graph.topology 24 16 lin
      = Some (expected (FileGraph.adj scenario)) ∧
    LC_Numa_Graph.topology 24 16 numa
      = Some (expected (FileGraph.adj scenario)).
Proof.
  apply (LC_graphs_same_topology 24 16 24 3 tt scenario).
  - apply (bool_decide_unpack _). vm_compute. exact I.
  - reflexivity.
  - reflexivity.
  - reflexivity.
  - lia.
  - vm_compute. discriminate.
Defined.

Lemma LC_CSR_edge_begin_acquires_witness :
  snd <$> runM (LC_CSR_Graph.edge_begin
                  (LC_CSR_Graph.structureFromGraph tt scenario) 0
                  (mkFlag checkRaceAndNeighbors false))
    = Some [0; 1; 2] ∧
  snd <$> runM (LC_CSR_Graph.edge_end
                  (LC_CSR_Graph.structureFromGraph tt scenario) 0
                  (mkFlag checkRaceAndNeighbors false))
    = Some [0] ∧
  snd <$> runM (LC_CSR_Graph.getData
                  (LC_CSR_Graph.structureFromGraph tt scenario) 0
                  (mkFlag checkRaceAndNeighbors false))
    = Some [0].
Proof.
  apply (LC_CSR_edge_begin_acquires tt scenario 0
           (mkFlag checkRaceAndNeighbors false)).
  - apply (bool_decide_unpack _). vm_compute. exact I.
  - vm_compute. split; [discriminate|reflexivity].
Defined.

Lemma LC_CSR_InOutGraph_mismatch_is_fatal_witness :
  (∃ message,
     LC_CSR_InOutGraph.structureFromGraph tt scenario (FileGraph.mk [])
     = LC_CSR_InOutGraph.Fatal message []) ∧
  LC_CSR_InOutGraph.structureFromGraph tt scenario scenario
  = LC_CSR_InOutGraph.Loaded
      (LC_CSR_InOutGraph.mk (LC_CSR_Graph.structureFromGraph tt scenario)
         (LC_CSR_InOutGraph.initialize scenario))
      (LC_CSR_InOutGraph.super_allocations scenario
         ++ LC_CSR_InOutGraph.initialize_allocations scenario).
Proof.
  split.
  - apply (proj1 (LC_CSR_InOutGraph_mismatch_is_fatal tt scenario
                    (FileGraph.mk []))).
    left. vm_compute. discriminate.
  - apply (proj2 (LC_CSR_InOutGraph_mismatch_is_fatal tt scenario scenario)).
    split; reflexivity.
Defined.

Lemma LC_CSR_sortEdgesByEdgeData_witness :
  ∃ g' tr es,
    runM (LC_CSR_Graph.sortEdgesByEdgeData
            (LC_CSR_Graph.structureFromGraph tt scenario) 0 Z.ltb NONE)
      = Some (g', tr) ∧
    runM (LC_CSR_Graph.edges_of g' 0 NONE) = Some (es, []) ∧
    es ≡ₚ FileGraph.neighbor_edges scenario 0 ∧
    ((∀ x y, (x <? y) = true → (y <? x) = false) →
     Sorted (LC_CSR_Graph.not_after (LC_CSR_Graph.EdgeSortCompWrapper Z.ltb))
            es) ∧
    ∀ m, 0 ≤ m < FileGraph.size scenario → m ≠ 0 →
      runM (LC_CSR_Graph.edges_of g' m NONE)
        = Some (FileGraph.neighbor_edges scenario m, []).
Proof.
  apply (proj2 LC_CSR_sortEdgesByEdgeData unit Z tt scenario 0 Z.ltb NONE).
  - apply (bool_decide_unpack _). vm_compute. exact I.
  - vm_compute. split; [discriminate|reflexivity].
Defined.

Lemma LC_CSR_hasNeighbor_witness :
  ∃ found es,
    runM (LC_CSR_Graph.hasNeighbor
            (LC_CSR_Graph.structureFromGraph tt scenario) 0 2
            (mkFlag checkRaceAndNeighbors true))
      = Some (found, []) ∧
    runM (LC_CSR_Graph.out_edges
            (LC_CSR_Graph.structureFromGraph tt scenario) 0 NONE)
      = Some (es, []) ∧
    (found = true ↔
       ∃ ni, ni ∈ es ∧
         LC_CSR_Graph.getEdgeDst
           (LC_CSR_Graph.structureFromGraph tt scenario) ni = Some 2) ∧
    (found = true ↔ 2 ∈ FileGraph.neighbors scenario 0).
Proof.
  apply (LC_CSR_hasNeighbor tt scenario 0 2
           (mkFlag checkRaceAndNeighbors true)).
  - apply (bool_decide_unpack _). vm_compute. exact I.
  - vm_compute. split; [discriminate|reflexivity].
Defined.

End GraphInstances.

(* ===================================================================== *)
(** * Proofs: the further members *)
(* ===================================================================== *)

Module GraphMemberFacts.
Import Runtime GraphFacts.
Local Open Scope Z_scope.

Section csr_members.
Import LC_CSR_Graph LC_CSR_Graph_members.
Context {NodeTy EdgeTy : Type} (dflt : NodeTy).
Context (graph : FileGraph.t EdgeTy) (Hwf : FileGraph.wf graph).
Local Abbreviation a := (FileGraph.adj graph).
Local Abbreviation L := (structureFromGraph dflt graph).

Lemma edge_payloads_spec (g : LC_CSR_Graph.t NodeTy EdgeTy) es ws mflag :
  mapM (aget (edgeData g)) es = Some ws →
  runM (edge_payloads g es mflag) = Some (ws, []).
Proof.
  unfold edge_payloads. revert ws.
  induction es as [|e es IH]; intros ws H; simpl in *.
  - by injection H as <-.
  - unfold getEdgeData, checkWrite in *. simpl.
    destruct (aget (edgeData g) e) as [w|]; simpl in *; [|done].
    destruct (mapM (aget (edgeData g)) es) as [ws'|]; simpl in *; [|done].
    injection H as <-. by rewrite (IH ws' eq_refl).
Qed.

Lemma edge_payloads_fail (g : LC_CSR_Graph.t NodeTy EdgeTy) es mflag :
  mapM (aget (edgeData g)) es = None →
  runM (edge_payloads g es mflag) = None.
Proof.
  unfold edge_payloads.
  induction es as [|e es IH]; intros H; simpl in *; [done|].
  unfold getEdgeData, checkWrite in *. simpl.
  destruct (aget (edgeData g) e) as [w|]; simpl in *; [|done].
  destruct (mapM (aget (edgeData g)) es) as [ws'|]; simpl in *; [done|].
  by rewrite IH.
Qed.

Lemma ranges_concat (r : nat) :
  (r ≤ length a)%nat →
  concat ((λ k, seqZ (before a k) (FileGraph.degree graph (Z.of_nat k)))
            <$> seq 0 r)
  = seqZ 0 (before a r).
Proof.
  induction r as [|r IH]; intros Hr; [done|].
  rewrite seq_S, fmap_app, concat_app, IH by lia. simpl.
  rewrite app_nil_r.
  destruct (a !! r) as [nb|] eqn:Hnb.
  2:{ apply lookup_ge_None in Hnb. lia. }
  rewrite (before_S _ _ _ Hnb), (degree_nat _ _ _ Hnb).
  rewrite seqZ_app by (unfold before; lia). done.
Qed.

Lemma loaded_all_out_edges :
  all_out_edges L
  = Some ((λ k, seqZ (before a k) (FileGraph.degree graph (Z.of_nat k)))
            <$> seq 0 (length a)).
Proof.
  unfold all_out_edges, nodes.
  change (numNodes L) with (FileGraph.size graph).
  apply mapM_Some. apply Forall2_fmap_r.
  apply Forall2_same_length_lookup. split.
  - rewrite length_seqZ, length_seq. unfold FileGraph.size. lia.
  - intros i n k Hn Hk. apply lookup_seqZ in Hn as [-> Hi].
    apply lookup_seq in Hk as [-> _].
    rewrite loaded_out_edges by (done || lia).
    simpl. replace (0 + Z.of_nat i) with (Z.of_nat i) by lia.
    by rewrite Nat2Z.id.
Qed.

Lemma loaded_sortEdges n comp mflag :
  0 ≤ n < FileGraph.size graph →
  runM (sortEdges L n comp mflag)
    = Some (structureFromGraph dflt
              (reordered graph (Z.to_nat n)
                 (std_sort comp (FileGraph.neighbor_edges graph n))),
            node_trace mflag [n]).
Proof.
  intros Hn. destruct (loaded_node_Z graph n Hn) as (k & -> & Hk).
  rewrite Nat2Z.id.
  set (nb := FileGraph.neighbor_edges graph (Z.of_nat k)) in *.
  set (nb' := std_sort comp nb).
  assert (Hlen : length nb' = length nb)
    by (unfold nb'; by rewrite std_sort_perm).
  rewrite (reordered_load dflt graph k nb nb' Hk Hlen).
  unfold sortEdges.
  erewrite runM_bind
    by (apply acquire_node_spec, (loaded_node dflt graph k _ Hk)).
  erewrite runM_bind
    by (apply runM_lift, (loaded_raw_begin dflt graph k _ Hk)).
  erewrite runM_bind
    by (apply runM_lift, (loaded_raw_end dflt graph k _ Hk)).
  pose proof (loaded_edgeDst dflt graph k _ Hk) as Hd.
  pose proof (loaded_edgeData dflt graph k _ Hk) as Hw.
  assert (Hb : Z.to_nat (before a k) = length (concat (take k a))).
  { unfold before. lia. }
  assert (He : Z.to_nat (before a (S k) - before a k) = length nb).
  { rewrite (before_S _ _ _ Hk). lia. }
  assert (Hr : edge_sort_range L (before a k) (before a (S k)) = Some nb).
  { unfold edge_sort_range. rewrite decide_True.
    - rewrite Hb, He, Hd, Hw. f_equal.
      rewrite <- (length_fmap fst (concat (take k a))) at 1.
      rewrite <- (length_fmap snd (concat (take k a))).
      rewrite !drop_app_length.
      rewrite <- (length_fmap fst nb) at 1.
      rewrite <- (length_fmap snd nb).
      rewrite !take_app_length. apply zip_fst_snd'.
    - rewrite (before_S _ _ _ Hk). unfold before.
      rewrite Hd, Hw, !length_app, !length_fmap. lia. }
  erewrite runM_bind by (apply runM_lift, Hr).
  fold nb'. simpl. rewrite !app_nil_r. do 2 f_equal.
  unfold splice. rewrite Hb, !length_fmap, Hlen. simpl in Hd, Hw. f_equal.
  - rewrite Hd.
    rewrite <- (length_fmap fst (concat (take k a))) at 1 2.
    rewrite take_app_length. do 2 f_equal.
    rewrite <- (length_fmap fst nb), <- length_app.
    rewrite app_assoc. by rewrite drop_app_length.
  - rewrite Hw.
    rewrite <- (length_fmap snd (concat (take k a))) at 1 2.
    rewrite take_app_length. do 2 f_equal.
    rewrite <- (length_fmap snd nb), <- length_app.
    rewrite app_assoc. by rewrite drop_app_length.
Qed.

Lemma out_edges_none_indices (g g' : LC_CSR_Graph.t NodeTy EdgeTy) N :
  edgeIndData g = edgeIndData g' →
  runM (out_edges g N NONE) = runM (out_edges g' N NONE).
Proof.
  intros H. unfold out_edges, edge_begin, edge_end, raw_neighbor_begin,
    raw_neighbor_end, acquire_node. simpl. by rewrite H.
Qed.

Lemma reordered_neighbors k nb nb' src :
  a !! k = Some nb → nb' ≡ₚ nb →
  ∀ dst, dst ∈ FileGraph.neighbors (reordered graph k nb') src
         ↔ dst ∈ FileGraph.neighbors graph src.
Proof.
  intros Hk Hp dst. unfold FileGraph.neighbors, FileGraph.neighbor_edges,
    reordered, aget. simpl.
  case_decide; [|done].
  destruct (decide (Z.to_nat src = k)) as [<-|Hne].
  - rewrite list_lookup_insert_eq by (by eapply lookup_lt_Some).
    rewrite Hk. simpl. by rewrite Hp.
  - by rewrite list_lookup_insert_ne.
Qed.

Lemma loaded_out_of_range N :
  ¬ (0 ≤ N < FileGraph.size graph) → raw_neighbor_end L N = None.
Proof.
  intros HN. unfold raw_neighbor_end, aget. simpl.
  case_decide; [|done]. apply lookup_ge_None.
  unfold FileGraph.edge_id. rewrite offsets_length, length_fmap.
  unfold FileGraph.size in HN. lia.
Qed.

End csr_members.
End GraphMemberFacts.

Module InOutFacts.
Import Runtime GraphFacts GraphMemberFacts InOutGraphImpl.
Import LC_CSR_InOutGraph_members.
Local Open Scope Z_scope.

Lemma runM_bind_unfold {A B} (f : A → M B) (m : M A) :
  runM (m ≫= f)
  = match runM m with
    | None => None
    | Some (x, tr) =>
        match runM (f x) with
        | None => None
        | Some (y, tr') => Some (y, tr ++ tr')
        end
    end.
Proof. done. Qed.

Lemma u32_small x : 0 ≤ x ≤ UINT32_MAX → u32 x = x.
Proof. unfold u32, UINT32_MAX. intros. apply Z.mod_small. lia. Qed.

(** The edges of a node of a graph with at most [2 ^ 32] edges fit
    [uint32_t]. *)
Lemma loaded_edges_small {EdgeTy} (graph : FileGraph.t EdgeTy) n :
  FileGraph.sizeEdges graph ≤ UINT32_MAX + 1 →
  0 ≤ n < FileGraph.size graph →
  Forall (λ ni, 0 ≤ ni ≤ UINT32_MAX)
    (seqZ (before (FileGraph.adj graph) (Z.to_nat n))
          (FileGraph.degree graph n)).
Proof.
  intros HE Hn. destruct (loaded_node_Z graph n Hn) as (k & -> & Hk).
  rewrite Nat2Z.id. apply Forall_forall. intros x Hx%elem_of_seqZ.
  pose proof (before_S _ _ _ Hk) as HS.
  pose proof (before_le (FileGraph.adj graph) (S k)) as Hle.
  unfold FileGraph.degree in Hx. unfold FileGraph.sizeEdges in HE.
  unfold before in *. lia.
Qed.

Lemma reordered_sizeEdges {EdgeTy} (graph : FileGraph.t EdgeTy) k nb nb' :
  FileGraph.adj graph !! k = Some nb → nb' ≡ₚ nb →
  FileGraph.sizeEdges (reordered graph k nb') = FileGraph.sizeEdges graph.
Proof.
  intros Hk Hp. unfold FileGraph.sizeEdges, reordered. simpl.
  rewrite insert_take_drop by (by eapply lookup_lt_Some).
  rewrite (concat_split _ _ _ Hk), !concat_app, !length_app.
  simpl. rewrite !length_app, Hp. done.
Qed.

Section inout.
Context {NodeTy EdgeTy : Type}.
Implicit Types (g : t NodeTy EdgeTy) (v : LC_CSR_Graph.t NodeTy EdgeTy).

Lemma in_view_inv g v :
  in_view g = Some v →
  in_edgeIndData g = Some (LC_CSR_Graph.edgeIndData v) ∧
  in_edgeDst g = Some (LC_CSR_Graph.edgeDst v) ∧
  in_edgeData g = Some (LC_CSR_Graph.edgeData v) ∧
  LC_CSR_Graph.nodeData v = LC_CSR_Graph.nodeData (super g).
Proof.
  unfold in_view. intros H.
  destruct (in_edgeIndData g), (in_edgeDst g), (in_edgeData g);
    simplify_eq/=; done.
Qed.

Lemma in_raw_begin g v N :
  in_view g = Some v → raw_begin g N = LC_CSR_Graph.raw_neighbor_begin v N.
Proof.
  intros (H & _)%in_view_inv. unfold raw_begin. by rewrite H.
Qed.

Lemma in_raw_end g v N :
  in_view g = Some v → raw_end g N = LC_CSR_Graph.raw_neighbor_end v N.
Proof.
  intros (H & _)%in_view_inv. unfold raw_end. by rewrite H.
Qed.

Lemma in_getEdgeDst g v e :
  in_view g = Some v → getInEdgeDst g e = LC_CSR_Graph.getEdgeDst v e.
Proof.
  intros (_ & H & _)%in_view_inv. unfold getInEdgeDst, getEdgeDst.
  by rewrite H.
Qed.

Lemma in_getEdgeData_raw g v e :
  in_view g = Some v →
  getEdgeData g e = aget (LC_CSR_Graph.edgeData v) (u32 e).
Proof.
  intros (_ & _ & H & _)%in_view_inv. unfold getEdgeData. by rewrite H.
Qed.

Lemma in_getInEdgeData g v e mflag :
  in_view g = Some v →
  runM (getInEdgeData g e mflag)
  = runM (LC_CSR_Graph.getEdgeData v (u32 e) mflag).
Proof.
  intros H. unfold getInEdgeData, LC_CSR_Graph.getEdgeData.
  by rewrite (in_getEdgeData_raw g v e H).
Qed.

Lemma in_acquire_node g v N mflag :
  in_view g = Some v →
  LC_CSR_Graph.acquire_node (super g) N mflag
  = LC_CSR_Graph.acquire_node v N mflag.
Proof.
  intros (_ & _ & _ & H)%in_view_inv. unfold LC_CSR_Graph.acquire_node.
  by rewrite H.
Qed.

Lemma in_acquire_loop g v mflag fuel :
  in_view g = Some v →
  ∀ ii ee, runM (acquire_loop g mflag fuel ii ee)
           = runM (LC_CSR_Graph.acquire_loop v mflag fuel ii ee).
Proof.
  intros Hv. induction fuel as [|fuel IH]; intros ii ee; simpl.
  - by case_decide.
  - case_decide; [done|]. simpl.
    pose proof (in_getEdgeDst g v ii Hv) as Hd.
    unfold getInEdgeDst, LC_CSR_Graph.getEdgeDst in Hd. rewrite Hd.
    destruct (aget (LC_CSR_Graph.edgeDst v) ii) as [d|]; [|done]. simpl.
    rewrite (in_acquire_node g v d mflag Hv), IH. done.
Qed.

Lemma in_edge_begin_view g v N mflag :
  in_view g = Some v →
  runM (in_edge_begin g N mflag) = runM (LC_CSR_Graph.edge_begin v N mflag).
Proof.
  intros Hv. unfold in_edge_begin, LC_CSR_Graph.edge_begin.
  rewrite (in_acquire_node g v N mflag Hv), (in_raw_begin g v N Hv),
    (in_raw_end g v N Hv).
  destruct (in_view_inv g v Hv) as (_ & Hd & _). rewrite Hd.
  destruct (shouldLock mflag); [|done].
  cbn -[acquire_loop LC_CSR_Graph.acquire_loop].
  destruct (LC_CSR_Graph.raw_neighbor_begin v N) as [b|]; [|done].
  destruct (LC_CSR_Graph.raw_neighbor_end v N) as [e|]; [|done].
  cbn -[acquire_loop LC_CSR_Graph.acquire_loop].
  by rewrite (in_acquire_loop g v mflag _ Hv).
Qed.

Lemma in_edge_end_view g v N mflag :
  in_view g = Some v →
  runM (in_edge_end g N mflag) = runM (LC_CSR_Graph.edge_end v N mflag).
Proof.
  intros Hv. unfold in_edge_end, LC_CSR_Graph.edge_end.
  by rewrite (in_acquire_node g v N mflag Hv), (in_raw_end g v N Hv).
Qed.

Lemma in_edges_view g v N mflag :
  in_view g = Some v →
  runM (in_edges g N mflag) = runM (LC_CSR_Graph.out_edges v N mflag).
Proof.
  intros Hv. unfold in_edges, LC_CSR_Graph.out_edges.
  rewrite !(runM_bind_unfold _ (in_edge_begin _ _ _)),
    !(runM_bind_unfold _ (LC_CSR_Graph.edge_begin _ _ _)).
  rewrite (in_edge_begin_view g v N mflag Hv).
  destruct (runM (LC_CSR_Graph.edge_begin v N mflag)) as [[b tb]|]; [|done].
  rewrite !runM_bind_unfold.
  by rewrite (in_edge_end_view g v N mflag Hv).
Qed.

Lemma in_edges_of_view g v N mflag es tr :
  in_view g = Some v →
  runM (LC_CSR_Graph.out_edges v N mflag) = Some (es, tr) →
  Forall (λ ni, 0 ≤ ni ≤ UINT32_MAX) es →
  runM (in_edges_of g N mflag) = runM (LC_CSR_Graph.edges_of v N mflag).
Proof.
  intros Hv Hes Hsmall. unfold in_edges_of, LC_CSR_Graph.edges_of.
  rewrite !runM_bind_unfold.
  rewrite (in_edges_view g v N mflag Hv), Hes.
  replace (mapM (λ ni, d ← getInEdgeDst g ni; w ← getEdgeData g ni;
                       Some (d, w)) es)
    with (mapM (λ ni, d ← LC_CSR_Graph.getEdgeDst v ni;
                      w ← aget (LC_CSR_Graph.edgeData v) ni;
                      Some (d, w)) es); [done|].
  clear Hes. induction Hsmall as [|ni es Hni _ IH]; [done|].
  cbn [mapM]. rewrite IH.
  by rewrite (in_getEdgeDst g v ni Hv), (in_getEdgeData_raw g v ni Hv),
    (u32_small ni Hni).
Qed.

Lemma view_shared (s : LC_CSR_Graph.t NodeTy EdgeTy) a1 a2 a3 :
  in_view (mk s (mkInEdges a1 a2 a3 OutEdges OutEdges OutEdges)) = Some s.
Proof. by destruct s. Qed.

Lemma view_store (s : LC_CSR_Graph.t NodeTy EdgeTy) a1 a2 a3 :
  in_view (mk s (mkInEdges a1 a2 a3 Store Store Store))
  = Some (LC_CSR_Graph.mk (LC_CSR_Graph.nodeData s) a1 a2 a3
            (LC_CSR_Graph.numNodes s) (LC_CSR_Graph.numEdges s)).
Proof. done. Qed.

Lemma view_transposed (dflt : NodeTy) (graph transpose : FileGraph.t EdgeTy) :
  FileGraph.size graph = FileGraph.size transpose →
  FileGraph.sizeEdges graph = FileGraph.sizeEdges transpose →
  in_view (mk (LC_CSR_Graph.structureFromGraph dflt graph)
              (initialize new transpose))
  = Some (LC_CSR_Graph.structureFromGraph dflt transpose).
Proof.
  intros Hn He. unfold initialize. rewrite view_store.
  unfold LC_CSR_Graph.structureFromGraph. simpl. by rewrite Hn, He.
Qed.

Lemma sortIn_shared (s : LC_CSR_Graph.t NodeTy EdgeTy) a1 a2 a3 N comp mflag :
  runM (sortInEdgesByEdgeData
          (mk s (mkInEdges a1 a2 a3 OutEdges OutEdges OutEdges)) N comp mflag)
  = (λ r, (mk r.1 (mkInEdges a1 a2 a3 OutEdges OutEdges OutEdges), r.2))
      <$> runM (LC_CSR_Graph.sortEdgesByEdgeData s N comp mflag).
Proof.
  unfold sortInEdgesByEdgeData, LC_CSR_Graph.sortEdgesByEdgeData,
    raw_begin, raw_end, edge_sort_range, LC_CSR_Graph.edge_sort_range,
    LC_CSR_Graph.raw_neighbor_begin, LC_CSR_Graph.raw_neighbor_end,
    write_edgeDst, write_edgeData, in_edgeIndData, in_edgeDst, in_edgeData.
  simpl.
  destruct (runM (LC_CSR_Graph.acquire_node s N mflag)) as [[[] tr]|];
    [|done]; simpl.
  destruct (if decide (N = 0) then Some 0
            else aget (LC_CSR_Graph.edgeIndData s) (N - 1)) as [b|];
    [|done]; simpl.
  destruct (aget (LC_CSR_Graph.edgeIndData s) N) as [e|]; [|done]; simpl.
  case_decide; [|done]. simpl. done.
Qed.


End inout.
End InOutFacts.

Module LayoutMemberFacts.
Import Runtime GraphFacts GraphMemberFacts InOutFacts.
Local Open Scope Z_scope.

Lemma runM_mapM_pure {A B} (f : A → M B) (g : A → option B) (l : list A) :
  (∀ x, runM (f x) = (λ y, (y, [])) <$> g x) →
  runM (mapM f l) = (λ ys, (ys, [])) <$> mapM g l.
Proof.
  intros Hf. induction l as [|x l IH]; [done|].
  cbn [mapM]. rewrite !runM_bind_unfold, Hf.
  destruct (g x) as [y|]; [|done]. cbn -[mapM].
  rewrite !runM_bind_unfold, IH.
  destruct (mapM g l) as [ys|]; [|done]. done.
Qed.

Section placed_members.
Import LinearLayout Placement LinearLayout_members.
Context {NodeTy EdgeTy : Type} (SN SE : Z) (dflt : NodeTy).
Context (graph : FileGraph.t EdgeTy) (Hwf : FileGraph.wf graph).
Context (HSN : 0 < SN) (HSE : 0 < SE).
Local Abbreviation a := (FileGraph.adj graph).
Local Abbreviation n := (FileGraph.size graph).
Context (ps : list (nat * Z)) (Hlen : length ps = length a).
Context (m : Mem NodeTy EdgeTy).
Context (Hnodes : node_cells dflt a m ps).
Context (Hedges : edge_cells SN SE a m ps (length a)).

Local Abbreviation edge_list p nb :=
  ((λ k, (p.1, p.2 + SN + k * SE)) <$> seqZ 0 (Z.of_nat (length nb))).

Lemma placed_edgeEnd i p nb :
  ps !! i = Some p → a !! i = Some nb →
  edgeEnd SN SE m p = Some (p.1, p.2 + SN + Z.of_nat (length nb) * SE).
Proof.
  intros Hp Hnb. unfold edgeEnd, numEdges_of.
  by rewrite (Hnodes _ _ _ Hp Hnb).
Qed.

Lemma placed_edge_range p (nb : list (Z * EdgeTy)) :
  edge_range SE (edgeBegin SN p)
    (p.1, p.2 + SN + Z.of_nat (length nb) * SE)
  = Some (edge_list p nb).
Proof.
  unfold edge_range, edgeBegin. simpl.
  replace (p.2 + SN + Z.of_nat (length nb) * SE - (p.2 + SN))
    with (Z.of_nat (length nb) * SE) by lia.
  rewrite decide_True.
  2:{ rewrite Z.mod_mul by lia. repeat split; (done || nia). }
  by rewrite Z.div_mul by lia.
Qed.

Lemma placed_resolve (nb : list (Z * EdgeTy)) :
  Forall (λ d, 0 ≤ d < n) nb.*1 →
  ∃ es, resolve ps nb = Some es ∧ length es = length nb.
Proof.
  unfold resolve. induction nb as [|[d w] nb IH]; simpl; intros Hd.
  - by exists [].
  - apply Forall_cons in Hd as [Hd0 Hd].
    destruct (IH Hd) as (es & -> & Hl).
    destruct (node_at_placed graph ps Hlen d Hd0) as (pd & Hpd & _).
    exists ((pd, w) :: es). unfold aget. rewrite decide_True by lia.
    rewrite Hpd. simpl. split; [done|]. by rewrite Hl.
Qed.

Lemma resolve_lookup (nb : list (Z * EdgeTy)) es j d w :
  resolve ps nb = Some es → nb !! j = Some (d, w) →
  ∃ q, es !! j = Some (q, w) ∧ ps !! Z.to_nat d = Some q.
Proof.
  unfold resolve. intros Hr Hj. rewrite mapM_Some in Hr.
  destruct (Forall2_lookup_l _ _ _ _ _ Hr Hj) as ([q w'] & Hq & He).
  simpl in He. destruct (aget ps d) as [q'|] eqn:Hqd; simplify_eq/=.
  exists q. split; [done|]. unfold aget in Hqd.
  by case_decide.
Qed.

Lemma placed_cells i p nb es :
  ps !! i = Some p → a !! i = Some nb → resolve ps nb = Some es →
  mapM (λ ni, d ← dst_of m ni; w ← payload_of m ni; Some (d, w))
       (edge_list p nb) = Some es.
Proof.
  intros Hp Hnb Hr. apply mapM_Some.
  assert (Hl : length es = length nb).
  { unfold resolve in Hr. rewrite mapM_Some in Hr.
    by rewrite (Forall2_length _ _ _ Hr). }
  apply Forall2_same_length_lookup. split.
  - rewrite length_fmap, length_seqZ. lia.
  - intros j e [q w] He Hq. rewrite list_lookup_fmap in He.
    destruct (seqZ 0 (Z.of_nat (length nb)) !! j) as [k|] eqn:Hk; [|done].
    apply lookup_seqZ in Hk as [-> Hj]. simpl in He. simplify_eq.
    destruct (nb !! j) as [[d w']|] eqn:Hnbj.
    2:{ apply lookup_ge_None in Hnbj. lia. }
    destruct (resolve_lookup nb es j d w' Hr Hnbj) as (q' & Hq' & Hpq).
    assert (q' = q ∧ w' = w) as [-> ->] by (split; congruence).
    destruct (Hedges i p nb j d w) as (pd & Hpd & Hc); try done.
    { by eapply lookup_lt_Some. }
    assert (pd = q) as -> by congruence. unfold dst_of, payload_of.
    replace (0 + Z.of_nat j) with (Z.of_nat j) by lia.
    rewrite Hc. done.
Qed.

Lemma placed_acquire_loop i p nb es mflag :
  ps !! i = Some p → a !! i = Some nb → resolve ps nb = Some es →
  runM (acquire_loop m mflag (edge_list p nb))
  = Some (tt, pointer_trace mflag es.*1).
Proof.
  intros Hp Hnb Hr.
  pose proof (placed_cells i p nb es Hp Hnb Hr) as Hc.
  clear Hr. revert es Hc.
  generalize (edge_list p nb). intros l.
  induction l as [|e l IH]; intros es Hc.
  - simpl in Hc. injection Hc as <-. unfold pointer_trace, node_trace.
    simpl. by destruct (acquires mflag).
  - simpl in Hc. simpl.
    destruct (dst_of m e) as [d|]; [|done]. simpl in *.
    destruct (payload_of m e) as [w|]; [|done]. simpl in *.
    destruct (mapM _ l) as [es'|] eqn:Hes; [|done]. simpl in Hc.
    injection Hc as <-. rewrite (IH es' eq_refl).
    unfold pointer_trace, node_trace, acquire. simpl.
    by destruct (acquires mflag).
Qed.

Lemma placed_edge_begin i p nb es mflag :
  ps !! i = Some p → a !! i = Some nb → resolve ps nb = Some es →
  runM (edge_begin SN SE m p mflag)
  = Some (edgeBegin SN p,
          pointer_trace mflag [p] ++
          (if shouldLock mflag then pointer_trace mflag es.*1 else [])).
Proof.
  intros Hp Hnb Hr. unfold edge_begin.
  rewrite !runM_bind_unfold.
  destruct (shouldLock mflag).
  - rewrite !runM_bind_unfold. cbn [acquire runM].
    rewrite (placed_edgeEnd i p nb Hp Hnb). cbn [lift runM].
    rewrite !runM_bind_unfold. rewrite placed_edge_range. cbn [lift runM].
    rewrite (placed_acquire_loop i p nb es mflag Hp Hnb Hr).
    unfold pointer_trace, node_trace. simpl.
    destruct (acquires mflag); simpl; by rewrite ?app_nil_r.
  - simpl. unfold pointer_trace, node_trace. simpl.
    by destruct (acquires mflag).
Qed.

Lemma placed_edge_end i p nb mflag :
  ps !! i = Some p → a !! i = Some nb →
  runM (edge_end SN SE m p mflag)
  = Some ((p.1, p.2 + SN + Z.of_nat (length nb) * SE),
          pointer_trace mflag [p]).
Proof.
  intros Hp Hnb. unfold edge_end. rewrite !runM_bind_unfold.
  cbn [acquire runM]. rewrite (placed_edgeEnd i p nb Hp Hnb).
  unfold pointer_trace, node_trace. simpl.
  by destruct (acquires mflag).
Qed.

Lemma placed_out_edges_flag i p nb es mflag :
  ps !! i = Some p → a !! i = Some nb → resolve ps nb = Some es →
  runM (out_edges SN SE m p mflag)
  = Some (edge_list p nb,
          (pointer_trace mflag [p] ++
           (if shouldLock mflag then pointer_trace mflag es.*1 else []))
          ++ pointer_trace mflag [p]).
Proof.
  intros Hp Hnb Hr. unfold out_edges. rewrite !runM_bind_unfold.
  rewrite (placed_edge_begin i p nb es mflag Hp Hnb Hr).
  rewrite !runM_bind_unfold.
  rewrite (placed_edge_end i p nb mflag Hp Hnb).
  cbn [lift runM]. rewrite placed_edge_range. by rewrite app_nil_r.
Qed.

Lemma placed_edges_of i p nb es mflag :
  ps !! i = Some p → a !! i = Some nb → resolve ps nb = Some es →
  runM (edges_of SN SE m p mflag)
  = Some (es,
          (pointer_trace mflag [p] ++
           (if shouldLock mflag then pointer_trace mflag es.*1 else []))
          ++ pointer_trace mflag [p]).
Proof.
  intros Hp Hnb Hr. unfold edges_of. rewrite runM_bind_unfold.
  rewrite (placed_out_edges_flag i p nb es mflag Hp Hnb Hr).
  erewrite runM_mapM_pure.
  2:{ intros ni. unfold getEdgeDst, getEdgeData, checkWrite.
      rewrite !runM_bind_unfold. cbn [lift runM mret M_ret].
      instantiate (1 := λ ni, d ← dst_of m ni; w ← payload_of m ni;
                              Some (d, w)).
      simpl. destruct (dst_of m ni); [|done]. simpl.
      by destruct (payload_of m ni). }
  rewrite (placed_cells i p nb es Hp Hnb Hr). simpl.
  by rewrite app_nil_r.
Qed.

Lemma placed_getData i p nb mflag :
  ps !! i = Some p → a !! i = Some nb →
  runM (getData m p mflag) = Some (dflt, pointer_trace mflag [p]).
Proof.
  intros Hp Hnb. unfold getData, checkWrite, data_of.
  rewrite !runM_bind_unfold. cbn [acquire runM mret M_ret lift].
  rewrite (Hnodes _ _ _ Hp Hnb). unfold pointer_trace, node_trace. simpl.
  by destruct (acquires mflag).
Qed.

End placed_members.
End LayoutMemberFacts.

Module LayoutLoadFacts.
Import Runtime GraphFacts GraphMemberFacts InOutFacts LayoutMemberFacts.
Local Open Scope Z_scope.

Section aligned.
Import LinearLayout Placement.
Context {NodeTy EdgeTy : Type} (SN SE : Z) (dflt : NodeTy).
Context (graph : FileGraph.t EdgeTy).

Lemma next_loop_divide fuel ni ei :
  (SN | next_loop SN fuel ni ei - ni).
Proof.
  revert ni. induction fuel as [|fuel IH]; intros ni; simpl.
  - case_decide; replace (ni - ni) with 0 by lia; apply Z.divide_0_r.
  - case_decide.
    + replace (next_loop SN fuel (ni + SN) ei - ni)
        with ((next_loop SN fuel (ni + SN) ei - (ni + SN)) + SN) by lia.
      apply Z.divide_add_r; [apply IH|apply Z.divide_refl].
    + replace (ni - ni) with 0 by lia. apply Z.divide_0_r.
Qed.

Lemma next_divide (m : Mem NodeTy EdgeTy) p q :
  next SN SE m p = Some q → q.1 = p.1 ∧ (SN | q.2 - p.2).
Proof.
  unfold next. intros H.
  destruct (edgeEnd SN SE m p) as [ei|]; simplify_eq/=.
  split; [done|]. apply next_loop_divide.
Qed.

Lemma layout_nodes_aligned iis :
  ∀ cur (m : Mem NodeTy EdgeTy) nodes cur' m' nodes',
  layout_nodes SN SE dflt graph iis cur m nodes = Some (cur', m', nodes') →
  cur'.1 = cur.1 ∧ (SN | cur'.2 - cur.2) ∧
  ∀ (i : nat) p, nodes' !! i = Some (Some p) →
    nodes !! i = Some (Some p) ∨
    (Z.of_nat i ∈ iis ∧ p.1 = cur.1 ∧ (SN | p.2 - cur.2)).
Proof.
  induction iis as [|ii iis IH]; intros cur m nodes cur' m' nodes' H.
  - simpl in H. simplify_eq. split; [done|].
    split; [replace (cur'.2 - cur'.2) with 0 by lia; apply Z.divide_0_r|].
    intros i p Hp. by left.
  - rewrite layout_nodes_cons in H.
    destruct (store cur SN _ m) as [m1|]; [|done]. simpl in H.
    destruct (aset nodes ii (Some cur)) as [nodes1|] eqn:Hset; [|done].
    simpl in H.
    destruct (next SN SE m1 cur) as [cur1|] eqn:Hnext; [|done]. simpl in H.
    destruct (next_divide _ _ _ Hnext) as [Ha Hd].
    destruct (IH _ _ _ _ _ _ H) as (Ha' & Hd' & Hn').
    split; [congruence|]. split.
    { replace (cur'.2 - cur.2) with ((cur'.2 - cur1.2) + (cur1.2 - cur.2))
        by lia. by apply Z.divide_add_r. }
    intros i p Hp. destruct (Hn' i p Hp) as [Hold|(Hi & Hp1 & Hp2)].
    + unfold aset in Hset. case_decide; [|done]. simplify_eq.
      destruct (decide (i = Z.to_nat ii)) as [->|Hne].
      * rewrite list_lookup_insert_eq in Hold by lia. simplify_eq.
        right. split.
        { replace (Z.of_nat (Z.to_nat ii)) with ii by lia. left. }
        split; [done|]. replace (p.2 - p.2) with 0 by lia.
        apply Z.divide_0_r.
      * rewrite list_lookup_insert_ne in Hold by done. by left.
    + right. split; [by right|]. split; [congruence|].
      replace (p.2 - cur.2) with ((p.2 - cur1.2) + (cur1.2 - cur.2)) by lia.
      by apply Z.divide_add_r.
Qed.

End aligned.

Section linear_loaded.
Import LinearLayout Placement LC_Linear_Graph.
Context {NodeTy EdgeTy : Type} (SN SE : Z) (dflt : NodeTy).
Context (graph : FileGraph.t EdgeTy) (Hwf : FileGraph.wf graph).
Context (HSN : 0 < SN) (HSE : 0 < SE).
Local Abbreviation a := (FileGraph.adj graph).
Local Abbreviation n := (FileGraph.size graph).
Context (Hsize : SN * n * 2 + SE * FileGraph.sizeEdges graph ≤ UINT64_MAX).

Lemma linear_loaded_fits :
  ∃ lin ps,
    structureFromGraph SN SE dflt graph = Some lin ∧
    node_list lin = Some ps ∧
    numNodes lin = n ∧ numEdges lin = FileGraph.sizeEdges graph ∧
    length ps = length a ∧
    separated SN SE a ps ∧
    node_cells dflt a (data lin) ps ∧
    edge_cells SN SE a (data lin) ps (length a) ∧
    (∀ i p, ps !! i = Some p → p.1 = 0%nat ∧ (SN | p.2)) ∧
    fits SN SE a (extent (data lin)) ps.
Proof.
  unfold structureFromGraph, FileGraph.nodes.
  pose proof (before_all graph) as Hall.
  assert (He : 0 ≤ FileGraph.sizeEdges graph)
    by (unfold FileGraph.sizeEdges; lia).
  assert (Hn : 0 ≤ n) by (unfold FileGraph.size; lia).
  rewrite u64_small by nia.
  destruct (placed_extend SN SE dflt graph Hwf HSN HSE 0
              (SN * n * 2 + SE * FileGraph.sizeEdges graph) 0 (length a)
              [] 0 (mkMem ∅ ∅))
    as (qs & c' & m1 & Hnodes & Hqs & HP).
  { apply placed_empty. }
  { done. }
  { simpl. lia. }
  { simpl. rewrite Hall. unfold before. simpl. unfold FileGraph.size. nia. }
  simpl in Hnodes. rewrite Nat.add_0_r, app_nil_r in Hnodes.
  change (Z.of_nat 0) with 0 in Hnodes.
  replace (Z.to_nat n) with (length a) by (unfold FileGraph.size; lia).
  change n with (Z.of_nat (length a)) in *.
  rewrite Hnodes. simpl.
  destruct (layout_all_edges_spec SN SE dflt graph Hwf HSN HSE qs
              ltac:(done) (placed_sep _ _ _ _ _ _ _ HP) (length a) 0%nat m1)
    as (m2 & Hedges & Hext & Hnc & Hec).
  { simpl. lia. }
  { apply HP. }
  { apply HP. }
  { intros i ? ? ? ? ? Hi. lia. }
  change (Z.of_nat 0) with 0 in Hedges. rewrite Hedges. simpl.
  eexists _, qs. split; [done|].
  unfold node_list. simpl.
  destruct (placed_complete SN SE dflt graph Hwf HSN HSE m2 qs)
    as (Hnl & Htop); try done.
  { apply HP. }
  change (FileGraph.size graph) with (Z.of_nat (length a)) in Hnl.
  split; [done|]. split; [done|]. split; [done|]. split; [done|].
  split; [apply HP|]. split; [done|]. split; [done|].
  split; [|simpl; rewrite Hext; apply HP].
  intros i p Hp.
  destruct (layout_nodes_aligned SN SE dflt graph _ _ _ _ _ _ _ Hnodes)
    as (_ & _ & Hal).
  destruct (Hal i p) as [Hold|(_ & ? & Hd)].
  { by rewrite list_lookup_fmap, Hp. }
  { apply lookup_replicate in Hold as [? _]. done. }
  split; [done|]. simpl in Hd. by rewrite Z.sub_0_r in Hd.
Qed.

Lemma linear_loaded :
  ∃ lin ps,
    structureFromGraph SN SE dflt graph = Some lin ∧
    node_list lin = Some ps ∧
    numNodes lin = n ∧ numEdges lin = FileGraph.sizeEdges graph ∧
    length ps = length a ∧
    separated SN SE a ps ∧
    node_cells dflt a (data lin) ps ∧
    edge_cells SN SE a (data lin) ps (length a) ∧
    ∀ i p, ps !! i = Some p → p.1 = 0%nat ∧ (SN | p.2).
Proof.
  destruct linear_loaded_fits
    as (lin & ps & ? & ? & ? & ? & ? & ? & ? & ? & ? & _).
  by exists lin, ps.
Qed.

End linear_loaded.
End LayoutLoadFacts.

Module NumaLoadFacts.
Import Runtime GraphFacts GraphMemberFacts InOutFacts LayoutMemberFacts.
Import LayoutLoadFacts.
Local Open Scope Z_scope.

Section numa_local.
Import LinearLayout Placement LC_Numa_Graph Distribution Locality.
Context {NodeTy EdgeTy : Type} (SN SE SH : Z) (dflt : NodeTy).
Context (graph : FileGraph.t EdgeTy).
Context (ds : list DistributeInfo).

Lemma AllocateNodes_local tid (m : Mem NodeTy EdgeTy) hs nodes m' hs' nodes' :
  AllocateNodes SN SE SH dflt graph ds tid (m, hs, nodes)
    = Some (m', hs', nodes') →
  ∀ (i : nat) p, nodes' !! i = Some (Some p) →
    nodes !! i = Some (Some p) ∨ local_to SN SH ds tid i p.
Proof.
  intros H i p Hp.
  destruct (ds !! tid) as [d|] eqn:Hd.
  2:{ unfold AllocateNodes in H. by rewrite Hd in H. }
  rewrite (AllocateNodes_eq SN SE SH dflt graph ds tid d _ _ _ Hd) in H.
  cbv zeta in H. case_decide as Hz.
  - destruct (aset hs _ _); simplify_eq/=. by left.
  - unfold iter_range in H. case_decide as Hbe; [|done]. simpl in H.
    destruct (layout_nodes _ _ _ _ _ _ _ _) as [[[cur m2] nodes2]|] eqn:Hl;
      [|done].
    simpl in H. destruct (aset hs _ _); simplify_eq/=.
    destruct (layout_nodes_aligned SN SE dflt graph _ _ _ _ _ _ _ Hl)
      as (_ & _ & Hal).
    destruct (Hal i p Hp) as [?|(Hi & Hp1 & Hp2)]; [by left|].
    right. exists d. apply elem_of_seqZ in Hi. simpl in *.
    repeat split; (done || lia).
Qed.

Lemma on_each_local tids :
  ∀ (m : Mem NodeTy EdgeTy) hs nodes m' hs' nodes',
  on_each (AllocateNodes SN SE SH dflt graph ds) tids (m, hs, nodes)
    = Some (m', hs', nodes') →
  ∀ (i : nat) p, nodes' !! i = Some (Some p) →
    nodes !! i = Some (Some p) ∨ ∃ tid, tid ∈ tids ∧ local_to SN SH ds tid i p.
Proof.
  induction tids as [|tid tids IH]; intros m hs nodes m' hs' nodes' H i p Hp.
  - simpl in H. simplify_eq. by left.
  - rewrite on_each_cons in H.
    destruct (AllocateNodes _ _ _ _ _ _ _ _) as [[[m1 hs1] nodes1]|] eqn:Ha;
      [|done].
    simpl in H. destruct (IH _ _ _ _ _ _ H i p Hp) as [Hold|(t & Ht & Hl)].
    + destruct (AllocateNodes_local _ _ _ _ _ _ _ Ha i p Hold) as [?|?];
        [by left|].
      right. exists tid. split; [left|done].
    + right. exists t. split; [by right|done].
Qed.

End numa_local.

Section numa_loaded.
Import LinearLayout Placement LC_Numa_Graph Distribution Locality.
Context {NodeTy EdgeTy : Type} (SN SE SH : Z) (dflt : NodeTy).
Context (graph : FileGraph.t EdgeTy) (Hwf : FileGraph.wf graph).
Context (HSN : 0 < SN) (HSE : 0 < SE) (HSH : 0 < SH).
Local Abbreviation a := (FileGraph.adj graph).
Local Abbreviation n := (FileGraph.size graph).
Context (Hsize : SH * 2 + SN * n * 2 + SE * FileGraph.sizeEdges graph
                 ≤ UINT64_MAX).

Lemma numa_loaded (num : nat) :
  (1 ≤ num)%nat →
  ∃ ds numa ps,
    distribute SN SE graph (Z.of_nat num) (PerThreadStorage_new num)
      = Some ds ∧
    length ds = num ∧ tiles a ds 0 (length a) ∧
    structureFromGraph SN SE SH dflt num graph = Some numa ∧
    node_list numa = Some ps ∧
    numNodes numa = n ∧ numEdges numa = FileGraph.sizeEdges graph ∧
    length ps = length a ∧
    separated SN SE a ps ∧
    node_cells dflt a (mem numa) ps ∧
    edge_cells SN SE a (mem numa) ps (length a) ∧
    ∀ i p, ps !! i = Some p →
      ∃ tid, (tid < num)%nat ∧ local_to SN SH ds tid i p.
Proof.
  intros Hnum. unfold structureFromGraph.
  assert (He : 0 ≤ FileGraph.sizeEdges graph)
    by (unfold FileGraph.sizeEdges; lia).
  assert (Hn : 0 ≤ n) by (unfold FileGraph.size; lia).
  destruct (distribute_spec SN SE graph Hwf HSN HSE ltac:(nia) num Hnum)
    as (ds & Hds & Hlen & Htiles).
  exists ds. rewrite Hds. cbn [mbind option_bind].
  destruct (alloc_nodes_spec SN SE SH dflt graph Hwf HSN HSE HSH Hsize
              ds num Hlen num 0 [] (mkMem ∅ ∅) (replicate num None))
    as (m1 & hs & ps & Hnodes & Hps & HP).
  { lia. }
  { done. }
  { apply placed_empty. }
  { by rewrite length_replicate. }
  simpl in Hnodes. rewrite Nat.sub_0_r in Hnodes.
  replace (Z.to_nat n) with (length a) by (unfold FileGraph.size; lia).
  rewrite Hnodes. cbn [mbind option_bind].
  destruct (alloc_edges_spec SN SE dflt graph Hwf HSN HSE ds num Hlen
              ps Hps (placed_sep _ _ _ _ _ _ _ HP) num 0 0 m1)
    as (m2 & -> & Hnc & Hec).
  { lia. }
  { done. }
  { apply HP. }
  { apply HP. }
  { intros i ? ? ? ? ? Hi. lia. }
  cbn [mbind option_bind]. eexists _, ps.
  split; [done|]. split; [done|]. split; [done|]. split; [done|].
  unfold node_list. simpl.
  destruct (placed_complete SN SE dflt graph Hwf HSN HSE m2 ps)
    as (Hnl & Htop); try done.
  { apply HP. }
  split; [done|]. split; [done|]. split; [done|]. split; [done|].
  split; [apply HP|]. split; [done|]. split; [done|].
  intros i p Hp.
  destruct (on_each_local SN SE SH dflt graph ds _ _ _ _ _ _ _ Hnodes i p)
    as [Hold|(tid & Ht & Hl)].
  { by rewrite list_lookup_fmap, Hp. }
  { apply lookup_replicate in Hold as [? _]. done. }
  exists tid. split; [|done]. apply elem_of_seq in Ht. lia.
Qed.

End numa_loaded.
End NumaLoadFacts.

Module EdgeIdxFacts.
Import Runtime GraphFacts GraphMemberFacts InOutFacts LayoutMemberFacts.
Local Open Scope Z_scope.

Lemma mapM_pair_fst {A B C} (f : A → option B) (g : A → option C)
    (l : list A) (xs : list (B * C)) :
  mapM (λ i, x ← f i; y ← g i; Some (x, y)) l = Some xs →
  mapM f l = Some xs.*1.
Proof.
  revert xs. induction l as [|i l IH]; intros xs H; simpl in *.
  - by injection H as <-.
  - destruct (f i) as [x|]; [|done]. simpl in *.
    destruct (g i) as [y|]; [|done]. simpl in *.
    destruct (mapM _ l) as [xs'|] eqn:E; [|done]. simpl in *.
    injection H as <-. by rewrite (IH xs' eq_refl).
Qed.

Section edge_idx.
Import LinearLayout Placement LinearLayout_members.
Context {NodeTy EdgeTy : Type} (SN SE : Z) (dflt : NodeTy).
Context (graph : FileGraph.t EdgeTy) (Hwf : FileGraph.wf graph).
Context (HSN : 0 < SN) (HSE : 0 < SE).
Local Abbreviation a := (FileGraph.adj graph).
Context (ps : list (nat * Z)) (Hlen : length ps = length a).
Context (m : Mem NodeTy EdgeTy).
Context (Hnodes : node_cells dflt a m ps).
Context (Hedges : edge_cells SN SE a m ps (length a)).

Lemma getEdgeIdx_loop_found (l : list (nat * Z)) :
  ∀ ds dst, mapM (dst_of m) l = Some ds →
  ∃ r, getEdgeIdx_loop m l dst = Some r ∧
    match r with
    | None => dst ∉ ds
    | Some e => ∃ j, l !! j = Some e ∧ ds !! j = Some dst
                     ∧ ∀ j', (j' < j)%nat → ds !! j' ≠ Some dst
    end.
Proof.
  induction l as [|e l IH]; intros ds dst H; simpl in *.
  - injection H as <-. exists None. split; [done|]. apply not_elem_of_nil.
  - destruct (dst_of m e) as [d|]; [|done]. simpl in *.
    destruct (mapM (dst_of m) l) as [ds'|] eqn:E; [|done]. simpl in *.
    injection H as <-. case_decide as Hd.
    + subst d. exists (Some e). split; [done|]. exists 0%nat.
      repeat split; try done. intros j' Hj'. lia.
    + destruct (IH ds' dst eq_refl) as (r & -> & Hr).
      exists r. split; [done|]. destruct r as [e'|].
      * destruct Hr as (j & Hj & Hdj & Hfirst). exists (S j).
        repeat split; try done. intros [|j'] Hj'; simpl.
        -- congruence.
        -- apply Hfirst. lia.
      * apply not_elem_of_cons. done.
Qed.

Lemma placed_getEdgeIdx i p nb es dst :
  ps !! i = Some p → a !! i = Some nb → resolve ps nb = Some es →
  ∃ r, getEdgeIdx SN SE m p dst = Some r ∧
    match r with
    | None => dst ∉ es.*1
    | Some e => ∃ j : nat,
        e = (p.1, p.2 + SN + Z.of_nat j * SE) ∧ es.*1 !! j = Some dst
        ∧ ∀ j', (j' < j)%nat → es.*1 !! j' ≠ Some dst
    end.
Proof.
  intros Hp Hnb Hr. unfold getEdgeIdx.
  rewrite (placed_edgeEnd SN SE dflt graph ps m Hnodes i p nb Hp Hnb).
  simpl. rewrite (placed_edge_range SN SE graph HSE ps Hlen p nb). simpl.
  pose proof (placed_cells SN SE graph ps Hlen m Hedges
                i p nb es Hp Hnb Hr) as Hc.
  apply mapM_pair_fst in Hc.
  destruct (getEdgeIdx_loop_found _ _ dst Hc) as (r & -> & Hres).
  exists r. split; [done|]. destruct r as [e|]; [|done].
  destruct Hres as (j & Hj & Hdj & Hfirst). exists j.
  split; [|done]. rewrite list_lookup_fmap in Hj.
  destruct (seqZ _ _ !! j) as [k|] eqn:Hk; [|done].
  apply lookup_seqZ in Hk as [-> _]. simpl in Hj.
  injection Hj as <-. do 2 f_equal.
Qed.

End edge_idx.

Section inline_members.
Import LC_CSRInline_Graph LC_CSRInline_Graph_members.
Context {NodeTy EdgeTy : Type} (dflt : NodeTy).
Context (graph : FileGraph.t EdgeTy) (Hwf : FileGraph.wf graph).
Local Abbreviation a := (FileGraph.adj graph).
Local Abbreviation I := (inline_loaded dflt graph).

Lemma inline_node_at k nb :
  a !! k = Some nb →
  aget (nodeData I) (Z.of_nat k) = Some (inline_node dflt graph k).
Proof.
  intros Hnb. rewrite aget_nat. simpl.
  rewrite list_lookup_fmap, lookup_seq_lt; [done|].
  by eapply lookup_lt_Some.
Qed.

Lemma inline_edge_at k nb j e :
  a !! k = Some nb → nb !! j = Some e →
  aget (edgeData I) (before a k + Z.of_nat j) = Some (inline_edge e).
Proof.
  intros Hnb Hj. simpl. rewrite (concat_split _ _ _ Hnb), !fmap_app.
  unfold before.
  replace (Z.of_nat (length (concat (take k a))) + Z.of_nat j)
    with (Z.of_nat (length (inline_edge <$> concat (take k a)) + j))
    by (rewrite length_fmap; lia).
  rewrite aget_nat, lookup_app_r by lia.
  replace (_ + j - _)%nat with j by lia.
  rewrite lookup_app_l by (rewrite length_fmap; by eapply lookup_lt_Some).
  by rewrite list_lookup_fmap, Hj.
Qed.

Lemma inline_acquire_loop mflag k nb (done rest : list (Z * EdgeTy)) fuel :
  a !! k = Some nb → nb = done ++ rest → (length rest ≤ fuel)%nat →
  runM (acquire_loop I mflag fuel
          (before a k + Z.of_nat (length done)) (before a (S k)))
  = Some (tt, node_trace mflag rest.*1).
Proof.
  intros Hnb. revert done rest.
  induction fuel as [|fuel IH]; intros done rest Hsplit Hfuel.
  - destruct rest; [|simpl in Hfuel; lia]. simpl.
    rewrite (before_S _ _ _ Hnb), Hsplit, app_nil_r.
    rewrite decide_True by done. unfold node_trace.
    by destruct (acquires mflag).
  - destruct rest as [|e rest].
    + simpl. rewrite (before_S _ _ _ Hnb), Hsplit, app_nil_r.
      rewrite decide_True by done. unfold node_trace.
      by destruct (acquires mflag).
    + cbn [acquire_loop].
      rewrite decide_False.
      2:{ rewrite (before_S _ _ _ Hnb), Hsplit, length_app. simpl. lia. }
      rewrite ?runM_bind_unfold.
      rewrite (inline_edge_at k nb (length done) e Hnb).
      2:{ rewrite Hsplit, lookup_app_r by lia.
          by rewrite Nat.sub_diag. }
      cbn [lift runM]. rewrite ?runM_bind_unfold. cbn [acquire runM].
      replace (before a k + Z.of_nat (length done) + 1)
        with (before a k + Z.of_nat (length (done ++ [e])))
        by (rewrite length_app; simpl; lia).
      rewrite (IH (done ++ [e]) rest).
      2:{ by rewrite <- app_assoc. }
      2:{ simpl in Hfuel. lia. }
      unfold node_trace. simpl. by destruct (acquires mflag).
Qed.

Lemma inline_edge_begin k nb mflag :
  a !! k = Some nb →
  runM (edge_begin I (Z.of_nat k) mflag)
  = Some (before a k,
          node_trace mflag [Z.of_nat k] ++
          (if shouldLock mflag then node_trace mflag nb.*1 else [])).
Proof.
  intros Hnb. unfold edge_begin. rewrite ?runM_bind_unfold.
  cbn [acquire runM]. rewrite ?runM_bind_unfold.
  rewrite (inline_node_at k nb Hnb). cbn [lift runM].
  rewrite ?runM_bind_unfold. cbn [edgeBegin edgeEnd inline_node].
  destruct (shouldLock mflag).
  - pose proof (inline_acquire_loop mflag k nb [] nb
                  (S (length (edgeData I))) Hnb eq_refl) as Hl.
    cbn [length app] in Hl. change (Z.of_nat 0) with 0 in Hl.
    rewrite Z.add_0_r in Hl. rewrite Hl.
    2:{ cbn [edgeData inline_loaded].
        rewrite length_fmap, (concat_split _ _ _ Hnb), !length_app. lia. }
    unfold node_trace. simpl. destruct (acquires mflag); simpl;
      by rewrite ?app_nil_r.
  - unfold node_trace. simpl. by destruct (acquires mflag).
Qed.

Lemma inline_edge_end k nb mflag :
  a !! k = Some nb →
  runM (edge_end I (Z.of_nat k) mflag)
  = Some (before a (S k), node_trace mflag [Z.of_nat k]).
Proof.
  intros Hnb. unfold edge_end. rewrite ?runM_bind_unfold.
  cbn [acquire runM]. rewrite ?runM_bind_unfold.
  rewrite (inline_node_at k nb Hnb). cbn [lift runM].
  unfold node_trace. simpl. by destruct (acquires mflag).
Qed.

Lemma inline_edges_of k nb mflag :
  a !! k = Some nb →
  runM (edges_of I (Z.of_nat k) mflag)
  = Some (nb,
          (node_trace mflag [Z.of_nat k] ++
           (if shouldLock mflag then node_trace mflag nb.*1 else []))
          ++ node_trace mflag [Z.of_nat k]).
Proof.
  intros Hnb. unfold edges_of, out_edges. rewrite ?runM_bind_unfold.
  rewrite (inline_edge_begin k nb mflag Hnb).
  rewrite ?runM_bind_unfold.
  rewrite (inline_edge_end k nb mflag Hnb).
  unfold edge_range. rewrite decide_True by (apply before_mono; lia).
  cbn [lift runM].
  erewrite runM_mapM_pure.
  2:{ intros ni. unfold getEdgeData, checkWrite.
      rewrite ?runM_bind_unfold. cbn [lift runM mret M_ret].
      instantiate (1 := λ ni, d ← getEdgeDst I ni;
                              w ← (e ← aget (edgeData I) ni; payload e);
                              Some (d, w)).
      simpl. destruct (getEdgeDst I ni); [|done]. simpl.
      destruct (aget _ ni) as [e|]; [|done]. simpl.
      by destruct (payload e). }
  assert (Hm : mapM (λ ni, d ← getEdgeDst I ni;
                           w ← (e ← aget (edgeData I) ni; payload e);
                           Some (d, w))
                 (seqZ (before a k) (before a (S k) - before a k))
               = Some nb).
  { apply mapM_Some. apply Forall2_same_length_lookup. split.
    - rewrite length_seqZ, (before_S _ _ _ Hnb). lia.
    - intros j ni [d w] Hni Hj. apply lookup_seqZ in Hni as [-> _].
      unfold getEdgeDst.
      rewrite (inline_edge_at k nb j (d, w) Hnb Hj). done. }
  rewrite Hm. simpl. by rewrite !app_nil_r.
Qed.

Lemma inline_getData k nb mflag :
  a !! k = Some nb →
  runM (getData I (Z.of_nat k) mflag)
  = Some (dflt, node_trace mflag [Z.of_nat k]).
Proof.
  intros Hnb. unfold getData, checkWrite. rewrite ?runM_bind_unfold.
  cbn [acquire runM mret M_ret]. rewrite (inline_node_at k nb Hnb).
  unfold node_trace. simpl. by destruct (acquires mflag).
Qed.

End inline_members.
End EdgeIdxFacts.

Module TilesFacts.
Import Runtime GraphFacts LC_Numa_Graph Distribution.
Local Open Scope Z_scope.

Section tiles.
Context {EdgeTy : Type} (graph : FileGraph.t EdgeTy).
Local Abbreviation a := (FileGraph.adj graph).

(** An entry with nodes lies inside the tiled stretch, with the counts of
    its range. *)
Lemma tiles_entry ds : ∀ pos pos' tid d,
  tiles a ds pos pos' → ds !! tid = Some d → d_numNodes d ≠ 0 →
  ∃ b e : nat, (pos ≤ b < e)%nat ∧ (e ≤ pos')%nat
    ∧ d_begin d = Z.of_nat b ∧ d_end d = Z.of_nat e
    ∧ d_numNodes d = Z.of_nat (e - b)
    ∧ d_numEdges d = before a e - before a b.
Proof.
  induction ds as [|d0 ds IH]; intros pos pos' tid d Ht Hd Hn; [done|].
  simpl in Ht. destruct tid as [|tid]; simpl in Hd.
  - injection Hd as ->. rewrite decide_False in Ht by done.
    destruct Ht as (e & Hpe & Hb & He & Hnn & Hne & Hrest).
    apply tiles_le in Hrest. exists pos, e. repeat split; (done || lia).
  - case_decide as H0.
    + by apply (IH pos pos' tid d).
    + destruct Ht as (e & Hpe & _ & _ & _ & _ & Hrest).
      destruct (IH e pos' tid d Hrest Hd Hn) as (b & e' & ? & ? & ?).
      exists b, e'. repeat split; (tauto || lia).
Qed.

(** Every node of the tiled stretch lies in the range of an entry. *)
Lemma tiles_cover ds : ∀ pos pos' (i : nat),
  tiles a ds pos pos' → (pos ≤ i < pos')%nat →
  ∃ tid d, ds !! tid = Some d ∧ d_numNodes d ≠ 0
           ∧ d_begin d ≤ Z.of_nat i < d_end d.
Proof.
  induction ds as [|d0 ds IH]; intros pos pos' i Ht Hi; simpl in Ht.
  - lia.
  - case_decide as H0.
    + destruct (IH pos pos' i Ht Hi) as (tid & d & Hd & ?).
      by exists (S tid), d.
    + destruct Ht as (e & Hpe & Hb & He & _ & _ & Hrest).
      destruct (decide (i < e)%nat) as [Hie|Hie].
      * exists 0%nat, d0. repeat split; (done || lia).
      * destruct (IH e pos' i Hrest) as (tid & d & Hd & ?); [lia|].
        by exists (S tid), d.
Qed.

(** The ranges follow one another in the order of the threads. *)
Lemma tiles_ordered ds : ∀ pos pos' tid tid' d d',
  tiles a ds pos pos' → (tid < tid')%nat →
  ds !! tid = Some d → ds !! tid' = Some d' →
  d_numNodes d ≠ 0 → d_numNodes d' ≠ 0 →
  d_end d ≤ d_begin d'.
Proof.
  induction ds as [|d0 ds IH]; intros pos pos' tid tid' d d' Ht Hlt Hd Hd'
    Hn Hn'; [done|].
  destruct tid' as [|tid']; [lia|]. simpl in Hd'. simpl in Ht.
  destruct tid as [|tid]; simpl in Hd.
  - injection Hd as ->. rewrite decide_False in Ht by done.
    destruct Ht as (e & _ & _ & He & _ & _ & Hrest).
    destruct (tiles_entry ds e pos' tid' d' Hrest Hd' Hn')
      as (b & e' & ? & ? & ? & ?). lia.
  - case_decide as H0.
    + eapply (IH pos pos' tid tid'); (done || lia).
    + destruct Ht as (e & _ & _ & _ & _ & _ & Hrest).
      eapply (IH e pos' tid tid'); (done || lia).
Qed.

End tiles.
End TilesFacts.

Module BalanceFacts.
Import Runtime GraphFacts LC_Numa_Graph Distribution Balance.
Local Open Scope Z_scope.

Section balance.
Context {EdgeTy : Type} (SN SE : Z).
Context (graph : FileGraph.t EdgeTy) (Hwf : FileGraph.wf graph).
Context (HSN : 0 < SN) (HSE : 0 < SE).
Local Abbreviation a := (FileGraph.adj graph).
Local Abbreviation n := (FileGraph.size graph).
Context (Hsize : SN * n + SE * FileGraph.sizeEdges graph ≤ UINT64_MAX).

Lemma distributing_entry num tid v :
  (tid < num)%nat → Distributing SN SE a num tid v →
  dinfo v !! tid = Some (mkInfo 0 0 0 0).
Proof.
  intros Htid (k & l & ds & _ & _ & _ & _ & _ & _ & _ & _ & Hds & Hlen & _).
  rewrite Hds, lookup_app_r by lia.
  apply lookup_replicate. split; [done|]. lia.
Qed.

Lemma balanced_skip bs num tid v :
  (tid < num)%nat → Distributing SN SE a num tid v → ii v = n →
  Balanced SN SE a bs n tid v → Balanced SN SE a bs n (S tid) v.
Proof.
  intros Htid HD Hii [Hold _]. split; [|done].
  intros t d Ht Hd Hn. destruct (decide (t = tid)) as [->|Hne].
  - rewrite (distributing_entry num tid v Htid HD) in Hd.
    by injection Hd as <-.
  - apply Hold; (done || lia).
Qed.

Lemma balanced_break bs num tid v di :
  (tid < num)%nat → Distributing SN SE a num tid v → ii v ≠ n →
  u64 ((Z.of_nat tid + 1) * bs) ≤ curSize v →
  aset (dinfo v) (Z.of_nat tid)
       (mkInfo (nnodes v) (nedges v) (last v) (ii v)) = Some di →
  Balanced SN SE a bs n tid v →
  Balanced SN SE a bs n (S tid)
    (mkVars (curSize v) (ii v) (ii v) 0 0
       (u64 (runningNodes v + nnodes v))
       (u64 (runningEdges v + nedges v)) di).
Proof.
  intros Htid HD Hii Hthr Hdi [Hold Hcur]. split; [|done].
  simpl. intros t d Ht Hd Hn.
  unfold aset in Hdi. case_decide as Hr; [|done]. injection Hdi as <-.
  rewrite Nat2Z.id in Hd.
  destruct (decide (t = tid)) as [->|Hne].
  - rewrite list_lookup_insert_eq in Hd by lia. injection Hd as <-.
    simpl in *. destruct (Hcur Hn Hii) as (k & Hk & Hlt).
    exists k. split; [done|]. split; [done|].
    destruct HD as (k' & l & ds & _ & Hii' & _ & _ & _ & _ & _ & Hc & _).
    assert (k' = S k) as -> by lia. unfold prefix_size. by rewrite <- Hc.
  - rewrite list_lookup_insert_ne in Hd by done.
    apply Hold; (done || lia).
Qed.

Lemma balanced_step bs num tid v :
  Distributing SN SE a num tid v →
  ¬ u64 ((Z.of_nat tid + 1) * bs) ≤ curSize v →
  Balanced SN SE a bs n tid v →
  Balanced SN SE a bs n tid
    (mkVars (u64 (curSize v
                  + (SN + SE * FileGraph.degree graph (ii v))))
            (ii v + 1) (last v)
            (u64 (nnodes v + 1))
            (u64 (nedges v + FileGraph.degree graph (ii v)))
            (runningNodes v) (runningEdges v) (dinfo v)).
Proof.
  intros HD Hthr [Hold _]. split; [done|]. simpl. intros _ _.
  destruct HD as (k & l & ds & _ & Hii & _ & _ & _ & _ & _ & Hc & _).
  exists k. split; [lia|]. unfold prefix_size. lia.
Qed.

Lemma distribute_inner_balanced bs num tid (fuel : nat) :
  ∀ v v', (tid < num)%nat → Distributing SN SE a num tid v →
  Balanced SN SE a bs n tid v →
  distribute_inner SN SE graph fuel (Z.of_nat tid) bs n v = Some v' →
  Balanced SN SE a bs n (S tid) v'.
Proof.
  induction fuel as [|fuel IH]; intros v v' Htid HD HB Hrun.
  - simpl in Hrun. case_decide as Hii.
    + injection Hrun as <-. by eapply balanced_skip.
    + case_decide as Hthr; [|done].
      destruct (aset _ _ _) as [di|] eqn:Hdi; [|done].
      injection Hrun as <-. by eapply balanced_break.
  - simpl in Hrun. case_decide as Hii.
    + injection Hrun as <-. by eapply balanced_skip.
    + case_decide as Hthr.
      * destruct (aset _ _ _) as [di|] eqn:Hdi; [|done].
        injection Hrun as <-. by eapply balanced_break.
      * eapply IH; [done| | |exact Hrun].
        -- by apply (distributing_step SN SE graph Hwf HSN HSE Hsize).
        -- by eapply balanced_step.
Qed.

Lemma distribute_outer_balanced bs num (r : nat) :
  ∀ (tid : nat) v v', (tid + r ≤ num)%nat →
  Distributing SN SE a num tid v → Balanced SN SE a bs n tid v →
  distribute_outer SN SE graph (seqZ (Z.of_nat tid) (Z.of_nat r)) bs n v
    = Some v' →
  Balanced SN SE a bs n (tid + r) v'.
Proof.
  induction r as [|r IH]; intros tid v v' Htid HD HB Hrun.
  - injection Hrun as <-. by rewrite Nat.add_0_r.
  - rewrite Nat2Z.inj_succ, seqZ_cons in Hrun by lia.
    rewrite distribute_outer_cons in Hrun.
    destruct (distribute_inner_spec SN SE graph Hwf HSN HSE Hsize num tid bs
                (S (Z.to_nat (n - ii v))) v) as (v1 & Hv1 & HD1);
      [lia|done|lia|].
    rewrite Hv1 in Hrun. cbn [mbind option_bind] in Hrun.
    replace (Z.pred (Z.succ (Z.of_nat r))) with (Z.of_nat r) in Hrun by lia.
    replace (Z.succ (Z.of_nat tid)) with (Z.of_nat (S tid)) in Hrun by lia.
    replace (tid + S r)%nat with (S tid + r)%nat by lia.
    eapply (IH (S tid) v1); [lia|done| |done].
    eapply distribute_inner_balanced; [|done|done|exact Hv1]. lia.
Qed.

Lemma share_small (num t : nat) :
  (t + 1 < num)%nat →
  u64 ((Z.of_nat t + 1)
       * (u64 (SN * n + SE * FileGraph.sizeEdges graph) / Z.of_nat num))
  = (Z.of_nat t + 1)
    * ((SN * n + SE * FileGraph.sizeEdges graph) / Z.of_nat num).
Proof.
  intros Ht.
  assert (H0 : 0 ≤ SN * n + SE * FileGraph.sizeEdges graph).
  { unfold FileGraph.size, FileGraph.sizeEdges. nia. }
  rewrite (u64_small (SN * n + _)) by lia.
  apply u64_small.
  set (total := SN * n + SE * FileGraph.sizeEdges graph) in *.
  assert (Hq : 0 ≤ total / Z.of_nat num) by (apply Z.div_pos; lia).
  assert (Hm : Z.of_nat num * (total / Z.of_nat num) ≤ total)
    by (apply Z.mul_div_le; lia).
  split; nia.
Qed.

Lemma distribute_balanced (num : nat) ds :
  (1 ≤ num)%nat →
  distribute SN SE graph (Z.of_nat num) (PerThreadStorage_new num)
    = Some ds →
  ∀ (t : nat) d, (t + 1 < num)%nat → ds !! t = Some d →
    d_numNodes d ≠ 0 →
    reaches SN SE a
      ((Z.of_nat t + 1)
       * ((SN * n + SE * FileGraph.sizeEdges graph) / Z.of_nat num))
      (d_end d).
Proof.
  intros Hnum Hrun t d Ht Hd Hn. unfold distribute in Hrun.
  rewrite decide_False in Hrun by lia.
  set (bs := u64 (SN * n + SE * FileGraph.sizeEdges graph) / Z.of_nat num)
    in *.
  set (v0 := mkVars 0 0 0 0 0 0 0 (PerThreadStorage_new num)) in *.
  assert (HD0 : Distributing SN SE a num 0 v0).
  { exists 0%nat, 0%nat, []. simpl. unfold before. simpl.
    unfold PerThreadStorage_new. rewrite Nat.sub_0_r.
    repeat split; (done || lia). }
  assert (HB0 : Balanced SN SE a bs n 0 v0).
  { split; [intros; lia|]. simpl. done. }
  replace (Z.of_nat num - 1) with (Z.of_nat (num - 1)) in Hrun by lia.
  destruct (distribute_outer SN SE graph _ bs n v0) as [v|] eqn:Hv;
    [|done].
  change 0 with (Z.of_nat 0) in Hv.
  pose proof (distribute_outer_balanced bs num (num - 1) 0 v0 v
                ltac:(lia) HD0 HB0 Hv) as [Hold _].
  cbn [mbind option_bind] in Hrun. unfold aset in Hrun.
  case_decide as Hr; [|done]. injection Hrun as <-.
  rewrite list_lookup_insert_ne in Hd by lia.
  rewrite <- (share_small num t Ht). apply Hold; (done || lia).
Qed.

End balance.
End BalanceFacts.

Module LocalChainFacts.
Import Runtime GraphFacts LayoutMemberFacts LayoutLoadFacts NumaLoadFacts.
Import TilesFacts.
Import LinearLayout Placement LC_Numa_Graph Distribution LocalChain.
Local Open Scope Z_scope.

Section chain.
Context {NodeTy EdgeTy : Type} (SN SE SH : Z) (dflt : NodeTy).
Context (graph : FileGraph.t EdgeTy) (Hwf : FileGraph.wf graph).
Context (HSN : 0 < SN) (HSE : 0 < SE).
Local Abbreviation a := (FileGraph.adj graph).

Lemma next_of_gt (p : nat * Z) (nb : list (Z * EdgeTy)) :
  (next_of SN SE p nb).1 = p.1 ∧ p.2 < (next_of SN SE p nb).2.
Proof.
  split; [done|]. unfold next_of. simpl.
  destruct (next_loop_spec SN HSN
              (Z.to_nat (p.2 + SN + Z.of_nat (length nb) * SE - p.2)) p.2
              (p.2 + SN + Z.of_nat (length nb) * SE)) as (_ & H & _);
    nia.
Qed.

Lemma chain_end_ge (nbs : list (list (Z * EdgeTy))) :
  ∀ cur, (chain_end SN SE cur nbs).1 = cur.1
         ∧ cur.2 ≤ (chain_end SN SE cur nbs).2.
Proof.
  induction nbs as [|nb nbs IH]; intros cur; simpl; [done|].
  destruct (IH (next_of SN SE cur nb)) as [H1 H2].
  destruct (next_of_gt cur nb) as [H3 H4]. split; [congruence|lia].
Qed.

Lemma chain_lt (nbs : list (list (Z * EdgeTy))) :
  ∀ cur j q, chain SN SE cur nbs !! j = Some q →
  q.1 = cur.1 ∧ cur.2 ≤ q.2 ∧ q.2 < (chain_end SN SE cur nbs).2.
Proof.
  induction nbs as [|nb nbs IH]; intros cur j q Hq; [done|].
  destruct (next_of_gt cur nb) as [H3 H4].
  destruct j as [|j]; simpl in Hq.
  - injection Hq as <-. simpl.
    destruct (chain_end_ge nbs (next_of SN SE cur nb)) as [_ H].
    repeat split; lia.
  - destruct (IH _ _ _ Hq) as (H1 & H2 & H5). simpl.
    repeat split; (congruence || lia).
Qed.

Lemma chain_length (nbs : list (list (Z * EdgeTy))) :
  ∀ cur, length (chain SN SE cur nbs) = length nbs.
Proof. induction nbs as [|nb nbs IH]; intros cur; simpl; [done|]. by rewrite IH. Qed.

(** From one node of a chain to the next one, or to the end. *)
Lemma chain_next (nbs : list (list (Z * EdgeTy))) :
  ∀ cur j q nb, chain SN SE cur nbs !! j = Some q → nbs !! j = Some nb →
  if decide (S j < length nbs)%nat
  then chain SN SE cur nbs !! S j = Some (next_of SN SE q nb)
  else chain_end SN SE cur nbs = next_of SN SE q nb.
Proof.
  induction nbs as [|nb0 nbs IH]; intros cur j q nb Hq Hnb; [done|].
  destruct j as [|j]; simpl in Hq, Hnb.
  - injection Hq as <-. injection Hnb as <-.
    destruct nbs as [|nb1 nbs]; case_decide as Hd; simpl in Hd;
      (done || lia).
  - pose proof (IH _ _ _ _ Hq Hnb) as H. simpl.
    case_decide; [rewrite decide_True by lia|rewrite decide_False by lia];
      done.
Qed.

Lemma next_after_store (m m1 : Mem NodeTy EdgeTy) cur (k : nat) nb :
  a !! k = Some nb →
  store cur SN
    (NodeCell dflt (to_int (FileGraph.degree graph (Z.of_nat k)))) m
    = Some m1 →
  next SN SE m1 cur = Some (next_of SN SE cur nb).
Proof.
  intros Hnb Hst. unfold store in Hst.
  destruct (extent m !! cur.1) as [size|]; [|done]. simpl in Hst.
  case_decide; [|done]. injection Hst as <-.
  unfold next, edgeEnd, numEdges_of. simpl.
  rewrite lookup_insert_eq. simpl.
  rewrite (degree_nat graph _ _ Hnb).
  rewrite to_int_small; [done|].
  pose proof (wf_degree graph Hwf _ _ Hnb). lia.
Qed.

Lemma layout_nodes_chain (r : nat) :
  ∀ (b : nat) cur (m : Mem NodeTy EdgeTy) nodes cur' m' nodes',
  (b + r ≤ length a)%nat →
  layout_nodes SN SE dflt graph (seqZ (Z.of_nat b) (Z.of_nat r)) cur m nodes
    = Some (cur', m', nodes') →
  cur' = chain_end SN SE cur (take r (drop b a))
  ∧ length nodes' = length nodes
  ∧ (∀ (j : nat) q, chain SN SE cur (take r (drop b a)) !! j = Some q →
       nodes' !! (b + j)%nat = Some (Some q))
  ∧ (∀ i : nat, ¬ (b ≤ i < b + r)%nat → nodes' !! i = nodes !! i).
Proof.
  induction r as [|r IH]; intros b cur m nodes cur' m' nodes' Hb H.
  - simpl in H. injection H as <- <- <-. rewrite take_0. simpl.
    repeat split; done.
  - rewrite Nat2Z.inj_succ, seqZ_cons in H by lia.
    rewrite layout_nodes_cons in H.
    destruct (a !! b) as [nb|] eqn:Hnb.
    2:{ apply lookup_ge_None in Hnb. lia. }
    destruct (store cur SN _ m) as [m1|] eqn:Hst; [|done].
    cbn [mbind option_bind] in H.
    destruct (aset nodes (Z.of_nat b) (Some cur)) as [nodes1|] eqn:Hset;
      [|done].
    cbn [mbind option_bind] in H.
    rewrite (next_after_store m m1 cur b nb Hnb Hst) in H.
    cbn [mbind option_bind] in H.
    replace (Z.pred (Z.succ (Z.of_nat r))) with (Z.of_nat r) in H by lia.
    replace (Z.succ (Z.of_nat b)) with (Z.of_nat (S b)) in H by lia.
    destruct (IH (S b) _ _ _ _ _ _ ltac:(lia) H) as (Hend & Hlen & Hch & Hfr).
    unfold aset in Hset. case_decide as Hr; [|done].
    injection Hset as <-. rewrite Nat2Z.id in *.
    rewrite length_insert in Hlen.
    rewrite (drop_S _ _ _ Hnb). simpl.
    split; [done|]. split; [done|]. split.
    + intros [|j] q Hq; simpl in Hq.
      * injection Hq as <-. rewrite Nat.add_0_r, Hfr by lia.
        apply list_lookup_insert_eq. lia.
      * replace (b + S j)%nat with (S b + j)%nat by lia. by apply Hch.
    + intros i Hi. rewrite Hfr by lia.
      apply list_lookup_insert_ne. lia.
Qed.

End chain.
End LocalChainFacts.

Module LocalLoadFacts.
Import Runtime GraphFacts LayoutMemberFacts LayoutLoadFacts NumaLoadFacts.
Import TilesFacts LocalChainFacts.
Import LinearLayout Placement LC_Numa_Graph Distribution LocalChain.
Local Open Scope Z_scope.

Section local_load.
Context {NodeTy EdgeTy : Type} (SN SE SH : Z) (dflt : NodeTy).
Context (graph : FileGraph.t EdgeTy) (Hwf : FileGraph.wf graph).
Context (HSN : 0 < SN) (HSE : 0 < SE).
Local Abbreviation a := (FileGraph.adj graph).
Context (ds : list DistributeInfo).
Context (Htiles : tiles a ds 0 (length a)).

Lemma in_range_disjoint (t t' : nat) d d' (i : nat) :
  t ≠ t' → ds !! t = Some d → ds !! t' = Some d' →
  in_range d i → in_range d' i → False.
Proof.
  intros Hne Hd Hd' [Hn Hi] [Hn' Hi'].
  destruct (decide (t < t')%nat).
  - pose proof (tiles_ordered graph ds _ _ t t' d d' Htiles
                  ltac:(lia) Hd Hd' Hn Hn'). lia.
  - pose proof (tiles_ordered graph ds _ _ t' t d' d Htiles
                  ltac:(lia) Hd' Hd Hn' Hn). lia.
Qed.

Lemma thread_nbs_length d tid :
  ds !! tid = Some d →
  ∀ j : nat, (j < length (thread_nbs a d))%nat →
    in_range d (Z.to_nat (d_begin d) + j).
Proof.
  intros Hd j Hj. unfold thread_nbs in Hj. case_decide as Hn; [simpl in Hj; lia|].
  destruct (tiles_entry graph ds _ _ tid d Htiles Hd Hn)
    as (b & e & ? & ? & Hb & He & _).
  rewrite length_take, length_drop in Hj.
  split; [done|]. lia.
Qed.

Lemma AllocateNodes_done tid d (m : Mem NodeTy EdgeTy) hs nodes m' hs' nodes' :
  ds !! tid = Some d →
  AllocateNodes SN SE SH dflt graph ds tid (m, hs, nodes)
    = Some (m', hs', nodes') →
  laid_out SN SE SH a hs' nodes' tid d
  ∧ length hs' = length hs
  ∧ (∀ t, t ≠ tid → hs' !! t = hs !! t)
  ∧ (∀ i : nat, ¬ in_range d i → nodes' !! i = nodes !! i).
Proof.
  intros Hd H.
  rewrite (AllocateNodes_eq SN SE SH dflt graph ds tid d _ _ _ Hd) in H.
  cbv zeta in H. unfold laid_out, thread_nbs. case_decide as Hz.
  - destruct (aset hs _ _) as [hs1|] eqn:Hset; [|done]. simpl in H.
    injection H as <- <- <-. unfold aset in Hset.
    case_decide; [|done]. injection Hset as <-. rewrite Nat2Z.id.
    rewrite length_insert. repeat split; try done.
    + eexists. simpl. apply list_lookup_insert_eq. lia.
    + intros t Ht. by apply list_lookup_insert_ne.
  - destruct (tiles_entry graph ds _ _ tid d Htiles Hd Hz)
      as (b & e & Hbe & He & Hb & Hee & _).
    rewrite Hb, Hee in H. unfold iter_range in H.
    rewrite decide_True in H by lia.
    replace (Z.of_nat e - Z.of_nat b) with (Z.of_nat (e - b)) in H by lia.
    cbn [mbind option_bind] in H.
    destruct (layout_nodes _ _ _ _ _ _ _ _) as [[[cur m2] nodes2]|] eqn:Hl;
      [|done].
    cbn [mbind option_bind] in H.
    destruct (aset hs _ _) as [hs1|] eqn:Hset; [|done]. simpl in H.
    injection H as <- <- <-. unfold aset in Hset.
    case_decide; [|done]. injection Hset as <-. rewrite Nat2Z.id.
    rewrite length_insert.
    destruct (layout_nodes_chain SN SE dflt graph Hwf (e - b) b
                _ _ _ _ _ _ ltac:(lia) Hl) as (Hend & _ & Hch & Hfr).
    rewrite Hb, Hee, Nat2Z.id.
    replace (Z.to_nat (Z.of_nat e - Z.of_nat b)) with (e - b)%nat by lia.
    repeat split; try done.
    + eexists. rewrite <- Hend. apply list_lookup_insert_eq. lia.
    + intros t Ht. by apply list_lookup_insert_ne.
    + intros i Hi. apply Hfr. unfold in_range in Hi. lia.
Qed.

Lemma on_each_done (tids : list nat) :
  NoDup tids →
  ∀ (m : Mem NodeTy EdgeTy) hs nodes m' hs' nodes',
  (∀ tid, tid ∈ tids → is_Some (ds !! tid)) →
  on_each (AllocateNodes SN SE SH dflt graph ds) tids (m, hs, nodes)
    = Some (m', hs', nodes') →
  (∀ tid d, tid ∈ tids → ds !! tid = Some d →
     laid_out SN SE SH a hs' nodes' tid d)
  ∧ length hs' = length hs
  ∧ (∀ t, t ∉ tids → hs' !! t = hs !! t)
  ∧ (∀ i : nat, (∀ tid d, tid ∈ tids → ds !! tid = Some d →
                   ¬ in_range d i) →
       nodes' !! i = nodes !! i).
Proof.
  intros Hnd. induction Hnd as [|t0 ts Hnotin Hnd IH];
    intros m hs nodes m' hs' nodes' Hds H.
  - simpl in H. injection H as <- <- <-.
    split; [|done]. intros t d Hin. by apply elem_of_nil in Hin.
  - rewrite on_each_cons in H.
    destruct (AllocateNodes _ _ _ _ _ _ _ _) as [[[m1 hs1] nodes1]|] eqn:Ha;
      [|done].
    cbn [mbind option_bind] in H.
    destruct (Hds t0 ltac:(left)) as [d0 Hd0].
    destruct (AllocateNodes_done t0 d0 _ _ _ _ _ _ Hd0 Ha)
      as ([Hh0 Hc0] & Hlen0 & Hfr0 & Hn0).
    destruct (IH _ _ _ _ _ _ ltac:(intros; apply Hds; by right) H)
      as (Hdone & Hlen & Hfr & Hn).
    split; [|split; [congruence|split]].
    + intros t d Hin Hd. apply elem_of_cons in Hin as [->|Hin].
      * assert (d = d0) as -> by congruence. split.
        -- rewrite Hfr by done. exact Hh0.
        -- intros j q Hq. rewrite Hn; [by apply Hc0|].
           intros t' d' Hin' Hd' Hr'.
           assert (Hne : t0 ≠ t') by (intros ->; done).
           apply lookup_lt_Some in Hq. rewrite chain_length in Hq.
           exact (in_range_disjoint t0 t' d0 d' _ Hne Hd0 Hd'
                    (thread_nbs_length d0 t0 Hd0 j Hq) Hr').
      * by apply Hdone.
    + intros t Ht. apply not_elem_of_cons in Ht as [Hne Ht].
      rewrite Hfr by done. by apply Hfr0.
    + intros i Hi. rewrite Hn.
      * apply Hn0. by apply (Hi t0 d0); [left|].
      * intros t d Hin Hd. apply (Hi t d); [by right|done].
Qed.

End local_load.
End LocalLoadFacts.

Module LocalIteratorFacts.
Import Runtime GraphFacts LayoutMemberFacts LayoutLoadFacts NumaLoadFacts.
Import TilesFacts LocalChainFacts LocalLoadFacts.
Import LinearLayout Placement LC_Numa_Graph Distribution LocalChain.
Import LC_Numa_Graph_members.
Local Open Scope Z_scope.

Section loaded.
Context {NodeTy EdgeTy : Type} (SN SE SH : Z) (dflt : NodeTy).
Context (graph : FileGraph.t EdgeTy) (Hwf : FileGraph.wf graph).
Context (HSN : 0 < SN) (HSE : 0 < SE).
Local Abbreviation a := (FileGraph.adj graph).
Context (ds : list DistributeInfo) (num : nat).
Context (Htiles : tiles a ds 0 (length a)) (Hds : length ds = num).
Context (g : t NodeTy EdgeTy) (ns : list (nat * Z)).
Context (Hs : structureFromGraph SN SE SH dflt num graph = Some g).
Context (Hd : distribute SN SE graph (Z.of_nat num)
                (PerThreadStorage_new num) = Some ds).
Context (Hns : node_list g = Some ns).

Lemma loaded_headers :
  length (headers g) = num
  ∧ ∀ tid d, ds !! tid = Some d →
      laid_out SN SE SH a (headers g) (nodes g) tid d.
Proof.
  unfold structureFromGraph in Hs. rewrite Hd in Hs.
  cbn [mbind option_bind] in Hs.
  destruct (on_each (AllocateNodes _ _ _ _ _ _) _ _)
    as [[[m1 hs] nodes1]|] eqn:Hon; [|done].
  cbn [mbind option_bind] in Hs.
  destruct (on_each (AllocateEdges _ _ _ _ _) _ _) as [m2|]; [|done].
  injection Hs as <-. simpl.
  destruct (on_each_done SN SE SH dflt graph Hwf ds Htiles (seq 0 num)
              (NoDup_seq 0 num) _ _ _ _ _ _
              ltac:(intros tid Hin; apply elem_of_seq in Hin;
                    apply lookup_lt_is_Some; lia) Hon)
    as (Hdone & Hlen & _ & _).
  split; [by rewrite Hlen, length_replicate|].
  intros tid d Htd. apply Hdone; [|done].
  apply elem_of_seq. apply lookup_lt_Some in Htd. lia.
Qed.

Lemma loaded_nodes (i : nat) q :
  nodes g !! i = Some (Some q) → (i < length ns)%nat → ns !! i = Some q.
Proof.
  intros Hq Hi. unfold node_list in Hns. apply mapM_Some in Hns.
  destruct (lookup_lt_is_Some_2 ns i Hi) as [q' Hq'].
  destruct (Forall2_lookup_r _ _ _ _ _ Hns Hq') as (k & Hk & Hat).
  apply lookup_seqZ in Hk as [-> _].
  unfold node_at in Hat. rewrite Z.add_0_l, aget_nat, Hq in Hat.
  simpl in Hat. congruence.
Qed.

End loaded.
End LocalIteratorFacts.

Module LocalWalkFacts.
Import Runtime GraphFacts LayoutMemberFacts LayoutLoadFacts NumaLoadFacts.
Import TilesFacts LocalChainFacts LocalLoadFacts LocalIteratorFacts.
Import LinearLayout Placement LC_Numa_Graph Distribution LocalChain.
Import LC_Numa_Graph_members.
Local Open Scope Z_scope.

Section walk.
Context {NodeTy EdgeTy : Type} (SN SE SH : Z) (dflt : NodeTy).
Context (graph : FileGraph.t EdgeTy) (Hwf : FileGraph.wf graph).
Context (HSN : 0 < SN) (HSE : 0 < SE).
Local Abbreviation a := (FileGraph.adj graph).
Context (ds : list DistributeInfo) (num : nat).
Context (Htiles : tiles a ds 0 (length a)) (Hds : length ds = num).
Context (g : t NodeTy EdgeTy) (ns : list (nat * Z)).
Context (Hlen : length (headers g) = num).
Context (Hlaid : ∀ tid d, ds !! tid = Some d →
                   laid_out SN SE SH a (headers g) (nodes g) tid d).
Context (Hlenns : length ns = length a).
Context (HnumN : numNodes g = FileGraph.size graph).
Context (Hcells : node_cells dflt a (mem g) ns).
Context (Hload : ∀ (i : nat) q, nodes g !! i = Some (Some q) →
                   (i < length ns)%nat → ns !! i = Some q).

Lemma next_placed i p nb :
  ns !! i = Some p → a !! i = Some nb →
  next SN SE (mem g) p = Some (next_of SN SE p nb).
Proof.
  intros Hp Hnb. unfold next.
  by rewrite (placed_edgeEnd SN SE dflt graph ns (mem g) Hcells i p nb Hp Hnb).
Qed.

Lemma header_of tid d :
  ds !! tid = Some d →
  ∃ size, headers g !! tid
          = Some (Some (mkHeader (tid, SH)
                          (chain_end SN SE (tid, SH) (thread_nbs a d))
                          size)).
Proof. intros Hd. by destruct (Hlaid tid d Hd) as [? _]. Qed.

Lemma init_thread_in tid :
  (tid < num)%nat →
  init_thread g tid = Some (true, mkIt tid (Some tid) (Some (tid, SH))).
Proof.
  intros Ht. destruct (lookup_lt_is_Some_2 ds tid ltac:(lia)) as [d Hd].
  destruct (header_of tid d Hd) as [size Hh].
  unfold init_thread, header_ptr, header_at.
  rewrite decide_True by lia. rewrite Hh. simpl. by rewrite Hh.
Qed.

Lemma init_thread_out tid :
  (num ≤ tid)%nat →
  init_thread g tid = Some (false, mkIt tid None None).
Proof.
  intros Ht. unfold init_thread. by rewrite decide_False by lia.
Qed.

Lemma local_iterator_new_in tid :
  (tid < num)%nat →
  local_iterator_new g tid = Some (mkIt tid (Some tid) (Some (tid, SH))).
Proof.
  intros Ht. unfold local_iterator_new. by rewrite init_thread_in.
Qed.

Lemma local_iterator_new_out :
  local_iterator_new g num = Some (mkIt num None None).
Proof.
  unfold local_iterator_new. rewrite init_thread_out by lia. simpl.
  unfold advance_thread. simpl. rewrite Hlen, Nat.sub_diag. simpl.
  by rewrite decide_False by lia.
Qed.

Lemma local_end_tid tid :
  (tid < num)%nat →
  ∃ e, local_end g tid = Some e ∧ it_tid e = S tid.
Proof.
  intros Ht. unfold local_end. destruct (decide (S tid < num)%nat).
  - rewrite local_iterator_new_in by done. by eexists.
  - replace (S tid) with num by lia. rewrite local_iterator_new_out.
    by eexists.
Qed.

Lemma advance_thread_next tid p v :
  (tid < num)%nat →
  advance_thread g (mkIt tid p v) = local_end g tid.
Proof.
  intros Ht. unfold advance_thread, local_end. simpl.
  rewrite Hlen. replace (num - tid)%nat with (S (num - S tid)) by lia.
  simpl. rewrite decide_True by lia.
  destruct (decide (S tid < num)%nat).
  - rewrite init_thread_in by done. simpl.
    by rewrite local_iterator_new_in.
  - replace (S tid) with num by lia.
    rewrite init_thread_out by lia. simpl.
    rewrite local_iterator_new_out.
    destruct (num - num)%nat; simpl; by rewrite decide_False by lia.
Qed.

Section thread.
Context (tid : nat) (d : DistributeInfo) (Hd : ds !! tid = Some d).
Context (Hn : d_numNodes d ≠ 0).
Local Abbreviation nbs := (thread_nbs a d).
Local Abbreviation ch := (chain SN SE (tid, SH) nbs).

Lemma thread_range :
  ∃ b e : nat, (b < e ≤ length a)%nat
    ∧ d_begin d = Z.of_nat b ∧ d_end d = Z.of_nat e
    ∧ d_numNodes d = Z.of_nat (e - b)
    ∧ nbs = take (e - b) (drop b a).
Proof.
  destruct (tiles_entry graph ds _ _ tid d Htiles Hd Hn)
    as (b & e & ? & ? & Hb & He & Hnn & _).
  exists b, e. repeat split; try (done || lia).
  unfold thread_nbs. rewrite decide_False by done.
  rewrite Hb, He, Nat2Z.id. f_equal. lia.
Qed.

Lemma chain_in_ns (j : nat) q :
  ch !! j = Some q →
  ns !! (Z.to_nat (d_begin d) + j)%nat = Some q
  ∧ a !! (Z.to_nat (d_begin d) + j)%nat = nbs !! j.
Proof.
  intros Hq. destruct thread_range as (b & e & Hbe & Hb & He & _ & Hnbs).
  pose proof (lookup_lt_Some _ _ _ Hq) as Hj.
  rewrite chain_length, Hnbs, length_take, length_drop in Hj.
  destruct (Hlaid tid d Hd) as [_ Hch].
  split.
  - apply Hload; [by apply Hch|]. rewrite Hb, Nat2Z.id. lia.
  - rewrite Hnbs, Hb, Nat2Z.id, lookup_take_lt, lookup_drop by lia. done.
Qed.

Lemma visit_chain (e_it : local_iterator) :
  local_end g tid = Some e_it →
  ∀ (fuel j : nat) q,
    ch !! j = Some q → (length nbs - j ≤ fuel)%nat →
    visit SN SE g fuel (mkIt tid (Some tid) (Some q)) e_it
    = Some (Some <$> drop j ch).
Proof.
  intros He.
  assert (Htid : (tid < num)%nat) by (apply lookup_lt_Some in Hd; lia).
  destruct (local_end_tid tid Htid) as (e' & He' & Htid').
  assert (e' = e_it) as -> by congruence.
  destruct (header_of tid d Hd) as [size Hh].
  induction fuel as [|fuel IH]; intros j q Hq Hf.
  { apply lookup_lt_Some in Hq. rewrite chain_length in Hq. lia. }
  cbn [visit]. rewrite decide_False.
  2:{ intros Heq. rewrite <- Heq in Htid'. simpl in Htid'. lia. }
  destruct (chain_in_ns j q Hq) as [Hnsq Haq].
  destruct (nbs !! j) as [nb|] eqn:Hnb.
  2:{ apply lookup_ge_None in Hnb. apply lookup_lt_Some in Hq.
      rewrite chain_length in Hq. lia. }
  unfold advance, advance_local. cbn [it_p it_v it_tid].
  cbn [mbind option_bind].
  rewrite (next_placed _ q nb Hnsq Haq). cbn [mbind option_bind].
  unfold header_at. rewrite Hh. cbn [mjoin option_join mbind option_bind h_end].
  pose proof (chain_next SN SE nbs (tid, SH) j q nb Hq Hnb) as Hnext.
  rewrite (drop_S _ _ _ Hq), fmap_cons.
  case_decide as HS.
  - destruct (chain_lt SN SE HSN HSE nbs _ _ _ Hnext) as (_ & _ & Hlt).
    rewrite bool_decide_true.
    2:{ intros Heq. rewrite Heq in Hlt. lia. }
    cbn [mbind option_bind]. rewrite (IH (S j) _ Hnext) by lia. done.
  - rewrite bool_decide_false by (intros Hne; by apply Hne).
    rewrite advance_thread_next by done. rewrite He.
    cbn [mbind option_bind].
    destruct fuel; cbn [visit]; rewrite decide_True by done;
      cbn [mbind option_bind]; rewrite drop_ge; try done;
      rewrite chain_length; lia.
Qed.

Lemma local_nodes_spec :
  local_nodes SN SE g tid
  = Some (Some <$> take (Z.to_nat (d_numNodes d))
                        (drop (Z.to_nat (d_begin d)) ns)).
Proof.
  assert (Htid : (tid < num)%nat) by (apply lookup_lt_Some in Hd; lia).
  destruct (local_end_tid tid Htid) as (e_it & He & _).
  destruct thread_range as (b & e & Hbe & Hb & Hee & Hnn & Hnbs).
  unfold local_nodes, local_begin.
  rewrite local_iterator_new_in by done. rewrite He.
  cbn [mbind option_bind].
  assert (Hlch : length ch = (e - b)%nat).
  { rewrite chain_length, Hnbs, length_take, length_drop. lia. }
  assert (H0 : ch !! 0%nat = Some (tid, SH)).
  { destruct nbs as [|nb0 nbs0] eqn:E; [|done].
    rewrite chain_length in Hlch. simpl in Hlch. lia. }
  rewrite (visit_chain e_it He _ 0 _ H0).
  2:{ rewrite <- (chain_length SN SE nbs (tid, SH)), Hlch.
      rewrite HnumN. unfold FileGraph.size. lia. }
  rewrite drop_0. do 2 f_equal. apply list_eq. intros j.
  rewrite Hnn, Hb, !Nat2Z.id.
  destruct (decide (j < e - b)%nat) as [Hj|Hj].
  - rewrite lookup_take_lt, lookup_drop by done.
    destruct (lookup_lt_is_Some_2 ch j ltac:(lia)) as [q Hq].
    rewrite Hq. destruct (chain_in_ns j q Hq) as [Hq' _].
    by rewrite Hb, Nat2Z.id in Hq'.
  - rewrite lookup_take_ge by lia. apply lookup_ge_None. lia.
Qed.

End thread.
End walk.
End LocalWalkFacts.

Module LockFacts.
Import LockManagerBase OrdLocBase NhoodMgrBase Progress.
Import MapBasedNhoodMgr MapFacts.

Lemma reading_elem (s : State) t :
  t ∈ reading s ↔ ∃ pc, pcs s !! t = Some pc ∧ in_read pc = true.
Proof.
  unfold reading. rewrite elem_of_dom. split.
  - intros [pc Hpc]. apply map_lookup_filter_Some in Hpc as [? ?]. by exists pc.
  - intros (pc & ? & ?). exists pc. by apply map_lookup_filter_Some.
Qed.

Lemma reading_goto t pc' m (s : State) :
  reading (goto t pc' m s)
  = if in_read pc' then {[t]} ∪ reading s else reading s ∖ {[t]}.
Proof.
  unfold reading, goto. simpl. destruct (in_read pc') eqn:Hr.
  - rewrite map_filter_insert_True by done. by rewrite dom_insert_L.
  - rewrite map_filter_insert_False by (simpl; congruence).
    by rewrite map_filter_delete, dom_delete_L.
Qed.

Lemma reading_same t pc pc' m (s : State) :
  pcs s !! t = Some pc → in_read pc' = in_read pc →
  reading (goto t pc' m s) = reading s.
Proof.
  intros Hpc Heq. rewrite reading_goto, Heq.
  destruct (in_read pc) eqn:Hr.
  - assert (t ∈ reading s) by (apply reading_elem; eauto). set_solver.
  - assert (t ∉ reading s).
    { rewrite reading_elem. intros (pc0 & H0 & H1). congruence. }
    set_solver.
Qed.

Lemma reading_enter t pc pc' m (s : State) :
  pcs s !! t = Some pc → in_read pc = false → in_read pc' = true →
  size (reading (goto t pc' m s)) = S (size (reading s)).
Proof.
  intros Hpc Hr Hr'. rewrite reading_goto, Hr'.
  assert (t ∉ reading s).
  { rewrite reading_elem. intros (pc0 & H0 & H1). congruence. }
  rewrite size_union by set_solver. by rewrite size_singleton.
Qed.

Lemma reading_leave t pc pc' m (s : State) :
  pcs s !! t = Some pc → in_read pc = true → in_read pc' = false →
  size (reading (goto t pc' m s)) = pred (size (reading s)).
Proof.
  intros Hpc Hr Hr'. rewrite reading_goto, Hr'.
  assert (t ∈ reading s) by (apply reading_elem; eauto).
  rewrite size_difference by set_solver. rewrite size_singleton. lia.
Qed.

Lemma writer_kept t pc pc' (s : State) :
  pcs s !! t = Some pc →
  (in_write pc = true → in_write pc' = true) →
  (∃ t0 pc0, pcs s !! t0 = Some pc0 ∧ in_write pc0 = true) →
  ∃ t0 pc0, <[t := pc']> (pcs s) !! t0 = Some pc0 ∧ in_write pc0 = true.
Proof.
  intros Hpc Himp (t0 & pc0 & H0 & Hw). simpl.
  destruct (decide (t0 = t)) as [->|Hne].
  - exists t, pc'. rewrite lookup_insert_eq. split; [done|].
    apply Himp. congruence.
  - exists t0, pc0. by rewrite lookup_insert_ne.
Qed.

Lemma lock_init_inv : LockInv init.
Proof.
  split; simpl; [|done]. unfold reading. simpl.
  by rewrite map_filter_empty, dom_empty_L, size_empty.
Qed.

Lemma lock_step_inv t pc s s' :
  LockInv s → pcs s !! t = Some pc → step t pc s = Some s' → LockInv s'.
Proof.
  intros [Hr Hw] Hpc Hstep.
  destruct pc; simpl in Hstep; simplify_option_eq.
  all: repeat match goal with
       | H : context [nhoodMap _ !! ?l] |- _ =>
           destruct (nhoodMap _ !! l); simplify_eq
       | H : context [factory_create ?l ?b] |- _ =>
           destruct (factory_create l b); simplify_eq
       | H : match ?i with Some _ => _ | None => _ end = Some _ |- _ =>
           destruct i; simplify_eq
       end.
  all: try (split; simpl;
            [ erewrite reading_same by (done || done); exact Hr
            | intros Hw'; eapply writer_kept; [done|done|by apply Hw] ]).
  all: try (unfold readLock in *; destruct (writer _) eqn:Hwr; simplify_eq;
            split; simpl;
            [ erewrite reading_enter by done; by rewrite Hr | done ]).
  all: try (split; simpl;
            [ erewrite reading_leave by done; by rewrite Hr
            | intros Hw'; eapply writer_kept; [done|done|by apply Hw] ]).
  - unfold writeLock in *. destruct (writer _) eqn:Hwr; simplify_eq.
    destruct (readers _) eqn:Hrd; simplify_eq.
    split; simpl.
    + erewrite reading_same by done. by rewrite <- Hr.
    + intros _. eexists t, _. by rewrite lookup_insert_eq.
  - split; simpl.
    + unfold reading. simpl. rewrite map_filter_delete, dom_delete_L.
      rewrite Hr. f_equal.
      assert (t ∉ reading s).
      { rewrite reading_elem. intros (pc0 & H0 & H1). by simplify_eq. }
      unfold reading in *. set_solver.
    + intros Hw'. destruct (Hw Hw') as (t0 & pc0 & H0 & Hi).
      exists t0, pc0. split; [|done]. rewrite lookup_delete_ne; [done|].
      intros ->. by simplify_eq.
Qed.

Lemma lock_exec_inv e s s' : LockInv s → exec e s = Some s' → LockInv s'.
Proof.
  intros HI He. destruct e as [t l|t]; simpl in He.
  - destruct (pcs s !! t) eqn:Hpc; [done|]. injection He as <-.
    destruct HI as [Hr Hw]. split; simpl.
    + rewrite reading_goto. simpl.
      assert (t ∉ reading s).
      { rewrite reading_elem. intros (pc0 & H0 & H1). congruence. }
      rewrite Hr. f_equal. set_solver.
    + intros Hw'. destruct (Hw Hw') as (t0 & pc0 & H0 & Hi).
      exists t0, pc0. split; [|done]. rewrite lookup_insert_ne; [done|].
      intros ->. congruence.
  - destruct (pcs s !! t) as [pc|] eqn:Hpc; [|done]. simpl in He.
    by eapply lock_step_inv.
Qed.

Lemma lock_run_inv sched : ∀ s s',
  LockInv s → run sched s = Some s' → LockInv s'.
Proof.
  induction sched as [|e sched IH]; intros s s' HI Hrun; simpl in Hrun.
  - by injection Hrun as <-.
  - destruct (exec e s) as [s1|] eqn:He; [|done]. simpl in Hrun.
    eapply IH; [|done]. by eapply lock_exec_inv.
Qed.

Lemma lock_reachable_inv sched s : run sched init = Some s → LockInv s.
Proof. apply lock_run_inv, lock_init_inv. Qed.

End LockFacts.

Module LinearSortFacts.
Import Runtime GraphFacts LayoutMemberFacts LayoutLoadFacts.
Import LinearLayout Placement LinearLayout_members LC_Linear_Graph_sort.
Local Open Scope Z_scope.

Section write.
Context {NodeTy EdgeTy : Type} (SE : Z) (HSE : 0 < SE).

Lemma write_edges_spec (es : list ((nat * Z) * EdgeTy)) :
  ∀ (s : Z) (b : Z) ar (m : Mem NodeTy EdgeTy) size,
  extent m !! ar = Some size → 0 ≤ s → 0 ≤ b →
  b + (s + Z.of_nat (length es)) * SE ≤ size →
  ∃ m', write_edges SE ((λ k, (ar, b + k * SE))
                          <$> seqZ s (Z.of_nat (length es))) es m = Some m'
    ∧ extent m' = extent m
    ∧ (∀ q, q.1 ≠ ar ∨ q.2 < b + s * SE
            ∨ b + (s + Z.of_nat (length es)) * SE ≤ q.2 →
         cells m' !! q = cells m !! q)
    ∧ (∀ (j : nat) e, es !! j = Some e →
         cells m' !! (ar, b + (s + Z.of_nat j) * SE)
         = Some (EdgeCell e.1 (Some e.2))).
Proof.
  induction es as [|e es IH]; intros s b ar m size Hext Hs Hb Hsz.
  - exists m. simpl. repeat split; done.
  - cbn [length]. rewrite Nat2Z.inj_succ, seqZ_cons by lia.
    rewrite fmap_cons. cbn [write_edges].
    unfold store at 1. cbn [fst snd]. rewrite Hext. simpl.
    rewrite decide_True by (simpl in Hsz; nia).
    replace (Z.pred (Z.succ (Z.of_nat (length es))))
      with (Z.of_nat (length es)) by lia.
    destruct (IH (Z.succ s) b ar
                (mkMem (<[(ar, b + s * SE) := EdgeCell e.1 (Some e.2)]>
                          (cells m)) (extent m)) size)
      as (m' & Hw & Hext' & Hfr & Hc); try (done || lia).
    { simpl in Hsz. lia. }
    exists m'. split; [done|]. split; [done|]. split.
    + intros q Hq. rewrite Hfr by nia. simpl.
      apply lookup_insert_ne. intros <-. simpl in Hq. nia.
    + intros [|j] e' He'; simpl in He'.
      * injection He' as <-. rewrite Hfr by (simpl; nia). simpl.
        replace (s + Z.of_nat 0) with s by lia. apply lookup_insert_eq.
      * replace (s + Z.of_nat (S j)) with (Z.succ s + Z.of_nat j) by lia.
        by apply Hc.
Qed.

End write.

Section sort.
Context {NodeTy EdgeTy : Type} (SN SE : Z) (dflt : NodeTy).
Context (graph : FileGraph.t EdgeTy) (Hwf : FileGraph.wf graph).
Context (HSN : 0 < SN) (HSE : 0 < SE).
Local Abbreviation a := (FileGraph.adj graph).
Local Abbreviation n := (FileGraph.size graph).
Context (ps : list (nat * Z)) (Hlen : length ps = length a).
Context (m : Mem NodeTy EdgeTy).
Context (Hsep : separated SN SE a ps).
Context (Hfit : fits SN SE a (extent m) ps).
Context (Hnodes : node_cells dflt a m ps).
Context (Hedges : edge_cells SN SE a m ps (length a)).

Lemma resolve_fmap (nb : list (Z * EdgeTy)) :
  Forall (λ d, 0 ≤ d < n) nb.*1 →
  resolve ps nb = Some (resolve_one ps <$> nb).
Proof.
  unfold resolve. induction nb as [|[d w] nb IH]; intros Hd; [done|].
  apply Forall_cons in Hd as [Hd0 Hd]. simpl in Hd0.
  unfold FileGraph.size in Hd0. cbn [mapM].
  rewrite (IH Hd). simpl. unfold aget. rewrite decide_True by lia.
  destruct (ps !! Z.to_nat d) as [q|] eqn:Hq.
  - simpl. unfold resolve_one. simpl. by rewrite Hq.
  - apply lookup_ge_None in Hq. lia.
Qed.

Lemma sort_range_spec (i : nat) p nb
    (less : (nat * Z) * EdgeTy → (nat * Z) * EdgeTy → bool) :
  ps !! i = Some p → a !! i = Some nb →
  ∃ m' nb',
    sort_range SN SE m p less = Some m' ∧
    nb' ≡ₚ nb ∧
    LC_CSR_Graph.std_sort less (resolve_one ps <$> nb)
      = resolve_one ps <$> nb' ∧
    extent m' = extent m ∧
    node_cells dflt (FileGraph.adj (reordered graph i nb')) m' ps ∧
    edge_cells SN SE (FileGraph.adj (reordered graph i nb')) m' ps
      (length a).
Proof.
  intros Hp Hnb.
  pose proof (wf_dsts graph Hwf i nb Hnb) as Hd.
  pose proof (resolve_fmap nb Hd) as Hr.
  set (es := resolve_one ps <$> nb) in *.
  set (es' := LC_CSR_Graph.std_sort less es).
  assert (Hperm : es' ≡ₚ es) by apply std_sort_perm.
  destruct (Permutation_map_inv _ _ Hperm) as (nb' & Hes' & Hnb').
  assert (Hl' : length es' = length nb).
  { rewrite (Permutation_length Hperm). subst es. by rewrite length_fmap. }
  destruct (Hfit i p nb Hp Hnb) as (size & Hsz & Hp0 & Hpe).
  unfold span in Hpe.
  destruct (write_edges_spec SE HSE es' 0 (p.2 + SN) p.1 m size)
    as (m' & Hw & Hext & Hfr & Hc); try (done || lia).
  exists m', nb'. unfold sort_range.
  rewrite (placed_edgeEnd SN SE dflt graph ps m Hnodes i p nb Hp Hnb).
  cbn [mbind option_bind].
  rewrite (placed_edge_range SN SE graph HSE ps Hlen p nb).
  cbn [mbind option_bind].
  pose proof (placed_cells SN SE graph ps Hlen m Hedges i p nb es Hp Hnb Hr)
    as Hcells.
  unfold edge_at at 1.
  rewrite Hcells. cbn [mbind option_bind].
  fold es'. rewrite Hl' in Hw. split; [exact Hw|].
  split; [by symmetry|]. split; [by rewrite Hes'|]. split; [done|].
  assert (Hln : length nb' = length nb) by (by rewrite <- Hnb').
  assert (Hframe_node : ∀ i' p' nb0, ps !! i' = Some p' →
            a !! i' = Some nb0 → cells m' !! p' = cells m !! p').
  { intros i' p' nb0 Hp' Hnb0. apply Hfr.
    destruct (decide (i' = i)) as [->|Hne].
    - assert (p' = p) as -> by congruence. right. left. lia.
    - destruct (Hsep i' i p' p nb0 nb Hne Hp' Hp Hnb0 Hnb) as [?|[?|?]];
        unfold span in *; [by left|right; left; nia|right; right; nia]. }
  split.
  - intros i' p' nb0 Hp' Hnb0. simpl in Hnb0.
    destruct (decide (i' = i)) as [->|Hne].
    + rewrite list_lookup_insert_eq in Hnb0 by (by eapply lookup_lt_Some).
      injection Hnb0 as <-. rewrite (Hframe_node i p' nb Hp' Hnb).
      rewrite Hln. exact (Hnodes i p' nb Hp' Hnb).
    + rewrite list_lookup_insert_ne in Hnb0 by done.
      rewrite (Hframe_node i' p' nb0 Hp' Hnb0).
      exact (Hnodes i' p' nb0 Hp' Hnb0).
  - intros i' p' nb0 j d w Hi' Hp' Hnb0 Hj. simpl in Hnb0.
    destruct (decide (i' = i)) as [->|Hne].
    + rewrite list_lookup_insert_eq in Hnb0 by (by eapply lookup_lt_Some).
      injection Hnb0 as <-. assert (p' = p) as -> by congruence.
      assert (Hdv : 0 ≤ d < n).
      { assert (Hin : d ∈ nb.*1).
        { rewrite Hnb'. apply list_elem_of_fmap. exists (d, w).
          split; [done|]. by eapply list_elem_of_lookup_2. }
        rewrite Forall_forall in Hd. by apply Hd. }
      destruct (lookup_lt_is_Some_2 ps (Z.to_nat d)) as [pd Hpd].
      { unfold FileGraph.size in Hdv. lia. }
      exists pd. split; [done|].
      assert (He' : es' !! j = Some (pd, w)).
      { rewrite Hes'. change (map (resolve_one ps) nb')
          with (resolve_one ps <$> nb').
        rewrite list_lookup_fmap, Hj. simpl. unfold resolve_one. simpl.
        by rewrite Hpd. }
      specialize (Hc j _ He'). simpl in Hc.
      replace (p.2 + SN + Z.of_nat j * SE)
        with (p.2 + SN + (0 + Z.of_nat j) * SE) by lia.
      exact Hc.
    + rewrite list_lookup_insert_ne in Hnb0 by done.
      destruct (Hedges i' p' nb0 j d w Hi' Hp' Hnb0 Hj) as (pd & Hpd & Hcell).
      exists pd. split; [done|]. rewrite Hfr; [done|]. simpl.
      pose proof (lookup_lt_Some _ _ _ Hj) as Hjl.
      destruct (Hsep i' i p' p nb0 nb Hne Hp' Hp Hnb0 Hnb) as [?|[?|?]];
        unfold span in *; [by left|right; left; nia|right; right; nia].
Qed.

End sort.
End LinearSortFacts.

(* ===================================================================== *)
(** * LC_CSR_Graph: further results *)
(* ===================================================================== *)

Section CSRMemberResults.
Import Runtime GraphFacts GraphMemberFacts LC_CSR_Graph LC_CSR_Graph_members.
Local Open Scope Z_scope.

(** X1.  On a loaded [LC_CSR_Graph], [getEdgeData] over the edges of
    [out_edges (n)] returns, whatever its flag, the payloads of the edges of
    [n] in the structural graph, in the same order, and acquires no
    record. *)
Theorem LC_CSR_getEdgeData_range {NodeTy EdgeTy} (dflt : NodeTy)
    (graph : FileGraph.t EdgeTy) (n : Z) (mflag : MethodFlag) :
  FileGraph.wf graph → 0 ≤ n < FileGraph.size graph →
  ∃ es,
    runM (out_edges (structureFromGraph dflt graph) n NONE) = Some (es, []) ∧
    runM (edge_payloads (structureFromGraph dflt graph) es mflag)
      = Some ((FileGraph.neighbor_edges graph n).*2, []).
Proof.
  intros Hwf Hn. eexists. split.
  - by rewrite loaded_out_edges.
  - apply edge_payloads_spec. by apply loaded_getEdgeData.
Qed.

(** X2.  On a loaded [LC_CSR_Graph] the edge ranges of the nodes, taken from
    [begin ()] to [end ()], follow one another without gap or overlap: put
    end to end they are the edge numbers 0, 1, ... up to [sizeEdges ()]. *)
Theorem LC_CSR_edge_ranges_tile {NodeTy EdgeTy} (dflt : NodeTy)
    (graph : FileGraph.t EdgeTy) :
  FileGraph.wf graph →
  ∃ ranges,
    all_out_edges (structureFromGraph dflt graph) = Some ranges ∧
    Z.of_nat (length ranges) = size (structureFromGraph dflt graph) ∧
    concat ranges = seqZ 0 (sizeEdges (structureFromGraph dflt graph)).
Proof.
  intros Hwf. eexists. split; [by apply loaded_all_out_edges|]. split.
  - rewrite length_fmap, length_seq. done.
  - rewrite ranges_concat by done. by rewrite before_all.
Qed.

(** X3.  The accessors of [LC_CSR_Graph] do not check the node they are
    given: for a number that is not a node of the loaded graph,
    [edge_end], [getData] and [hasNeighbor] read outside the arrays,
    under every conflict policy. *)
Theorem LC_CSR_node_out_of_range {NodeTy EdgeTy} (dflt : NodeTy)
    (graph : FileGraph.t EdgeTy) (N dst : Z) (mflag : MethodFlag) :
  ¬ (0 ≤ N < FileGraph.size graph) →
  runM (edge_end (structureFromGraph dflt graph) N mflag) = None ∧
  runM (getData (structureFromGraph dflt graph) N mflag) = None ∧
  runM (hasNeighbor (structureFromGraph dflt graph) N dst mflag) = None.
Proof.
  intros HN. pose proof (loaded_out_of_range dflt graph N HN) as He.
  assert (Hlen : Z.of_nat (length (nodeData (structureFromGraph dflt graph)))
                 = FileGraph.size graph).
  { simpl. rewrite length_replicate. unfold FileGraph.size. lia. }
  assert (Hd : aget (nodeData (structureFromGraph dflt graph)) N = None).
  { unfold aget. case_decide; [|done]. apply lookup_ge_None. lia. }
  split; [|split].
  - unfold edge_end, acquire_node. rewrite Hlen, He.
    destruct (acquires mflag); [rewrite decide_False by done|]; done.
  - unfold getData, acquire_node, checkWrite. rewrite Hlen, Hd.
    destruct (acquires mflag); [rewrite decide_False by done|]; done.
  - unfold hasNeighbor, getEdgeIdx. rewrite He.
    by destruct (raw_neighbor_begin _ N).
Qed.

(** X4.  [sortEdgesByEdgeData (n)] on a loaded [LC_CSR_Graph] changes
    neither the counts, nor the edge range of any node, nor the answer of
    [hasNeighbor] for any pair of nodes. *)
Theorem LC_CSR_sort_keeps_structure {NodeTy EdgeTy} (dflt : NodeTy)
    (graph : FileGraph.t EdgeTy) (n : Z) (comp : EdgeTy → EdgeTy → bool)
    (mflag : MethodFlag) :
  FileGraph.wf graph → 0 ≤ n < FileGraph.size graph →
  ∃ g' tr,
    runM (sortEdgesByEdgeData (structureFromGraph dflt graph) n comp mflag)
      = Some (g', tr) ∧
    size g' = size (structureFromGraph dflt graph) ∧
    sizeEdges g' = sizeEdges (structureFromGraph dflt graph) ∧
    (∀ src, runM (out_edges g' src NONE)
            = runM (out_edges (structureFromGraph dflt graph) src NONE)) ∧
    ∀ src dst mf, 0 ≤ src < FileGraph.size graph →
      runM (hasNeighbor g' src dst mf)
      = runM (hasNeighbor (structureFromGraph dflt graph) src dst mf).
Proof.
  intros Hwf Hn.
  destruct (loaded_node_Z graph n Hn) as (k & Hnk & Hk).
  set (nb := FileGraph.neighbor_edges graph n) in *.
  set (nb' := std_sort (EdgeSortCompWrapper comp) nb).
  assert (Hp : nb' ≡ₚ nb) by apply std_sort_perm.
  assert (Hk' : Z.to_nat n = k) by lia.
  pose proof (reordered_wf graph Hwf k nb nb' Hk Hp) as Hwf'.
  assert (Hsz : FileGraph.size (reordered graph k nb') = FileGraph.size graph).
  { unfold FileGraph.size, reordered. simpl. by rewrite length_insert. }
  eexists _, _. split; [by apply loaded_sort|].
  fold nb nb'. rewrite Hk'.
  rewrite (reordered_load dflt graph k nb nb' Hk) by (by rewrite Hp).
  split; [done|]. split; [done|]. split.
  - intros src. by apply out_edges_none_indices.
  - intros src dst mf Hsrc.
    rewrite <- (reordered_load dflt graph k nb nb' Hk) by (by rewrite Hp).
    destruct (loaded_hasNeighbor dflt graph Hwf src dst mf Hsrc)
      as (i1 & _ & -> & H1).
    destruct (loaded_hasNeighbor dflt (reordered graph k nb') Hwf' src dst mf)
      as (i2 & _ & -> & H2); [by rewrite Hsz|].
    pose proof (reordered_neighbors graph k nb nb' src Hk Hp dst) as Hiff.
    do 2 f_equal. apply bool_decide_ext.
    destruct H1 as [[-> ?]|(_ & ? & _ & ?)], H2 as [[-> ?]|(_ & ? & _ & ?)];
      naive_solver.
Qed.

(** X5.  After [sortEdges (n, comp)] on a loaded [LC_CSR_Graph] the edges
    of [n] are a permutation of the (destination, payload) pairs that [n]
    had, in the order of [comp] when [comp] is asymmetric; the edges of
    every other node are as before.  The only record taken is the one of
    [n]. *)
Theorem LC_CSR_sortEdges {NodeTy EdgeTy} (dflt : NodeTy)
    (graph : FileGraph.t EdgeTy) (n : Z)
    (comp : Z * EdgeTy → Z * EdgeTy → bool) (mflag : MethodFlag) :
  FileGraph.wf graph → 0 ≤ n < FileGraph.size graph →
  ∃ g' es,
    runM (sortEdges (structureFromGraph dflt graph) n comp mflag)
      = Some (g', node_trace mflag [n]) ∧
    runM (edges_of g' n NONE) = Some (es, []) ∧
    es ≡ₚ FileGraph.neighbor_edges graph n ∧
    ((∀ x y, comp x y = true → comp y x = false) →
     Sorted (not_after comp) es) ∧
    ∀ m, 0 ≤ m < FileGraph.size graph → m ≠ n →
      runM (edges_of g' m NONE)
        = Some (FileGraph.neighbor_edges graph m, []).
Proof.
  intros Hwf Hn.
  destruct (loaded_node_Z graph n Hn) as (k & Hnk & Hk).
  set (nb := FileGraph.neighbor_edges graph n) in *.
  set (nb' := std_sort comp nb).
  assert (Hp : nb' ≡ₚ nb) by apply std_sort_perm.
  assert (Hk' : Z.to_nat n = k) by lia.
  pose proof (reordered_wf graph Hwf k nb nb' Hk Hp) as Hwf'.
  assert (Hsz : FileGraph.size (reordered graph k nb') = FileGraph.size graph).
  { unfold FileGraph.size, reordered. simpl. by rewrite length_insert. }
  eexists _, nb'. split; [by apply loaded_sortEdges|].
  fold nb nb'. rewrite Hk'.
  split; [|split; [done|split]].
  - rewrite loaded_edges_of by (by rewrite ?Hsz). simpl. f_equal. f_equal.
    unfold FileGraph.neighbor_edges, reordered. simpl. subst n.
    rewrite aget_nat, list_lookup_insert_eq by (by eapply lookup_lt_Some).
    done.
  - intros Hasym. by apply std_sort_sorted.
  - intros m Hm Hne.
    rewrite loaded_edges_of by (by rewrite ?Hsz). simpl. f_equal. f_equal.
    unfold FileGraph.neighbor_edges, reordered, aget. simpl.
    rewrite !decide_True by lia.
    rewrite list_lookup_insert_ne by lia. done.
Qed.

End CSRMemberResults.

(* ===================================================================== *)
(** * LC_CSR_InOutGraph: the in-edges *)
(* ===================================================================== *)

Section InOutMemberResults.
Import Runtime GraphFacts GraphMemberFacts InOutFacts InOutGraphImpl.
Import LC_CSR_InOutGraph_members.
Local Open Scope Z_scope.

(** X6.  [structureFromGraph (graph, transpose)] with equal counts, of at
    most [2 ^ 32] edges, gives a graph whose in-edges are the edges of
    [transpose]: the edges from [in_edge_begin (n)] to [in_edge_end (n)],
    read by [getInEdgeDst] and [getInEdgeData], are the neighbours and
    payloads of [n] in [transpose], in order.  The bound is there because
    [getInEdgeData] takes the edge as a [uint32_t].  [in_edge_begin (n)]
    acquires nothing under the policy [none], [n] alone under [checkRace],
    and [n] followed by its in-neighbours under [checkRaceAndNeighbors]. *)
Theorem LC_CSR_InOutGraph_in_edges {NodeTy EdgeTy} (dflt : NodeTy)
    (graph transpose : FileGraph.t EdgeTy) (n : Z) (mflag : MethodFlag) :
  FileGraph.wf transpose →
  FileGraph.sizeEdges transpose ≤ UINT32_MAX + 1 →
  FileGraph.size graph = FileGraph.size transpose →
  FileGraph.sizeEdges graph = FileGraph.sizeEdges transpose →
  0 ≤ n < FileGraph.size transpose →
  ∃ g alloc,
    structureFromGraph dflt graph transpose = Loaded g alloc ∧
    super g = LC_CSR_Graph.structureFromGraph dflt graph ∧
    runM (in_edges_of g n NONE)
      = Some (FileGraph.neighbor_edges transpose n, []) ∧
    snd <$> runM (in_edge_begin g n mflag)
      = Some (match policy mflag with
              | none => []
              | checkRace => [n]
              | checkRaceAndNeighbors => n :: FileGraph.neighbors transpose n
              end).
Proof.
  intros Hwf H32 Hn He Hr. unfold structureFromGraph.
  rewrite !decide_False by (intros ?; done).
  eexists _, _. split; [done|]. split; [done|].
  pose proof (view_transposed dflt graph transpose Hn He) as Hv.
  split.
  - rewrite (in_edges_of_view _ _ n NONE _ _ Hv
               (loaded_out_edges dflt transpose Hwf n NONE Hr)
               (loaded_edges_small transpose n H32 Hr)).
    by rewrite loaded_edges_of.
  - rewrite (in_edge_begin_view _ _ n mflag Hv).
    rewrite loaded_edge_begin by done. simpl.
    unfold node_trace, acquires, shouldLock. by destruct (policy mflag).
Qed.

(** X7.  [structureFromGraph (graph, symmetric)] lays out the out-edges and
    then, when [symmetric] is false, aborts.  When [symmetric] is true no
    further array is allocated and the in-edges are the out-edges: for every
    node, edge and flag, [in_edge_begin], [in_edge_end] and [getInEdgeDst]
    behave as [edge_begin], [edge_end] and [getEdgeDst], and
    [getInEdgeData (ni)] behaves as [getEdgeData] at the edge [ni]
    converted to [uint32_t], [ni mod 2 ^ 32]. *)
Theorem LC_CSR_InOutGraph_symmetric {NodeTy EdgeTy} (dflt : NodeTy)
    (graph : FileGraph.t EdgeTy) :
  structureFromGraph_symmetric dflt graph false
    = Aborted (LC_CSR_InOutGraph.super_allocations graph) ∧
  ∃ g,
    structureFromGraph_symmetric dflt graph true
      = Loaded g (LC_CSR_InOutGraph.super_allocations graph) ∧
    super g = LC_CSR_Graph.structureFromGraph dflt graph ∧
    ∀ N ni mflag,
      runM (in_edge_begin g N mflag)
        = runM (LC_CSR_Graph.edge_begin (super g) N mflag) ∧
      runM (in_edge_end g N mflag)
        = runM (LC_CSR_Graph.edge_end (super g) N mflag) ∧
      getInEdgeDst g ni = LC_CSR_Graph.getEdgeDst (super g) ni ∧
      runM (getInEdgeData g ni mflag)
        = runM (LC_CSR_Graph.getEdgeData (super g) (u32 ni) mflag).
Proof.
  split; [done|]. eexists. split; [done|]. split; [done|].
  intros N ni mflag.
  pose proof (view_shared (LC_CSR_Graph.structureFromGraph dflt graph)
                [] [] []) as Hv.
  split; [by apply in_edge_begin_view|].
  split; [by apply in_edge_end_view|].
  split; [by apply in_getEdgeDst|by apply in_getInEdgeData].
Qed.

(** X8.  In a graph of at most [2 ^ 32] edges built by
    [structureFromGraph (graph, true)] the in-edges share the arrays of the
    out-edges: after [sortInEdgesByEdgeData (n)] the out-edges of [n], read
    through [edge_begin], [getEdgeDst] and the edge data, are the same
    sorted permutation of the edges of [n] as its in-edges, read through
    [in_edge_begin], [getInEdgeDst] and [getInEdgeData] (which takes the
    edge as a [uint32_t], hence the bound). *)
Theorem LC_CSR_InOutGraph_sort_shared {NodeTy EdgeTy} (dflt : NodeTy)
    (graph : FileGraph.t EdgeTy) (n : Z) (comp : EdgeTy → EdgeTy → bool)
    (mflag : MethodFlag) :
  FileGraph.wf graph → FileGraph.sizeEdges graph ≤ UINT32_MAX + 1 →
  0 ≤ n < FileGraph.size graph →
  ∃ g alloc g' es,
    structureFromGraph_symmetric dflt graph true = Loaded g alloc ∧
    runM (sortInEdgesByEdgeData g n comp mflag)
      = Some (g', node_trace mflag [n]) ∧
    runM (LC_CSR_Graph.edges_of (super g') n NONE) = Some (es, []) ∧
    runM (in_edges_of g' n NONE) = Some (es, []) ∧
    es ≡ₚ FileGraph.neighbor_edges graph n ∧
    ((∀ x y, comp x y = true → comp y x = false) →
     Sorted (LC_CSR_Graph.not_after (LC_CSR_Graph.EdgeSortCompWrapper comp))
            es).
Proof.
  intros Hwf H32 Hn.
  destruct (loaded_node_Z graph n Hn) as (k & Hnk & Hk).
  set (nb := FileGraph.neighbor_edges graph n) in *.
  set (nb' := LC_CSR_Graph.std_sort (LC_CSR_Graph.EdgeSortCompWrapper comp) nb).
  assert (Hp : nb' ≡ₚ nb) by apply std_sort_perm.
  assert (Hk' : Z.to_nat n = k) by lia.
  pose proof (reordered_wf graph Hwf k nb nb' Hk Hp) as Hwf'.
  assert (Hsz : FileGraph.size (reordered graph k nb') = FileGraph.size graph).
  { unfold FileGraph.size, reordered. simpl. by rewrite length_insert. }
  assert (Hnb' : FileGraph.neighbor_edges (reordered graph k nb') n = nb').
  { unfold FileGraph.neighbor_edges, reordered. simpl. subst n.
    by rewrite aget_nat, list_lookup_insert_eq by (by eapply lookup_lt_Some). }
  exists (mk (LC_CSR_Graph.structureFromGraph dflt graph)
             (mkInEdges [] [] [] OutEdges OutEdges OutEdges)).
  eexists _.
  exists (mk (LC_CSR_Graph.structureFromGraph dflt (reordered graph k nb'))
             (mkInEdges [] [] [] OutEdges OutEdges OutEdges)), nb'.
  split; [done|]. split.
  { rewrite sortIn_shared, loaded_sort by done.
    fold nb nb'. by rewrite Hk'. }
  cbn [super].
  split; [by rewrite loaded_edges_of, Hnb' by (by rewrite ?Hsz)|].
  split.
  { assert (Hn' : 0 ≤ n < FileGraph.size (reordered graph k nb'))
      by (by rewrite Hsz).
    assert (H32' : FileGraph.sizeEdges (reordered graph k nb')
                   ≤ UINT32_MAX + 1)
      by (by rewrite (reordered_sizeEdges graph k nb nb' Hk Hp)).
    rewrite (in_edges_of_view _ _ n NONE _ _ (view_shared _ _ _ _)
               (loaded_out_edges dflt _ Hwf' n NONE Hn')
               (loaded_edges_small _ n H32' Hn')).
    by rewrite loaded_edges_of, Hnb' by done. }
  split; [done|].
  intros Hasym. apply std_sort_sorted. intros [??] [??]. simpl.
  unfold LC_CSR_Graph.EdgeSortCompWrapper. simpl. apply Hasym.
Qed.


End InOutMemberResults.

(* ===================================================================== *)
(** * The linear layouts read back *)
(* ===================================================================== *)

Section LayoutMemberResults.
Import Runtime GraphFacts GraphMemberFacts LayoutMemberFacts.
Import LayoutLoadFacts NumaLoadFacts EdgeIdxFacts.
Import LinearLayout LinearLayout_members Placement Locality.
Local Open Scope Z_scope.

Lemma placed_read_back {NodeTy EdgeTy} (SN SE : Z) (dflt : NodeTy)
    (graph : FileGraph.t EdgeTy) (ps : list (nat * Z))
    (m : Mem NodeTy EdgeTy) :
  FileGraph.wf graph → 0 < SE →
  length ps = length (FileGraph.adj graph) →
  node_cells dflt (FileGraph.adj graph) m ps →
  edge_cells SN SE (FileGraph.adj graph) m ps
    (length (FileGraph.adj graph)) →
  ∀ i N nb mflag,
    ps !! i = Some N → FileGraph.adj graph !! i = Some nb →
    ∃ es, resolve ps nb = Some es ∧
          runM (edges_of SN SE m N mflag)
          = Some (es, edges_trace mflag N es.*1).
Proof.
  intros Hwf HSE Hlen Hn He i N nb mflag HN Hnb.
  destruct (placed_resolve graph ps Hlen nb (wf_dsts graph Hwf i nb Hnb))
    as (es & Hr & _).
  exists es. split; [done|].
  exact (placed_edges_of SN SE dflt graph HSE ps Hlen m Hn He
           i N nb es mflag HN Hnb Hr).
Qed.

(** X10.  Once [LC_Linear_Graph::structureFromGraph] has run, the nodes are
    as many distinct pointers as the file graph has nodes, and the edges
    from [edge_begin (N)] to [edge_end (N)] of the [i]-th node, read by
    [getEdgeDst] and [getEdgeData], are the edges of node [i] of the file
    graph in order, with their payloads, every destination id replaced by
    the pointer of that node.  The two calls acquire [N], the neighbours of
    [N] under [checkRaceAndNeighbors] only, and [N] again. *)
Theorem LC_Linear_Graph_edges_read_back {NodeTy EdgeTy} (SN SE : Z)
    (dflt : NodeTy) (graph : FileGraph.t EdgeTy) :
  FileGraph.wf graph → 0 < SN → 0 < SE →
  SN * FileGraph.size graph * 2 + SE * FileGraph.sizeEdges graph
    ≤ UINT64_MAX →
  ∃ lin ns,
    LC_Linear_Graph.structureFromGraph SN SE dflt graph = Some lin ∧
    LC_Linear_Graph.node_list lin = Some ns ∧
    length ns = length (FileGraph.adj graph) ∧ NoDup ns ∧
    ∀ i N nb mflag,
      ns !! i = Some N → FileGraph.adj graph !! i = Some nb →
      ∃ es, resolve ns nb = Some es ∧
            runM (edges_of SN SE (LC_Linear_Graph.data lin) N mflag)
            = Some (es, edges_trace mflag N es.*1).
Proof.
  intros Hwf HSN HSE Hsize.
  destruct (linear_loaded SN SE dflt graph Hwf HSN HSE Hsize)
    as (lin & ns & Hs & Hl & _ & _ & Hlen & Hsep & Hn & He & _).
  exists lin, ns. repeat split; try done.
  - exact (placed_NoDup SN SE graph HSN HSE ns Hlen Hsep).
  - exact (placed_read_back SN SE dflt graph ns _ Hwf HSE Hlen Hn He).
Qed.

(** X11.  [LC_Linear_Graph::structureFromGraph] puts every node in the one
    allocation, at an offset that is a multiple of [sizeof (NodeInfo)], and
    no two nodes overlap: one ends, with its edges, before the other
    begins. *)
Theorem LC_Linear_Graph_nodes_aligned {NodeTy EdgeTy} (SN SE : Z)
    (dflt : NodeTy) (graph : FileGraph.t EdgeTy) :
  FileGraph.wf graph → 0 < SN → 0 < SE →
  SN * FileGraph.size graph * 2 + SE * FileGraph.sizeEdges graph
    ≤ UINT64_MAX →
  ∃ lin ns,
    LC_Linear_Graph.structureFromGraph SN SE dflt graph = Some lin ∧
    LC_Linear_Graph.node_list lin = Some ns ∧
    (∀ i N, ns !! i = Some N → N.1 = 0%nat ∧ (SN | N.2)) ∧
    ∀ i i' N N' nb nb',
      i ≠ i' → ns !! i = Some N → ns !! i' = Some N' →
      FileGraph.adj graph !! i = Some nb →
      FileGraph.adj graph !! i' = Some nb' →
      N.2 + SN + Z.of_nat (length nb) * SE ≤ N'.2 ∨
      N'.2 + SN + Z.of_nat (length nb') * SE ≤ N.2.
Proof.
  intros Hwf HSN HSE Hsize.
  destruct (linear_loaded SN SE dflt graph Hwf HSN HSE Hsize)
    as (lin & ns & Hs & Hl & _ & _ & Hlen & Hsep & _ & _ & Hal).
  exists lin, ns. repeat split; try done; try (by eapply Hal).
  intros i i' N N' nb nb' Hii HN HN' Hnb Hnb'.
  destruct (Hsep i i' N N' nb nb' Hii HN HN' Hnb Hnb') as [H|H].
  - destruct (Hal _ _ HN) as [H0 _], (Hal _ _ HN') as [H0' _]. congruence.
  - unfold span in H. lia.
Qed.

(** X12.  On a loaded linear graph [getEdgeIdx (src, dst)] returns the
    first edge of [src] that leads to [dst]: the edge at position [j] of
    [src], where [j] is the least position with destination [dst].  When no
    edge of [src] leads to [dst] it returns the null pointer. *)
Theorem LC_Linear_Graph_getEdgeIdx {NodeTy EdgeTy} (SN SE : Z)
    (dflt : NodeTy) (graph : FileGraph.t EdgeTy) :
  FileGraph.wf graph → 0 < SN → 0 < SE →
  SN * FileGraph.size graph * 2 + SE * FileGraph.sizeEdges graph
    ≤ UINT64_MAX →
  ∃ lin ns,
    LC_Linear_Graph.structureFromGraph SN SE dflt graph = Some lin ∧
    LC_Linear_Graph.node_list lin = Some ns ∧
    ∀ i src nb dst,
      ns !! i = Some src → FileGraph.adj graph !! i = Some nb →
      ∃ es r,
        resolve ns nb = Some es ∧
        getEdgeIdx SN SE (LC_Linear_Graph.data lin) src dst = Some r ∧
        match r with
        | None => dst ∉ es.*1
        | Some e => ∃ j : nat,
            e = (src.1, src.2 + SN + Z.of_nat j * SE) ∧
            es.*1 !! j = Some dst ∧
            ∀ j', (j' < j)%nat → es.*1 !! j' ≠ Some dst
        end.
Proof.
  intros Hwf HSN HSE Hsize.
  destruct (linear_loaded SN SE dflt graph Hwf HSN HSE Hsize)
    as (lin & ns & Hs & Hl & _ & _ & Hlen & Hsep & Hn & He & _).
  exists lin, ns. repeat split; try done.
  intros i src nb dst Hsrc Hnb.
  destruct (placed_resolve graph ns Hlen nb (wf_dsts graph Hwf i nb Hnb))
    as (es & Hr & _).
  destruct (placed_getEdgeIdx SN SE dflt graph HSE ns Hlen _ Hn He
              i src nb es dst Hsrc Hnb Hr) as (r & Hg & Hres).
  by exists es, r.
Qed.

(** X13.  Once [LC_Numa_Graph::structureFromGraph] has run for [num]
    threads, the nodes are as many distinct pointers as the file graph has
    nodes, and the edges from [edge_begin (N)] to [edge_end (N)] of the
    [i]-th node, read by [getEdgeDst] and [getEdgeData], are the edges of
    node [i] of the file graph in order, with their payloads, every
    destination id replaced by the pointer of that node.  The two calls
    acquire [N], the neighbours of [N] under [checkRaceAndNeighbors] only,
    and [N] again. *)
Theorem LC_Numa_Graph_edges_read_back {NodeTy EdgeTy} (SN SE SH : Z)
    (dflt : NodeTy) (graph : FileGraph.t EdgeTy) (num : nat) :
  FileGraph.wf graph → 0 < SN → 0 < SE → 0 < SH →
  SH * 2 + SN * FileGraph.size graph * 2 + SE * FileGraph.sizeEdges graph
    ≤ UINT64_MAX →
  (1 ≤ num)%nat →
  ∃ numa ns,
    LC_Numa_Graph.structureFromGraph SN SE SH dflt num graph = Some numa ∧
    LC_Numa_Graph.node_list numa = Some ns ∧
    length ns = length (FileGraph.adj graph) ∧ NoDup ns ∧
    ∀ i N nb mflag,
      ns !! i = Some N → FileGraph.adj graph !! i = Some nb →
      ∃ es, resolve ns nb = Some es ∧
            runM (edges_of SN SE (LC_Numa_Graph.mem numa) N mflag)
            = Some (es, edges_trace mflag N es.*1).
Proof.
  intros Hwf HSN HSE HSH Hsize Hnum.
  destruct (numa_loaded SN SE SH dflt graph Hwf HSN HSE HSH Hsize num Hnum)
    as (ds & numa & ns & _ & _ & _ & Hs & Hl & _ & _ & Hlen & Hsep
        & Hn & He & _).
  exists numa, ns. repeat split; try done.
  - exact (placed_NoDup SN SE graph HSN HSE ns Hlen Hsep).
  - exact (placed_read_back SN SE dflt graph ns _ Hwf HSE Hlen Hn He).
Qed.

(** X14.  [LC_Numa_Graph::structureFromGraph] puts every node in the
    allocation of the thread whose range of [distribute] holds it: node [i]
    lies in the allocation of a thread [tid] that was given at least one
    node and whose range [[begin, end)] contains [i], after the header, at
    a whole number of [sizeof (NodeInfo)] from it. *)
Theorem LC_Numa_Graph_nodes_local {NodeTy EdgeTy} (SN SE SH : Z)
    (dflt : NodeTy) (graph : FileGraph.t EdgeTy) (num : nat) :
  FileGraph.wf graph → 0 < SN → 0 < SE → 0 < SH →
  SH * 2 + SN * FileGraph.size graph * 2 + SE * FileGraph.sizeEdges graph
    ≤ UINT64_MAX →
  (1 ≤ num)%nat →
  ∃ ds numa ns,
    LC_Numa_Graph.distribute SN SE graph (Z.of_nat num)
      (LC_Numa_Graph.PerThreadStorage_new num) = Some ds ∧
    LC_Numa_Graph.structureFromGraph SN SE SH dflt num graph = Some numa ∧
    LC_Numa_Graph.node_list numa = Some ns ∧
    ∀ i N, ns !! i = Some N →
      ∃ tid, (tid < num)%nat ∧ local_to SN SH ds tid i N.
Proof.
  intros Hwf HSN HSE HSH Hsize Hnum.
  destruct (numa_loaded SN SE SH dflt graph Hwf HSN HSE HSH Hsize num Hnum)
    as (ds & numa & ns & Hd & _ & _ & Hs & Hl & _ & _ & _ & _ & _ & _ & Hloc).
  by exists ds, numa, ns.
Qed.

End LayoutMemberResults.

(* ===================================================================== *)
(** * LC_CSRInline_Graph read back; the node data of the layouts *)
(* ===================================================================== *)

Section InlineMemberResults.
Import Runtime GraphFacts GraphMemberFacts LayoutMemberFacts.
Import LayoutLoadFacts NumaLoadFacts EdgeIdxFacts.
Local Open Scope Z_scope.

Lemma adj_at {EdgeTy} (graph : FileGraph.t EdgeTy) (N : Z) :
  0 ≤ N < FileGraph.size graph →
  FileGraph.adj graph !! Z.to_nat N
    = Some (FileGraph.neighbor_edges graph N).
Proof.
  intros HN. unfold FileGraph.neighbor_edges, aget.
  rewrite decide_True by lia.
  destruct (FileGraph.adj graph !! Z.to_nat N) eqn:E; [done|].
  apply lookup_ge_None in E. unfold FileGraph.size in HN. lia.
Qed.

(** X15.  Once [LC_CSRInline_Graph::structureFromGraph] has run, the edges
    from [edge_begin (N)] to [edge_end (N)], read by [getEdgeDst] and
    [getEdgeData], are the edges of node [N] of the file graph in order,
    with their payloads.  The two calls acquire [N], the neighbours of [N]
    under [checkRaceAndNeighbors] only, and [N] again. *)
Theorem LC_CSRInline_Graph_edges_read_back {NodeTy EdgeTy} (dflt : NodeTy)
    (graph : FileGraph.t EdgeTy) :
  FileGraph.wf graph →
  ∃ inl,
    LC_CSRInline_Graph.structureFromGraph dflt graph = Some inl ∧
    ∀ N mflag, 0 ≤ N < FileGraph.size graph →
      runM (LC_CSRInline_Graph_members.edges_of inl N mflag)
      = Some (FileGraph.neighbor_edges graph N,
              (node_trace mflag [N] ++
               (if shouldLock mflag
                then node_trace mflag (FileGraph.neighbors graph N)
                else []))
              ++ node_trace mflag [N]).
Proof.
  intros Hwf. exists (inline_loaded dflt graph).
  split; [by apply inline_structureFromGraph|].
  intros N mflag HN. pose proof (adj_at graph N HN) as Hnb.
  pose proof (inline_edges_of dflt graph (Z.to_nat N) _ mflag Hnb) as H.
  by rewrite Z2Nat.id in H by lia.
Qed.

(** X16.  After [structureFromGraph] every node of [LC_CSRInline_Graph],
    [LC_Linear_Graph] and [LC_Numa_Graph] holds the default-constructed
    node data: [getData] returns it for every node of the graph, and
    acquires that node alone (nothing under the policy [none]). *)
Theorem LC_graphs_node_data_default {NodeTy EdgeTy} (SN SE SH : Z)
    (num : nat) (dflt : NodeTy) (graph : FileGraph.t EdgeTy) :
  FileGraph.wf graph → 0 < SN → 0 < SE → 0 < SH → (1 ≤ num)%nat →
  SH * 2 + SN * FileGraph.size graph * 2 + SE * FileGraph.sizeEdges graph
    ≤ UINT64_MAX →
  ∃ inl lin numa lns nns,
    LC_CSRInline_Graph.structureFromGraph dflt graph = Some inl ∧
    LC_Linear_Graph.structureFromGraph SN SE dflt graph = Some lin ∧
    LC_Numa_Graph.structureFromGraph SN SE SH dflt num graph = Some numa ∧
    LC_Linear_Graph.node_list lin = Some lns ∧
    LC_Numa_Graph.node_list numa = Some nns ∧
    ∀ mflag,
      (∀ N, N ∈ LC_CSRInline_Graph.nodes inl →
         runM (LC_CSRInline_Graph_members.getData inl N mflag)
         = Some (dflt, node_trace mflag [N])) ∧
      (∀ N, N ∈ lns →
         runM (LinearLayout_members.getData (LC_Linear_Graph.data lin)
                 N mflag)
         = Some (dflt, LinearLayout_members.pointer_trace mflag [N])) ∧
      (∀ N, N ∈ nns →
         runM (LinearLayout_members.getData (LC_Numa_Graph.mem numa)
                 N mflag)
         = Some (dflt, LinearLayout_members.pointer_trace mflag [N])).
Proof.
  intros Hwf HSN HSE HSH Hnum Hsize.
  destruct (linear_loaded SN SE dflt graph Hwf HSN HSE)
    as (lin & lns & Hls & Hll & _ & _ & Hllen & _ & Hln & _); [lia|].
  destruct (numa_loaded SN SE SH dflt graph Hwf HSN HSE HSH Hsize num Hnum)
    as (ds & numa & nns & _ & _ & _ & Hns & Hnl & _ & _ & Hnlen & _
        & Hnn & _).
  exists (inline_loaded dflt graph), lin, numa, lns, nns.
  repeat split; try done; try (by apply inline_structureFromGraph).
  - intros N HN. apply elem_of_seqZ in HN. simpl in HN.
    assert (HN' : 0 ≤ N < FileGraph.size graph) by lia.
    pose proof (inline_getData dflt graph (Z.to_nat N) _ mflag
                  (adj_at graph N HN')) as H.
    by rewrite Z2Nat.id in H by lia.
  - intros N HN. apply list_elem_of_lookup in HN as [i Hi].
    destruct (FileGraph.adj graph !! i) as [nb|] eqn:Hnb.
    + exact (placed_getData dflt graph lns _ Hln i N nb mflag Hi Hnb).
    + apply lookup_ge_None in Hnb. apply lookup_lt_Some in Hi. lia.
  - intros N HN. apply list_elem_of_lookup in HN as [i Hi].
    destruct (FileGraph.adj graph !! i) as [nb|] eqn:Hnb.
    + exact (placed_getData dflt graph nns _ Hnn i N nb mflag Hi Hnb).
    + apply lookup_ge_None in Hnb. apply lookup_lt_Some in Hi. lia.
Qed.

End InlineMemberResults.

(* ===================================================================== *)
(** * LC_Numa_Graph::distribute *)
(* ===================================================================== *)

Section DistributeResults.
Import Runtime GraphFacts LC_Numa_Graph Distribution Balance.
Import TilesFacts BalanceFacts.
Local Open Scope Z_scope.

(** X17.  [distribute] for [num] threads divides the nodes among the
    threads: every node lies in the range [[begin, end)] of an entry that
    has nodes; such an entry holds the number of nodes of its range and
    the number of their edges; and the ranges of two such entries follow
    one another in the order of the threads, so that no node is given to
    two threads. *)
Theorem LC_Numa_Graph_distribute_partition {EdgeTy} (SN SE : Z)
    (graph : FileGraph.t EdgeTy) (num : nat) :
  FileGraph.wf graph → 0 < SN → 0 < SE →
  SN * FileGraph.size graph + SE * FileGraph.sizeEdges graph
    ≤ UINT64_MAX →
  (1 ≤ num)%nat →
  ∃ ds,
    distribute SN SE graph (Z.of_nat num) (PerThreadStorage_new num)
      = Some ds ∧
    length ds = num ∧
    (∀ i : nat, (i < length (FileGraph.adj graph))%nat →
       ∃ tid d, ds !! tid = Some d ∧ d_numNodes d ≠ 0
                ∧ d_begin d ≤ Z.of_nat i < d_end d) ∧
    (∀ tid d, ds !! tid = Some d → d_numNodes d ≠ 0 →
       ∃ b e : nat,
         (b < e ≤ length (FileGraph.adj graph))%nat
         ∧ d_begin d = Z.of_nat b ∧ d_end d = Z.of_nat e
         ∧ d_numNodes d = Z.of_nat (e - b)
         ∧ d_numEdges d
           = before (FileGraph.adj graph) e - before (FileGraph.adj graph) b)
    ∧
    (∀ tid tid' d d', (tid < tid')%nat →
       ds !! tid = Some d → ds !! tid' = Some d' →
       d_numNodes d ≠ 0 → d_numNodes d' ≠ 0 →
       d_end d ≤ d_begin d').
Proof.
  intros Hwf HSN HSE Hsize Hnum.
  destruct (distribute_spec SN SE graph Hwf HSN HSE Hsize num Hnum)
    as (ds & Hd & Hlen & Ht).
  exists ds. split; [done|]. split; [done|]. split; [|split].
  - intros i Hi. apply (tiles_cover graph ds 0 _ i Ht). lia.
  - intros tid d Hds Hn.
    destruct (tiles_entry graph ds _ _ tid d Ht Hds Hn)
      as (b & e & ? & ? & ? & ? & ? & ?).
    exists b, e. repeat split; (done || lia).
  - intros tid tid' d d'.
    exact (tiles_ordered graph ds 0%nat _ tid tid' d d' Ht).
Qed.

(** X18.  [distribute] gives every thread but the last its share of the
    bytes: with [blockSize] the bytes of all nodes and edges divided by
    the number of threads, the range of thread [tid], when it has nodes,
    ends with the node at which the bytes of the nodes so far and their
    edges reach [(tid + 1) * blockSize], and they are below it without
    that node. *)
Theorem LC_Numa_Graph_distribute_share {EdgeTy} (SN SE : Z)
    (graph : FileGraph.t EdgeTy) (num : nat) :
  FileGraph.wf graph → 0 < SN → 0 < SE →
  SN * FileGraph.size graph + SE * FileGraph.sizeEdges graph
    ≤ UINT64_MAX →
  (1 ≤ num)%nat →
  ∃ ds,
    distribute SN SE graph (Z.of_nat num) (PerThreadStorage_new num)
      = Some ds ∧
    ∀ (tid : nat) d, (tid + 1 < num)%nat → ds !! tid = Some d →
      d_numNodes d ≠ 0 →
      ∃ k : nat,
        d_end d = Z.of_nat (S k) ∧
        prefix_size SN SE (FileGraph.adj graph) k
          < (Z.of_nat tid + 1)
            * ((SN * FileGraph.size graph
                + SE * FileGraph.sizeEdges graph) / Z.of_nat num)
          ≤ prefix_size SN SE (FileGraph.adj graph) (S k).
Proof.
  intros Hwf HSN HSE Hsize Hnum.
  destruct (distribute_spec SN SE graph Hwf HSN HSE Hsize num Hnum)
    as (ds & Hd & _).
  exists ds. split; [done|]. intros tid d Htid Hds Hn.
  exact (distribute_balanced SN SE graph Hwf HSN HSE Hsize num ds Hnum Hd
           tid d Htid Hds Hn).
Qed.

End DistributeResults.

(* ===================================================================== *)
(** * LC_Numa_Graph: local iteration *)
(* ===================================================================== *)

Section LocalIteratorResults.
Import Runtime GraphFacts NumaLoadFacts LocalIteratorFacts LocalWalkFacts.
Import LC_Numa_Graph LC_Numa_Graph_members Locality.
Local Open Scope Z_scope.

(** X19.  On a loaded [LC_Numa_Graph], the loop from [local_begin ()] to
    [local_end ()] on a thread that [distribute] gave nodes ends, and meets
    exactly the nodes of the range of that thread, in the order of the file
    graph; the nodes of the graph are distinct, so it meets each once. *)
Theorem LC_Numa_Graph_local_nodes {NodeTy EdgeTy} (SN SE SH : Z)
    (dflt : NodeTy) (graph : FileGraph.t EdgeTy) (num : nat) :
  FileGraph.wf graph → 0 < SN → 0 < SE → 0 < SH →
  SH * 2 + SN * FileGraph.size graph * 2 + SE * FileGraph.sizeEdges graph
    ≤ UINT64_MAX →
  (1 ≤ num)%nat →
  ∃ ds numa ns,
    distribute SN SE graph (Z.of_nat num) (PerThreadStorage_new num)
      = Some ds ∧
    structureFromGraph SN SE SH dflt num graph = Some numa ∧
    node_list numa = Some ns ∧ NoDup ns ∧
    ∀ tid d, ds !! tid = Some d → d_numNodes d ≠ 0 →
      local_nodes SN SE numa tid
      = Some (Some <$> take (Z.to_nat (d_numNodes d))
                            (drop (Z.to_nat (d_begin d)) ns)).
Proof.
  intros Hwf HSN HSE HSH Hsize Hnum.
  destruct (numa_loaded SN SE SH dflt graph Hwf HSN HSE HSH Hsize num Hnum)
    as (ds & numa & ns & Hd & Hds & Ht & Hs & Hl & HnN & _ & Hlen & Hsep
        & Hn & _ & _).
  exists ds, numa, ns. repeat split; try done.
  { exact (placed_NoDup SN SE graph HSN HSE ns Hlen Hsep). }
  destruct (loaded_headers SN SE SH dflt graph Hwf ds num Ht Hds numa ns
              Hs Hd Hl) as [Hh Hlaid].
  intros tid d Htd Hnz.
  eapply (local_nodes_spec SN SE SH dflt graph); try eassumption.
  by apply loaded_nodes.
Qed.

(** X20.  On a loaded [LC_Numa_Graph], for a thread that [distribute] gave
    no node, [local_begin ()] is not [local_end ()]: a loop from one to the
    other enters its body, and the node of [local_begin ()] is the address
    after the header of the thread, which is none of the nodes of the
    graph. *)
Theorem LC_Numa_Graph_local_begin_empty {NodeTy EdgeTy} (SN SE SH : Z)
    (dflt : NodeTy) (graph : FileGraph.t EdgeTy) (num : nat) :
  FileGraph.wf graph → 0 < SN → 0 < SE → 0 < SH →
  SH * 2 + SN * FileGraph.size graph * 2 + SE * FileGraph.sizeEdges graph
    ≤ UINT64_MAX →
  (1 ≤ num)%nat →
  ∃ ds numa ns,
    distribute SN SE graph (Z.of_nat num) (PerThreadStorage_new num)
      = Some ds ∧
    structureFromGraph SN SE SH dflt num graph = Some numa ∧
    node_list numa = Some ns ∧
    ∀ tid d, ds !! tid = Some d → d_numNodes d = 0 →
      ∃ b e, local_begin numa tid = Some b ∧ local_end numa tid = Some e
             ∧ b ≠ e ∧ it_v b = Some (tid, SH) ∧ (tid, SH) ∉ ns.
Proof.
  intros Hwf HSN HSE HSH Hsize Hnum.
  destruct (numa_loaded SN SE SH dflt graph Hwf HSN HSE HSH Hsize num Hnum)
    as (ds & numa & ns & Hd & Hds & Ht & Hs & Hl & HnN & _ & Hlen & _
        & Hn & _ & Hloc).
  exists ds, numa, ns. repeat split; try done.
  destruct (loaded_headers SN SE SH dflt graph Hwf ds num Ht Hds numa ns
              Hs Hd Hl) as [Hh Hlaid].
  intros tid d Htd Hz.
  assert (Htid : (tid < num)%nat) by (apply lookup_lt_Some in Htd; lia).
  destruct (local_end_tid SN SE SH graph ds num Hds numa ns Hh Hlaid Hlen
              tid Htid) as (e & He & Hte).
  exists (mkIt tid (Some tid) (Some (tid, SH))), e.
  split.
  { exact (local_iterator_new_in SN SE SH graph ds num Hds numa ns Hh
             Hlaid Hlen tid Htid). }
  split; [done|]. split.
  { intros <-. simpl in Hte. lia. }
  split; [done|].
  intros Hin. apply list_elem_of_lookup in Hin as [i Hi].
  destruct (Hloc i _ Hi) as (tid' & _ & d' & Hd' & Hnz & _ & Hp & _).
  simpl in Hp. subst tid'. congruence.
Qed.

End LocalIteratorResults.

(* ===================================================================== *)
(** * The neighbourhood managers under every interleaving *)
(* ===================================================================== *)

Section NhoodMgrProgress.
Import LockManagerBase OrdLocBase NhoodMgrBase Progress.
Import NhoodMgrFacts PtrFacts MapFacts.

(** X21.  [PtrBasedNhoodMgr::getNhoodItem] never waits and none of its
    assertions fails: in every state that an interleaving of calls reaches,
    a thread inside a call can make its next step, whatever the other
    threads have done, and the step either returns the call or leaves the
    thread fewer steps from its return than before, at most five. *)
Theorem PtrBasedNhoodMgr_wait_free sched s t pc :
  PtrBasedNhoodMgr.run sched PtrBasedNhoodMgr.init = Some s →
  PtrBasedNhoodMgr.pcs s !! t = Some pc →
  ∃ s', PtrBasedNhoodMgr.exec (Step t) s = Some s' ∧
    match PtrBasedNhoodMgr.pcs s' !! t with
    | None => ∃ r, PtrBasedNhoodMgr.returned s'
                   = (t, PtrBasedNhoodMgr.callee pc, r)
                     :: PtrBasedNhoodMgr.returned s
    | Some pc' => PtrBasedNhoodMgr.callee pc' = PtrBasedNhoodMgr.callee pc
                  ∧ ptr_remaining pc' < ptr_remaining pc ≤ 6
    end.
Proof.
  intros Hrun Hpc. pose proof (ptr_reachable_inv _ _ Hrun) as HI.
  unfold PtrBasedNhoodMgr.exec. rewrite Hpc. simpl.
  destruct pc as [l|l|l ni|l ni|l ni|l|l]; simpl.
  - unfold getOwner, LockManagerBase.getOwner.
    destruct (owner _ !! l); eexists; (split; [done|]); simpl;
      rewrite lookup_insert_eq; simpl; lia.
  - eexists. split; [done|]. simpl. rewrite lookup_insert_eq. simpl. lia.
  - unfold tryMappingTo, CASowner. case_decide;
      (eexists; split; [done|]); simpl; rewrite lookup_insert_eq; simpl; lia.
  - eexists. split; [done|]. simpl. rewrite lookup_insert_eq. simpl. lia.
  - eexists. split; [done|]. simpl. rewrite lookup_insert_eq. simpl. lia.
  - destruct (PtrBasedNhoodMgr.inv_post _ HI t _ Hpc eq_refl) as [r Hr].
    simpl in Hr. unfold getOwner, LockManagerBase.getOwner. rewrite Hr.
    eexists. split; [done|]. simpl. rewrite lookup_insert_eq. simpl. lia.
  - destruct (PtrBasedNhoodMgr.inv_post _ HI t _ Hpc eq_refl) as [r Hr].
    simpl in Hr. unfold getOwner, LockManagerBase.getOwner. rewrite Hr.
    eexists. split; [done|]. simpl. rewrite lookup_delete_eq. by exists r.
Qed.

(** X22.  [PtrBasedNhoodMgr] leaks no record: once every call of an
    interleaving has returned, the live records are exactly the records of
    [allNItems], no record is in the bags twice, and every one of them is
    the owner of the lockable it was constructed for. *)
Theorem PtrBasedNhoodMgr_no_leak sched s :
  PtrBasedNhoodMgr.run sched PtrBasedNhoodMgr.init = Some s →
  PtrBasedNhoodMgr.pcs s = ∅ →
  NoDup (all_records (PtrBasedNhoodMgr.base s)) ∧
  (∀ p, is_Some (items (PtrBasedNhoodMgr.base s) !! p)
        ↔ p ∈ all_records (PtrBasedNhoodMgr.base s)) ∧
  (∀ p, p ∈ all_records (PtrBasedNhoodMgr.base s) →
     ∃ l, items (PtrBasedNhoodMgr.base s) !! p = Some (construct l)
          ∧ OrdLocBase.getOwner l (mem (PtrBasedNhoodMgr.base s)) = Some p) ∧
  (∀ l p, OrdLocBase.getOwner l (mem (PtrBasedNhoodMgr.base s)) = Some p →
     p ∈ all_records (PtrBasedNhoodMgr.base s)).
Proof.
  intros Hrun Hq. pose proof (ptr_reachable_inv _ _ Hrun) as HI.
  assert (Hbag : ∀ l p, owner (mem (PtrBasedNhoodMgr.base s)) !! l = Some p →
                   p ∈ all_records (PtrBasedNhoodMgr.base s)).
  { intros l p Hl.
    destruct (PtrBasedNhoodMgr.inv_owner_bag _ HI l p Hl) as [?|[t Ht]];
      [done|]. by rewrite Hq in Ht. }
  split; [apply (PtrBasedNhoodMgr.inv_nodup _ HI)|].
  split; [|split].
  - intros p. split.
    + intros [ni Hni].
      destruct (PtrBasedNhoodMgr.inv_items _ HI p ni Hni)
        as [[l Hl]|(t & pc & Ht & _)]; [by eapply Hbag|].
      by rewrite Hq in Ht.
    + intros Hp. destruct (PtrBasedNhoodMgr.inv_bag _ HI p Hp) as [l Hl].
      rewrite (PtrBasedNhoodMgr.inv_owner_live _ HI l p Hl). by eexists.
  - intros p Hp. destruct (PtrBasedNhoodMgr.inv_bag _ HI p Hp) as [l Hl].
    exists l. split; [|done].
    apply (PtrBasedNhoodMgr.inv_owner_live _ HI l p Hl).
  - exact Hbag.
Qed.

(** X23.  [MapBasedNhoodMgr::getNhoodItem] never writes the owner word or
    the lock bit of a lockable: in every state that an interleaving of
    calls reaches from a new manager, [OrdLocBase::getOwner] is null for
    every lockable, also for those whose record has been returned. *)
Theorem MapBasedNhoodMgr_owner_untouched sched s :
  MapBasedNhoodMgr.run sched MapBasedNhoodMgr.init = Some s →
  mem (MapBasedNhoodMgr.mbase (MapBasedNhoodMgr.mgr s)) = unowned ∧
  ∀ l, OrdLocBase.getOwner l
         (mem (MapBasedNhoodMgr.mbase (MapBasedNhoodMgr.mgr s))) = None.
Proof.
  intros Hrun. pose proof (map_reachable_inv _ _ Hrun) as HI.
  pose proof (MapBasedNhoodMgr.inv_own _ HI) as Ho.
  pose proof (MapBasedNhoodMgr.inv_lock _ HI) as Hl.
  split.
  - destruct (mem _) as [o k]. simpl in *. by subst.
  - intros l. unfold OrdLocBase.getOwner, LockManagerBase.getOwner.
    by rewrite Ho.
Qed.

(** X24.  In [MapBasedNhoodMgr::getNhoodItem] a thread stands still only
    where it takes the lock: in every state that an interleaving of calls
    reaches, a thread that cannot make its next step is at [readLock] while
    a writer holds the lock, or at [writeLock] while a writer or a reader
    holds it.  Neither assertion after the lookup fails. *)
Theorem MapBasedNhoodMgr_waits_only_for_lock sched s t pc :
  MapBasedNhoodMgr.run sched MapBasedNhoodMgr.init = Some s →
  MapBasedNhoodMgr.pcs s !! t = Some pc →
  MapBasedNhoodMgr.exec (Step t) s = None →
  map_locking pc = true ∧
  (MapBasedNhoodMgr.writer (MapBasedNhoodMgr.map_mutex (MapBasedNhoodMgr.mgr s))
     = true
   ∨ (∃ l, pc = MapBasedNhoodMgr.AtWriteLock l) ∧
     MapBasedNhoodMgr.readers
       (MapBasedNhoodMgr.map_mutex (MapBasedNhoodMgr.mgr s)) ≠ 0).
Proof.
  intros Hrun Hpc Hstuck. pose proof (map_reachable_inv _ _ Hrun) as HI.
  unfold MapBasedNhoodMgr.exec in Hstuck. rewrite Hpc in Hstuck.
  simpl in Hstuck.
  destruct pc; simpl in Hstuck;
    try (by destruct (MapBasedNhoodMgr.nhoodMap _ !! _));
    try (by destruct (MapBasedNhoodMgr.factory_create _ _));
    try done.
  - unfold MapBasedNhoodMgr.readLock in Hstuck.
    destruct (MapBasedNhoodMgr.writer _) eqn:Hw; [|done]. by split; [|left].
  - unfold MapBasedNhoodMgr.writeLock in Hstuck.
    destruct (MapBasedNhoodMgr.writer _) eqn:Hw; [by split; [|left]|].
    destruct (MapBasedNhoodMgr.readers _) eqn:Hr; [done|].
    split; [done|]. right. split; [by eexists|done].
  - unfold MapBasedNhoodMgr.readLock in Hstuck.
    destruct (MapBasedNhoodMgr.writer _) eqn:Hw; [|done]. by split; [|left].
  - destruct (MapBasedNhoodMgr.inv_found _ HI t _ i Hpc eq_refl) as [[r ->] _].
    done.
Qed.

(** X25.  [MapBasedNhoodMgr] leaks no record: once every call of an
    interleaving has returned, the live records are exactly the records of
    [allNItems], no record is in the bags twice, every one of them is the
    entry in [nhoodMap] of the lockable it was constructed for, and no two
    lockables share a record. *)
Theorem MapBasedNhoodMgr_no_leak sched s :
  MapBasedNhoodMgr.run sched MapBasedNhoodMgr.init = Some s →
  MapBasedNhoodMgr.pcs s = ∅ →
  NoDup (all_records (MapBasedNhoodMgr.mbase (MapBasedNhoodMgr.mgr s))) ∧
  (∀ p, is_Some (items (MapBasedNhoodMgr.mbase (MapBasedNhoodMgr.mgr s)) !! p)
        ↔ p ∈ all_records (MapBasedNhoodMgr.mbase (MapBasedNhoodMgr.mgr s)))
  ∧
  (∀ p, p ∈ all_records (MapBasedNhoodMgr.mbase (MapBasedNhoodMgr.mgr s)) →
     ∃ l, MapBasedNhoodMgr.nhoodMap (MapBasedNhoodMgr.mgr s) !! l = Some p
          ∧ items (MapBasedNhoodMgr.mbase (MapBasedNhoodMgr.mgr s)) !! p
            = Some (construct l)) ∧
  (∀ l p, MapBasedNhoodMgr.nhoodMap (MapBasedNhoodMgr.mgr s) !! l = Some p →
     p ∈ all_records (MapBasedNhoodMgr.mbase (MapBasedNhoodMgr.mgr s))) ∧
  (∀ l l' p,
     MapBasedNhoodMgr.nhoodMap (MapBasedNhoodMgr.mgr s) !! l = Some p →
     MapBasedNhoodMgr.nhoodMap (MapBasedNhoodMgr.mgr s) !! l' = Some p →
     l = l').
Proof.
  intros Hrun Hq. pose proof (map_reachable_inv _ _ Hrun) as HI.
  split; [apply (MapBasedNhoodMgr.inv_nodup _ HI)|].
  split; [|split; [|split]].
  - intros p. split.
    + intros [ni Hni].
      destruct (MapBasedNhoodMgr.inv_items _ HI p ni Hni)
        as [?|(t & l & Ht)]; [done|]. by rewrite Hq in Ht.
    + apply (MapBasedNhoodMgr.inv_bag_live _ HI).
  - intros p Hp.
    destruct (MapBasedNhoodMgr.inv_bag_map _ HI p Hp)
      as [[l Hl]|(t & l & Ht)]; [|by rewrite Hq in Ht].
    exists l. split; [done|].
    by destruct (MapBasedNhoodMgr.inv_map_live _ HI l p Hl).
  - intros l p Hl. by destruct (MapBasedNhoodMgr.inv_map_live _ HI l p Hl).
  - intros l l' p Hl Hl'.
    destruct (MapBasedNhoodMgr.inv_map_live _ HI l p Hl) as [H1 _].
    destruct (MapBasedNhoodMgr.inv_map_live _ HI l' p Hl') as [H2 _].
    rewrite H1 in H2. by injection H2.
Qed.

End NhoodMgrProgress.

Section NhoodMgrLock.
Import LockManagerBase OrdLocBase NhoodMgrBase Progress.
Import NhoodMgrFacts MapFacts LockFacts.

(** X26.  The lock of [MapBasedNhoodMgr::getNhoodItem] never deadlocks: in
    every state that an interleaving of calls reaches, when some thread is
    inside a call then some thread can make its next step.  The lock is
    free, no reader and no writer, once every call has returned. *)
Theorem MapBasedNhoodMgr_deadlock_free sched s :
  MapBasedNhoodMgr.run sched MapBasedNhoodMgr.init = Some s →
  (MapBasedNhoodMgr.pcs s ≠ ∅ →
   ∃ t s', MapBasedNhoodMgr.exec (Step t) s = Some s') ∧
  (MapBasedNhoodMgr.pcs s = ∅ →
   MapBasedNhoodMgr.map_mutex (MapBasedNhoodMgr.mgr s)
   = MapBasedNhoodMgr.mkLock 0 false).
Proof.
  intros Hrun. pose proof (map_reachable_inv _ _ Hrun) as HI.
  pose proof (lock_reachable_inv _ _ Hrun) as [Hr Hw].
  split.
  - intros Hne.
    assert (Hgo : ∀ t pc, MapBasedNhoodMgr.pcs s !! t = Some pc →
              map_locking pc = false →
              ∃ s', MapBasedNhoodMgr.exec (Step t) s = Some s').
    { intros t pc Hpc Hl.
      destruct (MapBasedNhoodMgr.exec (Step t) s) as [s'|] eqn:He;
        [by eexists|].
      unfold MapBasedNhoodMgr.exec in He. rewrite Hpc in He. simpl in He.
      destruct pc; simpl in He, Hl; try done;
        try (by destruct (MapBasedNhoodMgr.nhoodMap _ !! _));
        try (by destruct (MapBasedNhoodMgr.factory_create _ _)).
      destruct (MapBasedNhoodMgr.inv_found _ HI t _ i Hpc eq_refl)
        as [[r ->] _]. done. }
    destruct (MapBasedNhoodMgr.writer
                (MapBasedNhoodMgr.map_mutex (MapBasedNhoodMgr.mgr s)))
      eqn:Hwr.
    { destruct (Hw eq_refl) as (t & pc & Hpc & Hin). exists t.
      apply (Hgo t pc Hpc). by destruct pc. }
    destruct (MapBasedNhoodMgr.readers
                (MapBasedNhoodMgr.map_mutex (MapBasedNhoodMgr.mgr s)))
      as [|k] eqn:Hrd.
    + apply map_choose in Hne as (t & pc & Hpc). exists t.
      destruct (map_locking pc) eqn:Hl; [|by apply (Hgo t pc Hpc)].
      unfold MapBasedNhoodMgr.exec. rewrite Hpc. simpl.
      destruct pc; simpl in Hl; try done; simpl;
        unfold MapBasedNhoodMgr.readLock, MapBasedNhoodMgr.writeLock;
        rewrite Hwr, ?Hrd; by eexists.
    + destruct (size_pos_elem_of (reading s)) as [t Ht]; [lia|].
      apply reading_elem in Ht as (pc & Hpc & Hin). exists t.
      apply (Hgo t pc Hpc). by destruct pc.
  - intros Hq.
    destruct (MapBasedNhoodMgr.map_mutex (MapBasedNhoodMgr.mgr s))
      as [rd wr] eqn:Hk. simpl in *.
    assert (rd = 0) as ->.
    { rewrite Hr. unfold reading. rewrite Hq.
      by rewrite map_filter_empty, dom_empty_L, size_empty. }
    destruct wr; [|done].
    destruct (Hw eq_refl) as (t & pc & Hpc & _). by rewrite Hq in Hpc.
Qed.

End NhoodMgrLock.

(* ===================================================================== *)
(** * LC_Linear_Graph: sorting the edges of a node *)
(* ===================================================================== *)

Section LinearSortResults.
Import Runtime GraphFacts InOutFacts LayoutMemberFacts LayoutLoadFacts.
Import LinearSortFacts.
Import LinearLayout LinearLayout_members LC_Linear_Graph_sort.
Local Open Scope Z_scope.

(** X27.  On a loaded [LC_Linear_Graph], [sortEdges (N, less)] acquires
    [N] alone and leaves the edges of [N] a permutation of the edges [N]
    had, destination and payload together, in the order of [less] when
    [less] is asymmetric; the edges of every other node are as before.
    [sortEdgesByEdgeData (N, comp)] is [sortEdges] with the comparison of
    the payloads by [comp]. *)
Theorem LC_Linear_Graph_sortEdges {NodeTy EdgeTy} (SN SE : Z)
    (dflt : NodeTy) (graph : FileGraph.t EdgeTy) :
  FileGraph.wf graph → 0 < SN → 0 < SE →
  SN * FileGraph.size graph * 2 + SE * FileGraph.sizeEdges graph
    ≤ UINT64_MAX →
  ∃ lin ns,
    LC_Linear_Graph.structureFromGraph SN SE dflt graph = Some lin ∧
    LC_Linear_Graph.node_list lin = Some ns ∧
    ∀ i N nb less mflag,
      ns !! i = Some N → FileGraph.adj graph !! i = Some nb →
      ∃ m' es',
        runM (sortEdges SN SE (LC_Linear_Graph.data lin) N less mflag)
          = Some (m', pointer_trace mflag [N]) ∧
        (∀ comp,
           runM (sortEdgesByEdgeData SN SE (LC_Linear_Graph.data lin) N
                   comp mflag)
           = runM (sortEdges SN SE (LC_Linear_Graph.data lin) N
                     (EdgeSortCompWrapper comp) mflag)) ∧
        (∃ es, resolve ns nb = Some es ∧ es' ≡ₚ es) ∧
        ((∀ x y, less x y = true → less y x = false) →
         Sorted (LC_CSR_Graph.not_after less) es') ∧
        runM (edges_of SN SE m' N NONE) = Some (es', []) ∧
        ∀ i' N' nb0, i' ≠ i → ns !! i' = Some N' →
          FileGraph.adj graph !! i' = Some nb0 →
          ∃ es0, resolve ns nb0 = Some es0 ∧
                 runM (edges_of SN SE m' N' NONE) = Some (es0, []).
Proof.
  intros Hwf HSN HSE Hsize.
  destruct (linear_loaded_fits SN SE dflt graph Hwf HSN HSE Hsize)
    as (lin & ns & Hs & Hl & _ & _ & Hlen & Hsep & Hn & He & _ & Hfit).
  exists lin, ns. split; [done|]. split; [done|].
  intros i N nb less mflag HN Hnb.
  destruct (sort_range_spec SN SE dflt graph Hwf HSN HSE ns Hlen
              (LC_Linear_Graph.data lin) Hsep Hfit Hn He i N nb less HN Hnb)
    as (m' & nb' & Hsort & Hperm & Hes' & _ & Hn' & He').
  pose proof (reordered_wf graph Hwf i nb nb' Hnb Hperm) as Hwf'.
  assert (Hlen' : length ns = length (FileGraph.adj (reordered graph i nb')))
    by (simpl; by rewrite length_insert).
  assert (Hi : FileGraph.adj (reordered graph i nb') !! i = Some nb').
  { simpl. apply list_lookup_insert_eq. by eapply lookup_lt_Some. }
  rewrite <- Hlen, Hlen' in He'.
  pose proof (resolve_fmap (reordered graph i nb') ns Hlen' nb'
                (wf_dsts _ Hwf' i nb' Hi)) as Hr'.
  pose proof (resolve_fmap graph ns Hlen nb (wf_dsts _ Hwf i nb Hnb)) as Hr.
  exists m', (resolve_one ns <$> nb'). split; [|split; [|split; [|split]]].
  - unfold sortEdges. rewrite runM_bind_unfold. cbn [acquire runM].
    rewrite Hsort. unfold pointer_trace, node_trace. simpl.
    by destruct (acquires mflag).
  - done.
  - exists (resolve_one ns <$> nb). split; [done|]. by rewrite Hperm.
  - intros Hasym. rewrite <- Hes'. by apply std_sort_sorted.
  - split.
    + by rewrite (placed_edges_of SN SE dflt (reordered graph i nb') HSE ns
                    Hlen' m' Hn' He' i N nb' _ NONE HN Hi Hr').
    + intros i' N' nb0 Hne HN' Hnb0.
      assert (Hi' : FileGraph.adj (reordered graph i nb') !! i' = Some nb0).
      { simpl. by rewrite list_lookup_insert_ne. }
      pose proof (resolve_fmap graph ns Hlen nb0 (wf_dsts _ Hwf i' nb0 Hnb0))
        as Hr0.
      exists (resolve_one ns <$> nb0). split; [done|].
      by rewrite (placed_edges_of SN SE dflt (reordered graph i nb') HSE ns
                    Hlen' m' Hn' He' i' N' nb0 _ NONE HN' Hi' Hr0).
Qed.

End LinearSortResults.

(* ===================================================================== *)
(** * The further results at the scenario graph *)
(* ===================================================================== *)

Section MemberInstances.
Import Runtime.
Local Open Scope Z_scope.

Lemma LC_CSR_getEdgeData_range_witness :
  ∃ es : list Z,
    runM
      (LC_CSR_Graph.out_edges
         (LC_CSR_Graph.structureFromGraph () scenario) 0 NONE) =
    Some (es, [])
    ∧ runM
        (LC_CSR_Graph_members.edge_payloads
           (LC_CSR_Graph.structureFromGraph () scenario) es
           {| policy := checkRace; writeIntent := true |}) =
      Some ((FileGraph.neighbor_edges scenario 0).*2, []).
Proof.
  apply (LC_CSR_getEdgeData_range tt scenario 0 (mkFlag checkRace true)).
  - apply (bool_decide_unpack _); vm_compute; exact I.
  - vm_compute; split; [discriminate|reflexivity].
Defined.

Lemma LC_CSR_edge_ranges_tile_witness :
  ∃ ranges : list (list Z),
    LC_CSR_Graph_members.all_out_edges
      (LC_CSR_Graph.structureFromGraph () scenario) =
    Some ranges
    ∧ Z.of_nat (length ranges) =
      LC_CSR_Graph.size (LC_CSR_Graph.structureFromGraph () scenario)
      ∧ concat ranges =
        seqZ 0
          (LC_CSR_Graph.sizeEdges
             (LC_CSR_Graph.structureFromGraph () scenario)).
Proof.
  apply (LC_CSR_edge_ranges_tile tt scenario).
  - apply (bool_decide_unpack _); vm_compute; exact I.
Defined.

Lemma LC_CSR_node_out_of_range_witness :
  runM
    (LC_CSR_Graph.edge_end
       (LC_CSR_Graph.structureFromGraph () scenario) 4
       {| policy := checkRace; writeIntent := false |}) =
  None
  ∧ runM
      (LC_CSR_Graph.getData
         (LC_CSR_Graph.structureFromGraph () scenario) 4
         {| policy := checkRace; writeIntent := false |}) =
    None
    ∧ runM
        (LC_CSR_Graph.hasNeighbor
           (LC_CSR_Graph.structureFromGraph () scenario) 4 0
           {| policy := checkRace; writeIntent := false |}) =
      None.
Proof.
  apply (LC_CSR_node_out_of_range tt scenario 4 0 (mkFlag checkRace false)).
  - vm_compute; intros [_ H]; discriminate H.
Defined.

Lemma LC_CSR_sort_keeps_structure_witness :
  ∃ (g' : LC_CSR_Graph.t () Z) (tr : list Z),
    runM
      (LC_CSR_Graph.sortEdgesByEdgeData
         (LC_CSR_Graph.structureFromGraph () scenario) 0 Z.ltb NONE) =
    Some (g', tr)
    ∧ LC_CSR_Graph.size g' =
      LC_CSR_Graph.size
        (LC_CSR_Graph.structureFromGraph () scenario)
      ∧ LC_CSR_Graph.sizeEdges g' =
        LC_CSR_Graph.sizeEdges
          (LC_CSR_Graph.structureFromGraph () scenario)
        ∧ (∀ src : Z,
             runM (LC_CSR_Graph.out_edges g' src NONE) =
             runM
               (LC_CSR_Graph.out_edges
                  (LC_CSR_Graph.structureFromGraph () scenario) src
                  NONE))
          ∧ ∀ (src dst : Z) (mf : MethodFlag),
              0 <= src < FileGraph.size scenario
              → runM (LC_CSR_Graph.hasNeighbor g' src dst mf) =
                runM
                  (LC_CSR_Graph.hasNeighbor
                     (LC_CSR_Graph.structureFromGraph () scenario)
                     src dst mf).
Proof.
  apply (LC_CSR_sort_keeps_structure tt scenario 0 Z.ltb NONE).
  - apply (bool_decide_unpack _); vm_compute; exact I.
  - vm_compute; split; [discriminate|reflexivity].
Defined.

Lemma LC_CSR_sortEdges_witness :
  ∃ (g' : LC_CSR_Graph.t () Z) (es : list (Z * Z)),
    runM
      (LC_CSR_Graph_members.sortEdges
         (LC_CSR_Graph.structureFromGraph () scenario) 0
         (λ x y : Z * Z, x.2 <? y.2)
         {| policy := checkRace; writeIntent := true |}) =
    Some
      (g',
       node_trace {| policy := checkRace; writeIntent := true |} [0])
    ∧ runM (LC_CSR_Graph.edges_of g' 0 NONE) = Some (es, [])
      ∧ es ≡ₚ FileGraph.neighbor_edges scenario 0
        ∧ ((∀ x y : Z * Z,
              (x.2 <? y.2) = true → (y.2 <? x.2) = false)
           → Sorted
               (LC_CSR_Graph.not_after (λ x y : Z * Z, x.2 <? y.2))
               es)
          ∧ ∀ m : Z,
              0 <= m < FileGraph.size scenario
              → m ≠ 0
                → runM (LC_CSR_Graph.edges_of g' m NONE) =
                  Some (FileGraph.neighbor_edges scenario m, []).
Proof.
  apply (LC_CSR_sortEdges
           tt scenario 0 (λ x y, x.2 <? y.2) (mkFlag checkRace true)).
  - apply (bool_decide_unpack _); vm_compute; exact I.
  - vm_compute; split; [discriminate|reflexivity].
Defined.

Lemma LC_CSR_InOutGraph_in_edges_witness :
  ∃ (g : LC_CSR_InOutGraph_members.t () Z) (alloc : list Z),
    LC_CSR_InOutGraph_members.structureFromGraph () scenario
      scenario =
    LC_CSR_InOutGraph_members.Loaded g alloc
    ∧ LC_CSR_InOutGraph_members.super g =
      LC_CSR_Graph.structureFromGraph () scenario
      ∧ runM (LC_CSR_InOutGraph_members.in_edges_of g 2 NONE) =
        Some (FileGraph.neighbor_edges scenario 2, [])
        ∧ snd <$>
          runM
            (LC_CSR_InOutGraph_members.in_edge_begin g 2
               {|
                 policy := checkRaceAndNeighbors;
                 writeIntent := false
               |}) =
          Some
            match
              policy
                {|
                  policy := checkRaceAndNeighbors;
                  writeIntent := false
                |}
            with
            | none => []
            | checkRace => [2]
            | checkRaceAndNeighbors =>
                2 :: FileGraph.neighbors scenario 2
            end.
Proof.
  apply (LC_CSR_InOutGraph_in_edges
           tt scenario scenario 2 (mkFlag checkRaceAndNeighbors false)).
  - apply (bool_decide_unpack _); vm_compute; exact I.
  - vm_compute; discriminate.
  - reflexivity.
  - reflexivity.
  - vm_compute; split; [discriminate|reflexivity].
Defined.

Lemma LC_CSR_InOutGraph_sort_shared_witness :
  ∃ (g : LC_CSR_InOutGraph_members.t () Z) 
    (alloc : list Z) (g' : LC_CSR_InOutGraph_members.t () Z) 
    (es : list (Z * Z)),
    LC_CSR_InOutGraph_members.structureFromGraph_symmetric ()
      scenario true =
    LC_CSR_InOutGraph_members.Loaded g alloc
    ∧ runM
        (LC_CSR_InOutGraph_members.sortInEdgesByEdgeData g 0 Z.ltb
           {| policy := checkRace; writeIntent := true |}) =
      Some
        (g',
         node_trace {| policy := checkRace; writeIntent := true |}
           [0])
      ∧ runM
          (LC_CSR_Graph.edges_of
             (LC_CSR_InOutGraph_members.super g') 0 NONE) =
        Some (es, [])
        ∧ runM (LC_CSR_InOutGraph_members.in_edges_of g' 0 NONE) =
          Some (es, [])
          ∧ es ≡ₚ FileGraph.neighbor_edges scenario 0
            ∧ ((∀ x y : Z, (x <? y) = true → (y <? x) = false)
               → Sorted
                   (LC_CSR_Graph.not_after
                      (LC_CSR_Graph.EdgeSortCompWrapper Z.ltb))
                   es).
Proof.
  apply (LC_CSR_InOutGraph_sort_shared
           tt scenario 0 Z.ltb (mkFlag checkRace true)).
  - apply (bool_decide_unpack _); vm_compute; exact I.
  - vm_compute; discriminate.
  - vm_compute; split; [discriminate|reflexivity].
Defined.


Lemma LC_Linear_Graph_edges_read_back_witness :
  ∃ (lin : LC_Linear_Graph.t () Z) (ns : list (nat * Z)),
    LC_Linear_Graph.structureFromGraph 24 16 () scenario =
    Some lin
    ∧ LC_Linear_Graph.node_list lin = Some ns
      ∧ length ns = length (FileGraph.adj scenario)
        ∧ NoDup ns
          ∧ ∀ (i : nat) (N : nat * Z) 
              (nb : list (Z * Z)) (mflag : MethodFlag),
              ns !! i = Some N
              → FileGraph.adj scenario !! i = Some nb
                → ∃ es : list (nat * Z * Z),
                    LinearLayout_members.resolve ns nb = Some es
                    ∧ runM
                        (LinearLayout_members.edges_of 24 16
                           (LC_Linear_Graph.data lin) N mflag) =
                      Some
                        (es,
                         LinearLayout_members.edges_trace mflag
                           N es.*1).
Proof.
  apply (LC_Linear_Graph_edges_read_back 24 16 tt scenario).
  - apply (bool_decide_unpack _); vm_compute; exact I.
  - reflexivity.
  - reflexivity.
  - vm_compute; discriminate.
Defined.

Lemma LC_Linear_Graph_nodes_aligned_witness :
  ∃ (lin : LC_Linear_Graph.t () Z) (ns : list (nat * Z)),
    LC_Linear_Graph.structureFromGraph 24 16 () scenario =
    Some lin
    ∧ LC_Linear_Graph.node_list lin = Some ns
      ∧ (∀ (i : nat) (N : nat * Z),
           ns !! i = Some N → N.1 = 0%nat ∧ (24 | N.2))
        ∧ ∀ (i i' : nat) (N N' : nat * Z) 
            (nb nb' : list (Z * Z)),
            i ≠ i'
            → ns !! i = Some N
              → ns !! i' = Some N'
                → FileGraph.adj scenario !! i = Some nb
                  → FileGraph.adj scenario !! i' = Some nb'
                    → N.2 + 24 + Z.of_nat (length nb) * 16 <=
                      N'.2
                      ∨ N'.2 + 24 + Z.of_nat (length nb') * 16 <=
                        N.2.
Proof.
  apply (LC_Linear_Graph_nodes_aligned 24 16 tt scenario).
  - apply (bool_decide_unpack _); vm_compute; exact I.
  - reflexivity.
  - reflexivity.
  - vm_compute; discriminate.
Defined.

Lemma LC_Linear_Graph_getEdgeIdx_witness :
  ∃ (lin : LC_Linear_Graph.t () Z) (ns : list (nat * Z)),
    LC_Linear_Graph.structureFromGraph 24 16 () scenario =
    Some lin
    ∧ LC_Linear_Graph.node_list lin = Some ns
      ∧ ∀ (i : nat) (src : nat * Z) (nb : list (Z * Z)) 
          (dst : nat * Z),
          ns !! i = Some src
          → FileGraph.adj scenario !! i = Some nb
            → ∃ (es : list (nat * Z * Z)) (r : option (nat * Z)),
                LinearLayout_members.resolve ns nb = Some es
                ∧ LinearLayout_members.getEdgeIdx 24 16
                    (LC_Linear_Graph.data lin) src dst =
                  Some r
                  ∧ match r with
                    | Some e =>
                        ∃ j : nat,
                          e =
                          (src.1, src.2 + 24 + Z.of_nat j * 16)
                          ∧ es.*1 !! j = Some dst
                            ∧ ∀ j' : nat,
                                (j' < j)%nat
                                → es.*1 !! j' ≠ Some dst
                    | None => dst ∉ es.*1
                    end.
Proof.
  apply (LC_Linear_Graph_getEdgeIdx 24 16 tt scenario).
  - apply (bool_decide_unpack _); vm_compute; exact I.
  - reflexivity.
  - reflexivity.
  - vm_compute; discriminate.
Defined.

Lemma LC_Numa_Graph_edges_read_back_witness :
  ∃ (numa : LC_Numa_Graph.t () Z) (ns : list (nat * Z)),
    LC_Numa_Graph.structureFromGraph 24 16 24 () 3 scenario =
    Some numa
    ∧ LC_Numa_Graph.node_list numa = Some ns
      ∧ length ns = length (FileGraph.adj scenario)
        ∧ NoDup ns
          ∧ ∀ (i : nat) (N : nat * Z) 
              (nb : list (Z * Z)) 
              (mflag : MethodFlag),
              ns !! i = Some N
              → FileGraph.adj scenario !! i = Some nb
                → ∃ es : list (nat * Z * Z),
                    LinearLayout_members.resolve ns nb =
                    Some es
                    ∧ runM
                        (LinearLayout_members.edges_of 24 16
                           (LC_Numa_Graph.mem numa) N mflag) =
                      Some
                        (es,
                         LinearLayout_members.edges_trace
                           mflag N es.*1).
Proof.
  apply (LC_Numa_Graph_edges_read_back 24 16 24 tt scenario 3).
  - apply (bool_decide_unpack _); vm_compute; exact I.
  - reflexivity.
  - reflexivity.
  - reflexivity.
  - vm_compute; discriminate.
  - lia.
Defined.

Lemma LC_Numa_Graph_nodes_local_witness :
  ∃ (ds : list LC_Numa_Graph.DistributeInfo) 
    (numa : LC_Numa_Graph.t () Z) 
    (ns : list (nat * Z)),
    LC_Numa_Graph.distribute 24 16 scenario 
      (Z.of_nat 3) (LC_Numa_Graph.PerThreadStorage_new 3) =
    Some ds
    ∧ LC_Numa_Graph.structureFromGraph 24 16 24 () 3
        scenario =
      Some numa
      ∧ LC_Numa_Graph.node_list numa = Some ns
        ∧ ∀ (i : nat) (N : nat * Z),
            ns !! i = Some N
            → ∃ tid : nat,
                (tid < 3)%nat
                ∧ Locality.local_to 24 24 ds tid i N.
Proof.
  apply (LC_Numa_Graph_nodes_local 24 16 24 tt scenario 3).
  - apply (bool_decide_unpack _); vm_compute; exact I.
  - reflexivity.
  - reflexivity.
  - reflexivity.
  - vm_compute; discriminate.
  - lia.
Defined.

Lemma LC_CSRInline_Graph_edges_read_back_witness :
  ∃ inl : LC_CSRInline_Graph.t () Z,
    LC_CSRInline_Graph.structureFromGraph () scenario = Some inl
    ∧ ∀ (N : Z) (mflag : MethodFlag),
        0 <= N < FileGraph.size scenario
        → runM (LC_CSRInline_Graph_members.edges_of inl N mflag) =
          Some
            (FileGraph.neighbor_edges scenario N,
             (node_trace mflag [N] ++
              (if shouldLock mflag
               then node_trace mflag (FileGraph.neighbors scenario N)
               else [])) ++
             node_trace mflag [N]).
Proof.
  apply (LC_CSRInline_Graph_edges_read_back tt scenario).
  - apply (bool_decide_unpack _); vm_compute; exact I.
Defined.

Lemma LC_graphs_node_data_default_witness :
  ∃ (inl : LC_CSRInline_Graph.t () Z) 
    (lin : LC_Linear_Graph.t () Z) 
    (numa : LC_Numa_Graph.t () Z) 
    (lns nns : list (nat * Z)),
    LC_CSRInline_Graph.structureFromGraph () scenario =
    Some inl
    ∧ LC_Linear_Graph.structureFromGraph 24 16 () scenario =
      Some lin
      ∧ LC_Numa_Graph.structureFromGraph 24 16 24 () 3
          scenario =
        Some numa
        ∧ LC_Linear_Graph.node_list lin = Some lns
          ∧ LC_Numa_Graph.node_list numa = Some nns
            ∧ ∀ mflag : MethodFlag,
                (∀ N : Z,
                   N ∈ LC_CSRInline_Graph.nodes inl
                   → runM
                       (LC_CSRInline_Graph_members.getData
                          inl N mflag) =
                     Some ((), node_trace mflag [N]))
                ∧ (∀ N : nat * Z,
                     N ∈ lns
                     → runM
                         (LinearLayout_members.getData
                            (LC_Linear_Graph.data lin) N
                            mflag) =
                       Some
                         ((),
                          LinearLayout_members.pointer_trace
                            mflag [N]))
                  ∧ ∀ N : nat * Z,
                      N ∈ nns
                      → runM
                          (LinearLayout_members.getData
                             (LC_Numa_Graph.mem numa) N
                             mflag) =
                        Some
                          ((),
                           LinearLayout_members.pointer_trace
                             mflag [N]).
Proof.
  apply (LC_graphs_node_data_default 24 16 24 3 tt scenario).
  - apply (bool_decide_unpack _); vm_compute; exact I.
  - reflexivity.
  - reflexivity.
  - reflexivity.
  - lia.
  - vm_compute; discriminate.
Defined.

Lemma LC_Numa_Graph_distribute_partition_witness :
  ∃ ds : list LC_Numa_Graph.DistributeInfo,
    LC_Numa_Graph.distribute 24 16 scenario 
      (Z.of_nat 3) (LC_Numa_Graph.PerThreadStorage_new 3) =
    Some ds
    ∧ length ds = 3%nat
      ∧ (∀ i : nat,
           (i < length (FileGraph.adj scenario))%nat
           → ∃ (tid : nat) (d : LC_Numa_Graph.DistributeInfo),
               ds !! tid = Some d
               ∧ LC_Numa_Graph.d_numNodes d ≠ 0
                 ∧ LC_Numa_Graph.d_begin d <= 
                   Z.of_nat i < LC_Numa_Graph.d_end d)
        ∧ (∀ (tid : nat) (d : LC_Numa_Graph.DistributeInfo),
             ds !! tid = Some d
             → LC_Numa_Graph.d_numNodes d ≠ 0
               → ∃ b e : nat,
                   (b < e <= length (FileGraph.adj scenario))%nat
                   ∧ LC_Numa_Graph.d_begin d = Z.of_nat b
                     ∧ LC_Numa_Graph.d_end d = Z.of_nat e
                       ∧ LC_Numa_Graph.d_numNodes d =
                         Z.of_nat (e - b)
                         ∧ LC_Numa_Graph.d_numEdges d =
                           before (FileGraph.adj scenario) e -
                           before (FileGraph.adj scenario) b)
          ∧ ∀ (tid tid' : nat) (d
                                d' : LC_Numa_Graph.DistributeInfo),
              (tid < tid')%nat
              → ds !! tid = Some d
                → ds !! tid' = Some d'
                  → LC_Numa_Graph.d_numNodes d ≠ 0
                    → LC_Numa_Graph.d_numNodes d' ≠ 0
                      → LC_Numa_Graph.d_end d <=
                        LC_Numa_Graph.d_begin d'.
Proof.
  apply (LC_Numa_Graph_distribute_partition 24 16 scenario 3).
  - apply (bool_decide_unpack _); vm_compute; exact I.
  - reflexivity.
  - reflexivity.
  - vm_compute; discriminate.
  - lia.
Defined.

Lemma LC_Numa_Graph_distribute_share_witness :
  ∃ ds : list LC_Numa_Graph.DistributeInfo,
    LC_Numa_Graph.distribute 24 16 scenario 
      (Z.of_nat 3) (LC_Numa_Graph.PerThreadStorage_new 3) =
    Some ds
    ∧ ∀ (tid : nat) (d : LC_Numa_Graph.DistributeInfo),
        (tid + 1 < 3)%nat
        → ds !! tid = Some d
          → LC_Numa_Graph.d_numNodes d ≠ 0
            → ∃ k : nat,
                LC_Numa_Graph.d_end d = Z.of_nat (S k)
                ∧ Balance.prefix_size 24 16
                    (FileGraph.adj scenario) k <
                  (Z.of_nat tid + 1) *
                  ((24 * FileGraph.size scenario +
                    16 * FileGraph.sizeEdges scenario) /
                   Z.of_nat 3) <=
                  Balance.prefix_size 24 16
                    (FileGraph.adj scenario) 
                    (S k).
Proof.
  apply (LC_Numa_Graph_distribute_share 24 16 scenario 3).
  - apply (bool_decide_unpack _); vm_compute; exact I.
  - reflexivity.
  - reflexivity.
  - vm_compute; discriminate.
  - lia.
Defined.

Lemma LC_Numa_Graph_local_nodes_witness :
  ∃ (ds : list LC_Numa_Graph.DistributeInfo) 
    (numa : LC_Numa_Graph.t () Z) 
    (ns : list (nat * Z)),
    LC_Numa_Graph.distribute 24 16 scenario 
      (Z.of_nat 3) (LC_Numa_Graph.PerThreadStorage_new 3) =
    Some ds
    ∧ LC_Numa_Graph.structureFromGraph 24 16 24 () 3
        scenario =
      Some numa
      ∧ LC_Numa_Graph.node_list numa = Some ns
        ∧ NoDup ns
          ∧ ∀ (tid : nat) (d : LC_Numa_Graph.DistributeInfo),
              ds !! tid = Some d
              → LC_Numa_Graph.d_numNodes d ≠ 0
                → LC_Numa_Graph_members.local_nodes 24 16
                    numa tid =
                  Some
                    (Some <$>
                     take
                       (Z.to_nat
                          (LC_Numa_Graph.d_numNodes d))
                       (drop
                          (Z.to_nat
                             (LC_Numa_Graph.d_begin d))
                          ns)).
Proof.
  apply (LC_Numa_Graph_local_nodes 24 16 24 tt scenario 3).
  - apply (bool_decide_unpack _); vm_compute; exact I.
  - reflexivity.
  - reflexivity.
  - reflexivity.
  - vm_compute; discriminate.
  - lia.
Defined.

(** With five threads on the scenario graph, thread 2 gets no node. *)
Lemma LC_Numa_Graph_local_begin_empty_witness :
  ∃ (ds : list LC_Numa_Graph.DistributeInfo)
    (numa : LC_Numa_Graph.t () Z)
    (ns : list (nat * Z))
    (d : LC_Numa_Graph.DistributeInfo),
    LC_Numa_Graph.distribute 24 16 scenario
      (Z.of_nat 5) (LC_Numa_Graph.PerThreadStorage_new 5) =
    Some ds
    ∧ LC_Numa_Graph.structureFromGraph 24 16 24 () 5
        scenario =
      Some numa
      ∧ LC_Numa_Graph.node_list numa = Some ns
        ∧ ds !! 2%nat = Some d
          ∧ LC_Numa_Graph.d_numNodes d = 0
            ∧ ∃ b e : LC_Numa_Graph_members.local_iterator,
                LC_Numa_Graph_members.local_begin numa 2 =
                Some b
                ∧ LC_Numa_Graph_members.local_end numa 2 =
                  Some e
                  ∧ b ≠ e
                    ∧ LC_Numa_Graph_members.it_v b =
                      Some (2%nat, 24) ∧
                      (2%nat, 24) ∉ ns.
Proof.
  destruct (LC_Numa_Graph_local_begin_empty 24 16 24 tt scenario 5)
    as (ds & numa & ns & Hd & Hs & Hn & Hempty).
  - apply (bool_decide_unpack _); vm_compute; exact I.
  - reflexivity.
  - reflexivity.
  - reflexivity.
  - vm_compute; discriminate.
  - lia.
  - vm_compute in Hd. injection Hd as <-.
    eexists _, numa, ns, _.
    split; [vm_compute; reflexivity|].
    split; [exact Hs|]. split; [exact Hn|].
    split; [reflexivity|]. split; [reflexivity|].
    apply (Hempty 2%nat _ eq_refl eq_refl).
Defined.

Lemma LC_Linear_Graph_sortEdges_witness :
  ∃ (lin : LC_Linear_Graph.t () Z) (ns : list (nat * Z)),
    LC_Linear_Graph.structureFromGraph 24 16 () scenario =
    Some lin
    ∧ LC_Linear_Graph.node_list lin = Some ns
      ∧ ∀ (i : nat) (N : nat * Z) (nb : list (Z * Z)) 
          (less : nat * Z * Z → nat * Z * Z → bool) 
          (mflag : MethodFlag),
          ns !! i = Some N
          → FileGraph.adj scenario !! i = Some nb
            → ∃ (m' : LinearLayout.Mem () Z) 
                (es' : list (nat * Z * Z)),
                runM
                  (LC_Linear_Graph_sort.sortEdges 24 16
                     (LC_Linear_Graph.data lin) N less mflag) =
                Some
                  (m',
                   LinearLayout_members.pointer_trace mflag [N])
                ∧ (∀ comp : Z → Z → bool,
                     runM
                       (LC_Linear_Graph_sort.sortEdgesByEdgeData
                          24 16 (LC_Linear_Graph.data lin) N
                          comp mflag) =
                     runM
                       (LC_Linear_Graph_sort.sortEdges 24 16
                          (LC_Linear_Graph.data lin) N
                          (LC_Linear_Graph_sort.EdgeSortCompWrapper
                             comp)
                          mflag))
                  ∧ (∃ es : list (nat * Z * Z),
                       LinearLayout_members.resolve ns nb =
                       Some es ∧ es' ≡ₚ es)
                    ∧ ((∀ x y : nat * Z * Z,
                          less x y = true → less y x = false)
                       → Sorted (LC_CSR_Graph.not_after less)
                           es')
                      ∧ runM
                          (LinearLayout_members.edges_of 24 16
                             m' N NONE) =
                        Some (es', [])
                        ∧ ∀ (i' : nat) 
                            (N' : nat * Z) 
                            (nb0 : list (Z * Z)),
                            i' ≠ i
                            → ns !! i' = Some N'
                              → FileGraph.adj scenario !! i' =
                                Some nb0
                                → ∃ es0 : list (nat * Z * Z),
                                    LinearLayout_members.resolve
                                    ns nb0 = 
                                    Some es0
                                    ∧ 
                                    runM
                                    (LinearLayout_members.edges_of
                                    24 16 m' N' NONE) =
                                    Some (es0, []).
Proof.
  apply (LC_Linear_Graph_sortEdges 24 16 tt scenario).
  - apply (bool_decide_unpack _); vm_compute; exact I.
  - reflexivity.
  - reflexivity.
  - vm_compute; discriminate.
Defined.

End MemberInstances.

(* ===================================================================== *)
(** * The managers under one interleaving *)
(* ===================================================================== *)

Section NhoodMgrInstances.
Import LockManagerBase OrdLocBase NhoodMgrBase Progress.

Lemma PtrBasedNhoodMgr_wait_free_witness :
  ∃ s, PtrBasedNhoodMgr.run [Call 0 7; Call 1 7; Step 0; Step 1; Step 0]
         PtrBasedNhoodMgr.init = Some s ∧
  ∃ s', PtrBasedNhoodMgr.exec (Step 1) s = Some s' ∧
    match PtrBasedNhoodMgr.pcs s' !! 1 with
    | None => ∃ r, PtrBasedNhoodMgr.returned s'
                   = (1, PtrBasedNhoodMgr.callee (PtrBasedNhoodMgr.AtCreate 7),
                      r) :: PtrBasedNhoodMgr.returned s
    | Some pc' =>
        PtrBasedNhoodMgr.callee pc'
        = PtrBasedNhoodMgr.callee (PtrBasedNhoodMgr.AtCreate 7)
        ∧ ptr_remaining pc' < ptr_remaining (PtrBasedNhoodMgr.AtCreate 7) ≤ 6
    end.
Proof.
  eexists. split; [vm_compute; reflexivity|].
  apply (PtrBasedNhoodMgr_wait_free
           [Call 0 7; Call 1 7; Step 0; Step 1; Step 0] _ 1
           (PtrBasedNhoodMgr.AtCreate 7));
    vm_compute; reflexivity.
Defined.

Lemma PtrBasedNhoodMgr_no_leak_witness :
  ∃ s, PtrBasedNhoodMgr.run
         [Call 0 7; Call 1 7; Step 0; Step 1; Step 0; Step 1; Step 0;
          Step 1; Step 0; Step 1; Step 0; Step 1; Step 0; Step 1]
         PtrBasedNhoodMgr.init = Some s ∧
  NoDup (all_records (PtrBasedNhoodMgr.base s)) ∧
  (∀ p, is_Some (items (PtrBasedNhoodMgr.base s) !! p)
        ↔ p ∈ all_records (PtrBasedNhoodMgr.base s)) ∧
  (∀ p, p ∈ all_records (PtrBasedNhoodMgr.base s) →
     ∃ l, items (PtrBasedNhoodMgr.base s) !! p = Some (construct l)
          ∧ OrdLocBase.getOwner l (mem (PtrBasedNhoodMgr.base s)) = Some p) ∧
  (∀ l p, OrdLocBase.getOwner l (mem (PtrBasedNhoodMgr.base s)) = Some p →
     p ∈ all_records (PtrBasedNhoodMgr.base s)).
Proof.
  eexists. split; [vm_compute; reflexivity|].
  apply (PtrBasedNhoodMgr_no_leak
           [Call 0 7; Call 1 7; Step 0; Step 1; Step 0; Step 1; Step 0;
            Step 1; Step 0; Step 1; Step 0; Step 1; Step 0; Step 1]);
    vm_compute; reflexivity.
Defined.

Lemma MapBasedNhoodMgr_owner_untouched_witness :
  ∃ s, MapBasedNhoodMgr.run
         [Call 0 7; Step 0; Step 0; Step 0; Step 0; Step 0; Step 0; Step 0;
          Step 0; Step 0; Step 0; Step 0; Step 0; Step 0]
         MapBasedNhoodMgr.init = Some s ∧
  mem (MapBasedNhoodMgr.mbase (MapBasedNhoodMgr.mgr s)) = unowned ∧
  ∀ l, OrdLocBase.getOwner l
         (mem (MapBasedNhoodMgr.mbase (MapBasedNhoodMgr.mgr s))) = None.
Proof.
  eexists. split; [vm_compute; reflexivity|].
  apply (MapBasedNhoodMgr_owner_untouched
           [Call 0 7; Step 0; Step 0; Step 0; Step 0; Step 0; Step 0; Step 0;
            Step 0; Step 0; Step 0; Step 0; Step 0; Step 0]).
  vm_compute. reflexivity.
Defined.

Lemma MapBasedNhoodMgr_waits_only_for_lock_witness :
  ∃ s, MapBasedNhoodMgr.run
         [Call 0 7; Step 0; Call 1 7; Step 1; Step 0; Step 0]
         MapBasedNhoodMgr.init = Some s ∧
  map_locking (MapBasedNhoodMgr.AtWriteLock 7) = true ∧
  (MapBasedNhoodMgr.writer (MapBasedNhoodMgr.map_mutex (MapBasedNhoodMgr.mgr s))
     = true
   ∨ (∃ l, MapBasedNhoodMgr.AtWriteLock 7 = MapBasedNhoodMgr.AtWriteLock l) ∧
     MapBasedNhoodMgr.readers
       (MapBasedNhoodMgr.map_mutex (MapBasedNhoodMgr.mgr s)) ≠ 0).
Proof.
  eexists. split; [vm_compute; reflexivity|].
  apply (MapBasedNhoodMgr_waits_only_for_lock
           [Call 0 7; Step 0; Call 1 7; Step 1; Step 0; Step 0] _ 0
           (MapBasedNhoodMgr.AtWriteLock 7));
    vm_compute; reflexivity.
Defined.

Lemma MapBasedNhoodMgr_no_leak_witness :
  ∃ s, MapBasedNhoodMgr.run
         [Call 0 7; Step 0; Step 0; Step 0; Step 0; Step 0; Step 0; Step 0;
          Step 0; Step 0; Step 0; Step 0; Step 0; Step 0]
         MapBasedNhoodMgr.init = Some s ∧
  NoDup (all_records (MapBasedNhoodMgr.mbase (MapBasedNhoodMgr.mgr s))) ∧
  (∀ p, is_Some (items (MapBasedNhoodMgr.mbase (MapBasedNhoodMgr.mgr s)) !! p)
        ↔ p ∈ all_records (MapBasedNhoodMgr.mbase (MapBasedNhoodMgr.mgr s)))
  ∧
  (∀ p, p ∈ all_records (MapBasedNhoodMgr.mbase (MapBasedNhoodMgr.mgr s)) →
     ∃ l, MapBasedNhoodMgr.nhoodMap (MapBasedNhoodMgr.mgr s) !! l = Some p
          ∧ items (MapBasedNhoodMgr.mbase (MapBasedNhoodMgr.mgr s)) !! p
            = Some (construct l)) ∧
  (∀ l p, MapBasedNhoodMgr.nhoodMap (MapBasedNhoodMgr.mgr s) !! l = Some p →
     p ∈ all_records (MapBasedNhoodMgr.mbase (MapBasedNhoodMgr.mgr s))) ∧
  (∀ l l' p,
     MapBasedNhoodMgr.nhoodMap (MapBasedNhoodMgr.mgr s) !! l = Some p →
     MapBasedNhoodMgr.nhoodMap (MapBasedNhoodMgr.mgr s) !! l' = Some p →
     l = l').
Proof.
  eexists. split; [vm_compute; reflexivity|].
  apply (MapBasedNhoodMgr_no_leak
           [Call 0 7; Step 0; Step 0; Step 0; Step 0; Step 0; Step 0; Step 0;
            Step 0; Step 0; Step 0; Step 0; Step 0; Step 0]);
    vm_compute; reflexivity.
Defined.

Lemma MapBasedNhoodMgr_deadlock_free_witness :
  ∃ s, MapBasedNhoodMgr.run
         [Call 0 7; Step 0; Call 1 7; Step 1; Step 0; Step 0]
         MapBasedNhoodMgr.init = Some s ∧
  (MapBasedNhoodMgr.pcs s ≠ ∅ →
   ∃ t s', MapBasedNhoodMgr.exec (Step t) s = Some s') ∧
  (MapBasedNhoodMgr.pcs s = ∅ →
   MapBasedNhoodMgr.map_mutex (MapBasedNhoodMgr.mgr s)
   = MapBasedNhoodMgr.mkLock 0 false).
Proof.
  eexists. split; [vm_compute; reflexivity|].
  apply (MapBasedNhoodMgr_deadlock_free
           [Call 0 7; Step 0; Call 1 7; Step 1; Step 0; Step 0]).
  vm_compute. reflexivity.
Defined.

End NhoodMgrInstances.
